(** * homebridge-motion-blinds-local: movement tracker and gateway client

    A shallow embedding of [platformAccessory.ts] (class
    [MotionBlindAccessory]), of [motionGateway.ts] (the messages and the
    access token in [Module Gateway]; the class [MotionGateway] with its
    socket, timers and promises in [Module Client]) and of [platform.ts]
    (discovery and routing, [Module Platform]), followed by the
    properties of the movement tracker, of the position mapping, of the
    write clamp, of the access-token derivation, of the gateway client,
    of the platform and of the three together.

    Conventions.
    - Positions are JavaScript numbers that carry whole percentages; they
      are modelled as [Z].
    - The object fields of [MotionBlindAccessory] and the part of the
      environment it talks to (the pending [setTimeout] table, the calls
      made on [platform.gateway], the characteristic pushes and the log)
      form one record, [World].
    - [async] methods are cut at their [await]s: a method runs up to its
      first [await] and returns either its completion or a
      [Continuation] naming the [await] it is parked on; [resume] runs
      the next stretch once the awaited promise has settled.  Whatever
      happens in between (status readings, timers, other requests) acts
      on the [World] the continuation is resumed in. *)

From Stdlib Require Import ZArith NArith List String Ascii Bool Lia Btauto DecimalString.
From Stdlib.Strings Require Import Byte.
Import ListNotations.
Local Open Scope Z_scope.

(** ** platformAccessory.ts *)

Module Accessory.

(** Position tolerance for considering target reached. *)
Definition POSITION_TOLERANCE : Z := 2.

(** Maximum time to wait for the blind to reach its target (ms). *)
Definition MAX_MOVEMENT_TIMEOUT : Z := 90000.

(** Polling intervals after a command (ms). *)
Definition POLL_INTERVALS : list Z :=
  [ 300; 300; 300; 300; 300; 300; 300;
    500; 500; 500; 500; 500; 500;
    1000; 1000; 1000; 1000; 1000;
    2000; 2000; 2000; 2000; 2000;
    5000; 5000; 5000; 5000; 5000; 5000 ].

(** HomeKit position states ([POSITION_STATE]). *)
Inductive PositionState : Type :=
| DECREASING
| INCREASING
| STOPPED.

Definition POSITION_STATE (s : PositionState) : Z :=
  match s with
  | DECREASING => 0
  | INCREASING => 1
  | STOPPED => 2
  end.

Definition PositionState_eqb (a b : PositionState) : bool :=
  POSITION_STATE a =? POSITION_STATE b.

(** The status payload of a [WriteDeviceAck] / [ReadDeviceAck]
    ([BlindState] of motionGateway.ts).  The field [type] is spelled
    [type_] here. *)
Record BlindState : Type := mkBlindState {
  type_ : Z;
  operation : Z;
  currentPosition : Z;
  currentAngle : Z;
  currentState : Z;
  voltageMode : Z;
  batteryLevel : Z;
  chargingState : Z;
  wirelessMode : Z;
  RSSI : Z
}.

(** *** What the accessory does to its environment *)

Inductive Characteristic : Type :=
| CurrentPosition
| TargetPosition
| PositionStateCharacteristic.

Inductive LogLevel : Type := LogInfo | LogWarn | LogError | LogDebug.

(** One constructor per [platform.log] call site, with the values the
    message interpolates. *)
Inductive LogLine : Type :=
| MsgReachedTarget (finalPosition : Z)
| MsgMovementTimeout (target : Z)
| MsgGateway (gatewayPosition : Z) (inProgress : bool) (target : Z)
| MsgProgress (position target : Z)
| MsgStopCommand (target current : Z)
| MsgStopFailed
| MsgAlreadyAtTarget
| MsgCancelingPrevious (target : Z)
| MsgStopBeforeNewFailed
| MsgMoveTo (target : Z)
| MsgCommandSent
| MsgCommandFailed
| MsgPollFailed.

Inductive Effect : Type :=
| GatewayStop (mac : string)
| GatewaySetPosition (mac : string) (position : Z)
| GatewayGetStatus (mac : string)
| UpdateCharacteristic (c : Characteristic) (value : Z)
| Log (level : LogLevel) (line : LogLine).

(** The three closures the accessory hands to [setTimeout]. *)
Inductive TimerCallback : Type :=
| CommandTimeoutCallback
| PollCallback
| StopRefreshCallback.

Record Timer : Type := mkTimer {
  timer_handle : nat;
  timer_delay : Z;
  timer_callback : TimerCallback
}.

(** *** The accessory and its environment *)

Record World : Type := mkWorld {
  (* this.device.mac *)
  device_mac : string;
  (* this.platform.gateway is not null *)
  gateway : bool;
  (* Confirmed state (from gateway when idle) *)
  confirmedPosition : Z;
  (* Display state (what is shown to HomeKit) *)
  displayPosition : Z;
  displayTargetPosition : Z;
  displayPositionState : PositionState;
  (* Command tracking *)
  commandInProgress : bool;
  commandTarget : Z;
  commandDirection : PositionState;
  commandTimeoutTimer : option nat;
  (* Polling *)
  pollTimers : list nat;
  (* the runtime's table of pending timeouts and its next fresh handle *)
  timers : list Timer;
  nextHandle : nat;
  (* everything the accessory has emitted so far, oldest first *)
  trace : list Effect
}.

Definition set_confirmedPosition (v : Z) (w : World) : World :=
  mkWorld (device_mac w) (gateway w) v (displayPosition w)
    (displayTargetPosition w) (displayPositionState w) (commandInProgress w)
    (commandTarget w) (commandDirection w) (commandTimeoutTimer w)
    (pollTimers w) (timers w) (nextHandle w) (trace w).

Definition set_displayPosition (v : Z) (w : World) : World :=
  mkWorld (device_mac w) (gateway w) (confirmedPosition w) v
    (displayTargetPosition w) (displayPositionState w) (commandInProgress w)
    (commandTarget w) (commandDirection w) (commandTimeoutTimer w)
    (pollTimers w) (timers w) (nextHandle w) (trace w).

Definition set_displayTargetPosition (v : Z) (w : World) : World :=
  mkWorld (device_mac w) (gateway w) (confirmedPosition w) (displayPosition w)
    v (displayPositionState w) (commandInProgress w)
    (commandTarget w) (commandDirection w) (commandTimeoutTimer w)
    (pollTimers w) (timers w) (nextHandle w) (trace w).

Definition set_displayPositionState (v : PositionState) (w : World) : World :=
  mkWorld (device_mac w) (gateway w) (confirmedPosition w) (displayPosition w)
    (displayTargetPosition w) v (commandInProgress w)
    (commandTarget w) (commandDirection w) (commandTimeoutTimer w)
    (pollTimers w) (timers w) (nextHandle w) (trace w).

Definition set_commandInProgress (v : bool) (w : World) : World :=
  mkWorld (device_mac w) (gateway w) (confirmedPosition w) (displayPosition w)
    (displayTargetPosition w) (displayPositionState w) v
    (commandTarget w) (commandDirection w) (commandTimeoutTimer w)
    (pollTimers w) (timers w) (nextHandle w) (trace w).

Definition set_commandTarget (v : Z) (w : World) : World :=
  mkWorld (device_mac w) (gateway w) (confirmedPosition w) (displayPosition w)
    (displayTargetPosition w) (displayPositionState w) (commandInProgress w)
    v (commandDirection w) (commandTimeoutTimer w)
    (pollTimers w) (timers w) (nextHandle w) (trace w).

Definition set_commandDirection (v : PositionState) (w : World) : World :=
  mkWorld (device_mac w) (gateway w) (confirmedPosition w) (displayPosition w)
    (displayTargetPosition w) (displayPositionState w) (commandInProgress w)
    (commandTarget w) v (commandTimeoutTimer w)
    (pollTimers w) (timers w) (nextHandle w) (trace w).

Definition set_commandTimeoutTimer (v : option nat) (w : World) : World :=
  mkWorld (device_mac w) (gateway w) (confirmedPosition w) (displayPosition w)
    (displayTargetPosition w) (displayPositionState w) (commandInProgress w)
    (commandTarget w) (commandDirection w) v
    (pollTimers w) (timers w) (nextHandle w) (trace w).

Definition set_pollTimers (v : list nat) (w : World) : World :=
  mkWorld (device_mac w) (gateway w) (confirmedPosition w) (displayPosition w)
    (displayTargetPosition w) (displayPositionState w) (commandInProgress w)
    (commandTarget w) (commandDirection w) (commandTimeoutTimer w)
    v (timers w) (nextHandle w) (trace w).

Definition set_timers (v : list Timer) (w : World) : World :=
  mkWorld (device_mac w) (gateway w) (confirmedPosition w) (displayPosition w)
    (displayTargetPosition w) (displayPositionState w) (commandInProgress w)
    (commandTarget w) (commandDirection w) (commandTimeoutTimer w)
    (pollTimers w) v (nextHandle w) (trace w).

Definition set_nextHandle (v : nat) (w : World) : World :=
  mkWorld (device_mac w) (gateway w) (confirmedPosition w) (displayPosition w)
    (displayTargetPosition w) (displayPositionState w) (commandInProgress w)
    (commandTarget w) (commandDirection w) (commandTimeoutTimer w)
    (pollTimers w) (timers w) v (trace w).

(** Append one effect to the trace. *)
Definition emit (e : Effect) (w : World) : World :=
  mkWorld (device_mac w) (gateway w) (confirmedPosition w) (displayPosition w)
    (displayTargetPosition w) (displayPositionState w) (commandInProgress w)
    (commandTarget w) (commandDirection w) (commandTimeoutTimer w)
    (pollTimers w) (timers w) (nextHandle w) (trace w ++ [e]).

(** A freshly constructed accessory (the field initialisers of the
    class), with nothing pending and nothing emitted. *)
Definition new_accessory (mac : string) (has_gateway : bool) : World :=
  mkWorld mac has_gateway 0 0 0 STOPPED false 0 STOPPED None [] [] 0%nat [].

(** *** The runtime's timers *)

(** [setTimeout(callback, delay)]: registers the timeout and returns its
    handle. *)
Definition setTimeout (cb : TimerCallback) (delay : Z) (w : World) : nat * World :=
  let h := nextHandle w in
  (h, set_nextHandle (S h) (set_timers (timers w ++ [mkTimer h delay cb]) w)).

(** [clearTimeout(handle)]: a timeout that has fired or was cleared
    before is no longer in the table, and clearing it does nothing. *)
Definition clearTimeout (h : nat) (w : World) : World :=
  set_timers (filter (fun t => negb (Nat.eqb (timer_handle t) h)) (timers w)) w.

(** *** Methods of [MotionBlindAccessory] *)

(** Protocol: 0 = fully open, 100 = fully closed.
    HomeKit: 0 = fully closed, 100 = fully open. *)
Definition protocolToHomeKit (protocolPosition : Z) : Z :=
  100 - protocolPosition.

Definition homeKitToProtocol (homeKitPosition : Z) : Z :=
  100 - homeKitPosition.

Definition hasReachedTarget (position : Z) (w : World) : bool :=
  Z.abs (position - commandTarget w) <=? POSITION_TOLERANCE.

Definition clearCommandTimeout (w : World) : World :=
  match commandTimeoutTimer w with
  | Some h => set_commandTimeoutTimer None (clearTimeout h w)
  | None => w
  end.

Definition cancelPolling (w : World) : World :=
  set_pollTimers [] (fold_left (fun w h => clearTimeout h w) (pollTimers w) w).

Definition pushStateToHomeKit (w : World) : World :=
  let w := emit (UpdateCharacteristic CurrentPosition (displayPosition w)) w in
  let w := emit (UpdateCharacteristic TargetPosition (displayTargetPosition w)) w in
  emit (UpdateCharacteristic PositionStateCharacteristic
          (POSITION_STATE (displayPositionState w))) w.

Definition cancelCurrentCommand (w : World) : World :=
  let w := set_commandInProgress false w in
  let w := clearCommandTimeout w in
  cancelPolling w.

Definition completeCommand (finalPosition : Z) (w : World) : World :=
  let w := emit (Log LogInfo (MsgReachedTarget finalPosition)) w in
  let w := set_commandInProgress false w in
  let w := set_confirmedPosition finalPosition w in
  let w := set_displayPosition finalPosition w in
  let w := set_displayTargetPosition finalPosition w in
  let w := set_displayPositionState STOPPED w in
  let w := clearCommandTimeout w in
  let w := cancelPolling w in
  pushStateToHomeKit w.

(** [this.platform.gateway?.getStatus(mac)] *)
Definition gateway_getStatus_opt (w : World) : World :=
  if gateway w then emit (GatewayGetStatus (device_mac w)) w else w.

Definition handleCommandTimeout (w : World) : World :=
  let w := emit (Log LogWarn (MsgMovementTimeout (commandTarget w))) w in
  let w := set_commandInProgress false w in
  let w := set_displayPositionState STOPPED w in
  let w := set_displayTargetPosition (displayPosition w) w in
  let w := cancelPolling w in
  let w := pushStateToHomeKit w in
  gateway_getStatus_opt w.

Definition updateState (state : BlindState) (w : World) : World :=
  let gatewayPosition := protocolToHomeKit (currentPosition state) in
  let w := emit (Log LogDebug
                   (MsgGateway gatewayPosition (commandInProgress w) (commandTarget w))) w in
  if negb (commandInProgress w) then
    let w := set_confirmedPosition gatewayPosition w in
    let w := set_displayPosition gatewayPosition w in
    let w := set_displayTargetPosition gatewayPosition w in
    let w := set_displayPositionState STOPPED w in
    pushStateToHomeKit w
  else if hasReachedTarget gatewayPosition w then
    completeCommand gatewayPosition w
  else
    let isProgressing :=
      if PositionState_eqb (commandDirection w) INCREASING
      then gatewayPosition >? displayPosition w
      else gatewayPosition <? displayPosition w in
    if isProgressing then
      let w := set_displayPosition gatewayPosition w in
      let w := emit (UpdateCharacteristic CurrentPosition (displayPosition w)) w in
      emit (Log LogDebug (MsgProgress (displayPosition w) (commandTarget w))) w
    else w.

(** [schedulePolling]: one timeout per entry of [POLL_INTERVALS], at the
    cumulative delay. *)
Fixpoint schedulePolling_loop (intervals : list Z) (cumulativeDelay : Z)
    (w : World) : World :=
  match intervals with
  | [] => w
  | interval :: rest =>
      let cumulativeDelay := cumulativeDelay + interval in
      let '(timer, w) := setTimeout PollCallback cumulativeDelay w in
      let w := set_pollTimers (pollTimers w ++ [timer]) w in
      schedulePolling_loop rest cumulativeDelay w
  end.

Definition schedulePolling (w : World) : World :=
  let w := cancelPolling w in
  schedulePolling_loop POLL_INTERVALS 0 w.

(** *** [setTargetPosition], cut at its [await]s *)

Inductive HAPStatus : Type := SERVICE_COMMUNICATION_FAILURE.

(** How an [async] call ended: it returned, or it threw a
    [HapStatusError]. *)
Inductive Completion : Type :=
| Returned
| Threw (status : HAPStatus).

(** The [await] a call is parked on, with the locals its remainder
    still reads. *)
Inductive Continuation : Type :=
| AwaitStopOfStopCommand (currentPos : Z)
| AwaitStopBeforeNewCommand (targetPosition currentPos : Z)
| AwaitSetPosition
| AwaitPollStatus
| AwaitRefreshStatus.

Inductive Step : Type :=
| Finished (c : Completion)
| Suspended (k : Continuation).

(** How the awaited gateway promise settled. *)
Inductive Settled : Type := Fulfilled | Rejected.

(** The [catch] block around the [setPosition] send. *)
Definition commandFailed (w : World) : World * Step :=
  let w := emit (Log LogError MsgCommandFailed) w in
  let w := set_commandInProgress false w in
  let w := set_displayPositionState STOPPED w in
  let w := set_displayTargetPosition (displayPosition w) w in
  let w := clearCommandTimeout w in
  let w := pushStateToHomeKit w in
  (w, Finished (Threw SERVICE_COMMUNICATION_FAILURE)).

(** From "Set up command tracking" to the [await] of
    [gateway.setPosition].  Reading [setPosition] off a null gateway
    throws inside the [try], which lands in the [catch] block. *)
Definition startCommand (targetPosition currentPos : Z) (w : World) : World * Step :=
  let w := emit (Log LogInfo (MsgMoveTo targetPosition)) w in
  let w := set_commandInProgress true w in
  let w := set_commandTarget targetPosition w in
  let w := set_commandDirection
             (if targetPosition >? currentPos then INCREASING else DECREASING) w in
  let w := set_displayTargetPosition targetPosition w in
  let w := set_displayPositionState (commandDirection w) w in
  let w := pushStateToHomeKit w in
  let w := clearCommandTimeout w in
  let '(h, w) := setTimeout CommandTimeoutCallback MAX_MOVEMENT_TIMEOUT w in
  let w := set_commandTimeoutTimer (Some h) w in
  let protocolPosition := homeKitToProtocol targetPosition in
  if gateway w then
    let w := emit (GatewaySetPosition (device_mac w) protocolPosition) w in
    (w, Suspended AwaitSetPosition)
  else commandFailed w.

Definition setTargetPosition (value : Z) (w : World) : World * Step :=
  let targetPosition := value in
  if negb (gateway w) then (w, Finished (Threw SERVICE_COMMUNICATION_FAILURE))
  else
    let currentPos :=
      if commandInProgress w then displayPosition w else confirmedPosition w in
    if commandInProgress w && (Z.abs (targetPosition - currentPos) <=? POSITION_TOLERANCE) then
      let w := emit (Log LogInfo (MsgStopCommand targetPosition currentPos)) w in
      let w := cancelCurrentCommand w in
      let w := emit (GatewayStop (device_mac w)) w in
      (w, Suspended (AwaitStopOfStopCommand currentPos))
    else if Z.abs (targetPosition - currentPos) <=? POSITION_TOLERANCE then
      let w := emit (Log LogDebug MsgAlreadyAtTarget) w in
      let w := set_displayTargetPosition targetPosition w in
      let w := pushStateToHomeKit w in
      (w, Finished Returned)
    else if commandInProgress w then
      let w := emit (Log LogInfo (MsgCancelingPrevious targetPosition)) w in
      let w := cancelCurrentCommand w in
      let w := emit (GatewayStop (device_mac w)) w in
      (w, Suspended (AwaitStopBeforeNewCommand targetPosition currentPos))
    else startCommand targetPosition currentPos w.

(** The stretch of code after an [await], given how the awaited promise
    settled. *)
Definition resume (k : Continuation) (r : Settled) (w : World) : World * Step :=
  match k with
  | AwaitStopOfStopCommand currentPos =>
      let w := match r with
               | Fulfilled => w
               | Rejected => emit (Log LogDebug MsgStopFailed) w
               end in
      let w := set_displayTargetPosition currentPos w in
      let w := set_displayPositionState STOPPED w in
      let w := pushStateToHomeKit w in
      let '(_, w) := setTimeout StopRefreshCallback 500 w in
      (w, Finished Returned)
  | AwaitStopBeforeNewCommand targetPosition currentPos =>
      let w := match r with
               | Fulfilled => w
               | Rejected => emit (Log LogDebug MsgStopBeforeNewFailed) w
               end in
      startCommand targetPosition currentPos w
  | AwaitSetPosition =>
      match r with
      | Fulfilled =>
          let w := emit (Log LogDebug MsgCommandSent) w in
          let w := schedulePolling w in
          (w, Finished Returned)
      | Rejected => commandFailed w
      end
  | AwaitPollStatus =>
      match r with
      | Fulfilled => (w, Finished Returned)
      | Rejected => (emit (Log LogDebug MsgPollFailed) w, Finished Returned)
      end
  | AwaitRefreshStatus => (w, Finished Returned)
  end.

(** *** Timer callbacks *)

Definition runCallback (cb : TimerCallback) (w : World) : World * Step :=
  match cb with
  | CommandTimeoutCallback =>
      if commandInProgress w then (handleCommandTimeout w, Finished Returned)
      else (w, Finished Returned)
  | PollCallback =>
      if negb (commandInProgress w) then (w, Finished Returned)
      else if gateway w
           then (emit (GatewayGetStatus (device_mac w)) w, Suspended AwaitPollStatus)
           else (w, Finished Returned)
  | StopRefreshCallback =>
      if gateway w
      then (emit (GatewayGetStatus (device_mac w)) w, Suspended AwaitRefreshStatus)
      else (w, Finished Returned)
  end.

(** The runtime fires the pending timeout with handle [h]: the entry
    leaves the table and its callback runs.  A handle that is not
    pending fires nothing. *)
Definition fireTimer (h : nat) (w : World) : World * Step :=
  match find (fun t => Nat.eqb (timer_handle t) h) (timers w) with
  | Some t => runCallback (timer_callback t) (clearTimeout h w)
  | None => (w, Finished Returned)
  end.

(** *** The accessory in its event loop

    Node runs one handler at a time.  The handlers that touch the
    accessory are: a [blindState] event for this device (the platform
    calls [updateState]), a HomeKit write of the target position, a
    timeout that fires, and the settling of a gateway promise some call
    is parked on. *)

Record System : Type := mkSystem {
  world : World;
  awaiting : list Continuation
}.

Inductive Event : Type :=
| BlindStateEvent (state : BlindState)
| SetTargetEvent (value : Z)
| TimerFires (handle : nat)
| PromiseSettles (index : nat) (r : Settled).

Definition park (s : Step) (ks : list Continuation) : list Continuation :=
  match s with
  | Finished _ => ks
  | Suspended k => ks ++ [k]
  end.

Fixpoint remove_nth {A : Type} (n : nat) (l : list A) : list A :=
  match n, l with
  | _, [] => []
  | O, _ :: l => l
  | S n, x :: l => x :: remove_nth n l
  end.

Definition step (sys : System) (e : Event) : System :=
  match e with
  | BlindStateEvent state =>
      mkSystem (updateState state (world sys)) (awaiting sys)
  | SetTargetEvent value =>
      let '(w, s) := setTargetPosition value (world sys) in
      mkSystem w (park s (awaiting sys))
  | TimerFires h =>
      let '(w, s) := fireTimer h (world sys) in
      mkSystem w (park s (awaiting sys))
  | PromiseSettles i r =>
      match nth_error (awaiting sys) i with
      | Some k =>
          let '(w, s) := resume k r (world sys) in
          mkSystem w (park s (remove_nth i (awaiting sys)))
      | None => sys
      end
  end.

Definition run (sys : System) (events : list Event) : System :=
  fold_left step events sys.

Definition initial (mac : string) (has_gateway : bool) : System :=
  mkSystem (new_accessory mac has_gateway) [].

(** A run of status readings with nothing in between. *)
Definition readings (states : list BlindState) (w : World) : World :=
  fold_left (fun w state => updateState state w) states w.

(** A status reading that only carries a position. *)
Definition reading (protocolPosition : Z) : BlindState :=
  mkBlindState 0 0 protocolPosition 0 0 0 0 0 0 0.

End Accessory.

(** ** AES-128, as used through Node's [crypto.createCipheriv]

    The token derivation of motionGateway.ts calls Node's
    ['aes-128-ecb'] cipher, which is not code of this repository.  It is
    modelled here after FIPS-197 (one 16-byte block, no padding), and
    checked further down against the example vector of the standard. *)

Module Aes128.
Import Byte.

(** The eight bits of a byte, least significant first (as [Byte.to_bits]
    gives them). *)
Definition bits : Type :=
  (bool * (bool * (bool * (bool * (bool * (bool * (bool * bool)))))))%type.

Definition xor_bits (a b : bits) : bits :=
  let '(a0, (a1, (a2, (a3, (a4, (a5, (a6, a7))))))) := a in
  let '(b0, (b1, (b2, (b3, (b4, (b5, (b6, b7))))))) := b in
  (xorb a0 b0, (xorb a1 b1, (xorb a2 b2, (xorb a3 b3,
  (xorb a4 b4, (xorb a5 b5, (xorb a6 b6, xorb a7 b7))))))).

(** Multiplication by x in GF(2^8): shift left, and reduce by
    x^8 + x^4 + x^3 + x + 1 (xor with 0x1b) when the top bit falls out. *)
Definition xtime_bits (a : bits) : bits :=
  let '(a0, (a1, (a2, (a3, (a4, (a5, (a6, a7))))))) := a in
  (a7, (xorb a0 a7, (a1, (xorb a2 a7, (xorb a3 a7, (a4, (a5, a6))))))).

Definition bxor (a b : byte) : byte := of_bits (xor_bits (to_bits a) (to_bits b)).
Definition xtime (a : byte) : byte := of_bits (xtime_bits (to_bits a)).

Definition SBOX : list byte :=
  [ x63; x7c; x77; x7b; xf2; x6b; x6f; xc5; x30; x01; x67; x2b; xfe; xd7; xab; x76;
    xca; x82; xc9; x7d; xfa; x59; x47; xf0; xad; xd4; xa2; xaf; x9c; xa4; x72; xc0;
    xb7; xfd; x93; x26; x36; x3f; xf7; xcc; x34; xa5; xe5; xf1; x71; xd8; x31; x15;
    x04; xc7; x23; xc3; x18; x96; x05; x9a; x07; x12; x80; xe2; xeb; x27; xb2; x75;
    x09; x83; x2c; x1a; x1b; x6e; x5a; xa0; x52; x3b; xd6; xb3; x29; xe3; x2f; x84;
    x53; xd1; x00; xed; x20; xfc; xb1; x5b; x6a; xcb; xbe; x39; x4a; x4c; x58; xcf;
    xd0; xef; xaa; xfb; x43; x4d; x33; x85; x45; xf9; x02; x7f; x50; x3c; x9f; xa8;
    x51; xa3; x40; x8f; x92; x9d; x38; xf5; xbc; xb6; xda; x21; x10; xff; xf3; xd2;
    xcd; x0c; x13; xec; x5f; x97; x44; x17; xc4; xa7; x7e; x3d; x64; x5d; x19; x73;
    x60; x81; x4f; xdc; x22; x2a; x90; x88; x46; xee; xb8; x14; xde; x5e; x0b; xdb;
    xe0; x32; x3a; x0a; x49; x06; x24; x5c; xc2; xd3; xac; x62; x91; x95; xe4; x79;
    xe7; xc8; x37; x6d; x8d; xd5; x4e; xa9; x6c; x56; xf4; xea; x65; x7a; xae; x08;
    xba; x78; x25; x2e; x1c; xa6; xb4; xc6; xe8; xdd; x74; x1f; x4b; xbd; x8b; x8a;
    x70; x3e; xb5; x66; x48; x03; xf6; x0e; x61; x35; x57; xb9; x86; xc1; x1d; x9e;
    xe1; xf8; x98; x11; x69; xd9; x8e; x94; x9b; x1e; x87; xe9; xce; x55; x28; xdf;
    x8c; xa1; x89; x0d; xbf; xe6; x42; x68; x41; x99; x2d; x0f; xb0; x54; xbb; x16 ].

Definition sub_byte (b : byte) : byte := nth (to_nat b) SBOX x00.

(** A column of the state (four rows), and the state (four columns). *)
Record word : Type := Word { row0 : byte; row1 : byte; row2 : byte; row3 : byte }.
Record block : Type := Block { col0 : word; col1 : word; col2 : word; col3 : word }.

Definition map_word (f : byte -> byte) (w : word) : word :=
  Word (f (row0 w)) (f (row1 w)) (f (row2 w)) (f (row3 w)).

Definition xor_word (a b : word) : word :=
  Word (bxor (row0 a) (row0 b)) (bxor (row1 a) (row1 b))
       (bxor (row2 a) (row2 b)) (bxor (row3 a) (row3 b)).

Definition sub_bytes (s : block) : block :=
  Block (map_word sub_byte (col0 s)) (map_word sub_byte (col1 s))
        (map_word sub_byte (col2 s)) (map_word sub_byte (col3 s)).

(** Row r is rotated left by r columns. *)
Definition shift_rows (s : block) : block :=
  Block
    (Word (row0 (col0 s)) (row1 (col1 s)) (row2 (col2 s)) (row3 (col3 s)))
    (Word (row0 (col1 s)) (row1 (col2 s)) (row2 (col3 s)) (row3 (col0 s)))
    (Word (row0 (col2 s)) (row1 (col3 s)) (row2 (col0 s)) (row3 (col1 s)))
    (Word (row0 (col3 s)) (row1 (col0 s)) (row2 (col1 s)) (row3 (col2 s))).

Definition mul2 (a : byte) : byte := xtime a.
Definition mul3 (a : byte) : byte := bxor (xtime a) a.

Definition mix_column (w : word) : word :=
  let '(Word a0 a1 a2 a3) := w in
  Word (bxor (bxor (bxor (mul2 a0) (mul3 a1)) a2) a3)
       (bxor (bxor (bxor a0 (mul2 a1)) (mul3 a2)) a3)
       (bxor (bxor (bxor a0 a1) (mul2 a2)) (mul3 a3))
       (bxor (bxor (bxor (mul3 a0) a1) a2) (mul2 a3)).

Definition mix_columns (s : block) : block :=
  Block (mix_column (col0 s)) (mix_column (col1 s))
        (mix_column (col2 s)) (mix_column (col3 s)).

Definition add_round_key (k s : block) : block :=
  Block (xor_word (col0 s) (col0 k)) (xor_word (col1 s) (col1 k))
        (xor_word (col2 s) (col2 k)) (xor_word (col3 s) (col3 k)).

(** Key schedule: the next round key from the current one. *)
Definition rot_word (w : word) : word :=
  Word (row1 w) (row2 w) (row3 w) (row0 w).

Definition next_round_key (rcon : byte) (k : block) : block :=
  let t := xor_word (map_word sub_byte (rot_word (col3 k))) (Word rcon x00 x00 x00) in
  let k0 := xor_word (col0 k) t in
  let k1 := xor_word (col1 k) k0 in
  let k2 := xor_word (col2 k) k1 in
  let k3 := xor_word (col3 k) k2 in
  Block k0 k1 k2 k3.

Definition RCON : list byte := [ x01; x02; x04; x08; x10; x20; x40; x80; x1b; x36 ].

(** Rounds 1 to 10; the last one has no MixColumns. *)
Fixpoint rounds (rcons : list byte) (k s : block) : block :=
  match rcons with
  | [] => s
  | [rcon] =>
      add_round_key (next_round_key rcon k) (shift_rows (sub_bytes s))
  | rcon :: rest =>
      let k' := next_round_key rcon k in
      rounds rest k' (add_round_key k' (mix_columns (shift_rows (sub_bytes s))))
  end.

Definition encrypt_block (key plaintext : block) : block :=
  rounds RCON key (add_round_key key plaintext).

(** A 16-byte buffer as a state (byte r + 4c is row r of column c), and
    back.  Missing bytes read as zero. *)
Definition word_of_bytes (l : list byte) (c : nat) : word :=
  Word (nth (4 * c) l x00) (nth (4 * c + 1) l x00)
       (nth (4 * c + 2) l x00) (nth (4 * c + 3) l x00).

Definition block_of_bytes (l : list byte) : block :=
  Block (word_of_bytes l 0) (word_of_bytes l 1) (word_of_bytes l 2) (word_of_bytes l 3).

Definition bytes_of_word (w : word) : list byte :=
  [row0 w; row1 w; row2 w; row3 w].

Definition bytes_of_block (s : block) : list byte :=
  bytes_of_word (col0 s) ++ bytes_of_word (col1 s)
  ++ bytes_of_word (col2 s) ++ bytes_of_word (col3 s).

(** [createCipheriv('aes-128-ecb', key, null)], [setAutoPadding(false)],
    then [update(data)] and [final()] on one block of data. *)
Definition aes_128_ecb (key data : list byte) : list byte :=
  bytes_of_block (encrypt_block (block_of_bytes key) (block_of_bytes data)).

End Aes128.

(** ** motionGateway.ts *)

Module Gateway.
Import Byte.

Inductive Operation : Type :=
| Close
| Open
| Stop
| StatusQuery.

Definition Operation_code (o : Operation) : Z :=
  match o with
  | Close => 0
  | Open => 1
  | Stop => 2
  | StatusQuery => 5
  end.

(** The [data] object of a [WriteDevice] message. *)
Record WriteData : Type := mkWriteData {
  data_operation : Operation;
  data_targetPosition : option Z
}.

Record MotionMessage : Type := mkMotionMessage {
  msgType : string;
  msgID : string;
  AccessToken : option string;
  mac : option string;
  deviceType : option string;
  data : option WriteData
}.

(** *** Access token *)

(** A JavaScript string, given by its Unicode code points. *)
Definition js_string : Type := list N.

Definition byte_of_N (n : N) : byte :=
  match of_N n with
  | Some b => b
  | None => x00
  end.

(** UTF-8 of one code point.  Node writes U+FFFD for a lone surrogate. *)
Definition utf8_code_point (cp : N) : list byte :=
  let replacement := [xef; xbf; xbd] in
  (if cp <? 128 then [byte_of_N cp]
   else if cp <? 2048 then
     [byte_of_N (192 + cp / 64); byte_of_N (128 + cp mod 64)]
   else if (55296 <=? cp) && (cp <=? 57343) then replacement
   else if cp <? 65536 then
     [byte_of_N (224 + cp / 4096); byte_of_N (128 + (cp / 64) mod 64);
      byte_of_N (128 + cp mod 64)]
   else if cp <? 1114112 then
     [byte_of_N (240 + cp / 262144); byte_of_N (128 + (cp / 4096) mod 64);
      byte_of_N (128 + (cp / 64) mod 64); byte_of_N (128 + cp mod 64)]
   else replacement)%N.

(** [Buffer.from(s, 'utf-8')] *)
Definition Buffer_from_utf8 (s : js_string) : list byte :=
  flat_map utf8_code_point s.

(** [buf.subarray(0, 16)] *)
Definition subarray_0_16 (buf : list byte) : list byte := firstn 16 buf.

(** [const padded = Buffer.alloc(16); source.copy(padded)]: as much of
    [source] as fits, the rest of the 16 bytes stays zero. *)
Definition copy_into_alloc16 (source : list byte) : list byte :=
  firstn 16 source ++ repeat x00 (16 - List.length (firstn 16 source)).

Definition hex_digits : list ascii :=
  [ "0"; "1"; "2"; "3"; "4"; "5"; "6"; "7"; "8"; "9";
    "a"; "b"; "c"; "d"; "e"; "f" ]%char.

Definition hex_of_byte (b : byte) : list ascii :=
  [ nth (to_nat b / 16) hex_digits "0"%char;
    nth (to_nat b mod 16) hex_digits "0"%char ].

(** [buf.toString('hex')] *)
Definition toString_hex (buf : list byte) : string :=
  string_of_list_ascii (flat_map hex_of_byte buf).

(** [String.prototype.toUpperCase], on the ASCII letters (all a hex
    string can contain). *)
Definition upper_char (c : ascii) : ascii :=
  let n := nat_of_ascii c in
  if (97 <=? n)%nat && (n <=? 122)%nat then ascii_of_nat (n - 32) else c.

Fixpoint toUpperCase (s : string) : string :=
  match s with
  | EmptyString => EmptyString
  | String c rest => String (upper_char c) (toUpperCase rest)
  end.

Definition getAccessToken (key token : js_string) : string :=
  let keyBuffer := subarray_0_16 (Buffer_from_utf8 key) in
  let paddedKey := copy_into_alloc16 keyBuffer in
  let tokenBuffer := Buffer_from_utf8 token in
  let paddedToken := copy_into_alloc16 tokenBuffer in
  let encrypted := Aes128.aes_128_ecb paddedKey paddedToken in
  toUpperCase (toString_hex encrypted).

(** *** The client *)

Record MotionGateway : Type := mkMotionGateway {
  socket : bool;       (* this.socket is not null *)
  isConnected : bool;
  key : js_string;
  token : js_string;
  accessToken : string
}.

(** What [send] does with a message: it throws because the gateway is
    not connected, or it hands the message to the socket. *)
Inductive Sent : Type :=
| NotConnected
| Transmitted (message : MotionMessage).

Definition send (g : MotionGateway) (message : MotionMessage) : Sent :=
  if negb (socket g) || negb (isConnected g) then NotConnected
  else Transmitted message.

(** [Math.max(0, Math.min(100, targetPosition))] *)
Definition clamp_position (targetPosition : Z) : Z :=
  Z.max 0 (Z.min 100 targetPosition).

(** [writeDevice]; [msgID] stands for the random [generateMsgID()]. *)
Definition writeDevice (g : MotionGateway) (msgID : string) (mac : string)
    (operation : Operation) (targetPosition : option Z) (deviceType : string) : Sent :=
  let data :=
    mkWriteData operation
      match targetPosition with
      | Some p => Some (clamp_position p)
      | None => None
      end in
  let message :=
    mkMotionMessage "WriteDevice" msgID (Some (accessToken g)) (Some mac)
      (Some deviceType) (Some data) in
  send g message.

(** The default of the [deviceType] parameter. *)
Definition default_deviceType : string := "10000000".

Definition open (g : MotionGateway) (msgID mac : string) : Sent :=
  writeDevice g msgID mac Open None default_deviceType.

Definition close (g : MotionGateway) (msgID mac : string) : Sent :=
  writeDevice g msgID mac Close None default_deviceType.

Definition stop (g : MotionGateway) (msgID mac : string) : Sent :=
  writeDevice g msgID mac Stop None default_deviceType.

Definition setPosition (g : MotionGateway) (msgID mac : string) (position : Z) : Sent :=
  writeDevice g msgID mac Close (Some position) default_deviceType.

Definition getStatus (g : MotionGateway) (msgID mac : string) : Sent :=
  writeDevice g msgID mac StatusQuery None default_deviceType.

(** A message with a [token] arrived ([handleMessage]): the session
    nonce is stored and the access token derived again. *)
Definition updateToken (response_token : js_string) (g : MotionGateway) : MotionGateway :=
  mkMotionGateway (socket g) (isConnected g) (key g) response_token
    (getAccessToken (key g) response_token).

(** The code points of an ASCII literal. *)
Definition code_points (s : string) : js_string :=
  map (fun c => N.of_nat (nat_of_ascii c)) (list_ascii_of_string s).

End Gateway.

(** ** Vocabulary of the statements *)

Module Vocabulary.
Import Accessory.

(** The host-unit value of a status reading. *)
Definition host_value (state : BlindState) : Z :=
  protocolToHomeKit (currentPosition state).

Definition within_tolerance (a b : Z) : Prop :=
  Z.abs (a - b) <= POSITION_TOLERANCE.

(** The timer table [ts] without the entries whose handle is in [hs]. *)
Definition without (hs : list nat) (ts : list Timer) : list Timer :=
  filter (fun t => negb (existsb (Nat.eqb (timer_handle t)) hs)) ts.

Definition handle_of (o : option nat) : list nat :=
  match o with
  | Some h => [h]
  | None => []
  end.

(** The table entries [schedulePolling] creates, starting at handle [h]
    and cumulative delay [c]. *)
Fixpoint poll_entries (intervals : list Z) (c : Z) (h : nat) : list Timer :=
  match intervals with
  | [] => []
  | interval :: rest =>
      mkTimer h (c + interval) PollCallback :: poll_entries rest (c + interval) (S h)
  end.

(** Every pending timeout, and every handle the accessory holds, is a
    handle the runtime has already given out. *)
Definition handles_fresh (w : World) : Prop :=
  Forall (fun t => (timer_handle t < nextHandle w)%nat) (timers w) /\
  Forall (fun h => (h < nextHandle w)%nat) (pollTimers w) /\
  Forall (fun h => (h < nextHandle w)%nat) (handle_of (commandTimeoutTimer w)).

(** From [w] to [w'] no timeout appeared, and no handle was taken up,
    other than ones the runtime gave out in between. *)
Definition handles_extend (w w' : World) : Prop :=
  (nextHandle w <= nextHandle w')%nat /\
  (forall t, In t (timers w') ->
     In t (timers w) \/ (nextHandle w <= timer_handle t < nextHandle w')%nat) /\
  (forall h, In h (pollTimers w') ->
     In h (pollTimers w) \/ (nextHandle w <= h < nextHandle w')%nat) /\
  (forall h, commandTimeoutTimer w' = Some h ->
     commandTimeoutTimer w = Some h \/ (nextHandle w <= h < nextHandle w')%nat).

(** Every pending deadline timeout is the one whose handle the
    accessory holds, and every pending poll timeout is among the handles
    it holds. *)
Definition timers_tracked (w : World) : Prop :=
  (forall t, In t (timers w) -> timer_callback t = CommandTimeoutCallback ->
     commandTimeoutTimer w = Some (timer_handle t)) /\
  (forall t, In t (timers w) -> timer_callback t = PollCallback ->
     In (timer_handle t) (pollTimers w)).

(** A command in progress has a direction and a gateway to talk to. *)
Definition command_sound (w : World) : Prop :=
  commandInProgress w = true ->
  commandDirection w <> STOPPED /\ gateway w = true.

(** What one handler may do to the handles and to the command. *)
Definition evolves (w w' : World) : Prop :=
  gateway w' = gateway w /\
  handles_extend w w' /\
  (commandInProgress w' = true ->
   (commandInProgress w = true /\ commandDirection w' = commandDirection w) \/
   (gateway w = true /\ commandDirection w' <> STOPPED)).

Definition well_formed (w : World) : Prop :=
  handles_fresh w /\ command_sound w.

(** The system right after a command towards [value] was started in
    [sys], by a request made while idle or by the stretch of a
    redirecting request that follows its stop. *)
Definition command_started (value currentPos : Z) (sys : System) : System :=
  let '(w, s) := startCommand value currentPos (world sys) in
  mkSystem w (park s (awaiting sys)).

(** An event that leaves the command towards [target], whose deadline
    has the handle [deadline], in progress: a reading that is not within
    tolerance of the target, another timeout that fires, the
    acknowledgement of the command's own send, or the settling of a
    status query. *)
Definition quiet (deadline : nat) (target : Z) (sys : System) (e : Event) : bool :=
  match e with
  | BlindStateEvent state =>
      negb (Z.abs (host_value state - target) <=? POSITION_TOLERANCE)
  | SetTargetEvent _ => false
  | TimerFires h => negb (Nat.eqb h deadline)
  | PromiseSettles i r =>
      match nth_error (awaiting sys) i, r with
      | Some AwaitSetPosition, Fulfilled => true
      | Some AwaitPollStatus, _ => true
      | Some AwaitRefreshStatus, _ => true
      | Some _, _ => false
      | None, _ => true
      end
  end.

Fixpoint quiet_run (deadline : nat) (target : Z) (sys : System)
    (events : list Event) : bool :=
  match events with
  | [] => true
  | e :: rest =>
      quiet deadline target sys e && quiet_run deadline target (step sys e) rest
  end.

(** The command towards [value] is in progress and its deadline, with
    handle [h], is pending; no other pending timeout has that handle or
    is a deadline, and the pending poll timeouts are the accessory's. *)
Definition command_pending (h : nat) (value : Z) (w : World) : Prop :=
  let deadline := mkTimer h MAX_MOVEMENT_TIMEOUT CommandTimeoutCallback in
  commandInProgress w = true /\
  commandTarget w = value /\
  gateway w = true /\
  In deadline (timers w) /\
  (forall t, In t (timers w) -> timer_handle t = h -> t = deadline) /\
  (forall t, In t (timers w) -> timer_callback t = CommandTimeoutCallback ->
     t = deadline) /\
  (forall t, In t (timers w) -> timer_callback t = PollCallback ->
     In (timer_handle t) (pollTimers w)) /\
  ~ In h (pollTimers w) /\
  (h < nextHandle w)%nat.

(** The worlds an accessory can be in: those some run of events leads
    to from a new accessory. *)
Definition reachable (w : World) : Prop :=
  exists (mac : string) (has_gateway : bool) (events : list Event),
    w = world (run (initial mac has_gateway) events).

(** The three characteristic pushes of [pushStateToHomeKit]. *)
Definition pushed (position target : Z) (s : PositionState) : list Effect :=
  [ UpdateCharacteristic CurrentPosition position;
    UpdateCharacteristic TargetPosition target;
    UpdateCharacteristic PositionStateCharacteristic (POSITION_STATE s) ].

Definition is_gateway_call (e : Effect) : bool :=
  match e with
  | GatewayStop _ | GatewaySetPosition _ _ | GatewayGetStatus _ => true
  | _ => false
  end.

(** The direction a command towards [target] is given when the
    reference position is [currentPos]. *)
Definition direction_towards (target currentPos : Z) : PositionState :=
  if target >? currentPos then INCREASING else DECREASING.

(** Between [w] and [w'] the accessory made no call on the gateway. *)
Definition sends_nothing (w w' : World) : Prop :=
  exists delta : list Effect,
    trace w' = trace w ++ delta /\ existsb is_gateway_call delta = false.

(** Status readings of an event carry a protocol position in [0,100]. *)
Definition reading_in_range (e : Event) : Prop :=
  match e with
  | BlindStateEvent state => 0 <= currentPosition state <= 100
  | _ => True
  end.

(** *** Worlds used as concrete inputs *)

(** Idle at host position 0, then told to open fully; the command was
    sent and one reading (host 60) has been taken over as progress. *)
Definition moving_example : World :=
  world (run (initial "mac" true)
           [ BlindStateEvent (reading 100);
             SetTargetEvent 100;
             PromiseSettles 0 Fulfilled;
             BlindStateEvent (reading 40) ]).

(** The same, after the user stopped the blind at the displayed 60 and
    the stop could not be delivered: no command is in progress, the
    displayed position is 60 and the confirmed position is still 0. *)
Definition stopped_midway_example : World :=
  world (run (mkSystem moving_example [])
           [ SetTargetEvent 61;
             PromiseSettles 0 Rejected ]).

(** Idle with confirmed and displayed position 0 and a displayed target
    of 1, left there by a request that needed no movement. *)
Definition idle_example : World :=
  world (run (initial "mac" true) [ SetTargetEvent 1 ]).

(** *** The access token *)

(** The two 16-byte blocks [getAccessToken] hands to the cipher. *)
Definition key_block (key : Gateway.js_string) : list byte :=
  Gateway.copy_into_alloc16 (Gateway.subarray_0_16 (Gateway.Buffer_from_utf8 key)).

Definition token_block (token : Gateway.js_string) : list byte :=
  Gateway.copy_into_alloc16 (Gateway.Buffer_from_utf8 token).

Definition is_upper_hex (c : ascii) : bool :=
  existsb (Ascii.eqb c)
    [ "0"; "1"; "2"; "3"; "4"; "5"; "6"; "7"; "8"; "9";
      "A"; "B"; "C"; "D"; "E"; "F" ]%char.

(** All 256 bytes, and inverses found by search among them. *)
Definition all_bytes : list byte :=
  map (fun n => Gateway.byte_of_N (N.of_nat n)) (seq 0 256).

Definition inv_sub_byte (b : byte) : option byte :=
  find (fun a => Byte.eqb (Aes128.sub_byte a) b) all_bytes.

Definition upper_hex_of_byte (b : byte) : list ascii :=
  map Gateway.upper_char (Gateway.hex_of_byte b).

Definition byte_of_upper_hex (c1 c2 : ascii) : option byte :=
  find (fun b =>
          match upper_hex_of_byte b with
          | [d1; d2] => Ascii.eqb c1 d1 && Ascii.eqb c2 d2
          | _ => false
          end) all_bytes.

(** The inverse of MixColumns: the matrix with rows (0e 0b 0d 09) and
    its rotations. *)
Definition mul9 (a : byte) : byte :=
  Aes128.bxor (Aes128.xtime (Aes128.xtime (Aes128.xtime a))) a.

Definition mul11 (a : byte) : byte :=
  Aes128.bxor (Aes128.bxor (Aes128.xtime (Aes128.xtime (Aes128.xtime a)))
                 (Aes128.xtime a)) a.

Definition mul13 (a : byte) : byte :=
  Aes128.bxor (Aes128.bxor (Aes128.xtime (Aes128.xtime (Aes128.xtime a)))
                 (Aes128.xtime (Aes128.xtime a))) a.

Definition mul14 (a : byte) : byte :=
  Aes128.bxor (Aes128.bxor (Aes128.xtime (Aes128.xtime (Aes128.xtime a)))
                 (Aes128.xtime (Aes128.xtime a))) (Aes128.xtime a).

Definition inv_mix_column (w : Aes128.word) : Aes128.word :=
  let '(Aes128.Word a0 a1 a2 a3) := w in
  Aes128.Word
    (Aes128.bxor (Aes128.bxor (Aes128.bxor (mul14 a0) (mul11 a1)) (mul13 a2)) (mul9 a3))
    (Aes128.bxor (Aes128.bxor (Aes128.bxor (mul9 a0) (mul14 a1)) (mul11 a2)) (mul13 a3))
    (Aes128.bxor (Aes128.bxor (Aes128.bxor (mul13 a0) (mul9 a1)) (mul14 a2)) (mul11 a3))
    (Aes128.bxor (Aes128.bxor (Aes128.bxor (mul11 a0) (mul13 a1)) (mul9 a2)) (mul14 a3)).

Definition inv_shift_rows (s : Aes128.block) : Aes128.block :=
  let '(Aes128.Block c0 c1 c2 c3) := s in
  Aes128.Block
    (Aes128.Word (Aes128.row0 c0) (Aes128.row1 c3) (Aes128.row2 c2) (Aes128.row3 c1))
    (Aes128.Word (Aes128.row0 c1) (Aes128.row1 c0) (Aes128.row2 c3) (Aes128.row3 c2))
    (Aes128.Word (Aes128.row0 c2) (Aes128.row1 c1) (Aes128.row2 c0) (Aes128.row3 c3))
    (Aes128.Word (Aes128.row0 c3) (Aes128.row1 c2) (Aes128.row2 c1) (Aes128.row3 c0)).

End Vocabulary.

(** ** Vocabulary of the statements about the accessory's timers and pushes *)

Module Tracking.
Import Accessory Vocabulary.

Definition Characteristic_eqb (a b : Characteristic) : bool :=
  match a, b with
  | CurrentPosition, CurrentPosition
  | TargetPosition, TargetPosition
  | PositionStateCharacteristic, PositionStateCharacteristic => true
  | _, _ => false
  end.

Definition TimerCallback_eqb (a b : TimerCallback) : bool :=
  match a, b with
  | CommandTimeoutCallback, CommandTimeoutCallback
  | PollCallback, PollCallback
  | StopRefreshCallback, StopRefreshCallback => true
  | _, _ => false
  end.

(** The getters the constructor registers with [onGet]. *)
Definition onGet (c : Characteristic) (w : World) : Z :=
  match c with
  | CurrentPosition => displayPosition w
  | TargetPosition => displayTargetPosition w
  | PositionStateCharacteristic => POSITION_STATE (displayPositionState w)
  end.

(** The value most recently pushed for a characteristic, if any. *)
Definition last_pushed (c : Characteristic) (tr : list Effect) : option Z :=
  fold_left
    (fun latest e =>
       match e with
       | UpdateCharacteristic c' v => if Characteristic_eqb c c' then Some v else latest
       | _ => latest
       end)
    tr None.

(** The pending timeouts with a given callback. *)
Definition pending (cb : TimerCallback) (w : World) : list Timer :=
  filter (fun t => TimerCallback_eqb (timer_callback t) cb) (timers w).

(** The accessory's own fields agree (the timer table included). *)
Definition same_fields (w w' : World) : Prop :=
  confirmedPosition w' = confirmedPosition w /\
  displayPosition w' = displayPosition w /\
  displayTargetPosition w' = displayTargetPosition w /\
  displayPositionState w' = displayPositionState w /\
  commandInProgress w' = commandInProgress w /\
  commandTarget w' = commandTarget w /\
  commandDirection w' = commandDirection w /\
  commandTimeoutTimer w' = commandTimeoutTimer w /\
  pollTimers w' = pollTimers w /\
  timers w' = timers w.

(** What the timer table of a reachable accessory looks like. *)
Definition timers_sound (w : World) : Prop :=
  NoDup (map timer_handle (timers w)) /\
  (forall t, In t (timers w) -> In (timer_handle t) (pollTimers w) ->
     timer_callback t = PollCallback) /\
  (List.length (pollTimers w) <= List.length POLL_INTERVALS)%nat /\
  (commandInProgress w = true ->
   exists h, commandTimeoutTimer w = Some h /\
             In (mkTimer h MAX_MOVEMENT_TIMEOUT CommandTimeoutCallback) (timers w)) /\
  (commandInProgress w = false ->
   forall t, In t (timers w) -> timer_callback t <> CommandTimeoutCallback).

(** HomeKit holds the value the getter returns: the value last pushed
    for a characteristic is the field its getter reads; a characteristic
    never pushed still has the value the accessory was constructed with. *)
Definition in_sync (w : World) : Prop :=
  forall c : Characteristic,
    match last_pushed c (trace w) with
    | Some v => onGet c w = v
    | None => onGet c w = onGet c (new_accessory (device_mac w) (gateway w))
    end.

End Tracking.

(** ** A JavaScript [Map] with string keys

    Entries are kept in insertion order; [set] on a key that is present
    replaces its value in place. *)

Module JsMap.

Fixpoint get {V : Type} (k : string) (m : list (string * V)) : option V :=
  match m with
  | [] => None
  | (k', v) :: rest => if String.eqb k' k then Some v else get k rest
  end.

Definition has {V : Type} (k : string) (m : list (string * V)) : bool :=
  match get k m with
  | Some _ => true
  | None => false
  end.

Fixpoint set {V : Type} (k : string) (v : V) (m : list (string * V)) : list (string * V) :=
  match m with
  | [] => [(k, v)]
  | (k', v') :: rest =>
      if String.eqb k' k then (k, v) :: rest else (k', v') :: set k v rest
  end.

Fixpoint delete {V : Type} (k : string) (m : list (string * V)) : list (string * V) :=
  match m with
  | [] => []
  | (k', v') :: rest =>
      if String.eqb k' k then rest else (k', v') :: delete k rest
  end.

Definition keys {V : Type} (m : list (string * V)) : list string := map fst m.

End JsMap.

(** ** motionGateway.ts: the connection, requests and responses

    The class [MotionGateway] with its socket, its timers and its
    promises.  The constructor's arguments ([gatewayIP], [key]) do not
    change and are parameters; so is [entropy], the successive results of
    [generateMsgID()].  A promise is named by its index in the table of
    promises; the closures handed to [setTimeout], [setInterval] and to
    the handler table are given by the variables they capture.

    Conventions.
    - An inbound datagram is either one that [JSON.parse] accepts as an
      object whose fields, where present, have the types the interfaces
      of the source declare, or one the [try] block of [handleMessage]
      fails on.
    - [socket.send] and [socket.close] return normally; a send error is
      reported through the callback of [socket.send].
    - A call that rejects right away (the [throw] in [send], inside an
      [async] method) is told from one that returns a pending promise by
      the result of the call. *)

Module Client.
Import Gateway.

Definition UDP_PORT : Z := 32100.
Definition MULTICAST_ADDRESS : string := "238.0.0.18".

Record DeviceInfo : Type := mkDeviceInfo {
  info_mac : string;
  info_deviceType : string
}.

(** The [data] of an inbound message: a status object ([BlindState]) in
    the acknowledgement of a read or write, the device array in the
    answer to [GetDeviceList]. *)
Inductive ResponseData : Type :=
| StatusData (state : Accessory.BlindState)
| DeviceListData (devices : list DeviceInfo).

Record Response : Type := mkResponse {
  response_msgType : option string;
  response_msgID : option string;
  response_token : option js_string;
  response_mac : option string;
  response_deviceType : option string;
  response_fwVersion : option string;
  response_ProtocolVersion : option string;
  response_data : option ResponseData
}.

(** JavaScript truthiness of an optional string: present and not empty. *)
Definition truthy_string (o : option string) : bool :=
  match o with
  | Some s => negb (String.eqb s "")
  | None => false
  end.

Definition truthy_js_string (o : option js_string) : bool :=
  match o with
  | Some (_ :: _) => true
  | _ => false
  end.

(** The errors promises are rejected with. *)
Inductive Failure : Type :=
| NotConnectedError
| RequestTimeoutError (msgType : string)
| SocketSendError
| ConnectionTimeoutError.

Inductive Outcome : Type :=
| Pending
| Resolved (value : option Response)
| Rejected (reason : Failure).

(** What a promise was created for, with the variables its executor's
    closures capture. *)
Inductive PromiseKind : Type :=
| ConnectPromise (socket : nat)
| RequestPromise (msgType : string) (timeout : nat).

Record Promise : Type := mkPromise {
  promise_kind : PromiseKind;
  promise_outcome : Outcome
}.

(** The closure [send] stores in [responseHandlers]. *)
Record Handler : Type := mkHandler {
  handler_timeout : nat;
  handler_expectedResponse : string;
  handler_promise : nat
}.

(** The closures handed to [setTimeout] and [setInterval]. *)
Inductive Callback : Type :=
| RequestTimeoutCallback (promise : nat) (msgType : string)
| ConnectTimeoutCallback (promise : nat)
| ReconnectCallback
| StatusPollingCallback (macs : list string).

Record Timer : Type := mkTimer {
  timer_handle : nat;
  timer_delay : Z;
  timer_repeats : bool;
  timer_callback : Callback
}.

(** The [await] an [async] callback is parked on. *)
Inductive Continuation : Type :=
| AwaitReconnectConnect
| AwaitReconnectDeviceList
| AwaitStatusPoll (mac : string) (rest : list string).

Inductive LogLine : Type :=
| MsgControllerStarted
| MsgJoinedMulticast (address : string)
| MsgCouldNotJoinMulticast
| MsgSocketError
| MsgSocketClosed
| MsgResponse (response : Response)
| MsgTokenUpdated (token : js_string)
| MsgFailedToParse
| MsgReconnectionFailed (reason : Failure)
| MsgSending (address : string) (port : Z) (message : MotionMessage)
| MsgFailedToPoll (mac : string) (reason : Failure).

Inductive Effect : Type :=
| CreateSocket (socket : nat)
| SocketBind (socket : nat)
| SocketAddMembership (socket : nat) (address : string)
| SocketSend (socket : nat) (message : MotionMessage) (port : Z) (address : string)
| SocketClose (socket : nat)
| EmitBlindState (mac : string) (data : ResponseData)
| Log (level : Accessory.LogLevel) (line : LogLine).

Record State : Type := mkState {
  (* fields of the object *)
  socket : option nat;
  token : js_string;
  accessToken : string;
  responseHandlers : list (string * Handler);
  isConnected : bool;
  reconnectTimer : option nat;
  statusPollingTimer : option nat;
  (* the runtime: pending timers, promises, sockets created so far (each
     with the promise of the [connect] call that created it), parked
     callbacks, identifiers drawn so far *)
  timers : list Timer;
  nextHandle : nat;
  promises : list Promise;
  sockets : list nat;
  awaiting : list (nat * Continuation);
  drawn : nat;
  (* everything done to the outside so far, oldest first *)
  trace : list Effect
}.

Definition set_socket (v : option nat) (g : State) : State :=
  mkState v (token g) (accessToken g) (responseHandlers g) (isConnected g)
    (reconnectTimer g) (statusPollingTimer g) (timers g) (nextHandle g)
    (promises g) (sockets g) (awaiting g) (drawn g) (trace g).

Definition set_token (v : js_string) (g : State) : State :=
  mkState (socket g) v (accessToken g) (responseHandlers g) (isConnected g)
    (reconnectTimer g) (statusPollingTimer g) (timers g) (nextHandle g)
    (promises g) (sockets g) (awaiting g) (drawn g) (trace g).

Definition set_accessToken (v : string) (g : State) : State :=
  mkState (socket g) (token g) v (responseHandlers g) (isConnected g)
    (reconnectTimer g) (statusPollingTimer g) (timers g) (nextHandle g)
    (promises g) (sockets g) (awaiting g) (drawn g) (trace g).

Definition set_responseHandlers (v : list (string * Handler)) (g : State) : State :=
  mkState (socket g) (token g) (accessToken g) v (isConnected g)
    (reconnectTimer g) (statusPollingTimer g) (timers g) (nextHandle g)
    (promises g) (sockets g) (awaiting g) (drawn g) (trace g).

Definition set_isConnected (v : bool) (g : State) : State :=
  mkState (socket g) (token g) (accessToken g) (responseHandlers g) v
    (reconnectTimer g) (statusPollingTimer g) (timers g) (nextHandle g)
    (promises g) (sockets g) (awaiting g) (drawn g) (trace g).

Definition set_reconnectTimer (v : option nat) (g : State) : State :=
  mkState (socket g) (token g) (accessToken g) (responseHandlers g)
    (isConnected g) v (statusPollingTimer g) (timers g) (nextHandle g)
    (promises g) (sockets g) (awaiting g) (drawn g) (trace g).

Definition set_statusPollingTimer (v : option nat) (g : State) : State :=
  mkState (socket g) (token g) (accessToken g) (responseHandlers g)
    (isConnected g) (reconnectTimer g) v (timers g) (nextHandle g) (promises
    g) (sockets g) (awaiting g) (drawn g) (trace g).

Definition set_timers (v : list Timer) (g : State) : State :=
  mkState (socket g) (token g) (accessToken g) (responseHandlers g)
    (isConnected g) (reconnectTimer g) (statusPollingTimer g) v (nextHandle g)
    (promises g) (sockets g) (awaiting g) (drawn g) (trace g).

Definition set_nextHandle (v : nat) (g : State) : State :=
  mkState (socket g) (token g) (accessToken g) (responseHandlers g)
    (isConnected g) (reconnectTimer g) (statusPollingTimer g) (timers g) v
    (promises g) (sockets g) (awaiting g) (drawn g) (trace g).

Definition set_promises (v : list Promise) (g : State) : State :=
  mkState (socket g) (token g) (accessToken g) (responseHandlers g)
    (isConnected g) (reconnectTimer g) (statusPollingTimer g) (timers g)
    (nextHandle g) v (sockets g) (awaiting g) (drawn g) (trace g).

Definition set_sockets (v : list nat) (g : State) : State :=
  mkState (socket g) (token g) (accessToken g) (responseHandlers g)
    (isConnected g) (reconnectTimer g) (statusPollingTimer g) (timers g)
    (nextHandle g) (promises g) v (awaiting g) (drawn g) (trace g).

Definition set_awaiting (v : list (nat * Continuation)) (g : State) : State :=
  mkState (socket g) (token g) (accessToken g) (responseHandlers g)
    (isConnected g) (reconnectTimer g) (statusPollingTimer g) (timers g)
    (nextHandle g) (promises g) (sockets g) v (drawn g) (trace g).

Definition set_drawn (v : nat) (g : State) : State :=
  mkState (socket g) (token g) (accessToken g) (responseHandlers g)
    (isConnected g) (reconnectTimer g) (statusPollingTimer g) (timers g)
    (nextHandle g) (promises g) (sockets g) (awaiting g) v (trace g).

Definition set_trace (v : list Effect) (g : State) : State :=
  mkState (socket g) (token g) (accessToken g) (responseHandlers g)
    (isConnected g) (reconnectTimer g) (statusPollingTimer g) (timers g)
    (nextHandle g) (promises g) (sockets g) (awaiting g) (drawn g) v.

Definition emit (e : Effect) (g : State) : State :=
  set_trace (trace g ++ [e]) g.

(** A freshly constructed client. *)
Definition new_gateway : State :=
  mkState None [] "" [] false None None [] 0%nat [] [] [] 0%nat [].

(** *** The runtime *)

Definition setTimer (repeats : bool) (cb : Callback) (delay : Z) (g : State) : nat * State :=
  let h := nextHandle g in
  (h, set_nextHandle (S h) (set_timers (timers g ++ [mkTimer h delay repeats cb]) g)).

Definition setTimeout : Callback -> Z -> State -> nat * State := setTimer false.
Definition setInterval : Callback -> Z -> State -> nat * State := setTimer true.

(** [clearTimeout] and [clearInterval]. *)
Definition clearTimer (h : nat) (g : State) : State :=
  set_timers (filter (fun t => negb (Nat.eqb (timer_handle t) h)) (timers g)) g.

(** [new Promise(...)]: the next entry of the table. *)
Definition newPromise (kind : PromiseKind) (g : State) : nat * State :=
  (List.length (promises g), set_promises (promises g ++ [mkPromise kind Pending]) g).

Definition outcome (p : nat) (g : State) : option Outcome :=
  option_map promise_outcome (nth_error (promises g) p).

Fixpoint update_nth {A : Type} (n : nat) (f : A -> A) (l : list A) : list A :=
  match n, l with
  | _, [] => []
  | O, x :: l => f x :: l
  | S n, x :: l => x :: update_nth n f l
  end.

Section MotionGateway.

Variable gatewayIP : string.
Variable key : js_string.
Variable entropy : nat -> string.

Definition generateMsgID (g : State) : string * State :=
  (entropy (drawn g), set_drawn (S (drawn g)) g).

(** *** [send] and the calls built on it *)

(** The result of calling an [async] method: it completed (or threw)
    before its first [await] on a pending promise, or it returned the
    promise it is waiting for. *)
Inductive Called : Type :=
| Completed
| Threw (reason : Failure)
| Awaits (promise : nat).

Definition send (message : MotionMessage) (g : State) : State * Called :=
  match socket g with
  | Some s =>
      if isConnected g then
        let expectedResponse := (msgType message ++ "Ack")%string in
        let '(p, g) :=
          newPromise (RequestPromise (msgType message) (nextHandle g)) g in
        let g := emit (Log Accessory.LogDebug (MsgSending gatewayIP UDP_PORT message)) g in
        let '(timeout, g) :=
          setTimeout (RequestTimeoutCallback p (msgType message)) 5000 g in
        let g :=
          set_responseHandlers
            (JsMap.set expectedResponse (mkHandler timeout expectedResponse p)
               (responseHandlers g)) g in
        let g := emit (SocketSend s message UDP_PORT gatewayIP) g in
        (g, Awaits p)
      else (g, Threw NotConnectedError)
  | None => (g, Threw NotConnectedError)
  end.

Definition getDeviceList (g : State) : State * Called :=
  let '(id, g) := generateMsgID g in
  send (mkMotionMessage "GetDeviceList" id None None None None) g.

Definition readDevice (mac deviceType : string) (g : State) : State * Called :=
  let '(id, g) := generateMsgID g in
  send (mkMotionMessage "ReadDevice" id (Some (accessToken g)) (Some mac)
          (Some deviceType) None) g.

Definition writeDevice (mac : string) (operation : Operation)
    (targetPosition : option Z) (deviceType : string) (g : State) : State * Called :=
  let data :=
    mkWriteData operation
      match targetPosition with
      | Some p => Some (clamp_position p)
      | None => None
      end in
  let '(id, g) := generateMsgID g in
  send (mkMotionMessage "WriteDevice" id (Some (accessToken g)) (Some mac)
          (Some deviceType) (Some data)) g.

Definition open (mac : string) : State -> State * Called :=
  writeDevice mac Open None default_deviceType.

Definition close (mac : string) : State -> State * Called :=
  writeDevice mac Close None default_deviceType.

Definition stop (mac : string) : State -> State * Called :=
  writeDevice mac Stop None default_deviceType.

Definition setPosition (mac : string) (position : Z) : State -> State * Called :=
  writeDevice mac Close (Some position) default_deviceType.

Definition getStatus (mac : string) : State -> State * Called :=
  writeDevice mac StatusQuery None default_deviceType.

Definition hasValidToken (g : State) : bool :=
  (0 <? String.length (accessToken g))%nat.

(** *** Connecting *)

Definition connect (g : State) : State * Called :=
  if isConnected g then (g, Completed)
  else
    let s := List.length (sockets g) in
    let '(p, g) := newPromise (ConnectPromise s) g in
    let g := set_sockets (sockets g ++ [p]) g in
    let g := set_socket (Some s) g in
    let g := emit (CreateSocket s) g in
    let g := emit (SocketBind s) g in
    let '(_, g) := setTimeout (ConnectTimeoutCallback p) 10000 g in
    (g, Awaits p).

Definition scheduleReconnect (g : State) : State :=
  match reconnectTimer g with
  | Some _ => g
  | None =>
      let '(h, g) := setTimeout ReconnectCallback 5000 g in
      set_reconnectTimer (Some h) g
  end.

Definition disconnect (g : State) : State :=
  let g :=
    match reconnectTimer g with
    | Some h => set_reconnectTimer None (clearTimer h g)
    | None => g
    end in
  let g :=
    match statusPollingTimer g with
    | Some h => set_statusPollingTimer None (clearTimer h g)
    | None => g
    end in
  let g :=
    match socket g with
    | Some s => set_socket None (emit (SocketClose s) g)
    | None => g
    end in
  set_isConnected false g.

Definition startStatusPolling (macs : list string) (intervalMs : Z) (g : State) : State :=
  let g :=
    match statusPollingTimer g with
    | Some h => clearTimer h g
    | None => g
    end in
  let '(h, g) := setInterval (StatusPollingCallback macs) intervalMs g in
  set_statusPollingTimer (Some h) g.

(** *** The [async] callbacks, cut at their [await]s *)

Definition park (p : nat) (k : Continuation) (g : State) : State :=
  set_awaiting (awaiting g ++ [(p, k)]) g.

(** The [catch] block of the reconnect callback. *)
Definition reconnectFailed (reason : Failure) (g : State) : State :=
  let g := emit (Log Accessory.LogError (MsgReconnectionFailed reason)) g in
  scheduleReconnect g.

(** The reconnect callback from [await this.getDeviceList()] on. *)
Definition reconnect_getDeviceList (g : State) : State :=
  match getDeviceList g with
  | (g, Awaits p) => park p AwaitReconnectDeviceList g
  | (g, Threw reason) => reconnectFailed reason g
  | (g, Completed) => g
  end.

(** The callback of [scheduleReconnect]'s timeout. *)
Definition reconnect (g : State) : State :=
  let g := set_reconnectTimer None g in
  match connect g with
  | (g, Awaits p) => park p AwaitReconnectConnect g
  | (g, Threw reason) => reconnectFailed reason g
  | (g, Completed) => reconnect_getDeviceList g
  end.

(** The loop of the status-polling callback, from one [mac] on. *)
Fixpoint pollStatus (macs : list string) (g : State) : State :=
  match macs with
  | [] => g
  | mac :: rest =>
      match getStatus mac g with
      | (g, Awaits p) => park p (AwaitStatusPoll mac rest) g
      | (g, Threw reason) =>
          pollStatus rest (emit (Log Accessory.LogDebug (MsgFailedToPoll mac reason)) g)
      | (g, Completed) => pollStatus rest g
      end
  end.

(** The stretch of a parked callback that follows its [await], once the
    promise is settled with [o]. *)
Definition resume (k : Continuation) (o : Outcome) (g : State) : State :=
  match k, o with
  | _, Pending => g
  | AwaitReconnectConnect, Resolved _ => reconnect_getDeviceList g
  | AwaitReconnectConnect, Rejected reason => reconnectFailed reason g
  | AwaitReconnectDeviceList, Resolved _ => g
  | AwaitReconnectDeviceList, Rejected reason => reconnectFailed reason g
  | AwaitStatusPoll mac rest, Resolved _ => pollStatus rest g
  | AwaitStatusPoll mac rest, Rejected reason =>
      pollStatus rest (emit (Log Accessory.LogDebug (MsgFailedToPoll mac reason)) g)
  end.

(** [resolve(value)] or [reject(reason)] on promise [p]: nothing happens
    when the promise is settled already; otherwise the callbacks parked
    on it run, in the order they were parked. *)
Definition settle (p : nat) (o : Outcome) (g : State) : State :=
  match outcome p g with
  | Some Pending =>
      let g :=
        set_promises
          (update_nth p (fun q => mkPromise (promise_kind q) o) (promises g)) g in
      let waiting := filter (fun '(q, _) => Nat.eqb q p) (awaiting g) in
      let g :=
        set_awaiting (filter (fun '(q, _) => negb (Nat.eqb q p)) (awaiting g)) g in
      fold_left (fun g '(_, k) => resume k o g) waiting g
  | _ => g
  end.

(** *** Socket events *)

(** The handler stored by [send], called with the response. *)
Definition runHandler (h : Handler) (response : Response) (g : State) : State :=
  let g := clearTimer (handler_timeout h) g in
  let g :=
    set_responseHandlers
      (JsMap.delete (handler_expectedResponse h) (responseHandlers g)) g in
  settle (handler_promise h) (Resolved (Some response)) g.

(** [handleMessage]; [None] is a datagram the [try] block fails on. *)
Definition handleMessage (datagram : option Response) (g : State) : State :=
  match datagram with
  | None => emit (Log Accessory.LogDebug MsgFailedToParse) g
  | Some response =>
      let g := emit (Log Accessory.LogDebug (MsgResponse response)) g in
      let g :=
        match response_token response with
        | Some t =>
            if truthy_js_string (Some t) then
              let g := set_token t g in
              let g := set_accessToken (getAccessToken key (token g)) g in
              emit (Log Accessory.LogDebug (MsgTokenUpdated (token g))) g
            else g
        | None => g
        end in
      match response_msgType response with
      | Some msgType =>
          if truthy_string (Some msgType) then
            let g :=
              if String.eqb msgType "WriteDeviceAck" || String.eqb msgType "ReadDeviceAck"
              then
                match response_mac response, response_data response with
                | Some mac, Some data =>
                    if truthy_string (Some mac) then emit (EmitBlindState mac data) g
                    else g
                | _, _ => g
                end
              else g in
            match JsMap.get msgType (responseHandlers g) with
            | Some handler => runHandler handler response g
            | None => g
            end
          else g
      | None => g
      end
  end.

(** The socket's ['error'] and ['close'] handlers. *)
Definition onSocketError (g : State) : State :=
  let g := emit (Log Accessory.LogError MsgSocketError) g in
  let g := set_isConnected false g in
  scheduleReconnect g.

Definition onSocketClose (g : State) : State :=
  let g := emit (Log Accessory.LogDebug MsgSocketClosed) g in
  set_isConnected false g.

(** The callback of [socket.bind], for the socket created by the
    [connect] call whose promise is [p]; [joined] tells whether
    [addMembership] succeeds. *)
Definition onBound (p : nat) (joined : bool) (g : State) : State :=
  let g := emit (Log Accessory.LogInfo MsgControllerStarted) g in
  let g :=
    match socket g with
    | Some s =>
        if joined then
          let g := emit (SocketAddMembership s MULTICAST_ADDRESS) g in
          emit (Log Accessory.LogDebug (MsgJoinedMulticast MULTICAST_ADDRESS)) g
        else emit (Log Accessory.LogDebug MsgCouldNotJoinMulticast) g
    | None => emit (Log Accessory.LogDebug MsgCouldNotJoinMulticast) g
    end in
  let g := set_isConnected true g in
  settle p (Resolved None) g.

(** The callback [send] hands to [socket.send], for the request whose
    promise is [p]. *)
Definition onSent (p : nat) (err : bool) (g : State) : State :=
  match option_map promise_kind (nth_error (promises g) p) with
  | Some (RequestPromise msgType timeout) =>
      if err then
        let g := clearTimer timeout g in
        let g :=
          set_responseHandlers
            (JsMap.delete (msgType ++ "Ack")%string (responseHandlers g)) g in
        settle p (Rejected SocketSendError) g
      else g
  | _ => g
  end.

(** *** Timers *)

Definition runCallback (cb : Callback) (g : State) : State :=
  match cb with
  | RequestTimeoutCallback p msgType =>
      let g :=
        set_responseHandlers
          (JsMap.delete (msgType ++ "Ack")%string (responseHandlers g)) g in
      settle p (Rejected (RequestTimeoutError msgType)) g
  | ConnectTimeoutCallback p =>
      if isConnected g then g else settle p (Rejected ConnectionTimeoutError) g
  | ReconnectCallback => reconnect g
  | StatusPollingCallback macs => pollStatus macs g
  end.

(** The runtime fires the pending timer with handle [h]; a timeout
    leaves the table, an interval stays. *)
Definition fireTimer (h : nat) (g : State) : State :=
  match find (fun t => Nat.eqb (timer_handle t) h) (timers g) with
  | Some t =>
      runCallback (timer_callback t)
        (if timer_repeats t then g else clearTimer h g)
  | None => g
  end.

(** *** The client in its event loop *)

Inductive Event : Type :=
| CallConnect
| CallDisconnect
| CallGetDeviceList
| CallReadDevice (mac deviceType : string)
| CallWriteDevice (mac : string) (operation : Operation) (targetPosition : option Z)
    (deviceType : string)
| CallStartStatusPolling (macs : list string) (intervalMs : Z)
| SocketMessage (datagram : option Response)
| SocketError
| SocketClosed
| SocketBound (socket : nat) (joined : bool)
| SocketSent (promise : nat) (err : bool)
| TimerFires (handle : nat).

Definition step (g : State) (e : Event) : State :=
  match e with
  | CallConnect => fst (connect g)
  | CallDisconnect => disconnect g
  | CallGetDeviceList => fst (getDeviceList g)
  | CallReadDevice mac deviceType => fst (readDevice mac deviceType g)
  | CallWriteDevice mac operation targetPosition deviceType =>
      fst (writeDevice mac operation targetPosition deviceType g)
  | CallStartStatusPolling macs intervalMs => startStatusPolling macs intervalMs g
  | SocketMessage datagram => handleMessage datagram g
  | SocketError => onSocketError g
  | SocketClosed => onSocketClose g
  | SocketBound s joined =>
      match nth_error (sockets g) s with
      | Some p => onBound p joined g
      | None => g
      end
  | SocketSent p err => onSent p err g
  | TimerFires h => fireTimer h g
  end.

Definition run (g : State) (events : list Event) : State :=
  fold_left step events g.

End MotionGateway.

End Client.

(** ** Vocabulary of the statements about the client *)

Module ClientFacts.
Import Client.

Definition kind (p : nat) (g : State) : option PromiseKind :=
  option_map promise_kind (nth_error (promises g) p).

(** The timeout [send] arms for the request whose promise is [p]. *)
Definition request_timer (p : nat) (msgType : string) (h : nat) : Timer :=
  mkTimer h 5000 false (RequestTimeoutCallback p msgType).

Definition reconnect_timer (h : nat) : Timer :=
  mkTimer h 5000 false ReconnectCallback.

Definition is_reconnect (t : Timer) : bool :=
  match timer_callback t with
  | ReconnectCallback => true
  | _ => false
  end.

Definition is_status_polling (t : Timer) : bool :=
  match timer_callback t with
  | StatusPollingCallback _ => true
  | _ => false
  end.

(** What holds of the timers, promises and handlers of a client between
    two handlers; [skip] names promises whose timeout may be missing. *)
Record consistent_but (skip : nat -> Prop) (g : State) : Prop := {
  timers_fresh :
    Forall (fun t => (timer_handle t < nextHandle g)%nat) (timers g);
  timers_nodup :
    NoDup (map timer_handle (timers g));
  handlers_nodup :
    NoDup (JsMap.keys (responseHandlers g));
  request_handles_fresh :
    forall p mt h, kind p g = Some (RequestPromise mt h) -> (h < nextHandle g)%nat;
  request_handles_differ :
    forall p p' mt mt' h,
      kind p g = Some (RequestPromise mt h) ->
      kind p' g = Some (RequestPromise mt' h) -> p = p';
  handlers_sound :
    forall k hd, In (k, hd) (responseHandlers g) ->
      exists mt,
        k = (mt ++ "Ack")%string /\
        handler_expectedResponse hd = k /\
        kind (handler_promise hd) g = Some (RequestPromise mt (handler_timeout hd));
  awaiting_sound :
    forall q k, In (q, k) (awaiting g) -> (q < List.length (promises g))%nat;
  reconnect_armed :
    forall h, reconnectTimer g = Some h -> In (reconnect_timer h) (timers g);
  polling_armed :
    forall h, statusPollingTimer g = Some h ->
      exists macs delay, In (mkTimer h delay true (StatusPollingCallback macs)) (timers g);
  reconnect_tracked :
    forall t, In t (timers g) -> is_reconnect t = true ->
      reconnectTimer g = Some (timer_handle t);
  polling_tracked :
    forall t, In t (timers g) -> is_status_polling t = true ->
      statusPollingTimer g = Some (timer_handle t);
  request_handles_own :
    forall p mt h t,
      kind p g = Some (RequestPromise mt h) ->
      In t (timers g) -> timer_handle t = h -> t = request_timer p mt h;
  requests_live :
    forall p mt h,
      nth_error (promises g) p = Some (mkPromise (RequestPromise mt h) Pending) ->
      ~ skip p ->
      In (request_timer p mt h) (timers g)
}.

Definition consistent : State -> Prop := consistent_but (fun _ => False).

(** The states a client can be in. *)
Definition reachable (gatewayIP : string) (key : Gateway.js_string)
    (entropy : nat -> string) (g : State) : Prop :=
  exists events : list Event, g = run gatewayIP key entropy new_gateway events.

(** From [g] to [g'] no promise that was settled changed, and no promise
    changed what it was created for. *)
Definition settled_stay (g g' : State) : Prop :=
  (List.length (promises g) <= List.length (promises g'))%nat /\
  (forall p k, kind p g = Some k -> kind p g' = Some k) /\
  (forall p o, outcome p g = Some o -> o <> Pending -> outcome p g' = Some o).

Definition is_emit (e : Effect) : bool :=
  match e with
  | EmitBlindState _ _ => true
  | _ => false
  end.

Definition is_transmission (e : Effect) : bool :=
  match e with
  | SocketSend _ _ _ _ => true
  | _ => false
  end.

(** From [g] to [g'] the session is what it was (socket, connection
    flag, nonce and access token), and no [blindState] event was
    emitted. *)
Definition session_kept (g g' : State) : Prop :=
  socket g' = socket g /\
  isConnected g' = isConnected g /\
  token g' = token g /\
  accessToken g' = accessToken g /\
  exists delta : list Effect,
    trace g' = trace g ++ delta /\ filter is_emit delta = [].

(** The status query [getStatus] sends for [mac]. *)
Definition status_query (msgID accessToken mac : string) : Gateway.MotionMessage :=
  Gateway.mkMotionMessage "WriteDevice" msgID (Some accessToken) (Some mac)
    (Some Gateway.default_deviceType) (Some (Gateway.mkWriteData Gateway.StatusQuery None)).

(** What the client did from [g] to [g']. *)
Definition since (g g' : State) : list Effect :=
  skipn (List.length (trace g)) (trace g').

(** *** Clients used as concrete inputs *)

Definition example_entropy (n : nat) : string :=
  match n with
  | O => "00000000000000A1"
  | _ => "00000000000000B2"
  end.

Definition example_session : State :=
  run "192.168.1.20" (Gateway.code_points "0123456789abcdef") example_entropy
    new_gateway
    [ CallConnect;
      SocketBound 0 true;
      CallWriteDevice "mac" Gateway.StatusQuery None "10000000" ].

Definition example_connected : State :=
  run "192.168.1.20" (Gateway.code_points "0123456789abcdef") example_entropy
    new_gateway [CallConnect; SocketBound 0 true].

Definition example_write (msgID : string) : Gateway.MotionMessage :=
  Gateway.mkMotionMessage "WriteDevice" msgID (Some (accessToken example_connected))
    (Some "mac"%string) (Some "10000000"%string)
    (Some (Gateway.mkWriteData Gateway.Stop None)).

Definition example_ack : Response :=
  mkResponse (Some "WriteDeviceAck"%string) (Some "1"%string) None (Some "mac"%string)
    (Some "10000000"%string) None None None.

End ClientFacts.

(** ** platform.ts: discovery and routing

    The class [MotionBlindsPlatform] from the moment the device list has
    arrived.  [api.hap.uuid.generate] is a parameter.  A
    [MotionBlindAccessory] is given by its tracker
    ([Accessory.new_accessory]); [blindAccessories] maps a mac to the
    tracker of the accessory stored under it.  [fetchInitialStatus] is
    followed up to its first [await], the timeout of 1000 ms. *)

Module Platform.

Definition BLIND_DEVICE_TYPE : string := "10000000".
Definition PLATFORM_NAME : string := "MotionBlindsLocal".
Definition PLUGIN_NAME : string := "homebridge-motion-blinds-local".

Record BlindConfig : Type := mkBlindConfig {
  blind_mac : string;
  blind_name : string;
  blind_deviceType : option string
}.

Record MotionBlindsConfig : Type := mkMotionBlindsConfig {
  config_gatewayIp : string;
  config_key : string;
  config_blinds : option (list BlindConfig);
  config_pollingInterval : option Z
}.

Record PlatformAccessory : Type := mkPlatformAccessory {
  displayName : string;
  UUID : string;
  context_device : option BlindConfig
}.

Inductive LogLine : Type :=
| MsgLoadingFromCache (displayName : string)
| MsgFirmware (fwVersion ProtocolVersion : option string)
| MsgDiscovered (count : nat)
| MsgNoBlindsConfigured
| MsgNoBlindsFound
| MsgAutoDiscovered (count : nat) (macs : list string)
| MsgRestoring (displayName : string)
| MsgAdding (name : string)
| MsgRemoving (displayName : string)
| MsgPollingStarted (interval : Z).

(** The closure [fetchInitialStatus] leaves behind at its timeout. *)
Inductive Callback : Type :=
| FetchInitialStatusCallback (blinds : list BlindConfig).

Inductive Effect : Type :=
| UpdatePlatformAccessories (accessory : PlatformAccessory)
| RegisterPlatformAccessories (pluginName platformName : string)
    (accessory : PlatformAccessory)
| UnregisterPlatformAccessories (pluginName platformName : string)
    (accessory : PlatformAccessory)
| GatewayStartStatusPolling (macs : list string) (intervalMs : Z)
| SetTimeout (callback : Callback) (delay : Z)
| Log (level : Accessory.LogLevel) (line : LogLine).

Record State : Type := mkState {
  accessories : list (string * PlatformAccessory);
  blindAccessories : list (string * Accessory.World);
  discoveredCacheUUIDs : list string;
  (* this.gateway is not null *)
  gateway : bool;
  (* everything the platform has done to the outside so far, oldest first *)
  trace : list Effect
}.

Definition set_accessories (v : list (string * PlatformAccessory)) (p : State) : State :=
  mkState v (blindAccessories p) (discoveredCacheUUIDs p) (gateway p) (trace p).

Definition set_blindAccessories (v : list (string * Accessory.World)) (p : State) : State :=
  mkState (accessories p) v (discoveredCacheUUIDs p) (gateway p) (trace p).

Definition set_discoveredCacheUUIDs (v : list string) (p : State) : State :=
  mkState (accessories p) (blindAccessories p) v (gateway p) (trace p).

Definition set_trace (v : list Effect) (p : State) : State :=
  mkState (accessories p) (blindAccessories p) (discoveredCacheUUIDs p) (gateway p) v.

Definition emit (e : Effect) (p : State) : State :=
  set_trace (trace p ++ [e]) p.

(** The platform when [initializeGateway] has created the gateway. *)
Definition new_platform : State := mkState [] [] [] true [].

(** A number in a template string. *)
Definition decimal (n : nat) : string :=
  NilEmpty.string_of_uint (Nat.to_uint n).

(** [array.includes(x)] on strings. *)
Definition includes (x : string) (l : list string) : bool :=
  existsb (String.eqb x) l.

Section MotionBlindsPlatform.

(** [api.hap.uuid.generate] *)
Variable generate : string -> string.

Definition configureAccessory (accessory : PlatformAccessory) (p : State) : State :=
  let p := emit (Log Accessory.LogInfo (MsgLoadingFromCache (displayName accessory))) p in
  set_accessories (JsMap.set (UUID accessory) accessory (accessories p)) p.

(** The listener of the gateway's [blindState] event. *)
Definition onBlindState (mac : string) (state : Accessory.BlindState) (p : State) : State :=
  match JsMap.get mac (blindAccessories p) with
  | Some accessory =>
      set_blindAccessories
        (JsMap.set mac (Accessory.updateState state accessory) (blindAccessories p)) p
  | None => p
  end.

(** [fetchInitialStatus], up to its first [await]. *)
Definition fetchInitialStatus (blinds : list BlindConfig) (p : State) : State :=
  if gateway p then emit (SetTimeout (FetchInitialStatusCallback blinds) 1000) p
  else p.

(** The blinds of an auto-discovery: [filter] and [map] with the index. *)
Definition discoveredBlinds (devices : list Client.DeviceInfo) : list Client.DeviceInfo :=
  filter (fun d => String.eqb (Client.info_deviceType d) BLIND_DEVICE_TYPE) devices.

Definition autoBlinds (discovered : list Client.DeviceInfo) : list BlindConfig :=
  map (fun '(index, device) =>
         mkBlindConfig (Client.info_mac device)
           ("Blind " ++ decimal (index + 1))
           (Some (Client.info_deviceType device)))
      (combine (seq 0 (List.length discovered)) discovered).

(** One turn of the loop over the blinds. *)
Definition addBlind (p : State) (blind : BlindConfig) : State :=
  let uuid := generate (blind_mac blind) in
  let p :=
    match JsMap.get uuid (accessories p) with
    | Some existingAccessory =>
        let p := emit (Log Accessory.LogInfo
                         (MsgRestoring (displayName existingAccessory))) p in
        (* the object in the map is updated in place *)
        let existingAccessory :=
          mkPlatformAccessory (displayName existingAccessory) (UUID existingAccessory)
            (Some blind) in
        let p := set_accessories (JsMap.set uuid existingAccessory (accessories p)) p in
        let p := emit (UpdatePlatformAccessories existingAccessory) p in
        set_blindAccessories
          (JsMap.set (blind_mac blind)
             (Accessory.new_accessory (blind_mac blind) (gateway p))
             (blindAccessories p)) p
    | None =>
        let p := emit (Log Accessory.LogInfo (MsgAdding (blind_name blind))) p in
        let accessory := mkPlatformAccessory (blind_name blind) uuid (Some blind) in
        let p :=
          set_blindAccessories
            (JsMap.set (blind_mac blind)
               (Accessory.new_accessory (blind_mac blind) (gateway p))
               (blindAccessories p)) p in
        emit (RegisterPlatformAccessories PLUGIN_NAME PLATFORM_NAME accessory) p
    end in
  set_discoveredCacheUUIDs (discoveredCacheUUIDs p ++ [uuid]) p.

(** One turn of the loop over the cached accessories. *)
Definition removeAbsent (p : State) (entry : string * PlatformAccessory) : State :=
  let '(uuid, accessory) := entry in
  if negb (includes uuid (discoveredCacheUUIDs p)) then
    let p := emit (Log Accessory.LogInfo (MsgRemoving (displayName accessory))) p in
    emit (UnregisterPlatformAccessories PLUGIN_NAME PLATFORM_NAME accessory) p
  else p.

(** The loops of [discoverDevices], from the list of blinds on. *)
Definition registerBlinds (blinds : list BlindConfig) (p : State) : State :=
  let p := fold_left addBlind blinds p in
  let p := fold_left removeAbsent (accessories p) p in
  fetchInitialStatus blinds p.

Definition discoverDevices (config : MotionBlindsConfig)
    (devices : list Client.DeviceInfo) (p : State) : State * list BlindConfig :=
  let blinds :=
    match config_blinds config with
    | Some blinds => blinds
    | None => []
    end in
  match blinds with
  | [] =>
      let p := emit (Log Accessory.LogInfo MsgNoBlindsConfigured) p in
      let discovered := discoveredBlinds devices in
      match discovered with
      | [] => (emit (Log Accessory.LogWarn MsgNoBlindsFound) p, [])
      | _ :: _ =>
          let blinds := autoBlinds discovered in
          let p :=
            emit (Log Accessory.LogInfo
                    (MsgAutoDiscovered (List.length blinds) (map blind_mac blinds))) p in
          (registerBlinds blinds p, blinds)
      end
  | _ :: _ => (registerBlinds blinds p, blinds)
  end.

(** [initializeGateway] from the answer to [getDeviceList] on. *)
Definition onDeviceList (config : MotionBlindsConfig)
    (fwVersion ProtocolVersion : option string) (devices : list Client.DeviceInfo)
    (p : State) : State :=
  let p := emit (Log Accessory.LogInfo (MsgFirmware fwVersion ProtocolVersion)) p in
  let p := emit (Log Accessory.LogDebug (MsgDiscovered (List.length devices))) p in
  let '(p, blinds) := discoverDevices config devices p in
  if (0 <? List.length blinds)%nat then
    let macs := map blind_mac blinds in
    let interval :=
      match config_pollingInterval config with
      | Some 0 | None => 60000
      | Some n => n
      end in
    let p := emit (GatewayStartStatusPolling macs interval) p in
    emit (Log Accessory.LogInfo (MsgPollingStarted interval)) p
  else p.

End MotionBlindsPlatform.

End Platform.

(** ** Vocabulary of the statements about the platform *)

Module PlatformFacts.
Import Platform.

Definition is_log (e : Effect) : bool :=
  match e with
  | Log _ _ => true
  | _ => false
  end.

Definition is_registration (e : Effect) : bool :=
  match e with
  | UpdatePlatformAccessories _ | RegisterPlatformAccessories _ _ _ => true
  | _ => false
  end.

Definition is_unregistration (e : Effect) : bool :=
  match e with
  | UnregisterPlatformAccessories _ _ _ => true
  | _ => false
  end.

Definition is_polling_start (e : Effect) : bool :=
  match e with
  | GatewayStartStatusPolling _ _ => true
  | _ => false
  end.

(** What the platform did from [p] to [p']. *)
Definition done_since (p p' : State) : list Effect :=
  skipn (List.length (trace p)) (trace p').

(** The entry [y] of the cache is the entry [x] it was, or [x] with a new
    context where the key is one of [uuids]. *)
Definition kept (uuids : list string) (x y : string * PlatformAccessory) : Prop :=
  fst y = fst x /\
  displayName (snd y) = displayName (snd x) /\
  UUID (snd y) = UUID (snd x) /\
  (y = x \/ In (fst x) uuids).

(** What the loop over the blinds does for one blind, given the cache
    the loop started from. *)
Definition registration (generate : string -> string) (p : State) (blind : BlindConfig) : list Effect :=
  let uuid := generate (blind_mac blind) in
  match JsMap.get uuid (accessories p) with
  | Some existing =>
      [ Log Accessory.LogInfo (MsgRestoring (displayName existing));
        UpdatePlatformAccessories
          (mkPlatformAccessory (displayName existing) (UUID existing) (Some blind)) ]
  | None =>
      [ Log Accessory.LogInfo (MsgAdding (blind_name blind));
        RegisterPlatformAccessories PLUGIN_NAME PLATFORM_NAME
          (mkPlatformAccessory (blind_name blind) uuid (Some blind)) ]
  end.

(** The accessories the loop over the cache finds absent. *)
Definition absent (seen : list string) (cache : list (string * PlatformAccessory))
    : list PlatformAccessory :=
  map snd (filter (fun '(uuid, _) => negb (includes uuid seen)) cache).

Definition removal (accessory : PlatformAccessory) : list Effect :=
  [ Log Accessory.LogInfo (MsgRemoving (displayName accessory));
    UnregisterPlatformAccessories PLUGIN_NAME PLATFORM_NAME accessory ].

(** The platform when Homebridge has handed it the accessories of its
    cache, one [configureAccessory] call each. *)
Definition loaded (cached : list PlatformAccessory) : State :=
  fold_left (fun p accessory => configureAccessory accessory p) cached new_platform.

(** The uuid scheme of the examples. *)
Definition example_generate (mac : string) : string := ("uuid-" ++ mac)%string.

Definition example_kept : PlatformAccessory :=
  mkPlatformAccessory "Living room" "uuid-a1" None.

Definition example_gone : PlatformAccessory :=
  mkPlatformAccessory "Attic" "uuid-z9" None.

Definition example_config : MotionBlindsConfig :=
  mkMotionBlindsConfig "192.168.1.20" "0123456789abcdef"
    (Some [mkBlindConfig "a1" "Living" None]) None.

End PlatformFacts.

(** ** The plugin: accessory, gateway client and platform together

    The accessory calls the gateway through [this.platform.gateway]; the
    platform listens to the gateway's [blindState] event. *)
Module Plugin.

(** [EventEmitter.emit('blindState', mac, data)] with the listener of
    platform.ts, for the events among [effects]. *)
Definition deliver (effects : list Client.Effect) (p : Platform.State) : Platform.State :=
  fold_left
    (fun p e =>
       match e with
       | Client.EmitBlindState mac (Client.StatusData state) =>
           Platform.onBlindState mac state p
       | _ => p
       end) effects p.

(** The call on [this.platform.gateway] that an effect of the accessory
    stands for. *)
Definition perform (gatewayIP : string) (entropy : nat -> string)
    (e : Accessory.Effect) (g : Client.State) : Client.State * Client.Called :=
  match e with
  | Accessory.GatewayStop mac => Client.stop gatewayIP entropy mac g
  | Accessory.GatewaySetPosition mac position =>
      Client.setPosition gatewayIP entropy mac position g
  | Accessory.GatewayGetStatus mac => Client.getStatus gatewayIP entropy mac g
  | _ => (g, Client.Completed)
  end.

(** The client of [Module Client] seen as the record of [Module Gateway]. *)
Definition session_of (key : Gateway.js_string) (g : Client.State) : Gateway.MotionGateway :=
  Gateway.mkMotionGateway
    (match Client.socket g with Some _ => true | None => false end)
    (Client.isConnected g) key (Client.token g) (Client.accessToken g).

End Plugin.

(** * Properties *)

Import Accessory Vocabulary.

(** ** Scenarios of the specification, run on the model *)

(** Confirmed host position 0, command target 100: the direction is
    increasing and the protocol value sent is 0; the reading with
    protocol position 70 (host 30) is taken as progress, the following
    one with protocol position 100 (host 0) is ignored, and the one with
    protocol position 2 (host 98) completes the command. *)
Example scenario_open_fully :
  let sys1 := run (initial "mac" true)
                [ BlindStateEvent (reading 100); SetTargetEvent 100;
                  PromiseSettles 0 Fulfilled ] in
  let sys2 := step sys1 (BlindStateEvent (reading 70)) in
  let sys3 := step sys2 (BlindStateEvent (reading 100)) in
  let sys4 := step sys3 (BlindStateEvent (reading 2)) in
  (commandInProgress (world sys1) = true /\
   commandDirection (world sys1) = INCREASING /\
   In (GatewaySetPosition "mac" 0) (trace (world sys1))) /\
  displayPosition (world sys2) = 30 /\
  displayPosition (world sys3) = 30 /\
  (commandInProgress (world sys4) = false /\
   displayPosition (world sys4) = 98 /\
   confirmedPosition (world sys4) = 98 /\
   displayTargetPosition (world sys4) = 98 /\
   displayPositionState (world sys4) = STOPPED /\
   timers (world sys4) = []).
Proof. vm_compute. intuition. Qed.

(** Moving towards 100 with 60 displayed, a request for 61 is a stop:
    [stop] is sent and [setPosition] is not, the target is pinned to 60,
    motion-state is stopped and one timeout of 500 ms is pending. *)
Example scenario_stop :
  let sys := run (mkSystem moving_example [])
               [ SetTargetEvent 61; PromiseSettles 0 Fulfilled ] in
  skipn (List.length (trace moving_example)) (trace (world sys))
  = [ Log LogInfo (MsgStopCommand 61 60); GatewayStop "mac";
      UpdateCharacteristic CurrentPosition 60;
      UpdateCharacteristic TargetPosition 60;
      UpdateCharacteristic PositionStateCharacteristic 2 ] /\
  commandInProgress (world sys) = false /\
  displayTargetPosition (world sys) = 60 /\
  displayPositionState (world sys) = STOPPED /\
  timers (world sys) = [mkTimer 30 500 StopRefreshCallback].
Proof. vm_compute. intuition. Qed.

(** Idle with 40 confirmed, a reading with host value 42 is trusted:
    confirmed, displayed and target position all become 42. *)
Example scenario_idle_reading :
  let sys := run (initial "mac" true)
               [ BlindStateEvent (reading 60); BlindStateEvent (reading 58) ] in
  confirmedPosition (world sys) = 42 /\
  displayPosition (world sys) = 42 /\
  displayTargetPosition (world sys) = 42 /\
  displayPositionState (world sys) = STOPPED.
Proof. vm_compute. intuition. Qed.

(** ** The methods as record updates *)

Lemma set_timers_same (w : World) : set_timers (timers w) w = w.
Proof. destruct w; reflexivity. Qed.

Lemma without_nil (ts : list Timer) : without [] ts = ts.
Proof.
  unfold without; induction ts as [|t ts IH]; simpl; [reflexivity|].
  f_equal; exact IH.
Qed.

Lemma without_cons (h : nat) (hs : list nat) (ts : list Timer) :
  without hs (filter (fun t => negb (Nat.eqb (timer_handle t) h)) ts)
  = without (h :: hs) ts.
Proof.
  unfold without; induction ts as [|t ts IH]; simpl; [reflexivity|].
  destruct (Nat.eqb (timer_handle t) h); simpl; [exact IH|].
  destruct (existsb (Nat.eqb (timer_handle t)) hs); simpl; [exact IH|].
  f_equal; exact IH.
Qed.

Lemma in_without (t : Timer) (hs : list nat) (ts : list Timer) :
  In t (without hs ts) <-> In t ts /\ ~ In (timer_handle t) hs.
Proof.
  unfold without; rewrite filter_In, negb_true_iff.
  split; intros [Hin H]; split; trivial.
  - intros Hh. assert (E : existsb (Nat.eqb (timer_handle t)) hs = true).
    { apply existsb_exists. exists (timer_handle t). split; [exact Hh|apply Nat.eqb_refl]. }
    congruence.
  - destruct (existsb (Nat.eqb (timer_handle t)) hs) eqn:E; [|reflexivity].
    apply existsb_exists in E. destruct E as [h [Hh E]].
    apply Nat.eqb_eq in E. subst h. contradiction.
Qed.

Lemma in_cancelled (t : Timer) (o : option nat) (ps : list nat) (ts : list Timer) :
  In t (without ps (without (handle_of o) ts)) <->
  In t ts /\ o <> Some (timer_handle t) /\ ~ In (timer_handle t) ps.
Proof.
  rewrite !in_without. destruct o as [h|]; cbn.
  - split.
    + intros [[Hin Hh] Hps]. repeat split; trivial.
      intros E. apply Hh. left. now inversion E.
    + intros (Hin & Hh & Hps). repeat split; trivial.
      intros [E|[]]. apply Hh. now subst h.
  - split; [intros [[Hin _] Hps]|intros (Hin & _ & Hps)]; repeat split;
      trivial; try discriminate; tauto.
Qed.

(** Reduces field reads of updated worlds. *)
Ltac fields :=
  cbn [ device_mac gateway confirmedPosition displayPosition
          displayTargetPosition displayPositionState commandInProgress
          commandTarget commandDirection commandTimeoutTimer pollTimers
          timers nextHandle trace
          set_confirmedPosition set_displayPosition
          set_displayTargetPosition set_displayPositionState
          set_commandInProgress set_commandTarget set_commandDirection
          set_commandTimeoutTimer set_pollTimers set_timers set_nextHandle
          emit fst snd negb andb ].

Lemma World_eq (w w' : World) :
  device_mac w = device_mac w' ->
  gateway w = gateway w' ->
  confirmedPosition w = confirmedPosition w' ->
  displayPosition w = displayPosition w' ->
  displayTargetPosition w = displayTargetPosition w' ->
  displayPositionState w = displayPositionState w' ->
  commandInProgress w = commandInProgress w' ->
  commandTarget w = commandTarget w' ->
  commandDirection w = commandDirection w' ->
  commandTimeoutTimer w = commandTimeoutTimer w' ->
  pollTimers w = pollTimers w' ->
  timers w = timers w' ->
  nextHandle w = nextHandle w' ->
  trace w = trace w' ->
  w = w'.
Proof. destruct w, w'; cbn; intros; subst; reflexivity. Qed.

Lemma clearTimeouts_eq (hs : list nat) (w : World) :
  fold_left (fun w h => clearTimeout h w) hs w
  = set_timers (without hs (timers w)) w.
Proof.
  revert w; induction hs as [|h hs IH]; intros w; simpl.
  - now rewrite without_nil, set_timers_same.
  - rewrite IH. unfold clearTimeout; simpl. now rewrite without_cons.
Qed.

Lemma cancelPolling_eq (w : World) :
  cancelPolling w
  = set_pollTimers [] (set_timers (without (pollTimers w) (timers w)) w).
Proof. unfold cancelPolling. now rewrite clearTimeouts_eq. Qed.

Lemma clearCommandTimeout_eq (w : World) :
  clearCommandTimeout w
  = set_commandTimeoutTimer None
      (set_timers (without (handle_of (commandTimeoutTimer w)) (timers w)) w).
Proof.
  unfold clearCommandTimeout.
  destruct (commandTimeoutTimer w) as [h|] eqn:E; cbn [handle_of].
  - unfold clearTimeout. cbn [timers set_timers].
    now rewrite <- (without_cons h [] (timers w)), without_nil.
  - rewrite without_nil. destruct w; cbn in *; now subst.
Qed.

Lemma schedulePolling_loop_eq (intervals : list Z) (c : Z) (w : World) :
  schedulePolling_loop intervals c w
  = set_pollTimers (pollTimers w ++ map timer_handle (poll_entries intervals c (nextHandle w)))
      (set_nextHandle (nextHandle w + List.length intervals)%nat
         (set_timers (timers w ++ poll_entries intervals c (nextHandle w)) w)).
Proof.
  revert c w; induction intervals as [|i rest IH]; intros c w.
  - cbn [schedulePolling_loop poll_entries map List.length].
    apply World_eq; fields; rewrite ?app_nil_r, ?Nat.add_0_r; reflexivity.
  - cbn [schedulePolling_loop poll_entries map List.length].
    unfold setTimeout. rewrite IH.
    apply World_eq; fields; rewrite <- ?app_assoc, ?Nat.add_succ_r;
      reflexivity.
Qed.

(** A field read that ignores the timer table and the handles reads
    the same after the methods that only clear or arm timeouts. *)
Lemma cancelPolling_field {A : Type} (f : World -> A) (w : World) :
  (forall ps ts w0, f (set_pollTimers ps (set_timers ts w0)) = f w0) ->
  f (cancelPolling w) = f w.
Proof. intros H. rewrite cancelPolling_eq. apply H. Qed.

Lemma clearCommandTimeout_field {A : Type} (f : World -> A) (w : World) :
  (forall o ts w0, f (set_commandTimeoutTimer o (set_timers ts w0)) = f w0) ->
  f (clearCommandTimeout w) = f w.
Proof. intros H. rewrite clearCommandTimeout_eq. apply H. Qed.

Lemma schedulePolling_loop_field {A : Type} (f : World -> A)
    (intervals : list Z) (c : Z) (w : World) :
  (forall ps n ts w0, f (set_pollTimers ps (set_nextHandle n (set_timers ts w0))) = f w0) ->
  f (schedulePolling_loop intervals c w) = f w.
Proof. intros H. rewrite schedulePolling_loop_eq. apply H. Qed.

Lemma pushStateToHomeKit_field {A : Type} (f : World -> A) (w : World) :
  (forall e1 e2 e3 w0, f (emit e1 (emit e2 (emit e3 w0))) = f w0) ->
  f (pushStateToHomeKit w) = f w.
Proof. intros H. unfold pushStateToHomeKit. apply H. Qed.

Lemma pushStateToHomeKit_trace (w : World) :
  trace (pushStateToHomeKit w)
  = trace w ++ pushed (displayPosition w) (displayTargetPosition w) (displayPositionState w).
Proof. unfold pushStateToHomeKit, pushed. fields. now rewrite <- !app_assoc. Qed.

Lemma gateway_getStatus_opt_field {A : Type} (f : World -> A) (w : World) :
  (forall e w0, f (emit e w0) = f w0) ->
  f (gateway_getStatus_opt w) = f w.
Proof. intros H. unfold gateway_getStatus_opt. destruct (gateway w); [apply H|reflexivity]. Qed.

Lemma gateway_getStatus_opt_trace (w : World) :
  trace (gateway_getStatus_opt w)
  = trace w ++ (if gateway w then [GatewayGetStatus (device_mac w)] else []).
Proof.
  unfold gateway_getStatus_opt. destruct (gateway w); [reflexivity|].
  now rewrite app_nil_r.
Qed.

(** Moves a field read inwards, past a method that does not write the
    field. *)
Ltac field_through_method :=
  match goal with
  | |- context [?f (cancelPolling ?w)] =>
      rewrite (cancelPolling_field f w (fun _ _ _ => eq_refl))
  | |- context [?f (clearCommandTimeout ?w)] =>
      rewrite (clearCommandTimeout_field f w (fun _ _ _ => eq_refl))
  | |- context [?f (schedulePolling_loop ?l ?c ?w)] =>
      rewrite (schedulePolling_loop_field f l c w (fun _ _ _ _ => eq_refl))
  | |- context [?f (pushStateToHomeKit ?w)] =>
      rewrite (pushStateToHomeKit_field f w (fun _ _ _ _ => eq_refl))
  | |- context [?f (gateway_getStatus_opt ?w)] =>
      rewrite (gateway_getStatus_opt_field f w (fun _ _ => eq_refl))
  | |- context [trace (pushStateToHomeKit ?w)] =>
      rewrite (pushStateToHomeKit_trace w)
  | |- context [trace (gateway_getStatus_opt ?w)] =>
      rewrite (gateway_getStatus_opt_trace w)
  end.

(** Rewrites a world built by the accessory's methods into nested field
    updates of the world it started from. *)
Ltac unfold_methods :=
  repeat first
    [ field_through_method
    | rewrite cancelPolling_eq
    | rewrite clearCommandTimeout_eq
    | rewrite schedulePolling_loop_eq
    | progress fields ].

(** Proves two worlds equal field by field. *)
Ltac world_eq :=
  apply World_eq; unfold_methods; rewrite <- ?app_assoc; try reflexivity;
  try assumption.

(** Decides the comparison of two known position states. *)
Ltac direction_eqb :=
  cbn [PositionState_eqb POSITION_STATE Z.eqb Pos.eqb].

(** Settles [within_tolerance a b], or its negation, between two
    numerals. *)
Ltac decide_tolerance :=
  unfold within_tolerance, host_value, protocolToHomeKit, POSITION_TOLERANCE;
  vm_compute;
  let H := fresh in
  intros H; first [ discriminate H | apply H; reflexivity ].

(** Splits a conjunction into its conjuncts, and nothing else. *)
Ltac split_all :=
  repeat match goal with
         | |- _ /\ _ => split
         end.

Lemma completeCommand_eq (p : Z) (w : World) :
  completeCommand p w
  = mkWorld (device_mac w) (gateway w) p p p STOPPED false
      (commandTarget w) (commandDirection w) None []
      (without (pollTimers w) (without (handle_of (commandTimeoutTimer w)) (timers w)))
      (nextHandle w)
      (trace w ++ Log LogInfo (MsgReachedTarget p) :: pushed p p STOPPED).
Proof.
  unfold completeCommand, pushStateToHomeKit, pushed. world_eq.
Qed.

(** ** Position mapping *)



(** ** Status readings *)

Lemma updateState_idle (state : BlindState) (w : World) :
  commandInProgress w = false ->
  updateState state w
  = mkWorld (device_mac w) (gateway w) (host_value state) (host_value state)
      (host_value state) STOPPED false (commandTarget w) (commandDirection w)
      (commandTimeoutTimer w) (pollTimers w) (timers w) (nextHandle w)
      (trace w
       ++ Log LogDebug (MsgGateway (host_value state) false (commandTarget w))
          :: pushed (host_value state) (host_value state) STOPPED).
Proof.
  intros Hidle. unfold updateState, pushStateToHomeKit, pushed, host_value.
  fields. rewrite Hidle. fields.
  world_eq.
Qed.

Lemma updateState_reached (state : BlindState) (w : World) :
  commandInProgress w = true ->
  hasReachedTarget (host_value state) w = true ->
  updateState state w
  = completeCommand (host_value state)
      (emit (Log LogDebug (MsgGateway (host_value state) true (commandTarget w))) w).
Proof.
  intros Hmoving Hnear. unfold updateState, host_value in *.
  fields. rewrite Hmoving. fields.
  unfold hasReachedTarget in *. fields. now rewrite Hnear.
Qed.

Lemma updateState_moving (state : BlindState) (w : World) :
  commandInProgress w = true ->
  hasReachedTarget (host_value state) w = false ->
  updateState state w
  = let logged :=
      emit (Log LogDebug (MsgGateway (host_value state) true (commandTarget w))) w in
    if (if PositionState_eqb (commandDirection w) INCREASING
        then host_value state >? displayPosition w
        else host_value state <? displayPosition w)
    then emit (Log LogDebug (MsgProgress (host_value state) (commandTarget w)))
           (emit (UpdateCharacteristic CurrentPosition (host_value state))
              (set_displayPosition (host_value state) logged))
    else logged.
Proof.
  intros Hmoving Hfar. unfold updateState, host_value in *.
  fields. rewrite Hmoving. fields.
  unfold hasReachedTarget in *. fields. rewrite Hfar.
  reflexivity.
Qed.

Lemma hasReachedTarget_true (p : Z) (w : World) :
  hasReachedTarget p w = true <-> within_tolerance p (commandTarget w).
Proof. unfold hasReachedTarget, within_tolerance. apply Z.leb_le. Qed.

Lemma hasReachedTarget_false (p : Z) (w : World) :
  hasReachedTarget p w = false <-> ~ within_tolerance p (commandTarget w).
Proof.
  unfold hasReachedTarget, within_tolerance. rewrite Z.leb_gt. lia.
Qed.

Lemma sends_nothing_refl (w : World) : sends_nothing w w.
Proof. exists []. now rewrite app_nil_r. Qed.

Lemma sends_nothing_trans (w1 w2 w3 : World) :
  sends_nothing w1 w2 -> sends_nothing w2 w3 -> sends_nothing w1 w3.
Proof.
  intros [d1 [E1 N1]] [d2 [E2 N2]]. exists (d1 ++ d2). split.
  - now rewrite E2, E1, app_assoc.
  - now rewrite existsb_app, N1, N2.
Qed.

(** What a reading that does not complete the command leaves alone. *)
Lemma updateState_moving_frame (state : BlindState) (w : World) :
  commandInProgress w = true ->
  hasReachedTarget (host_value state) w = false ->
  let w' := updateState state w in
  commandInProgress w' = true /\
  commandTarget w' = commandTarget w /\
  commandDirection w' = commandDirection w /\
  commandTimeoutTimer w' = commandTimeoutTimer w /\
  pollTimers w' = pollTimers w /\
  timers w' = timers w /\
  nextHandle w' = nextHandle w /\
  confirmedPosition w' = confirmedPosition w /\
  displayTargetPosition w' = displayTargetPosition w /\
  displayPositionState w' = displayPositionState w /\
  gateway w' = gateway w /\
  device_mac w' = device_mac w /\
  sends_nothing w w'.
Proof.
  intros Hmoving Hfar. cbv zeta.
  rewrite (updateState_moving state w Hmoving Hfar). cbv zeta.
  match goal with
  | |- context [if ?c then _ else _] => destruct c
  end; unfold sends_nothing; fields; rewrite <- ?app_assoc; split_all; trivial;
    eexists; (split; [reflexivity|reflexivity]).
Qed.

(** C4.  While a command is in progress and the reading is not within
    tolerance of the target, the reading replaces the displayed position
    exactly when it is strictly greater than it (direction increasing) or
    strictly less than it (direction decreasing).  A regressive or
    stationary reading changes no field of the accessory and cancels no
    timer; all it leaves behind is the debug log line every reading
    writes.  In both cases motion-state, target, confirmed position and
    the command stay as they are, and nothing is sent to the gateway. *)
Theorem moving_reading_accepted_only_on_progress
    (state : BlindState) (w : World)
    (Hmoving : commandInProgress w = true)
    (Hfar : ~ within_tolerance (host_value state) (commandTarget w)) :
  let w' := updateState state w in
  (commandDirection w = INCREASING ->
     (host_value state > displayPosition w -> displayPosition w' = host_value state) /\
     (host_value state <= displayPosition w ->
      w' = emit (Log LogDebug (MsgGateway (host_value state) true (commandTarget w))) w)) /\
  (commandDirection w = DECREASING ->
     (host_value state < displayPosition w -> displayPosition w' = host_value state) /\
     (host_value state >= displayPosition w ->
      w' = emit (Log LogDebug (MsgGateway (host_value state) true (commandTarget w))) w)) /\
  (displayPosition w' <> displayPosition w ->
   displayPosition w' = host_value state /\
   (commandDirection w = INCREASING -> host_value state > displayPosition w) /\
   (commandDirection w = DECREASING -> host_value state < displayPosition w)) /\
  displayPositionState w' = displayPositionState w /\
  displayTargetPosition w' = displayTargetPosition w /\
  confirmedPosition w' = confirmedPosition w /\
  commandInProgress w' = true /\
  commandTarget w' = commandTarget w /\
  commandDirection w' = commandDirection w /\
  commandTimeoutTimer w' = commandTimeoutTimer w /\
  pollTimers w' = pollTimers w /\
  timers w' = timers w /\
  sends_nothing w w'.
Proof.
  apply hasReachedTarget_false in Hfar.
  destruct (updateState_moving_frame state w Hmoving Hfar)
    as (F1 & F2 & F3 & F4 & F5 & F6 & F7 & F8 & F9 & F10 & F11 & F12 & F13).
  cbv zeta. split_all; trivial;
    rewrite (updateState_moving state w Hmoving Hfar); cbv zeta.
  - intros Hdir. rewrite Hdir. direction_eqb. split; intros Hcmp;
      destruct (Z.gtb_spec (host_value state) (displayPosition w));
      try reflexivity; lia.
  - intros Hdir. rewrite Hdir. direction_eqb. split; intros Hcmp;
      destruct (Z.ltb_spec (host_value state) (displayPosition w));
      try reflexivity; lia.
  - destruct (commandDirection w); direction_eqb;
      match goal with
      | |- context [Z.gtb ?a ?b] => destruct (Z.gtb_spec a b)
      | |- context [Z.ltb ?a ?b] => destruct (Z.ltb_spec a b)
      end; fields; intros Hne; split_all; trivial; try discriminate;
      try contradiction; intros _; lia.
Qed.

Lemma moving_reading_accepted_only_on_progress_witness :
  updateState (reading 70) moving_example
  = emit (Log LogDebug (MsgGateway 30 true 100)) moving_example /\
  displayPosition (updateState (reading 30) moving_example) = 70.
Proof.
  assert (Hmoving : commandInProgress moving_example = true) by reflexivity.
  assert (Hdir : commandDirection moving_example = INCREASING) by reflexivity.
  split.
  - assert (Hfar : ~ within_tolerance (host_value (reading 70))
                       (commandTarget moving_example)) by decide_tolerance.
    destruct (moving_reading_accepted_only_on_progress (reading 70) moving_example
                Hmoving Hfar) as [Hinc _].
    apply (proj2 (Hinc Hdir)). vm_compute. discriminate.
  - assert (Hfar : ~ within_tolerance (host_value (reading 30))
                       (commandTarget moving_example)) by decide_tolerance.
    destruct (moving_reading_accepted_only_on_progress (reading 30) moving_example
                Hmoving Hfar) as [Hinc _].
    apply (proj1 (Hinc Hdir)). vm_compute. reflexivity.
Defined.

Lemma last_cons_default {A : Type} (x d : A) (l : list A) :
  last (x :: l) d = last l x.
Proof.
  revert x d; induction l as [|y l IH]; intros x d; [reflexivity|].
  change (last (x :: y :: l) d) with (last (y :: l) d). now rewrite !IH.
Qed.

(** While no command is in progress every reading is taken over as it
    is, and nothing else moves. *)
Lemma readings_idle (later : list BlindState) (w : World) (state : BlindState) :
  commandInProgress w = false ->
  displayPositionState w = STOPPED ->
  confirmedPosition w = host_value state ->
  displayPosition w = host_value state ->
  displayTargetPosition w = host_value state ->
  let w' := readings later w in
  let v := host_value (last later state) in
  commandInProgress w' = false /\
  displayPositionState w' = STOPPED /\
  confirmedPosition w' = v /\
  displayPosition w' = v /\
  displayTargetPosition w' = v /\
  commandTimeoutTimer w' = commandTimeoutTimer w /\
  pollTimers w' = pollTimers w /\
  timers w' = timers w /\
  sends_nothing w w'.
Proof.
  revert w state; induction later as [|s later IH]; intros w state Hidle Hst Hc Hd Ht.
  - cbn. repeat split; trivial. apply sends_nothing_refl.
  - cbv zeta. rewrite last_cons_default.
    change (readings (s :: later) w) with (readings later (updateState s w)).
    pose proof (updateState_idle s w Hidle) as E.
    assert (Hs : sends_nothing w (updateState s w)).
    { rewrite E. eexists; split; [reflexivity|reflexivity]. }
    destruct (IH (updateState s w) s) as (H1 & H2 & H3 & H4 & H5 & H6 & H7 & H8 & H9);
      try (rewrite E; reflexivity).
    repeat split; trivial.
    + rewrite H6, E; reflexivity.
    + rewrite H7, E; reflexivity.
    + rewrite H8, E; reflexivity.
    + eapply sends_nothing_trans; eassumption.
Qed.

(** C2.  While a command is in progress, a status reading whose host
    value is within tolerance of the commanded target ends the command:
    confirmed position, displayed position and displayed target all
    become the reading's value, motion-state becomes stopped, the
    deadline timeout and the poll timeouts the accessory holds are
    cleared and none is armed.  Readings that follow are handled by the
    idle rule: the accessory stays idle and stopped, the three positions
    follow the latest reading, no timeout is armed and nothing is sent to
    the gateway. *)
Theorem reading_within_tolerance_completes_command
    (state : BlindState) (later : list BlindState) (w : World)
    (Hmoving : commandInProgress w = true)
    (Hnear : within_tolerance (host_value state) (commandTarget w)) :
  let w' := updateState state w in
  let w'' := readings later w' in
  (commandInProgress w' = false /\
   confirmedPosition w' = host_value state /\
   displayPosition w' = host_value state /\
   displayTargetPosition w' = host_value state /\
   displayPositionState w' = STOPPED /\
   commandTimeoutTimer w' = None /\
   pollTimers w' = [] /\
   (forall t : Timer,
      In t (timers w') <->
      In t (timers w) /\
      commandTimeoutTimer w <> Some (timer_handle t) /\
      ~ In (timer_handle t) (pollTimers w)) /\
   sends_nothing w w') /\
  (commandInProgress w'' = false /\
   displayPositionState w'' = STOPPED /\
   confirmedPosition w'' = host_value (last later state) /\
   displayPosition w'' = host_value (last later state) /\
   displayTargetPosition w'' = host_value (last later state) /\
   commandTimeoutTimer w'' = None /\
   pollTimers w'' = [] /\
   timers w'' = timers w' /\
   sends_nothing w' w'').
Proof.
  apply hasReachedTarget_true in Hnear.
  cbv zeta. rewrite (updateState_reached state w Hmoving Hnear), completeCommand_eq.
  cbn [device_mac gateway commandTarget commandDirection commandTimeoutTimer
       pollTimers timers nextHandle trace emit].
  split.
  - split_all; trivial; try (intros t; apply in_cancelled).
    eexists. rewrite <- app_assoc. split; reflexivity.
  - match goal with
    | |- context [readings later ?w1] =>
        pose proof (readings_idle later w1 state eq_refl eq_refl eq_refl eq_refl eq_refl) as H
    end.
    cbv zeta in H. destruct H as (H1 & H2 & H3 & H4 & H5 & H6 & H7 & H8 & H9).
    repeat split; trivial.
Qed.

Lemma reading_within_tolerance_completes_command_witness :
  let w' := updateState (reading 2) moving_example in
  let w'' := readings [reading 50] w' in
  commandInProgress w' = false /\
  displayPosition w' = 98 /\
  displayTargetPosition w' = 98 /\
  confirmedPosition w' = 98 /\
  timers w' = [] /\
  commandInProgress w'' = false /\
  displayPosition w'' = 50.
Proof.
  assert (Hmoving : commandInProgress moving_example = true) by reflexivity.
  assert (Hnear : within_tolerance (host_value (reading 2))
                    (commandTarget moving_example)) by decide_tolerance.
  destruct (reading_within_tolerance_completes_command (reading 2) [reading 50]
              moving_example Hmoving Hnear)
    as [(H1 & H2 & H3 & H4 & _) (L1 & _ & _ & L4 & _)].
  cbv zeta. split_all; trivial.
Defined.

(** ** Set-target requests *)

Lemma cancelCurrentCommand_eq (w : World) :
  cancelCurrentCommand w
  = mkWorld (device_mac w) (gateway w) (confirmedPosition w) (displayPosition w)
      (displayTargetPosition w) (displayPositionState w) false
      (commandTarget w) (commandDirection w) None []
      (without (pollTimers w) (without (handle_of (commandTimeoutTimer w)) (timers w)))
      (nextHandle w) (trace w).
Proof. unfold cancelCurrentCommand. world_eq. Qed.

Lemma startCommand_eq (target currentPos : Z) (w : World) :
  gateway w = true ->
  startCommand target currentPos w
  = (mkWorld (device_mac w) true (confirmedPosition w) (displayPosition w)
       target (direction_towards target currentPos) true
       target (direction_towards target currentPos) (Some (nextHandle w))
       (pollTimers w)
       (without (handle_of (commandTimeoutTimer w)) (timers w)
        ++ [mkTimer (nextHandle w) MAX_MOVEMENT_TIMEOUT CommandTimeoutCallback])
       (S (nextHandle w))
       (trace w
        ++ Log LogInfo (MsgMoveTo target)
           :: pushed (displayPosition w) target (direction_towards target currentPos)
        ++ [GatewaySetPosition (device_mac w) (homeKitToProtocol target)]),
     Suspended AwaitSetPosition).
Proof.
  intros Hgw. unfold startCommand, pushStateToHomeKit, setTimeout, pushed,
    direction_towards.
  unfold_methods. rewrite Hgw. f_equal. world_eq.
Qed.

Lemma commandFailed_eq (w : World) :
  commandFailed w
  = (mkWorld (device_mac w) (gateway w) (confirmedPosition w) (displayPosition w)
       (displayPosition w) STOPPED false
       (commandTarget w) (commandDirection w) None (pollTimers w)
       (without (handle_of (commandTimeoutTimer w)) (timers w))
       (nextHandle w)
       (trace w
        ++ Log LogError MsgCommandFailed
           :: pushed (displayPosition w) (displayPosition w) STOPPED),
     Finished (Threw SERVICE_COMMUNICATION_FAILURE)).
Proof.
  unfold commandFailed, pushStateToHomeKit, pushed. f_equal. world_eq.
Qed.

Lemma setTargetPosition_stop (value : Z) (w : World) :
  gateway w = true ->
  commandInProgress w = true ->
  within_tolerance value (displayPosition w) ->
  setTargetPosition value w
  = (mkWorld (device_mac w) (gateway w) (confirmedPosition w) (displayPosition w)
       (displayTargetPosition w) (displayPositionState w) false
       (commandTarget w) (commandDirection w) None []
       (without (pollTimers w) (without (handle_of (commandTimeoutTimer w)) (timers w)))
       (nextHandle w)
       (trace w ++ [ Log LogInfo (MsgStopCommand value (displayPosition w));
                     GatewayStop (device_mac w) ]),
     Suspended (AwaitStopOfStopCommand (displayPosition w))).
Proof.
  intros Hgw Hmoving Hnear. unfold setTargetPosition. rewrite Hgw, Hmoving.
  cbn [negb andb]. apply Z.leb_le in Hnear. rewrite Hnear.
  f_equal. rewrite cancelCurrentCommand_eq. world_eq.
Qed.

Lemma setTargetPosition_already (value : Z) (w : World) :
  gateway w = true ->
  commandInProgress w = false ->
  within_tolerance value (confirmedPosition w) ->
  setTargetPosition value w
  = (pushStateToHomeKit
       (set_displayTargetPosition value (emit (Log LogDebug MsgAlreadyAtTarget) w)),
     Finished Returned).
Proof.
  intros Hgw Hidle Hnear. unfold setTargetPosition. rewrite Hgw, Hidle.
  cbn [negb andb]. apply Z.leb_le in Hnear. rewrite Hnear. reflexivity.
Qed.

Lemma setTargetPosition_redirect (value : Z) (w : World) :
  gateway w = true ->
  commandInProgress w = true ->
  ~ within_tolerance value (displayPosition w) ->
  setTargetPosition value w
  = (mkWorld (device_mac w) (gateway w) (confirmedPosition w) (displayPosition w)
       (displayTargetPosition w) (displayPositionState w) false
       (commandTarget w) (commandDirection w) None []
       (without (pollTimers w) (without (handle_of (commandTimeoutTimer w)) (timers w)))
       (nextHandle w)
       (trace w ++ [ Log LogInfo (MsgCancelingPrevious value);
                     GatewayStop (device_mac w) ]),
     Suspended (AwaitStopBeforeNewCommand value (displayPosition w))).
Proof.
  intros Hgw Hmoving Hfar. unfold setTargetPosition. rewrite Hgw, Hmoving.
  cbn [negb andb]. unfold within_tolerance in Hfar.
  assert (E : (Z.abs (value - displayPosition w) <=? POSITION_TOLERANCE) = false)
    by (apply Z.leb_gt; lia).
  rewrite E. f_equal. rewrite cancelCurrentCommand_eq. world_eq.
Qed.

Lemma setTargetPosition_new (value : Z) (w : World) :
  gateway w = true ->
  commandInProgress w = false ->
  ~ within_tolerance value (confirmedPosition w) ->
  setTargetPosition value w = startCommand value (confirmedPosition w) w.
Proof.
  intros Hgw Hidle Hfar. unfold setTargetPosition. rewrite Hgw, Hidle.
  cbn [negb andb]. unfold within_tolerance in Hfar.
  assert (E : (Z.abs (value - confirmedPosition w) <=? POSITION_TOLERANCE) = false)
    by (apply Z.leb_gt; lia).
  rewrite E. reflexivity.
Qed.

(** C3.  A set-target request that arrives while a command is in
    progress, with a value within tolerance of the displayed position,
    is a stop.  Up to its [await]: the command is no longer in progress,
    the deadline and poll timeouts the accessory holds are cleared and
    their handles dropped, and the only call on the gateway is [stop].
    After the [await], however the stop settled and whatever happened in
    between: the request returns normally (a failed stop is only logged),
    the displayed target is the displayed position the request found,
    motion-state is stopped, no call is made on the gateway, and one
    timeout of 500 ms is armed whose callback asks the gateway for the
    status. *)
Theorem stop_request_while_moving
    (value : Z) (w : World)
    (Hgw : gateway w = true)
    (Hmoving : commandInProgress w = true)
    (Hnear : within_tolerance value (displayPosition w)) :
  let k := AwaitStopOfStopCommand (displayPosition w) in
  let w1 := fst (setTargetPosition value w) in
  (snd (setTargetPosition value w) = Suspended k /\
   commandInProgress w1 = false /\
   commandTimeoutTimer w1 = None /\
   pollTimers w1 = [] /\
   (forall t : Timer,
      In t (timers w1) <->
      In t (timers w) /\
      commandTimeoutTimer w <> Some (timer_handle t) /\
      ~ In (timer_handle t) (pollTimers w)) /\
   trace w1
   = trace w ++ [ Log LogInfo (MsgStopCommand value (displayPosition w));
                  GatewayStop (device_mac w) ] /\
   displayPosition w1 = displayPosition w /\
   confirmedPosition w1 = confirmedPosition w) /\
  (forall (r : Settled) (w2 : World),
     let w3 := fst (resume k r w2) in
     snd (resume k r w2) = Finished Returned /\
     displayTargetPosition w3 = displayPosition w /\
     displayPositionState w3 = STOPPED /\
     displayPosition w3 = displayPosition w2 /\
     confirmedPosition w3 = confirmedPosition w2 /\
     commandInProgress w3 = commandInProgress w2 /\
     timers w3 = timers w2 ++ [mkTimer (nextHandle w2) 500 StopRefreshCallback] /\
     trace w3
     = trace w2
       ++ match r with
          | Fulfilled => []
          | Rejected => [Log LogDebug MsgStopFailed]
          end
       ++ pushed (displayPosition w2) (displayPosition w) STOPPED /\
     sends_nothing w2 w3) /\
  (forall w4 : World,
     gateway w4 = true ->
     runCallback StopRefreshCallback w4
     = (emit (GatewayGetStatus (device_mac w4)) w4, Suspended AwaitRefreshStatus)).
Proof.
  cbv zeta. rewrite (setTargetPosition_stop value w Hgw Hmoving Hnear).
  fields.
  split; [|split].
  - split_all; trivial. intros t; apply in_cancelled.
  - intros r w2. unfold resume, pushStateToHomeKit, setTimeout, pushed, sends_nothing.
    destruct r; unfold_methods; rewrite <- ?app_assoc; cbn [app];
      repeat split; trivial; eexists; (split; [reflexivity|reflexivity]).
  - intros w4 Hgw4. unfold runCallback. now rewrite Hgw4.
Qed.

Lemma stop_request_while_moving_witness :
  let w1 := fst (setTargetPosition 61 moving_example) in
  let w3 := fst (resume (AwaitStopOfStopCommand 60) Rejected w1) in
  snd (setTargetPosition 61 moving_example) = Suspended (AwaitStopOfStopCommand 60) /\
  commandInProgress w1 = false /\
  skipn 13 (trace w1) = [ Log LogInfo (MsgStopCommand 61 60); GatewayStop "mac" ] /\
  snd (resume (AwaitStopOfStopCommand 60) Rejected w1) = Finished Returned /\
  displayTargetPosition w3 = 60 /\
  displayPositionState w3 = STOPPED /\
  timers w3 = [mkTimer 30 500 StopRefreshCallback].
Proof.
  assert (Hgw : gateway moving_example = true) by reflexivity.
  assert (Hmoving : commandInProgress moving_example = true) by reflexivity.
  assert (Hnear : within_tolerance 61 (displayPosition moving_example))
    by decide_tolerance.
  destruct (stop_request_while_moving 61 moving_example Hgw Hmoving Hnear)
    as [(H1 & H2 & _ & _ & _ & H6 & _) [Hresume _]].
  destruct (Hresume Rejected (fst (setTargetPosition 61 moving_example)))
    as (R1 & R2 & R3 & _ & _ & _ & R7 & _).
  cbv zeta. split_all; trivial.
Defined.

(** C10, as the code has it.  A set-target request that arrives while no
    command is in progress, with a value within tolerance of the
    confirmed position, returns normally, makes no call on the gateway,
    sets the displayed target to the requested value and pushes the
    three characteristics; displayed position, confirmed position,
    motion-state, the command fields and the timeouts stay as they are.
    The new target is within tolerance of the confirmed position; it is
    within tolerance of the displayed position when the two positions
    coincide, as they do after every reading taken while idle. *)
Theorem idle_request_within_tolerance
    (value : Z) (w : World)
    (Hgw : gateway w = true)
    (Hidle : commandInProgress w = false)
    (Hnear : within_tolerance value (confirmedPosition w)) :
  let w' := fst (setTargetPosition value w) in
  snd (setTargetPosition value w) = Finished Returned /\
  displayTargetPosition w' = value /\
  displayPosition w' = displayPosition w /\
  confirmedPosition w' = confirmedPosition w /\
  displayPositionState w' = displayPositionState w /\
  commandInProgress w' = false /\
  commandTarget w' = commandTarget w /\
  commandDirection w' = commandDirection w /\
  commandTimeoutTimer w' = commandTimeoutTimer w /\
  pollTimers w' = pollTimers w /\
  timers w' = timers w /\
  trace w'
  = trace w
    ++ Log LogDebug MsgAlreadyAtTarget
       :: pushed (displayPosition w) value (displayPositionState w) /\
  sends_nothing w w' /\
  within_tolerance (displayTargetPosition w') (confirmedPosition w') /\
  (displayPosition w = confirmedPosition w ->
   within_tolerance (displayTargetPosition w') (displayPosition w')).
Proof.
  cbv zeta. rewrite (setTargetPosition_already value w Hgw Hidle Hnear).
  unfold pushStateToHomeKit, pushed, sends_nothing. unfold_methods.
  rewrite <- !app_assoc. cbn [app].
  split_all; trivial.
  - eexists; split; reflexivity.
  - intros E. now rewrite E.
Qed.

Lemma idle_request_within_tolerance_witness :
  let w := new_accessory "mac" true in
  let w' := fst (setTargetPosition 1 w) in
  snd (setTargetPosition 1 w) = Finished Returned /\
  displayTargetPosition w' = 1 /\
  displayPosition w' = 0 /\
  sends_nothing w w' /\
  within_tolerance (displayTargetPosition w') (displayPosition w').
Proof.
  pose proof (idle_request_within_tolerance 1 (new_accessory "mac" true)
                eq_refl eq_refl) as H.
  cbv zeta in H.
  destruct H as (H1 & H2 & H3 & _ & _ & _ & _ & _ & _ & _ & _ & _ & H13 & _ & H15).
  - unfold within_tolerance, POSITION_TOLERANCE; cbn; lia.
  - cbv zeta. split_all; trivial. apply H15. reflexivity.
Defined.

(** C10 as stated fails on its remark that the new target differs from
    the displayed position by at most 2 units.  The blind was stopped on
    its way at a displayed 60 while the last confirmed position is 0; a
    request for 1 is within tolerance of the confirmed position, so the
    displayed target becomes 1, which is 59 away from the displayed
    position. *)
Lemma idle_request_target_far_from_displayed :
  let w := stopped_midway_example in
  let w' := fst (setTargetPosition 1 w) in
  gateway w = true /\
  commandInProgress w = false /\
  within_tolerance 1 (confirmedPosition w) /\
  snd (setTargetPosition 1 w) = Finished Returned /\
  displayTargetPosition w' = 1 /\
  displayPosition w' = 60 /\
  ~ within_tolerance (displayTargetPosition w') (displayPosition w').
Proof.
  vm_compute. split_all; trivial; try discriminate.
  intros H. apply H. reflexivity.
Qed.

Lemma without_fresh (hs : list nat) (ts : list Timer) :
  (forall t, In t ts -> ~ In (timer_handle t) hs) -> without hs ts = ts.
Proof.
  unfold without; induction ts as [|t ts IH]; intros H; cbn [filter]; [reflexivity|].
  destruct (existsb (Nat.eqb (timer_handle t)) hs) eqn:E.
  - apply existsb_exists in E. destruct E as [h [Hh E]]. apply Nat.eqb_eq in E.
    subst h. exfalso. apply (H t); [left; reflexivity|exact Hh].
  - cbn [negb]. f_equal. apply IH. intros t' Ht'. apply H. right; exact Ht'.
Qed.

Lemma without_app (hs : list nat) (ts1 ts2 : list Timer) :
  without hs (ts1 ++ ts2) = without hs ts1 ++ without hs ts2.
Proof. unfold without. apply filter_app. Qed.

Lemma without_in_old (hs : list nat) (ts : list Timer) (t : Timer) :
  In t (without hs ts) -> In t ts.
Proof. intros H. apply in_without in H. tauto. Qed.

(** C6, as the code has it.  A set-target request that starts a new
    command (from idle, or after the stop that precedes a redirected
    command) marks the command in progress, shows the new target and
    direction, arms the deadline and calls [setPosition].  If that call
    is rejected the request throws a communication error and the
    accessory is idle again: the command is not in progress, the deadline
    timeout is cleared, motion-state is stopped, the displayed target is
    set to the displayed position, and displayed and confirmed position
    are not touched; no poll timeout was armed and nothing more is sent.
    [commandTarget] and [commandDirection] keep the values of the failed
    command.  When nothing happened between the request and the
    rejection and the accessory was idle, the displayed position is the
    one the request found and the timer table is the earlier one without
    the earlier deadline. *)
Theorem failed_send_returns_to_idle
    (value : Z) (w : World)
    (Hgw : gateway w = true)
    (Hfresh : handles_fresh w) :
  (* the request reaches the send *)
  (commandInProgress w = false -> ~ within_tolerance value (confirmedPosition w) ->
   setTargetPosition value w = startCommand value (confirmedPosition w) w) /\
  (commandInProgress w = true -> ~ within_tolerance value (displayPosition w) ->
   snd (setTargetPosition value w)
   = Suspended (AwaitStopBeforeNewCommand value (displayPosition w)) /\
   forall (r : Settled) (w' : World),
     resume (AwaitStopBeforeNewCommand value (displayPosition w)) r w'
     = startCommand value (displayPosition w)
         match r with
         | Fulfilled => w'
         | Rejected => emit (Log LogDebug MsgStopBeforeNewFailed) w'
         end) /\
  (* the optimistic changes *)
  (forall currentPos : Z,
     let w1 := fst (startCommand value currentPos w) in
     snd (startCommand value currentPos w) = Suspended AwaitSetPosition /\
     commandInProgress w1 = true /\
     commandTarget w1 = value /\
     commandDirection w1 = direction_towards value currentPos /\
     displayTargetPosition w1 = value /\
     displayPositionState w1 = direction_towards value currentPos /\
     commandTimeoutTimer w1 = Some (nextHandle w) /\
     In (mkTimer (nextHandle w) MAX_MOVEMENT_TIMEOUT CommandTimeoutCallback) (timers w1) /\
     (* the send is rejected before anything else happens *)
     let w3 := fst (resume AwaitSetPosition Rejected w1) in
     snd (resume AwaitSetPosition Rejected w1)
     = Finished (Threw SERVICE_COMMUNICATION_FAILURE) /\
     commandInProgress w3 = false /\
     displayPositionState w3 = STOPPED /\
     displayTargetPosition w3 = displayPosition w /\
     displayPosition w3 = displayPosition w /\
     confirmedPosition w3 = confirmedPosition w /\
     commandTimeoutTimer w3 = None /\
     pollTimers w3 = pollTimers w /\
     timers w3 = without (handle_of (commandTimeoutTimer w)) (timers w) /\
     commandTarget w3 = value /\
     commandDirection w3 = direction_towards value currentPos /\
     sends_nothing w1 w3) /\
  (* the send is rejected in whatever world the call is resumed in *)
  (forall w2 : World,
     let w3 := fst (resume AwaitSetPosition Rejected w2) in
     snd (resume AwaitSetPosition Rejected w2)
     = Finished (Threw SERVICE_COMMUNICATION_FAILURE) /\
     commandInProgress w3 = false /\
     displayPositionState w3 = STOPPED /\
     displayTargetPosition w3 = displayPosition w2 /\
     displayPosition w3 = displayPosition w2 /\
     confirmedPosition w3 = confirmedPosition w2 /\
     commandTimeoutTimer w3 = None /\
     (forall t : Timer,
        In t (timers w3) <->
        In t (timers w2) /\ commandTimeoutTimer w2 <> Some (timer_handle t)) /\
     pollTimers w3 = pollTimers w2 /\
     commandTarget w3 = commandTarget w2 /\
     commandDirection w3 = commandDirection w2 /\
     trace w3
     = trace w2
       ++ Log LogError MsgCommandFailed
          :: pushed (displayPosition w2) (displayPosition w2) STOPPED /\
     sends_nothing w2 w3).
Proof.
  split; [|split; [|split]].
  - intros Hidle Hfar. now apply setTargetPosition_new.
  - intros Hmoving Hfar. rewrite (setTargetPosition_redirect value w Hgw Hmoving Hfar).
    split; [reflexivity|]. intros r w'. destruct r; reflexivity.
  - intros currentPos. cbv zeta. rewrite (startCommand_eq value currentPos w Hgw).
    cbn [fst snd resume]. rewrite commandFailed_eq.
    cbn [fst snd device_mac gateway confirmedPosition displayPosition
         displayTargetPosition displayPositionState commandInProgress
         commandTarget commandDirection commandTimeoutTimer pollTimers timers
         nextHandle trace handle_of].
    split_all; trivial.
    + apply in_or_app. right. left. reflexivity.
    + rewrite without_app. cbn. rewrite Nat.eqb_refl. cbn. rewrite app_nil_r.
      apply without_fresh. intros t Ht [E|[]].
      apply without_in_old in Ht.
      destruct Hfresh as [Hfresh _]. rewrite Forall_forall in Hfresh.
      specialize (Hfresh t Ht). lia.
    + eexists; split; reflexivity.
  - intros w2. cbv zeta. cbn [resume]. rewrite commandFailed_eq.
    cbn [fst snd device_mac gateway confirmedPosition displayPosition
         displayTargetPosition displayPositionState commandInProgress
         commandTarget commandDirection commandTimeoutTimer pollTimers timers
         nextHandle trace].
    split_all; trivial.
    + intros t. rewrite in_without. destruct (commandTimeoutTimer w2) as [h|]; cbn.
      * split; intros [Hin Hh]; split; trivial.
        -- intros E. apply Hh. left. now inversion E.
        -- intros [E|[]]. apply Hh. now subst h.
      * split; intros [Hin _]; split; trivial; try discriminate; tauto.
    + eexists; split; reflexivity.
Qed.

Lemma failed_send_returns_to_idle_witness :
  let w := idle_example in
  let w1 := fst (setTargetPosition 50 w) in
  let w3 := fst (resume AwaitSetPosition Rejected w1) in
  snd (setTargetPosition 50 w) = Suspended AwaitSetPosition /\
  commandInProgress w1 = true /\
  snd (resume AwaitSetPosition Rejected w1)
  = Finished (Threw SERVICE_COMMUNICATION_FAILURE) /\
  commandInProgress w3 = false /\
  displayPositionState w3 = STOPPED /\
  displayPosition w3 = displayPosition w /\
  commandTimeoutTimer w3 = None /\
  timers w3 = [].
Proof.
  assert (Hgw : gateway idle_example = true) by reflexivity.
  assert (Hfresh : handles_fresh idle_example).
  { split; [|split]; vm_compute; constructor. }
  destruct (failed_send_returns_to_idle 50 idle_example Hgw Hfresh)
    as (Hnew & _ & Hopt & _).
  assert (E : setTargetPosition 50 idle_example
              = startCommand 50 (confirmedPosition idle_example) idle_example).
  { apply Hnew; [reflexivity|]. unfold within_tolerance. vm_compute. intros H.
    apply H. reflexivity. }
  cbv zeta. rewrite E.
  destruct (Hopt (confirmedPosition idle_example))
    as (H1 & H2 & _ & _ & _ & _ & _ & _ & H9 & H10 & H11 & _ & H13 & _ & H15 & _ & H17 & _).
  split_all; trivial.
Defined.

(** C6 as stated fails on "every optimistic state change made for the
    command is reverted".  The accessory is idle with displayed position
    0 and displayed target 1.  A request for 50 shows target 50; when the
    send is rejected the displayed target becomes 0, not the 1 it was,
    and [commandTarget] and [commandDirection] stay at 50 and
    increasing. *)
Lemma failed_send_does_not_restore_target :
  let w := idle_example in
  let w1 := fst (setTargetPosition 50 w) in
  let w3 := fst (resume AwaitSetPosition Rejected w1) in
  gateway w = true /\
  commandInProgress w = false /\
  snd (setTargetPosition 50 w) = Suspended AwaitSetPosition /\
  snd (resume AwaitSetPosition Rejected w1)
  = Finished (Threw SERVICE_COMMUNICATION_FAILURE) /\
  (displayTargetPosition w = 1 /\
   displayTargetPosition w1 = 50 /\
   displayTargetPosition w3 = 0) /\
  (commandTarget w = 0 /\ commandTarget w3 = 50) /\
  (commandDirection w = STOPPED /\ commandDirection w3 = INCREASING).
Proof. vm_compute. split_all; reflexivity. Qed.

(** ** Timeouts *)

Lemma schedulePolling_eq (w : World) :
  schedulePolling w
  = mkWorld (device_mac w) (gateway w) (confirmedPosition w) (displayPosition w)
      (displayTargetPosition w) (displayPositionState w) (commandInProgress w)
      (commandTarget w) (commandDirection w) (commandTimeoutTimer w)
      (map timer_handle (poll_entries POLL_INTERVALS 0 (nextHandle w)))
      (without (pollTimers w) (timers w) ++ poll_entries POLL_INTERVALS 0 (nextHandle w))
      (nextHandle w + List.length POLL_INTERVALS)%nat
      (trace w).
Proof. unfold schedulePolling. world_eq. Qed.

Lemma poll_entries_handles (intervals : list Z) (c : Z) (h : nat) (t : Timer) :
  In t (poll_entries intervals c h) ->
  (h <= timer_handle t)%nat /\ timer_callback t = PollCallback.
Proof.
  revert c h; induction intervals as [|i rest IH]; intros c h; cbn; [tauto|].
  intros [E|Hin].
  - subst t; cbn. split; [lia|reflexivity].
  - apply IH in Hin. split; [lia|tauto].
Qed.

Lemma find_handle_none (h : nat) (ts : list Timer) :
  (forall t, In t ts -> timer_handle t <> h) ->
  find (fun t => Nat.eqb (timer_handle t) h) ts = None.
Proof.
  induction ts as [|t ts IH]; intros H; cbn; [reflexivity|].
  destruct (Nat.eqb (timer_handle t) h) eqn:E.
  - apply Nat.eqb_eq in E. exfalso. apply (H t); [left; reflexivity|exact E].
  - apply IH. intros t' Ht'. apply H. right; exact Ht'.
Qed.

Lemma handleCommandTimeout_eq (w : World) :
  handleCommandTimeout w
  = mkWorld (device_mac w) (gateway w) (confirmedPosition w) (displayPosition w)
      (displayPosition w) STOPPED false (commandTarget w) (commandDirection w)
      (commandTimeoutTimer w) [] (without (pollTimers w) (timers w)) (nextHandle w)
      (trace w
       ++ Log LogWarn (MsgMovementTimeout (commandTarget w))
          :: pushed (displayPosition w) (displayPosition w) STOPPED
       ++ (if gateway w then [GatewayGetStatus (device_mac w)] else [])).
Proof.
  unfold handleCommandTimeout. cbv zeta. world_eq.
Qed.

(** ** What a handler can change *)

Lemma cancelPolling_mk mac gw conf disp dtp dps cip ct cd cto ps ts next tr :
  cancelPolling (mkWorld mac gw conf disp dtp dps cip ct cd cto ps ts next tr)
  = mkWorld mac gw conf disp dtp dps cip ct cd cto [] (without ps ts) next tr.
Proof. now rewrite cancelPolling_eq. Qed.

Lemma clearCommandTimeout_mk mac gw conf disp dtp dps cip ct cd cto ps ts next tr :
  clearCommandTimeout (mkWorld mac gw conf disp dtp dps cip ct cd cto ps ts next tr)
  = mkWorld mac gw conf disp dtp dps cip ct cd None ps (without (handle_of cto) ts) next tr.
Proof. now rewrite clearCommandTimeout_eq. Qed.

Lemma schedulePolling_loop_mk l c mac gw conf disp dtp dps cip ct cd cto ps ts next tr :
  schedulePolling_loop l c (mkWorld mac gw conf disp dtp dps cip ct cd cto ps ts next tr)
  = mkWorld mac gw conf disp dtp dps cip ct cd cto
      (ps ++ map timer_handle (poll_entries l c next))
      (ts ++ poll_entries l c next) (next + List.length l)%nat tr.
Proof. now rewrite schedulePolling_loop_eq. Qed.

(** Runs the methods on a world given field by field. *)
Ltac run_methods :=
  repeat (progress
    (cbv beta iota zeta delta
       [ device_mac gateway confirmedPosition displayPosition
         displayTargetPosition displayPositionState commandInProgress
         commandTarget commandDirection commandTimeoutTimer pollTimers
         timers nextHandle trace
         set_confirmedPosition set_displayPosition
         set_displayTargetPosition set_displayPositionState
         set_commandInProgress set_commandTarget set_commandDirection
         set_commandTimeoutTimer set_pollTimers set_timers set_nextHandle
         emit fst snd negb andb
         setTimeout clearTimeout pushStateToHomeKit gateway_getStatus_opt
         cancelCurrentCommand completeCommand handleCommandTimeout
         commandFailed startCommand schedulePolling runCallback resume
         updateState setTargetPosition hasReachedTarget ];
     rewrite ?cancelPolling_mk, ?clearCommandTimeout_mk, ?schedulePolling_loop_mk)).

Ltac case_if :=
  match goal with
  | |- context [if ?c then _ else _] => destruct c eqn:?
  end.

Lemma poll_entries_bound (intervals : list Z) (c : Z) (h : nat) (t : Timer) :
  In t (poll_entries intervals c h) ->
  (h <= timer_handle t < h + List.length intervals)%nat.
Proof.
  revert c h; induction intervals as [|i rest IH]; intros c h; cbn; [tauto|].
  intros [E|Hin].
  - subst t; cbn. lia.
  - apply IH in Hin. lia.
Qed.

(** Traces a timer or a handle of the later world back to the earlier
    one. *)
Ltac trace_back :=
  repeat match goal with
         | H : In _ (_ ++ _) |- _ => apply in_app_or in H; destruct H as [H|H]
         | H : In _ (without _ _) |- _ => apply without_in_old in H
         | H : In _ (filter _ _) |- _ => apply filter_In in H; destruct H as [H _]
         | H : In _ (map timer_handle _) |- _ =>
             apply in_map_iff in H; destruct H as [? [<- H]]
         | H : In _ (poll_entries _ _ _) |- _ => apply poll_entries_bound in H
         | H : In _ (_ :: _) |- _ => destruct H as [H|H]
         | H : In _ [] |- _ => destruct H
         | H : Some _ = Some _ |- _ => inversion H; subst; clear H
         | H : None = Some _ |- _ => discriminate H
         end;
  subst; cbn [timer_handle] in *.

Ltac solve_evolves :=
  lazymatch goal with
  | |- evolves _ _ =>
      unfold evolves, handles_extend;
      cbn [gateway nextHandle timers pollTimers commandTimeoutTimer
           commandInProgress commandDirection];
      split; [reflexivity|split; [split; [lia|split; [|split]]|]];
      [ intros ? ?; trace_back; auto; right; lia
      | intros ? ?; trace_back; auto; right; lia
      | intros ? ?; trace_back; auto; right; lia
      | let H := fresh in intros H; try discriminate H; auto ]
  end.

Lemma evolves_refl (w : World) : evolves w w.
Proof.
  unfold evolves, handles_extend. split; [reflexivity|split].
  - split; [lia|split; [|split]]; auto.
  - intros H. left. split; [exact H|reflexivity].
Qed.

Lemma direction_towards_not_stopped (target currentPos : Z) :
  (if target >? currentPos then INCREASING else DECREASING) <> STOPPED.
Proof. destruct (target >? currentPos); discriminate. Qed.

Lemma startCommand_evolves (target currentPos : Z) (w : World) :
  evolves w (fst (startCommand target currentPos w)) /\
  displayPosition (fst (startCommand target currentPos w)) = displayPosition w.
Proof.
  destruct w as [mac gw conf disp dtp dps cip ct cd cto ps ts next tr].
  run_methods. destruct gw; run_methods; (split; [|reflexivity]); solve_evolves.
  right. split; [reflexivity|apply direction_towards_not_stopped].
Qed.

Lemma setTargetPosition_evolves (value : Z) (w : World) :
  evolves w (fst (setTargetPosition value w)) /\
  displayPosition (fst (setTargetPosition value w)) = displayPosition w.
Proof.
  unfold setTargetPosition.
  destruct (gateway w) eqn:Hgw; cbn [negb];
    [|split; [apply evolves_refl|reflexivity]].
  destruct (commandInProgress w) eqn:Hcip; cbn [andb]; case_if;
    try apply startCommand_evolves;
    destruct w as [mac gw conf disp dtp dps cip ct cd cto ps ts next tr];
    cbn [commandInProgress] in Hcip; subst cip;
    run_methods; (split; [|reflexivity]).
  all: solve_evolves.
Qed.

Lemma resume_evolves (k : Continuation) (r : Settled) (w : World) :
  evolves w (fst (resume k r w)) /\
  displayPosition (fst (resume k r w)) = displayPosition w.
Proof.
  destruct k as [currentPos|targetPosition currentPos| | |]; cbn [resume].
  - destruct w as [mac gw conf disp dtp dps cip ct cd cto ps ts next tr].
    destruct r; run_methods; (split; [|reflexivity]).
    all: solve_evolves.
  - destruct r; [apply startCommand_evolves|].
    destruct (startCommand_evolves targetPosition currentPos
                (emit (Log LogDebug MsgStopBeforeNewFailed) w)) as [[E1 [E2 E3]] E4].
    split; [|exact E4]. split; [exact E1|split; [exact E2|exact E3]].
  - destruct w as [mac gw conf disp dtp dps cip ct cd cto ps ts next tr].
    destruct r; run_methods; (split; [|reflexivity]).
    all: solve_evolves.
  - destruct r; cbn [fst]; (split; [|reflexivity]);
      [apply evolves_refl|].
    destruct w as [mac gw conf disp dtp dps cip ct cd cto ps ts next tr].
    run_methods. solve_evolves.
  - split; [apply evolves_refl|reflexivity].
Qed.

Lemma fireTimer_evolves (h : nat) (w : World) :
  evolves w (fst (fireTimer h w)) /\
  displayPosition (fst (fireTimer h w)) = displayPosition w.
Proof.
  unfold fireTimer.
  destruct (find (fun t => Nat.eqb (timer_handle t) h) (timers w)) as [t|];
    [|split; [apply evolves_refl|reflexivity]].
  destruct w as [mac gw conf disp dtp dps cip ct cd cto ps ts next tr].
  destruct t as [th td tc]. destruct tc; cbn [timer_callback]; run_methods;
    destruct cip; run_methods; try (destruct gw; run_methods);
    (split; [|reflexivity]).
  all: solve_evolves.
Qed.

Lemma updateState_evolves (state : BlindState) (w : World) :
  evolves w (updateState state w).
Proof.
  destruct w as [mac gw conf disp dtp dps cip ct cd cto ps ts next tr].
  run_methods. destruct cip; run_methods; repeat (case_if; run_methods).
  all: solve_evolves.
Qed.

(** Traces a pending timeout of the later world back to the earlier
    one, keeping what is known about its handle. *)
Ltac timer_origin :=
  repeat match goal with
         | H : In _ (_ ++ _) |- _ => apply in_app_or in H; destruct H as [H|H]
         | H : In _ (without _ _) |- _ => apply in_without in H; destruct H as [H ?]
         | H : In _ (filter _ _) |- _ => apply filter_In in H; destruct H as [H _]
         | H : In _ (_ :: _) |- _ => destruct H as [H|H]
         | H : In _ [] |- _ => destruct H
         end.

Ltac solve_tracked :=
  lazymatch goal with
  | Ht : timers_tracked _ |- timers_tracked _ =>
      let Hd := fresh "Hd" in
      let Hp := fresh "Hp" in
      destruct Ht as [Hd Hp];
      cbn [timers commandTimeoutTimer pollTimers] in Hd, Hp;
      split; cbn [timers commandTimeoutTimer pollTimers];
      (let t := fresh "t" in
       let Hin := fresh "Hin" in
       let Hcb := fresh "Hcb" in
       intros t Hin Hcb; timer_origin; subst;
       cbn [timer_callback timer_handle handle_of] in *;
       try discriminate; try reflexivity;
       try solve [apply poll_entries_handles in Hin; destruct Hin; congruence];
       try solve [apply in_or_app; right; apply in_map; assumption];
       try solve [exfalso;
                  match goal with
                  | Hn : ~ In ?x (?x :: _) |- _ => apply Hn; left; reflexivity
                  end];
       first
         [ let E := fresh "E" in
           pose proof (Hd _ Hin Hcb) as E;
           first [ exact E
                 | exfalso;
                   match goal with
                   | Hn : ~ In _ (handle_of _) |- _ =>
                       rewrite E in Hn; apply Hn; left; reflexivity
                   end ]
         | let E := fresh "E" in
           pose proof (Hp _ Hin Hcb) as E;
           first [ exact E | contradiction ] ])
  end.

Lemma startCommand_tracked (target currentPos : Z) (w : World) :
  timers_tracked w -> timers_tracked (fst (startCommand target currentPos w)).
Proof.
  destruct w as [mac gw conf disp dtp dps cip ct cd cto ps ts next tr].
  intros Ht. run_methods. destruct gw; run_methods.
  all: solve_tracked.
Qed.

Lemma setTargetPosition_tracked (value : Z) (w : World) :
  timers_tracked w -> timers_tracked (fst (setTargetPosition value w)).
Proof.
  intros Ht. unfold setTargetPosition.
  destruct (gateway w) eqn:Hgw; cbn [negb]; [|exact Ht].
  destruct (commandInProgress w) eqn:Hcip; cbn [andb]; case_if;
    try (apply startCommand_tracked; exact Ht);
    destruct w as [mac gw conf disp dtp dps cip ct cd cto ps ts next tr];
    run_methods.
  all: solve_tracked.
Qed.

Lemma resume_tracked (k : Continuation) (r : Settled) (w : World) :
  timers_tracked w -> timers_tracked (fst (resume k r w)).
Proof.
  intros Ht.
  destruct k as [currentPos|targetPosition currentPos| | |]; cbn [resume].
  - destruct w as [mac gw conf disp dtp dps cip ct cd cto ps ts next tr].
    destruct r; run_methods.
    all: solve_tracked.
  - apply startCommand_tracked. destruct r; [exact Ht|].
    destruct w; exact Ht.
  - destruct w as [mac gw conf disp dtp dps cip ct cd cto ps ts next tr].
    destruct r; run_methods.
    all: solve_tracked.
  - destruct r; cbn [fst]; [exact Ht|]. destruct w; exact Ht.
  - exact Ht.
Qed.

Lemma fireTimer_tracked (h : nat) (w : World) :
  timers_tracked w -> timers_tracked (fst (fireTimer h w)).
Proof.
  intros Ht. unfold fireTimer.
  destruct (find (fun t => Nat.eqb (timer_handle t) h) (timers w)) as [t|];
    [|exact Ht].
  destruct w as [mac gw conf disp dtp dps cip ct cd cto ps ts next tr].
  destruct t as [th td tc]. destruct tc; cbn [timer_callback]; run_methods;
    destruct cip; run_methods; try (destruct gw; run_methods).
  all: solve_tracked.
Qed.

Lemma updateState_tracked (state : BlindState) (w : World) :
  timers_tracked w -> timers_tracked (updateState state w).
Proof.
  intros Ht.
  destruct w as [mac gw conf disp dtp dps cip ct cd cto ps ts next tr].
  run_methods. destruct cip; run_methods; repeat (case_if; run_methods).
  all: solve_tracked.
Qed.

Lemma evolves_well_formed (w w' : World) :
  well_formed w -> evolves w w' -> well_formed w'.
Proof.
  intros [(Ht & Hp & Hc) Hsound] (Hgw & (Hn & Et & Ep & Ec) & Hcmd).
  rewrite Forall_forall in Ht, Hp, Hc.
  split; [split; [|split]|]; try (apply Forall_forall).
  - intros t Hin. destruct (Et t Hin) as [Hold|Hnew]; [|lia].
    specialize (Ht t Hold). lia.
  - intros h Hin. destruct (Ep h Hin) as [Hold|Hnew]; [|lia].
    specialize (Hp h Hold). lia.
  - intros h Hin. destruct (commandTimeoutTimer w') as [h'|] eqn:E; [|destruct Hin].
    destruct Hin as [<-|[]]. destruct (Ec h' eq_refl) as [Hold|Hnew]; [|lia].
    assert (Hlt : (h' < nextHandle w)%nat) by (apply Hc; rewrite Hold; left; reflexivity).
    lia.
  - intros Hcip. destruct (Hcmd Hcip) as [[Hcip0 Hdir]|[Hgw0 Hdir]].
    + destruct (Hsound Hcip0) as [Hd Hg]. split; congruence.
    + split; [exact Hdir|congruence].
Qed.

Lemma step_well_formed (sys : System) (e : Event) :
  well_formed (world sys) -> well_formed (world (step sys e)).
Proof.
  intros Hwf. destruct e as [state|value|h|i r]; cbn [step].
  - cbn [world]. eapply evolves_well_formed; [exact Hwf|apply updateState_evolves].
  - pose proof (proj1 (setTargetPosition_evolves value (world sys))) as E.
    destruct (setTargetPosition value (world sys)). cbn [world fst] in *.
    eapply evolves_well_formed; eassumption.
  - pose proof (proj1 (fireTimer_evolves h (world sys))) as E.
    destruct (fireTimer h (world sys)). cbn [world fst] in *.
    eapply evolves_well_formed; eassumption.
  - destruct (nth_error (awaiting sys) i) as [k|]; [|exact Hwf].
    pose proof (proj1 (resume_evolves k r (world sys))) as E.
    destruct (resume k r (world sys)). cbn [world fst] in *.
    eapply evolves_well_formed; eassumption.
Qed.

Lemma step_invariants (sys : System) (e : Event) :
  well_formed (world sys) /\ timers_tracked (world sys) ->
  well_formed (world (step sys e)) /\ timers_tracked (world (step sys e)).
Proof.
  intros [Hwf Ht]. split; [now apply step_well_formed|].
  destruct e as [state|value|h|i r]; cbn [step].
  - now apply updateState_tracked.
  - pose proof (setTargetPosition_tracked value (world sys) Ht) as E.
    destruct (setTargetPosition value (world sys)); exact E.
  - pose proof (fireTimer_tracked h (world sys) Ht) as E.
    destruct (fireTimer h (world sys)); exact E.
  - destruct (nth_error (awaiting sys) i) as [k|]; [|exact Ht].
    pose proof (resume_tracked k r (world sys) Ht) as E.
    destruct (resume k r (world sys)); exact E.
Qed.

Lemma run_invariants (events : list Event) (sys : System) :
  well_formed (world sys) /\ timers_tracked (world sys) ->
  well_formed (world (run sys events)) /\ timers_tracked (world (run sys events)).
Proof.
  revert sys; induction events as [|e events IH]; intros sys H; [exact H|].
  change (run sys (e :: events)) with (run (step sys e) events).
  apply IH. now apply step_invariants.
Qed.

(** In every world an accessory can reach: the pending timeouts and the
    handles it holds were given out by the runtime; the pending deadline
    and poll timeouts are the ones it holds; and a command in progress
    has a direction (increasing or decreasing) and a gateway. *)
Lemma reachable_well_formed (w : World) :
  reachable w ->
  handles_fresh w /\
  timers_tracked w /\
  (commandInProgress w = true ->
   (commandDirection w = INCREASING \/ commandDirection w = DECREASING) /\
   gateway w = true).
Proof.
  intros (mac & gw & events & ->).
  destruct (run_invariants events (initial mac gw)) as [[Hf Hs] Ht].
  - split; [split|].
    + split; [|split]; constructor.
    + intros H; discriminate H.
    + split; intros t [].
  - split; [exact Hf|split; [exact Ht|]]. intros Hcip. destruct (Hs Hcip) as [Hd Hg].
    split; [|exact Hg].
    destruct (commandDirection _); [right|left|]; congruence.
Qed.

(** ** The displayed position over whole runs *)

Lemma updateState_displayPosition (state : BlindState) (w : World) :
  displayPosition (updateState state w) = host_value state \/
  displayPosition (updateState state w) = displayPosition w.
Proof.
  destruct (commandInProgress w) eqn:Hcip.
  - destruct (hasReachedTarget (host_value state) w) eqn:Hreach.
    + rewrite (updateState_reached state w Hcip Hreach), completeCommand_eq.
      left; reflexivity.
    + rewrite (updateState_moving state w Hcip Hreach). cbv zeta.
      case_if; [left|right]; reflexivity.
  - rewrite (updateState_idle state w Hcip). left; reflexivity.
Qed.

Lemma step_displayPosition (sys : System) (e : Event) :
  displayPosition (world (step sys e)) = displayPosition (world sys) \/
  exists state, e = BlindStateEvent state /\
                displayPosition (world (step sys e)) = host_value state.
Proof.
  destruct e as [state|value|h|i r]; cbn [step].
  - cbn [world]. destruct (updateState_displayPosition state (world sys)) as [E|E].
    + right. exists state. split; [reflexivity|exact E].
    + left. exact E.
  - left. pose proof (proj2 (setTargetPosition_evolves value (world sys))) as E.
    destruct (setTargetPosition value (world sys)); exact E.
  - left. pose proof (proj2 (fireTimer_evolves h (world sys))) as E.
    destruct (fireTimer h (world sys)); exact E.
  - left. destruct (nth_error (awaiting sys) i) as [k|]; [|reflexivity].
    pose proof (proj2 (resume_evolves k r (world sys))) as E.
    destruct (resume k r (world sys)); exact E.
Qed.

(** C1, as the code has it.  The accessory does not clamp what it
    displays: a reading is displayed as 100 minus its protocol position.
    So the displayed position stays within [0,100] through every run of
    set-target requests, readings, timeouts and settled gateway calls,
    at every point of the run, provided it starts there (as a new
    accessory does) and every reading carries a protocol position within
    [0,100]; set-target requests never write the displayed position,
    whatever value they ask for. *)
Theorem displayed_position_stays_in_range
    (sys : System) (events : list Event)
    (Hstart : 0 <= displayPosition (world sys) <= 100)
    (Hreadings : Forall reading_in_range events) :
  (forall n : nat,
     0 <= displayPosition (world (run sys (firstn n events))) <= 100) /\
  0 <= displayPosition (world (run sys events)) <= 100 /\
  (forall (value : Z) (w : World),
     displayPosition (fst (setTargetPosition value w)) = displayPosition w) /\
  (forall (state : BlindState) (w : World),
     commandInProgress w = false ->
     displayPosition (updateState state w) = 100 - currentPosition state).
Proof.
  assert (Hrun : forall evs sys0,
             0 <= displayPosition (world sys0) <= 100 ->
             Forall reading_in_range evs ->
             0 <= displayPosition (world (run sys0 evs)) <= 100).
  { induction evs as [|e evs IH]; intros sys0 H0 Hall; [exact H0|].
    inversion Hall as [|e' evs' He Hevs]; subst.
    change (run sys0 (e :: evs)) with (run (step sys0 e) evs).
    apply IH; [|exact Hevs].
    destruct (step_displayPosition sys0 e) as [E|[state [Ee E]]].
    - rewrite E. exact H0.
    - subst e. rewrite E. cbn in He. unfold host_value, protocolToHomeKit. lia. }
  split; [|split; [|split]].
  - intros n. apply Hrun; [exact Hstart|].
    rewrite Forall_forall in *. intros e He. apply Hreadings.
    rewrite <- (firstn_skipn n events). apply in_or_app. left; exact He.
  - apply Hrun; assumption.
  - intros value w. apply setTargetPosition_evolves.
  - intros state w Hidle. rewrite (updateState_idle state w Hidle). reflexivity.
Qed.

Lemma displayed_position_stays_in_range_witness :
  0 <= displayPosition
         (world (run (initial "mac" true)
                   [ BlindStateEvent (reading 100);
                     SetTargetEvent 250;
                     PromiseSettles 0 Fulfilled;
                     BlindStateEvent (reading 40);
                     TimerFires 0 ])) <= 100.
Proof.
  apply (displayed_position_stays_in_range (initial "mac" true)).
  - cbn. lia.
  - repeat constructor; cbn; lia.
Defined.

(** C1 as stated fails: a reading whose protocol position is outside
    [0,100] is displayed as it comes.  A new accessory that receives a
    reading with protocol position 150 displays -50. *)
Lemma out_of_range_reading_is_displayed :
  let sys := run (initial "mac" true) [ BlindStateEvent (reading 150) ] in
  displayPosition (world sys) = -50 /\
  ~ (0 <= displayPosition (world sys) <= 100).
Proof. vm_compute. split; [reflexivity|]. intros [H _]. apply H. reflexivity. Qed.

(** ** The movement deadline over whole runs *)

Lemma find_pending (h : nat) (d : Timer) (ts : list Timer) :
  In d ts -> timer_handle d = h ->
  (forall t, In t ts -> timer_handle t = h -> t = d) ->
  find (fun t => Nat.eqb (timer_handle t) h) ts = Some d.
Proof.
  intros Hin Hh Huniq. induction ts as [|t ts IH]; [destruct Hin|].
  cbn [find]. destruct (Nat.eqb (timer_handle t) h) eqn:E.
  - apply Nat.eqb_eq in E. f_equal. apply Huniq; [left; reflexivity|exact E].
  - apply IH.
    + destruct Hin as [->|Hin]; [|exact Hin].
      apply Nat.eqb_neq in E. contradiction.
    + intros t' Ht'. apply Huniq. right; exact Ht'.
Qed.

Lemma command_started_pending (value currentPos : Z) (sys : System) :
  gateway (world sys) = true ->
  handles_fresh (world sys) ->
  timers_tracked (world sys) ->
  command_pending (nextHandle (world sys)) value
    (world (command_started value currentPos sys)).
Proof.
  intros Hgw (Hft & Hfp & _) (Hd & Hp). rewrite Forall_forall in Hft, Hfp.
  unfold command_started. rewrite (startCommand_eq value currentPos _ Hgw).
  cbn [world]. unfold command_pending.
  cbn [commandInProgress commandTarget gateway timers pollTimers nextHandle].
  split_all; trivial.
  - apply in_or_app. right. left. reflexivity.
  - intros t Hin Hh. timer_origin; [|now subst t].
    specialize (Hft t Hin). lia.
  - intros t Hin Hcb. timer_origin; [|now subst t].
    exfalso. rewrite (Hd t Hin Hcb) in H. apply H. left; reflexivity.
  - intros t Hin Hcb. timer_origin; [now apply Hp|].
    subst t. discriminate Hcb.
  - intros Hin. specialize (Hfp _ Hin). lia.
  - lia.
Qed.

Lemma pending_frame (h : nat) (value : Z) (w w' : World) :
  command_pending h value w ->
  commandInProgress w' = commandInProgress w ->
  commandTarget w' = commandTarget w ->
  gateway w' = gateway w ->
  timers w' = timers w ->
  pollTimers w' = pollTimers w ->
  nextHandle w' = nextHandle w ->
  command_pending h value w'.
Proof.
  unfold command_pending. intros H E1 E2 E3 E4 E5 E6.
  rewrite E1, E2, E3, E4, E5, E6. exact H.
Qed.

Lemma pending_clearTimeout (h h' : nat) (value : Z) (w : World) :
  command_pending h value w -> h' <> h ->
  command_pending h value (clearTimeout h' w).
Proof.
  unfold command_pending. intros (H1 & H2 & H3 & H4 & H5 & H6 & H7 & H8 & H9) Hne.
  unfold clearTimeout; fields. split_all; trivial.
  - apply filter_In. split; [exact H4|]. cbn. apply negb_true_iff, Nat.eqb_neq. auto.
  - intros t Hin. apply filter_In in Hin. apply H5, Hin.
  - intros t Hin. apply filter_In in Hin. apply H6, Hin.
  - intros t Hin. apply filter_In in Hin. apply H7, Hin.
Qed.

Lemma pending_schedulePolling (h : nat) (value : Z) (w : World) :
  command_pending h value w -> command_pending h value (schedulePolling w).
Proof.
  unfold command_pending. intros (H1 & H2 & H3 & H4 & H5 & H6 & H7 & H8 & H9).
  rewrite schedulePolling_eq.
  cbn [commandInProgress commandTarget gateway timers pollTimers nextHandle].
  split_all; trivial.
  - apply in_or_app. left. apply in_without. split; [exact H4|exact H8].
  - intros t Hin Hh. timer_origin; [now apply H5|].
    apply poll_entries_bound in Hin. lia.
  - intros t Hin Hcb. timer_origin; [now apply H6|].
    apply poll_entries_handles in Hin. destruct Hin. congruence.
  - intros t Hin Hcb. timer_origin; [|now apply in_map].
    exfalso. apply H. now apply H7.
  - intros Hin. apply in_map_iff in Hin. destruct Hin as [t [Eh Hin]].
    apply poll_entries_bound in Hin. lia.
  - lia.
Qed.

Lemma quiet_step_pending (h : nat) (value : Z) (sys : System) (e : Event) :
  command_pending h value (world sys) ->
  quiet h value sys e = true ->
  command_pending h value (world (step sys e)).
Proof.
  intros Hp Hq. pose proof Hp as (H1 & H2 & H3 & H4 & H5 & H6 & H7 & H8 & H9).
  destruct e as [state|v|h'|i r]; cbn [quiet step] in *.
  - cbn [world]. apply negb_true_iff in Hq.
    assert (Hfar : hasReachedTarget (host_value state) (world sys) = false).
    { unfold hasReachedTarget. now rewrite H2. }
    destruct (updateState_moving_frame state (world sys) H1 Hfar)
      as (F1 & F2 & F3 & F4 & F5 & F6 & F7 & F8 & F9 & F10 & F11 & F12 & F13).
    apply (pending_frame h value (world sys)); trivial. congruence.
  - discriminate Hq.
  - apply negb_true_iff, Nat.eqb_neq in Hq. unfold fireTimer.
    destruct (find (fun t => Nat.eqb (timer_handle t) h') (timers (world sys)))
      as [t|] eqn:Hfind; [|exact Hp].
    apply find_some in Hfind. destruct Hfind as [Hin Hh]. apply Nat.eqb_eq in Hh.
    pose proof (pending_clearTimeout h h' value (world sys) Hp Hq) as Hc.
    assert (Hcip : commandInProgress (clearTimeout h' (world sys)) = true) by exact H1.
    assert (Hgw : gateway (clearTimeout h' (world sys)) = true) by exact H3.
    unfold runCallback. destruct (timer_callback t) eqn:Hcb.
    + exfalso. apply Hq. rewrite <- Hh. now rewrite (H6 t Hin Hcb).
    + rewrite Hcip, Hgw. cbn [negb world].
      apply (pending_frame h value (clearTimeout h' (world sys))); trivial.
    + rewrite Hgw. cbn [world].
      apply (pending_frame h value (clearTimeout h' (world sys))); trivial.
  - destruct (nth_error (awaiting sys) i) as [k|]; [|exact Hp].
    destruct k, r; try discriminate Hq; cbn [resume world]; try exact Hp.
    apply pending_schedulePolling.
    apply (pending_frame h value (world sys)); trivial.
Qed.

Lemma quiet_run_pending (h : nat) (value : Z) (events : list Event) (sys : System) :
  command_pending h value (world sys) ->
  quiet_run h value sys events = true ->
  command_pending h value (world (run sys events)).
Proof.
  revert sys; induction events as [|e events IH]; intros sys Hp Hq; [exact Hp|].
  cbn [quiet_run] in Hq. apply andb_true_iff in Hq. destruct Hq as [Hq Hqs].
  change (run sys (e :: events)) with (run (step sys e) events).
  apply IH; [|exact Hqs]. now apply quiet_step_pending.
Qed.

Lemma quiet_step_frame (h : nat) (value : Z) (sys : System) (e : Event) :
  command_pending h value (world sys) ->
  quiet h value sys e = true ->
  device_mac (world (step sys e)) = device_mac (world sys) /\
  confirmedPosition (world (step sys e)) = confirmedPosition (world sys).
Proof.
  intros Hp Hq. pose proof Hp as (H1 & H2 & H3 & _).
  destruct e as [state|v|h'|i r]; cbn [quiet step] in *.
  - cbn [world]. apply negb_true_iff in Hq.
    assert (Hfar : hasReachedTarget (host_value state) (world sys) = false).
    { unfold hasReachedTarget. now rewrite H2. }
    destruct (updateState_moving_frame state (world sys) H1 Hfar)
      as (F1 & F2 & F3 & F4 & F5 & F6 & F7 & F8 & F9 & F10 & F11 & F12 & F13).
    split; assumption.
  - discriminate Hq.
  - unfold fireTimer.
    destruct (find (fun t => Nat.eqb (timer_handle t) h') (timers (world sys)))
      as [t|]; [|split; reflexivity].
    unfold runCallback, clearTimeout. fields. rewrite H1, H3.
    destruct (timer_callback t); cbn [negb world]; fields.
    + rewrite handleCommandTimeout_eq. split; reflexivity.
    + split; reflexivity.
    + split; reflexivity.
  - destruct (nth_error (awaiting sys) i) as [k|]; [|split; reflexivity].
    destruct k, r; try discriminate Hq; cbn [resume world];
      try rewrite schedulePolling_eq; split; reflexivity.
Qed.

Lemma quiet_run_frame (h : nat) (value : Z) (events : list Event) (sys : System) :
  command_pending h value (world sys) ->
  quiet_run h value sys events = true ->
  device_mac (world (run sys events)) = device_mac (world sys) /\
  confirmedPosition (world (run sys events)) = confirmedPosition (world sys).
Proof.
  revert sys; induction events as [|e events IH]; intros sys Hp Hq;
    [split; reflexivity|].
  cbn [quiet_run] in Hq. apply andb_true_iff in Hq. destruct Hq as [Hq Hqs].
  change (run sys (e :: events)) with (run (step sys e) events).
  destruct (IH (step sys e)) as [E1 E2];
    [now apply quiet_step_pending|exact Hqs|].
  destruct (quiet_step_frame h value sys e Hp Hq) as [F1 F2].
  split; congruence.
Qed.

(** C5.  A command is started (by a request made while idle, or as the
    second half of a redirection); the deadline timeout is armed with a
    delay of 90000 ms.  Then anything happens that does not end the
    command: readings that are not within tolerance of the target, poll
    ticks and other timeouts, the acknowledgement of the send, settled
    status queries.  The deadline is then still pending and the command
    still in progress, and when the deadline fires: the command is no
    longer in progress, motion-state is stopped, the displayed target is
    the displayed position, no poll or deadline timeout is pending any
    more, exactly one status query is sent, and displayed and confirmed
    position are left as they were.  The deadline fires once; and a
    deadline that fires when no command is in progress does nothing. *)
Theorem movement_deadline_forces_idle
    (value currentPos : Z) (sys : System) (events : list Event)
    (Hgw : gateway (world sys) = true)
    (Hfresh : handles_fresh (world sys))
    (Htracked : timers_tracked (world sys))
    (Hquiet : quiet_run (nextHandle (world sys)) value
                (command_started value currentPos sys) events = true) :
  let h := nextHandle (world sys) in
  let deadline := mkTimer h MAX_MOVEMENT_TIMEOUT CommandTimeoutCallback in
  let sys1 := command_started value currentPos sys in
  let sys3 := run sys1 events in
  let sys4 := step sys3 (TimerFires h) in
  MAX_MOVEMENT_TIMEOUT = 90000 /\
  (In deadline (timers (world sys1)) /\
   commandTimeoutTimer (world sys1) = Some h) /\
  (In deadline (timers (world sys3)) /\
   commandInProgress (world sys3) = true /\
   commandTarget (world sys3) = value) /\
  (awaiting sys4 = awaiting sys3 /\
   commandInProgress (world sys4) = false /\
   displayPositionState (world sys4) = STOPPED /\
   displayTargetPosition (world sys4) = displayPosition (world sys3) /\
   displayPosition (world sys4) = displayPosition (world sys3) /\
   confirmedPosition (world sys4) = confirmedPosition (world sys3) /\
   confirmedPosition (world sys4) = confirmedPosition (world sys) /\
   pollTimers (world sys4) = [] /\
   (forall t, In t (timers (world sys4)) ->
      timer_callback t = StopRefreshCallback /\ In t (timers (world sys3))) /\
   trace (world sys4)
   = trace (world sys3)
     ++ Log LogWarn (MsgMovementTimeout value)
        :: pushed (displayPosition (world sys3)) (displayPosition (world sys3)) STOPPED
     ++ [GatewayGetStatus (device_mac (world sys))]) /\
  step sys4 (TimerFires h) = sys4 /\
  (forall w' : World,
     commandInProgress w' = false ->
     runCallback CommandTimeoutCallback w' = (w', Finished Returned)).
Proof.
  intros h deadline sys1 sys3 sys4.
  pose proof (command_started_pending value currentPos sys Hgw Hfresh Htracked) as Hp1.
  fold h sys1 in Hp1.
  pose proof (quiet_run_pending h value events sys1 Hp1 Hquiet) as Hp3.
  destruct (quiet_run_frame h value events sys1 Hp1 Hquiet) as [Fmac Fconf].
  fold sys3 in Hp3, Fmac, Fconf.
  assert (E1 : world sys1
               = fst (startCommand value currentPos (world sys))).
  { unfold sys1, command_started.
    destruct (startCommand value currentPos (world sys)); reflexivity. }
  rewrite (startCommand_eq value currentPos _ Hgw) in E1. cbn [fst] in E1.
  pose proof Hp3 as (H1 & H2 & H3 & H4 & H5 & H6 & H7 & H8 & H9).
  fold deadline in H4, H5, H6.
  assert (Hfind : find (fun t => Nat.eqb (timer_handle t) h) (timers (world sys3))
                  = Some deadline)
    by (apply find_pending; [exact H4|reflexivity|exact H5]).
  assert (E4 : sys4
               = mkSystem (handleCommandTimeout (clearTimeout h (world sys3)))
                   (awaiting sys3)).
  { unfold sys4. cbn [step]. unfold fireTimer. rewrite Hfind.
    cbn [timer_callback deadline runCallback].
    unfold clearTimeout at 1. fields. rewrite H1. reflexivity. }
  assert (W4 : world sys4
               = mkWorld (device_mac (world sys)) true
                   (confirmedPosition (world sys)) (displayPosition (world sys3))
                   (displayPosition (world sys3)) STOPPED false value
                   (commandDirection (world sys3)) (commandTimeoutTimer (world sys3)) []
                   (without (pollTimers (world sys3))
                      (filter (fun t => negb (Nat.eqb (timer_handle t) h))
                         (timers (world sys3))))
                   (nextHandle (world sys3))
                   (trace (world sys3)
                    ++ Log LogWarn (MsgMovementTimeout value)
                       :: pushed (displayPosition (world sys3))
                            (displayPosition (world sys3)) STOPPED
                    ++ [GatewayGetStatus (device_mac (world sys))])).
  { rewrite E4. cbn [world]. rewrite handleCommandTimeout_eq.
    unfold clearTimeout. fields. rewrite H2, H3, Fmac, Fconf, E1. reflexivity. }
  assert (Htimers : forall t, In t (timers (world sys4)) ->
                      timer_callback t = StopRefreshCallback /\
                      In t (timers (world sys3)) /\ timer_handle t <> h).
  { intros t Hin. rewrite W4 in Hin. cbn [timers] in Hin.
    apply in_without in Hin. destruct Hin as [Hin Hnp].
    apply filter_In in Hin. destruct Hin as [Hin Hne].
    apply negb_true_iff, Nat.eqb_neq in Hne.
    split; [|split; assumption].
    destruct (timer_callback t) eqn:Hcb; [| |reflexivity].
    - exfalso. apply Hne. now rewrite (H6 t Hin Hcb).
    - exfalso. apply Hnp. now apply H7. }
  split; [reflexivity|]. split; [|split; [|split; [|split]]].
  - rewrite E1. split; [|reflexivity].
    cbn [timers]. apply in_or_app. right. left. reflexivity.
  - split_all; assumption.
  - rewrite E4 at 1. cbn [awaiting]. rewrite W4.
    cbn [commandInProgress displayPositionState displayTargetPosition
         displayPosition confirmedPosition pollTimers trace].
    split_all; trivial.
    + rewrite Fconf, E1. reflexivity.
    + intros t Hin. rewrite <- W4 in Hin. destruct (Htimers t Hin) as (A & B & _).
      split; assumption.
  - assert (Hnone : find (fun t => Nat.eqb (timer_handle t) h) (timers (world sys4))
                    = None).
    { apply find_handle_none. intros t Hin. now apply Htimers. }
    cbn [step]. unfold fireTimer. rewrite Hnone. cbn [park].
    rewrite E4. reflexivity.
  - intros w' Hidle. unfold runCallback. now rewrite Hidle.
Qed.

Lemma movement_deadline_forces_idle_witness :
  let sys := initial "mac" true in
  let sys3 :=
    run (command_started 100 0 sys)
      [ BlindStateEvent (reading 100);
        PromiseSettles 0 Fulfilled;
        TimerFires 1;
        BlindStateEvent (reading 40);
        PromiseSettles 0 Rejected;
        TimerFires 2;
        BlindStateEvent (reading 70) ] in
  let sys4 := step sys3 (TimerFires 0) in
  In (mkTimer 0 90000 CommandTimeoutCallback) (timers (world sys3)) /\
  commandInProgress (world sys3) = true /\
  commandInProgress (world sys4) = false /\
  displayPositionState (world sys4) = STOPPED /\
  displayTargetPosition (world sys4) = 60 /\
  displayPosition (world sys4) = 60 /\
  confirmedPosition (world sys4) = 0 /\
  pollTimers (world sys4) = [] /\
  timers (world sys4) = [] /\
  skipn (List.length (trace (world sys3))) (trace (world sys4))
  = Log LogWarn (MsgMovementTimeout 100) :: pushed 60 60 STOPPED
    ++ [GatewayGetStatus "mac"].
Proof.
  assert (Hgw : gateway (world (initial "mac" true)) = true) by reflexivity.
  assert (Hfresh : handles_fresh (world (initial "mac" true)))
    by (split; [|split]; constructor).
  assert (Htracked : timers_tracked (world (initial "mac" true)))
    by (split; intros t []).
  pose proof (movement_deadline_forces_idle 100 0 (initial "mac" true)
                [ BlindStateEvent (reading 100);
                  PromiseSettles 0 Fulfilled;
                  TimerFires 1;
                  BlindStateEvent (reading 40);
                  PromiseSettles 0 Rejected;
                  TimerFires 2;
                  BlindStateEvent (reading 70) ]
                Hgw Hfresh Htracked eq_refl) as H.
  cbv zeta in H.
  destruct H as (_ & _ & (H2 & H3 & _)
                 & (_ & H6 & H7 & H8 & H9 & _ & H11 & H12 & _ & H14) & _).
  cbv zeta. split_all.
  - exact H2.
  - exact H3.
  - exact H6.
  - exact H7.
  - etransitivity; [exact H8|vm_compute; reflexivity].
  - etransitivity; [exact H9|vm_compute; reflexivity].
  - exact H11.
  - exact H12.
  - vm_compute. reflexivity.
  - etransitivity; [apply (f_equal (skipn _) H14)|].
    rewrite skipn_app, skipn_all, Nat.sub_diag. reflexivity.
Defined.

(** ** The write clamp *)

(** C8.  Whatever target position [writeDevice] (and so [setPosition])
    is given, below 0 and above 100 included, the message it hands to
    the socket carries the position clamped to [0,100]: the input itself
    when that lies in [0,100], 0 below and 100 above.  A connected
    gateway does transmit; [setPosition] sends operation [Close]. *)
Theorem setPosition_clamps_target
    (g : Gateway.MotionGateway) (msgID mac : string)
    (operation : Gateway.Operation) (deviceType : string) (position : Z)
    (message : Gateway.MotionMessage)
    (Hsent : Gateway.writeDevice g msgID mac operation (Some position) deviceType
             = Gateway.Transmitted message) :
  (exists v : Z,
     Gateway.data message = Some (Gateway.mkWriteData operation (Some v)) /\
     0 <= v <= 100 /\
     (0 <= position <= 100 -> v = position) /\
     (position < 0 -> v = 0) /\
     (100 < position -> v = 100)) /\
  Gateway.setPosition g msgID mac position
  = Gateway.writeDevice g msgID mac Gateway.Close (Some position) Gateway.default_deviceType /\
  (Gateway.socket g = true /\ Gateway.isConnected g = true) /\
  Gateway.msgType message = "WriteDevice"%string.
Proof.
  unfold Gateway.writeDevice, Gateway.send in Hsent.
  destruct (Gateway.socket g), (Gateway.isConnected g); cbn in Hsent;
    try discriminate Hsent.
  inversion Hsent; subst message; clear Hsent. cbn.
  split; [|auto].
  exists (Gateway.clamp_position position). unfold Gateway.clamp_position.
  split; [reflexivity|]. lia.
Qed.

Lemma setPosition_clamps_target_witness :
  let g := Gateway.mkMotionGateway true true [] [] "" in
  exists message v,
    Gateway.setPosition g "00" "mac" 250 = Gateway.Transmitted message /\
    Gateway.data message = Some (Gateway.mkWriteData Gateway.Close (Some v)) /\
    v = 100.
Proof.
  cbv zeta.
  set (g := Gateway.mkMotionGateway true true [] [] "").
  destruct (Gateway.setPosition g "00" "mac" 250) as [|message] eqn:E;
    [discriminate E|].
  destruct (setPosition_clamps_target g "00" "mac" Gateway.Close
              Gateway.default_deviceType 250 message E)
    as [[v (Hdata & _ & _ & _ & Hhigh)] _].
  exists message, v. split; [reflexivity|]. split; [exact Hdata|].
  apply Hhigh. lia.
Defined.

(** ** The access token *)

Import Byte.

(** The example vector of FIPS-197, appendix C.1. *)
Example aes_128_fips197_example :
  Aes128.aes_128_ecb
    [ x00; x01; x02; x03; x04; x05; x06; x07; x08; x09; x0a; x0b; x0c; x0d; x0e; x0f ]
    [ x00; x11; x22; x33; x44; x55; x66; x77; x88; x99; xaa; xbb; xcc; xdd; xee; xff ]
  = [ x69; xc4; xe0; xd8; x6a; x7b; x04; x30; xd8; xcd; xb7; x80; x70; xb4; xc5; x5a ].
Proof. vm_compute. reflexivity. Qed.

(** Two tokens, as an AES implementation computes them from the padded
    UTF-8 bytes: a 17-character key with a 16-character nonce, and a
    short key with the nonce "n" followed by U+00E9. *)
Example getAccessToken_examples :
  Gateway.getAccessToken (Gateway.code_points "0123456789abcdefX")
    (Gateway.code_points "sessionnonce0001")
  = "4E567338F7A64657FE2549F4C4D56774"%string /\
  Gateway.getAccessToken (Gateway.code_points "abc") [110; 233]%N
  = "03E2A8F148A9F1709F46D106A0991F0F"%string.
Proof. vm_compute. split; reflexivity. Qed.

(** *** AES-128 encrypts injectively *)

Lemma to_bits_inj (a b : byte) : to_bits a = to_bits b -> a = b.
Proof.
  intros H. rewrite <- (of_bits_to_bits a), <- (of_bits_to_bits b). now rewrite H.
Qed.

Lemma to_bits_bxor (a b : byte) :
  to_bits (Aes128.bxor a b) = Aes128.xor_bits (to_bits a) (to_bits b).
Proof. apply to_bits_of_bits. Qed.

Lemma to_bits_xtime (a : byte) :
  to_bits (Aes128.xtime a) = Aes128.xtime_bits (to_bits a).
Proof. apply to_bits_of_bits. Qed.

(** Reduces an equation between bytes built with [bxor] and [xtime] to
    equations between the bits of the bytes involved. *)
Ltac bitwise :=
  apply to_bits_inj;
  unfold mul14, mul13, mul11, mul9, Aes128.mul3, Aes128.mul2;
  repeat first [rewrite to_bits_bxor | rewrite to_bits_xtime];
  repeat match goal with
         | |- context [to_bits ?a] =>
             let a0 := fresh "b" in let a1 := fresh "b" in let a2 := fresh "b" in
             let a3 := fresh "b" in let a4 := fresh "b" in let a5 := fresh "b" in
             let a6 := fresh "b" in let a7 := fresh "b" in
             destruct (to_bits a) as (a0 & a1 & a2 & a3 & a4 & a5 & a6 & a7)
         end;
  cbn [Aes128.xor_bits Aes128.xtime_bits];
  repeat match goal with
         | |- (_, _) = (_, _) => f_equal
         end;
  btauto.

Lemma bxor_cancel (a k : byte) : Aes128.bxor (Aes128.bxor a k) k = a.
Proof. bitwise. Qed.

Lemma xor_word_cancel (a k : Aes128.word) :
  Aes128.xor_word (Aes128.xor_word a k) k = a.
Proof.
  destruct a, k; unfold Aes128.xor_word; cbn. now rewrite !bxor_cancel.
Qed.

Lemma add_round_key_cancel (k s : Aes128.block) :
  Aes128.add_round_key k (Aes128.add_round_key k s) = s.
Proof.
  destruct k, s; unfold Aes128.add_round_key; cbn. now rewrite !xor_word_cancel.
Qed.

Lemma inv_mix_column_mix_column (w : Aes128.word) :
  inv_mix_column (Aes128.mix_column w) = w.
Proof.
  destruct w as [a0 a1 a2 a3]. cbn [Aes128.mix_column inv_mix_column].
  f_equal; bitwise.
Qed.

Lemma inv_sub_byte_sub_byte (b : byte) : inv_sub_byte (Aes128.sub_byte b) = Some b.
Proof. destruct b; vm_compute; reflexivity. Qed.

Lemma sub_byte_injective (a b : byte) :
  Aes128.sub_byte a = Aes128.sub_byte b -> a = b.
Proof.
  intros H. apply (f_equal inv_sub_byte) in H.
  rewrite !inv_sub_byte_sub_byte in H. now inversion H.
Qed.

Lemma sub_bytes_injective (s1 s2 : Aes128.block) :
  Aes128.sub_bytes s1 = Aes128.sub_bytes s2 -> s1 = s2.
Proof.
  destruct s1 as [[] [] [] []], s2 as [[] [] [] []].
  unfold Aes128.sub_bytes, Aes128.map_word.
  cbn [Aes128.col0 Aes128.col1 Aes128.col2 Aes128.col3
       Aes128.row0 Aes128.row1 Aes128.row2 Aes128.row3].
  intros H. inversion H.
  repeat match goal with
         | E : Aes128.sub_byte _ = Aes128.sub_byte _ |- _ =>
             apply sub_byte_injective in E
         end.
  subst. reflexivity.
Qed.

Lemma inv_shift_rows_shift_rows (s : Aes128.block) :
  inv_shift_rows (Aes128.shift_rows s) = s.
Proof. destruct s as [[] [] [] []]. reflexivity. Qed.

Lemma shift_rows_injective (s1 s2 : Aes128.block) :
  Aes128.shift_rows s1 = Aes128.shift_rows s2 -> s1 = s2.
Proof.
  intros H. apply (f_equal inv_shift_rows) in H.
  now rewrite !inv_shift_rows_shift_rows in H.
Qed.

Lemma mix_column_injective (w1 w2 : Aes128.word) :
  Aes128.mix_column w1 = Aes128.mix_column w2 -> w1 = w2.
Proof.
  intros H. apply (f_equal inv_mix_column) in H.
  now rewrite !inv_mix_column_mix_column in H.
Qed.

Lemma mix_columns_injective (s1 s2 : Aes128.block) :
  Aes128.mix_columns s1 = Aes128.mix_columns s2 -> s1 = s2.
Proof.
  destruct s1 as [a0 a1 a2 a3], s2 as [b0 b1 b2 b3].
  unfold Aes128.mix_columns; cbn [Aes128.col0 Aes128.col1 Aes128.col2 Aes128.col3].
  intros H. inversion H.
  repeat match goal with
         | E : Aes128.mix_column _ = Aes128.mix_column _ |- _ =>
             apply mix_column_injective in E
         end.
  subst. reflexivity.
Qed.

Lemma add_round_key_injective (k s1 s2 : Aes128.block) :
  Aes128.add_round_key k s1 = Aes128.add_round_key k s2 -> s1 = s2.
Proof.
  intros H. apply (f_equal (Aes128.add_round_key k)) in H.
  now rewrite !add_round_key_cancel in H.
Qed.

Lemma rounds_injective (rcons : list byte) (k s1 s2 : Aes128.block) :
  Aes128.rounds rcons k s1 = Aes128.rounds rcons k s2 -> s1 = s2.
Proof.
  revert k s1 s2; induction rcons as [|rcon rest IH]; intros k s1 s2 H.
  - exact H.
  - destruct rest as [|rcon' rest].
    + cbn [Aes128.rounds] in H.
      apply add_round_key_injective, shift_rows_injective, sub_bytes_injective in H.
      exact H.
    + change (Aes128.rounds (rcon :: rcon' :: rest) k s1)
        with (Aes128.rounds (rcon' :: rest) (Aes128.next_round_key rcon k)
                (Aes128.add_round_key (Aes128.next_round_key rcon k)
                   (Aes128.mix_columns (Aes128.shift_rows (Aes128.sub_bytes s1))))) in H.
      change (Aes128.rounds (rcon :: rcon' :: rest) k s2)
        with (Aes128.rounds (rcon' :: rest) (Aes128.next_round_key rcon k)
                (Aes128.add_round_key (Aes128.next_round_key rcon k)
                   (Aes128.mix_columns (Aes128.shift_rows (Aes128.sub_bytes s2))))) in H.
      apply IH in H.
      apply add_round_key_injective, mix_columns_injective, shift_rows_injective,
        sub_bytes_injective in H.
      exact H.
Qed.

(** For every key, AES-128 maps different blocks to different blocks. *)
Lemma encrypt_block_injective (key p1 p2 : Aes128.block) :
  Aes128.encrypt_block key p1 = Aes128.encrypt_block key p2 -> p1 = p2.
Proof.
  unfold Aes128.encrypt_block. intros H.
  apply rounds_injective, add_round_key_injective in H. exact H.
Qed.

Lemma block_of_bytes_of_block (s : Aes128.block) :
  Aes128.block_of_bytes (Aes128.bytes_of_block s) = s.
Proof. destruct s as [[] [] [] []]. reflexivity. Qed.

Lemma bytes_of_block_of_bytes (l : list byte) :
  List.length l = 16%nat -> Aes128.bytes_of_block (Aes128.block_of_bytes l) = l.
Proof.
  intros H.
  do 16 (destruct l as [|? l]; [discriminate H|]).
  destruct l; [reflexivity|discriminate H].
Qed.

Lemma aes_128_ecb_injective (key d1 d2 : list byte) :
  List.length d1 = 16%nat -> List.length d2 = 16%nat ->
  Aes128.aes_128_ecb key d1 = Aes128.aes_128_ecb key d2 -> d1 = d2.
Proof.
  unfold Aes128.aes_128_ecb. intros L1 L2 H.
  apply (f_equal Aes128.block_of_bytes) in H.
  rewrite !block_of_bytes_of_block in H.
  apply encrypt_block_injective in H.
  apply (f_equal Aes128.bytes_of_block) in H.
  now rewrite !bytes_of_block_of_bytes in H.
Qed.

Lemma aes_128_ecb_length (key data : list byte) :
  List.length (Aes128.aes_128_ecb key data) = 16%nat.
Proof. reflexivity. Qed.

(** *** From the cipher text to the token *)

Lemma toUpperCase_string_of_list (l : list ascii) :
  Gateway.toUpperCase (string_of_list_ascii l)
  = string_of_list_ascii (map Gateway.upper_char l).
Proof. induction l as [|c l IH]; cbn; [reflexivity|]. now rewrite IH. Qed.

Lemma map_upper_hex (buf : list byte) :
  map Gateway.upper_char (flat_map Gateway.hex_of_byte buf)
  = flat_map upper_hex_of_byte buf.
Proof.
  induction buf as [|b buf IH]; [reflexivity|].
  cbn [flat_map]. rewrite map_app, IH. reflexivity.
Qed.

Lemma token_of_cipher_text (buf : list byte) :
  Gateway.toUpperCase (Gateway.toString_hex buf)
  = string_of_list_ascii (flat_map upper_hex_of_byte buf).
Proof.
  unfold Gateway.toString_hex. now rewrite toUpperCase_string_of_list, map_upper_hex.
Qed.

Lemma string_of_list_ascii_length (l : list ascii) :
  String.length (string_of_list_ascii l) = List.length l.
Proof. induction l as [|c l IH]; cbn; [reflexivity|]. now rewrite IH. Qed.

Lemma upper_hex_length (buf : list byte) :
  List.length (flat_map upper_hex_of_byte buf) = (2 * List.length buf)%nat.
Proof.
  induction buf as [|b buf IH]; [reflexivity|].
  cbn [flat_map List.length]. rewrite length_app, IH. cbn. lia.
Qed.

Lemma upper_hex_of_byte_is_upper_hex (b : byte) :
  forallb is_upper_hex (upper_hex_of_byte b) = true.
Proof. destruct b; vm_compute; reflexivity. Qed.

Lemma upper_hex_is_upper_hex (buf : list byte) :
  forallb is_upper_hex (flat_map upper_hex_of_byte buf) = true.
Proof.
  induction buf as [|b buf IH]; [reflexivity|].
  cbn [flat_map]. now rewrite forallb_app, upper_hex_of_byte_is_upper_hex, IH.
Qed.

Lemma byte_of_upper_hex_of_byte (b : byte) :
  exists c1 c2,
    upper_hex_of_byte b = [c1; c2] /\ byte_of_upper_hex c1 c2 = Some b.
Proof. destruct b; eexists; eexists; (split; [reflexivity|vm_compute; reflexivity]). Qed.

Lemma upper_hex_injective (buf1 buf2 : list byte) :
  flat_map upper_hex_of_byte buf1 = flat_map upper_hex_of_byte buf2 -> buf1 = buf2.
Proof.
  revert buf2; induction buf1 as [|a buf1 IH]; intros [|b buf2] H.
  - reflexivity.
  - cbn [flat_map] in H. destruct (byte_of_upper_hex_of_byte b) as (c1 & c2 & E & _).
    rewrite E in H. discriminate H.
  - cbn [flat_map] in H. destruct (byte_of_upper_hex_of_byte a) as (c1 & c2 & E & _).
    rewrite E in H. discriminate H.
  - cbn [flat_map] in H.
    destruct (byte_of_upper_hex_of_byte a) as (c1 & c2 & Ea & Da).
    destruct (byte_of_upper_hex_of_byte b) as (d1 & d2 & Eb & Db).
    rewrite Ea, Eb in H. cbn [app] in H. inversion H; subst.
    assert (a = b) by congruence. subst b. f_equal. now apply IH.
Qed.

Lemma string_of_list_ascii_injective (l1 l2 : list ascii) :
  string_of_list_ascii l1 = string_of_list_ascii l2 -> l1 = l2.
Proof.
  intros H. apply (f_equal list_ascii_of_string) in H.
  now rewrite !list_ascii_of_string_of_list_ascii in H.
Qed.

Lemma copy_into_alloc16_length (source : list byte) :
  List.length (Gateway.copy_into_alloc16 source) = 16%nat.
Proof.
  unfold Gateway.copy_into_alloc16. rewrite length_app, repeat_length.
  pose proof (firstn_le_length 16 source). lia.
Qed.

Lemma getAccessToken_blocks (key token : Gateway.js_string) :
  Gateway.getAccessToken key token
  = string_of_list_ascii
      (flat_map upper_hex_of_byte
         (Aes128.aes_128_ecb (key_block key) (token_block token))).
Proof. unfold Gateway.getAccessToken. cbv zeta. apply token_of_cipher_text. Qed.

(** C7, as the code has it.  The token is a function of the two 16-byte
    blocks only (the UTF-8 bytes of secret and nonce, cut after 16 bytes
    and filled up with zero bytes): it has 32 characters, all of them
    digits or capital A to F; two pairs with the same blocks have the
    same token; and under the same secret block, nonces with different
    blocks have different tokens. *)
Theorem access_token_determined_by_blocks
    (key1 token1 key2 token2 : Gateway.js_string) :
  String.length (Gateway.getAccessToken key1 token1) = 32%nat /\
  forallb is_upper_hex (list_ascii_of_string (Gateway.getAccessToken key1 token1)) = true /\
  (key_block key1 = key_block key2 ->
   token_block token1 = token_block token2 ->
   Gateway.getAccessToken key1 token1 = Gateway.getAccessToken key2 token2) /\
  (key_block key1 = key_block key2 ->
   token_block token1 <> token_block token2 ->
   Gateway.getAccessToken key1 token1 <> Gateway.getAccessToken key2 token2).
Proof.
  rewrite !getAccessToken_blocks. split_all.
  - now rewrite string_of_list_ascii_length, upper_hex_length, aes_128_ecb_length.
  - rewrite list_ascii_of_string_of_list_ascii. apply upper_hex_is_upper_hex.
  - intros Hk Ht. now rewrite Hk, Ht.
  - intros Hk Ht H. apply Ht. rewrite Hk in H.
    apply string_of_list_ascii_injective, upper_hex_injective in H.
    apply aes_128_ecb_injective in H; [exact H| |];
      apply copy_into_alloc16_length.
Qed.

Lemma access_token_determined_by_blocks_witness :
  Gateway.getAccessToken (Gateway.code_points "0123456789abcdefX")
    (Gateway.code_points "sessionnonce0001")
  = Gateway.getAccessToken (Gateway.code_points "0123456789abcdefY")
      (Gateway.code_points "sessionnonce0001") /\
  Gateway.getAccessToken (Gateway.code_points "0123456789abcdefX")
    (Gateway.code_points "sessionnonce0001")
  <> Gateway.getAccessToken (Gateway.code_points "0123456789abcdefY")
       (Gateway.code_points "sessionnonce0002").
Proof.
  split.
  - apply (access_token_determined_by_blocks
             (Gateway.code_points "0123456789abcdefX")
             (Gateway.code_points "sessionnonce0001")
             (Gateway.code_points "0123456789abcdefY")
             (Gateway.code_points "sessionnonce0001")); reflexivity.
  - apply (access_token_determined_by_blocks
             (Gateway.code_points "0123456789abcdefX")
             (Gateway.code_points "sessionnonce0001")
             (Gateway.code_points "0123456789abcdefY")
             (Gateway.code_points "sessionnonce0002")); [reflexivity|].
    vm_compute. discriminate.
Defined.

(** C7 as stated fails on "differing either input changes the output":
    what lies beyond the first 16 bytes of the secret or of the nonce
    never reaches the cipher, and neither does a difference between
    absent bytes and zero bytes.  Two secrets that differ in their 17th
    character give the same token, and so do two nonces that differ in
    their 17th character, and a secret with and without a final
    U+0000. *)
Lemma different_inputs_same_token :
  let secret1 := Gateway.code_points "0123456789abcdefX" in
  let secret2 := Gateway.code_points "0123456789abcdefY" in
  let nonce1 := Gateway.code_points "sessionnonce0001A" in
  let nonce2 := Gateway.code_points "sessionnonce0001B" in
  (secret1 <> secret2 /\
   Gateway.getAccessToken secret1 nonce1 = Gateway.getAccessToken secret2 nonce1) /\
  (nonce1 <> nonce2 /\
   Gateway.getAccessToken secret1 nonce1 = Gateway.getAccessToken secret1 nonce2) /\
  ([97; 98; 99]%N <> [97; 98; 99; 0]%N /\
   Gateway.getAccessToken [97; 98; 99]%N nonce1
   = Gateway.getAccessToken [97; 98; 99; 0]%N nonce1).
Proof.
  vm_compute. split_all; try reflexivity; discriminate.
Qed.

(** ** The accessory's timers and what HomeKit holds, over whole runs *)

Import Tracking.

Lemma NoDup_handles_kept (keep : Timer -> bool) (ts : list Timer) :
  NoDup (map timer_handle ts) -> NoDup (map timer_handle (filter keep ts)).
Proof.
  induction ts as [|t ts IH]; cbn; intros Hnd; [constructor|].
  inversion Hnd as [|h hs Hfresh Hrest]; subst.
  destruct (keep t); cbn; [constructor|]; auto.
  intros Hin. apply Hfresh. apply in_map_iff in Hin. destruct Hin as [t' [E Ht']].
  apply filter_In in Ht'. rewrite <- E. apply in_map. tauto.
Qed.

Lemma NoDup_map_without (hs : list nat) (ts : list Timer) :
  NoDup (map timer_handle ts) -> NoDup (map timer_handle (without hs ts)).
Proof. apply NoDup_handles_kept. Qed.

Lemma poll_entries_handles_seq (intervals : list Z) (c : Z) (h : nat) :
  map timer_handle (poll_entries intervals c h) = seq h (List.length intervals).
Proof.
  revert c h; induction intervals as [|i rest IH]; intros c h; cbn; [reflexivity|].
  now rewrite IH.
Qed.

Lemma NoDup_map_app_fresh (next : nat) (ts news : list Timer) :
  NoDup (map timer_handle ts) ->
  (forall t, In t ts -> (timer_handle t < next)%nat) ->
  NoDup (map timer_handle news) ->
  (forall t, In t news -> (next <= timer_handle t)%nat) ->
  NoDup (map timer_handle (ts ++ news)).
Proof.
  intros H1 Hlt H2 Hge. rewrite map_app.
  induction ts as [|t ts IH]; cbn; [exact H2|].
  inversion H1 as [|y ys Hx Hl]; subst. constructor.
  - intros Hin. apply in_app_or in Hin. destruct Hin as [Hin|Hin]; [contradiction|].
    apply in_map_iff in Hin. destruct Hin as [z [E Hz]].
    specialize (Hge z Hz). specialize (Hlt t (or_introl eq_refl)). lia.
  - apply IH; [exact Hl|]. intros t' Ht'. apply Hlt. right; exact Ht'.
Qed.

Lemma poll_entries_length (intervals : list Z) (c : Z) (h : nat) :
  List.length (poll_entries intervals c h) = List.length intervals.
Proof.
  revert c h; induction intervals as [|i rest IH]; intros c h; cbn; [reflexivity|].
  now rewrite IH.
Qed.

Lemma NoDup_poll_entries (intervals : list Z) (c : Z) (h : nat) :
  NoDup (map timer_handle (poll_entries intervals c h)).
Proof. rewrite poll_entries_handles_seq. apply seq_NoDup. Qed.

Lemma NoDup_single (t : Timer) : NoDup (map timer_handle [t]).
Proof. cbn. constructor; [intros []|constructor]. Qed.

Lemma fresh_without (hs : list nat) (ts : list Timer) (next : nat) :
  Forall (fun t => (timer_handle t < next)%nat) ts ->
  forall t, In t (without hs ts) -> (timer_handle t < next)%nat.
Proof.
  intros H t Hin. apply without_in_old in Hin. rewrite Forall_forall in H. now apply H.
Qed.

Ltac sound_nodup :=
  repeat first
    [ assumption
    | apply NoDup_map_without
    | apply NoDup_handles_kept
    | apply NoDup_poll_entries
    | apply NoDup_single
    | match goal with
      | Hft : Forall (fun t => (timer_handle t < ?next)%nat) _
        |- NoDup (map timer_handle (_ ++ _)) =>
          apply (NoDup_map_app_fresh next);
          [ | let t := fresh "t" in let Hin := fresh "Hin" in
              intros t Hin; trace_back;
              rewrite Forall_forall in Hft; apply Hft; assumption
            | | let t := fresh "t" in let Hin := fresh "Hin" in
                intros t Hin; trace_back; lia ]
      end ].

Ltac sound_start :=
  unfold timers_sound, handles_fresh, timers_tracked in *;
  cbn [timers pollTimers commandInProgress commandTimeoutTimer nextHandle] in *;
  match goal with
  | Hs : NoDup _ /\ _, Hf : Forall _ _ /\ _, Ht : (forall t, In t _ -> _ = CommandTimeoutCallback -> _) /\ _ |- _ =>
      destruct Hs as (Hnd & Hpoll & Hlen & Harmed & Hidle);
      destruct Hf as (Hft & Hfp & Hfc);
      destruct Ht as (Htd & Htp)
  end.


Lemma same_handle_same_timer (ts : list Timer) (a b : Timer) :
  NoDup (map timer_handle ts) -> In a ts -> In b ts ->
  timer_handle a = timer_handle b -> a = b.
Proof.
  induction ts as [|t ts IH]; cbn; intros Hnd Ha Hb E; [destruct Ha|].
  inversion Hnd as [|y ys Hx Hl]; subst.
  destruct Ha as [->|Ha], Hb as [->|Hb]; trivial.
  - exfalso. apply Hx. rewrite E. now apply in_map.
  - exfalso. apply Hx. rewrite <- E. now apply in_map.
  - now apply IH.
Qed.

Ltac sound_idle :=
  let t := fresh "t" in
  let Hin := fresh "Hin" in
  let Hcb := fresh "Hcb" in
  intros t Hin Hcb; timer_origin; subst;
  cbn [timer_callback timer_handle handle_of] in *;
  try discriminate;
  try solve [apply poll_entries_handles in Hin; destruct Hin; congruence];
  try solve [exfalso;
             match goal with
             | Hn : ~ In ?x (?x :: _) |- _ => apply Hn; left; reflexivity
             end];
  first
    [ solve [eauto]
    | match goal with
      | Hidle : _ -> forall t, In t _ -> timer_callback t <> CommandTimeoutCallback |- _ =>
          solve [eapply Hidle; eauto]
      end
    | match goal with
      | Htd : forall t, In t _ -> timer_callback t = CommandTimeoutCallback -> _ |- _ =>
          let E := fresh "E" in
          pose proof (Htd _ Hin Hcb) as E;
          match goal with
          | Hn : ~ In _ (handle_of _) |- _ =>
              rewrite E in Hn; apply Hn; left; reflexivity
          end
      end ].

Ltac sound_poll :=
  let t := fresh "t" in
  let Hin := fresh "Hin" in
  let Hp := fresh "Hp" in
  intros t Hin Hp; try (now destruct Hp); timer_origin; subst;
  cbn [timer_callback timer_handle] in *;
  try solve [eauto];
  try solve [apply poll_entries_handles in Hin; destruct Hin; assumption];
  try solve [exfalso;
             match goal with
             | Hfp : Forall (fun h => (h < _)%nat) ?ps, Hp : In _ ?ps |- _ =>
                 rewrite Forall_forall in Hfp; specialize (Hfp _ Hp); lia
             end];
  try solve [exfalso;
             match goal with
             | Hft : Forall (fun t => (timer_handle t < _)%nat) ?ts,
               Hin : In ?t ?ts,
               Hp : In (timer_handle ?t) (map timer_handle (poll_entries _ _ _)) |- _ =>
                 let E := fresh "E" in
                 rewrite Forall_forall in Hft; specialize (Hft _ Hin);
                 apply in_map_iff in Hp; destruct Hp as [? [E Hp]];
                 apply poll_entries_bound in Hp; lia
             end].

Ltac sound_member :=
  repeat first
    [ assumption
    | apply in_or_app; left
    | apply in_without; split;
      [|cbn [timer_handle];
        let Hn := fresh "Hn" in
        intros Hn;
        match goal with
        | Hpoll : forall t, In t _ -> In (timer_handle t) _ -> timer_callback t = PollCallback,
          Hd : In _ _ |- _ =>
            discriminate (Hpoll _ Hd Hn)
        end] ].

Ltac sound_armed :=
  let Hc := fresh "Hc" in
  intros Hc; try discriminate Hc;
  first
    [ eexists; split; [reflexivity|]; apply in_or_app; right; left; reflexivity
    | match goal with
      | Harmed : _ -> exists h, _ = Some h /\ In _ _ |- _ =>
          let h := fresh "h" in
          let E := fresh "E" in
          let Hd := fresh "Hd" in
          destruct (Harmed Hc) as [h [E Hd]]; exists h; split; [exact E|];
          sound_member
      end ].

Ltac sound :=
  sound_start;
  split; [sound_nodup|];
  split; [sound_poll|];
  split; [cbn [app]; rewrite ?length_map, ?poll_entries_length; cbn [List.length]; lia|];
  split; [sound_armed|];
  try (let Hc := fresh "Hc" in intros Hc; try discriminate Hc; sound_idle).

Lemma updateState_sound (state : BlindState) (w : World) :
  handles_fresh w -> timers_tracked w -> timers_sound w ->
  timers_sound (updateState state w).
Proof.
  intros Hf Ht Hs.
  destruct w as [mac gw conf disp dtp dps cip ct cd cto ps ts next tr].
  run_methods. destruct cip; run_methods; repeat (case_if; run_methods).
  all: sound; assumption.
Qed.

Lemma startCommand_sound (target currentPos : Z) (w : World) :
  handles_fresh w -> timers_tracked w -> timers_sound w ->
  timers_sound (fst (startCommand target currentPos w)).
Proof.
  intros Hf Ht Hs.
  destruct w as [mac gw conf disp dtp dps cip ct cd cto ps ts next tr].
  run_methods. destruct gw; run_methods.
  all: sound.
Qed.

Lemma setTargetPosition_sound (value : Z) (w : World) :
  handles_fresh w -> timers_tracked w -> timers_sound w ->
  timers_sound (fst (setTargetPosition value w)).
Proof.
  intros Hf Ht Hs. unfold setTargetPosition.
  destruct (gateway w) eqn:Hgw; cbn [negb]; [|exact Hs].
  destruct (commandInProgress w) eqn:Hcip; cbn [andb]; case_if;
    try (apply startCommand_sound; assumption);
    destruct w as [mac gw conf disp dtp dps cip ct cd cto ps ts next tr];
    cbn [commandInProgress] in Hcip; subst cip;
    run_methods.
  all: sound.
Qed.

Lemma resume_sound (k : Continuation) (r : Settled) (w : World) :
  handles_fresh w -> timers_tracked w -> timers_sound w ->
  timers_sound (fst (resume k r w)).
Proof.
  intros Hf Ht Hs.
  destruct k as [currentPos|targetPosition currentPos| | |]; cbn [resume].
  - destruct w as [mac gw conf disp dtp dps cip ct cd cto ps ts next tr].
    destruct r; run_methods.
    all: sound.
  - apply startCommand_sound; destruct r; trivial; destruct w; assumption.
  - destruct w as [mac gw conf disp dtp dps cip ct cd cto ps ts next tr].
    destruct r; run_methods.
    all: sound.
  - destruct r; cbn [fst]; trivial.
  - exact Hs.
Qed.

Lemma fireTimer_sound (h : nat) (w : World) :
  handles_fresh w -> timers_tracked w -> timers_sound w ->
  timers_sound (fst (fireTimer h w)).
Proof.
  intros Hf Ht Hs. unfold fireTimer.
  destruct (find (fun t => Nat.eqb (timer_handle t) h) (timers w)) as [t|] eqn:Hfind;
    [|exact Hs].
  apply find_some in Hfind. destruct Hfind as [Hfired Hh]. apply Nat.eqb_eq in Hh.
  destruct w as [mac gw conf disp dtp dps cip ct cd cto ps ts next tr].
  cbn [timers] in Hfired.
  destruct t as [th td tc]. cbn [timer_handle] in Hh. subst th.
  destruct tc; cbn [timer_callback]; run_methods;
    destruct cip; run_methods; try (destruct gw; run_methods).
  all: sound.
  all: try (intros _ t Hin Hcb; apply without_in_old in Hin;
            apply filter_In in Hin; destruct Hin as [Hin Hne];
            pose proof (Htd _ Hin Hcb) as E1; pose proof (Htd _ Hfired eq_refl) as E2;
            cbn [timer_handle] in E2; rewrite E2 in E1; inversion E1 as [E];
            rewrite <- E, Nat.eqb_refl in Hne; discriminate Hne).
  all: apply filter_In; (split; [assumption|]); cbn [timer_handle];
    destruct (Nat.eqb_spec h0 h) as [->|]; [exfalso|reflexivity];
    match goal with
    | Hd : In (mkTimer _ MAX_MOVEMENT_TIMEOUT CommandTimeoutCallback) ?l |- _ =>
        discriminate (same_handle_same_timer l _ _ Hnd Hfired Hd eq_refl)
    end.
Qed.

Lemma step_sound (sys : System) (e : Event) :
  well_formed (world sys) /\ timers_tracked (world sys) /\ timers_sound (world sys) ->
  well_formed (world (step sys e)) /\ timers_tracked (world (step sys e)) /\
  timers_sound (world (step sys e)).
Proof.
  intros (Hwf & Ht & Hs).
  destruct (step_invariants sys e (conj Hwf Ht)) as [Hwf' Ht'].
  split; [exact Hwf'|split; [exact Ht'|]].
  destruct Hwf as [Hf _].
  destruct e as [state|value|h|i r]; cbn [step].
  - now apply updateState_sound.
  - pose proof (setTargetPosition_sound value (world sys) Hf Ht Hs) as E.
    destruct (setTargetPosition value (world sys)); exact E.
  - pose proof (fireTimer_sound h (world sys) Hf Ht Hs) as E.
    destruct (fireTimer h (world sys)); exact E.
  - destruct (nth_error (awaiting sys) i) as [k|]; [|exact Hs].
    pose proof (resume_sound k r (world sys) Hf Ht Hs) as E.
    destruct (resume k r (world sys)); exact E.
Qed.

Lemma reachable_sound (w : World) :
  reachable w -> handles_fresh w /\ timers_tracked w /\ timers_sound w.
Proof.
  intros (mac & gw & events & ->).
  assert (H0 : well_formed (world (initial mac gw)) /\
               timers_tracked (world (initial mac gw)) /\
               timers_sound (world (initial mac gw))).
  { split; [split|split].
    - split; [|split]; constructor.
    - intros H; discriminate H.
    - split; intros t [].
    - split; [constructor|]. split; [intros t []|]. split; [cbn; lia|].
      split; [intros H; discriminate H|intros _ t []]. }
  generalize dependent (initial mac gw). intros sys H0.
  revert sys H0. induction events as [|e events IH]; intros sys H0.
  - destruct H0 as ([Hf _] & Ht & Hs). auto.
  - change (run sys (e :: events)) with (run (step sys e) events).
    apply IH. now apply step_sound.
Qed.

Ltac sync :=
  lazymatch goal with
  | Hs : in_sync _ |- in_sync _ =>
      let c := fresh "c" in
      unfold in_sync, last_pushed in *; cbn [trace device_mac gateway] in *;
      intros c; specialize (Hs c);
      rewrite ?fold_left_app; cbn [fold_left];
      destruct c;
      cbn [Characteristic_eqb onGet displayPosition displayTargetPosition
           displayPositionState new_accessory] in *;
      try reflexivity; try exact Hs
  end.

Lemma updateState_sync (state : BlindState) (w : World) :
  in_sync w -> in_sync (updateState state w).
Proof.
  intros Hs.
  destruct w as [mac gw conf disp dtp dps cip ct cd cto ps ts next tr].
  run_methods. destruct cip; run_methods; repeat (case_if; run_methods).
  all: sync.
Qed.

Lemma startCommand_sync (target currentPos : Z) (w : World) :
  in_sync w -> in_sync (fst (startCommand target currentPos w)).
Proof.
  intros Hs.
  destruct w as [mac gw conf disp dtp dps cip ct cd cto ps ts next tr].
  run_methods. destruct gw; run_methods.
  all: sync.
Qed.

Lemma setTargetPosition_sync (value : Z) (w : World) :
  in_sync w -> in_sync (fst (setTargetPosition value w)).
Proof.
  intros Hs. unfold setTargetPosition.
  destruct (gateway w) eqn:Hgw; cbn [negb]; [|exact Hs].
  destruct (commandInProgress w) eqn:Hcip; cbn [andb]; case_if;
    try (apply startCommand_sync; assumption);
    destruct w as [mac gw conf disp dtp dps cip ct cd cto ps ts next tr];
    run_methods.
  all: sync.
Qed.

Lemma resume_sync (k : Continuation) (r : Settled) (w : World) :
  in_sync w -> in_sync (fst (resume k r w)).
Proof.
  intros Hs.
  destruct k as [currentPos|targetPosition currentPos| | |]; cbn [resume].
  - destruct w as [mac gw conf disp dtp dps cip ct cd cto ps ts next tr].
    destruct r; run_methods.
    all: sync.
  - apply startCommand_sync. destruct r; [exact Hs|].
    destruct w as [mac gw conf disp dtp dps cip ct cd cto ps ts next tr].
    run_methods. sync.
  - destruct w as [mac gw conf disp dtp dps cip ct cd cto ps ts next tr].
    destruct r; run_methods.
    all: sync.
  - destruct r; cbn [fst]; [exact Hs|].
    destruct w as [mac gw conf disp dtp dps cip ct cd cto ps ts next tr].
    run_methods. sync.
  - exact Hs.
Qed.

Lemma fireTimer_sync (h : nat) (w : World) :
  in_sync w -> in_sync (fst (fireTimer h w)).
Proof.
  intros Hs. unfold fireTimer.
  destruct (find (fun t => Nat.eqb (timer_handle t) h) (timers w)) as [t|];
    [|exact Hs].
  destruct w as [mac gw conf disp dtp dps cip ct cd cto ps ts next tr].
  destruct t as [th td tc]. destruct tc; cbn [timer_callback]; run_methods;
    destruct cip; run_methods; try (destruct gw; run_methods).
  all: sync.
Qed.

Lemma step_sync (sys : System) (e : Event) :
  in_sync (world sys) -> in_sync (world (step sys e)).
Proof.
  intros Hs. destruct e as [state|value|h|i r]; cbn [step].
  - now apply updateState_sync.
  - pose proof (setTargetPosition_sync value (world sys) Hs) as E.
    destruct (setTargetPosition value (world sys)); exact E.
  - pose proof (fireTimer_sync h (world sys) Hs) as E.
    destruct (fireTimer h (world sys)); exact E.
  - destruct (nth_error (awaiting sys) i) as [k|]; [|exact Hs].
    pose proof (resume_sync k r (world sys) Hs) as E.
    destruct (resume k r (world sys)); exact E.
Qed.

Lemma run_sync (events : list Event) (sys : System) :
  in_sync (world sys) -> in_sync (world (run sys events)).
Proof.
  revert sys; induction events as [|e events IH]; intros sys H; [exact H|].
  change (run sys (e :: events)) with (run (step sys e) events).
  apply IH. now apply step_sync.
Qed.

Lemma TimerCallback_eqb_eq (a b : TimerCallback) :
  TimerCallback_eqb a b = true <-> a = b.
Proof. destruct a, b; cbn; split; intros H; try reflexivity; discriminate H. Qed.

Lemma filter_none {A : Type} (p : A -> bool) (l : list A) :
  (forall t, In t l -> p t = false) -> filter p l = [].
Proof.
  induction l as [|x l IH]; intros H; cbn; [reflexivity|].
  rewrite (H x (or_introl eq_refl)). apply IH. intros t Ht. apply H. now right.
Qed.

Lemma filter_unique {A : Type} (p : A -> bool) (d : A) (l : list A) :
  NoDup l -> In d l -> p d = true ->
  (forall t, In t l -> p t = true -> t = d) ->
  filter p l = [d].
Proof.
  induction l as [|x l IH]; intros Hnd Hin Hd Huniq; [destruct Hin|].
  inversion Hnd as [|y ys Hx Hl]; subst. cbn [filter].
  destruct Hin as [->|Hin].
  - rewrite Hd. f_equal. apply filter_none. intros t Ht.
    destruct (p t) eqn:E; [|reflexivity].
    exfalso. apply Hx. rewrite <- (Huniq t (or_intror Ht) E). exact Ht.
  - destruct (p x) eqn:E.
    + exfalso. apply Hx. rewrite (Huniq x (or_introl eq_refl) E). exact Hin.
    + apply IH; trivial. intros t Ht. apply Huniq. now right.
Qed.

Lemma reachable_example (events : list Event) :
  reachable (world (run (initial "mac" true) events)).
Proof. exists "mac"%string, true, events. reflexivity. Qed.

(** X1.  In every world an accessory can reach, a command in progress has
    its fail-safe armed: exactly one deadline timeout is pending, it has
    the delay of 90000 ms and the handle the accessory holds.  While no
    command is in progress no deadline timeout is pending. *)
Theorem command_in_progress_has_its_deadline (w : World) (Hreach : reachable w) :
  (commandInProgress w = true ->
   exists h : nat,
     commandTimeoutTimer w = Some h /\
     pending CommandTimeoutCallback w = [mkTimer h 90000 CommandTimeoutCallback]) /\
  (commandInProgress w = false -> pending CommandTimeoutCallback w = []).
Proof.
  destruct (reachable_sound w Hreach) as (_ & [Htd _] & Hnd & _ & _ & Harmed & Hidle).
  unfold pending. split.
  - intros Hc. destruct (Harmed Hc) as [h [E Hd]]. exists h. split; [exact E|].
    apply filter_unique; trivial.
    + eapply NoDup_map_inv; exact Hnd.
    + intros t Hin Hcb. apply TimerCallback_eqb_eq in Hcb.
      apply (same_handle_same_timer (timers w)); trivial.
      pose proof (Htd t Hin Hcb) as E'. rewrite E in E'. now inversion E'.
  - intros Hc. apply filter_none. intros t Hin.
    destruct (TimerCallback_eqb (timer_callback t) CommandTimeoutCallback) eqn:E;
      [|reflexivity].
    apply TimerCallback_eqb_eq in E. now destruct (Hidle Hc t Hin).
Qed.

Lemma command_in_progress_has_its_deadline_witness :
  pending CommandTimeoutCallback moving_example = [mkTimer 0 90000 CommandTimeoutCallback] /\
  pending CommandTimeoutCallback stopped_midway_example = [].
Proof.
  split.
  - destruct (command_in_progress_has_its_deadline moving_example
                (reachable_example _)) as [H _].
    destruct (H eq_refl) as [h [E Hp]]. vm_compute in E. inversion E; subst h. exact Hp.
  - apply (command_in_progress_has_its_deadline stopped_midway_example).
    + exists "mac"%string, true,
        [ BlindStateEvent (reading 100); SetTargetEvent 100; PromiseSettles 0 Fulfilled;
          BlindStateEvent (reading 40); SetTargetEvent 61; PromiseSettles 0 Rejected ].
      vm_compute. reflexivity.
    + reflexivity.
Defined.

(** X2.  Pending timeouts never pile up.  In every world an accessory can
    reach, no two pending timeouts share a handle, at most 29 poll
    timeouts and at most one deadline timeout are pending, and every
    pending poll timeout is one the accessory still holds the handle of
    (so that [cancelPolling] clears it). *)
Theorem pending_timeouts_are_bounded (w : World) (Hreach : reachable w) :
  NoDup (map timer_handle (timers w)) /\
  (List.length (pending PollCallback w) <= 29)%nat /\
  (List.length (pending CommandTimeoutCallback w) <= 1)%nat /\
  (forall t : Timer, In t (pending PollCallback w) -> In (timer_handle t) (pollTimers w)) /\
  (forall t : Timer, In t (pending PollCallback w) -> ~ In t (timers (cancelPolling w))).
Proof.
  destruct (reachable_sound w Hreach) as (_ & [Htd Htp] & Hnd & _ & Hlen & Harmed & Hidle).
  assert (Hheld : forall t, In t (pending PollCallback w) -> In (timer_handle t) (pollTimers w)).
  { intros t Hin. apply filter_In in Hin. destruct Hin as [Hin Hcb].
    apply TimerCallback_eqb_eq in Hcb. now apply Htp. }
  split; [exact Hnd|]. split; [|split; [|split]].
  - change 29%nat with (List.length POLL_INTERVALS).
    etransitivity; [|exact Hlen].
    rewrite <- (length_map timer_handle). apply NoDup_incl_length.
    + unfold pending. now apply NoDup_handles_kept.
    + intros h Hin. apply in_map_iff in Hin. destruct Hin as [t [<- Hin]]. now apply Hheld.
  - destruct (commandInProgress w) eqn:Hc.
    + destruct (Harmed eq_refl) as [h [E Hd]].
      assert (Hp : pending CommandTimeoutCallback w
                   = [mkTimer h MAX_MOVEMENT_TIMEOUT CommandTimeoutCallback]).
      { apply filter_unique; trivial.
        - eapply NoDup_map_inv; exact Hnd.
        - intros t Hin Hcb. apply TimerCallback_eqb_eq in Hcb.
          apply (same_handle_same_timer (timers w)); trivial.
          pose proof (Htd t Hin Hcb) as E'. rewrite E in E'. now inversion E'. }
      rewrite Hp. cbn. lia.
    + assert (Hp : pending CommandTimeoutCallback w = []).
      { apply filter_none. intros t Hin.
        destruct (TimerCallback_eqb (timer_callback t) CommandTimeoutCallback) eqn:E;
          [|reflexivity].
        apply TimerCallback_eqb_eq in E. now destruct (Hidle eq_refl t Hin). }
      rewrite Hp. cbn. lia.
  - exact Hheld.
  - intros t Hin Hleft. rewrite cancelPolling_eq in Hleft. cbn [timers set_pollTimers set_timers] in Hleft.
    apply in_without in Hleft. destruct Hleft as [_ Hn]. apply Hn. now apply Hheld.
Qed.

Lemma pending_timeouts_are_bounded_witness :
  (List.length (pending PollCallback moving_example) <= 29)%nat /\
  (List.length (pending CommandTimeoutCallback moving_example) <= 1)%nat.
Proof.
  destruct (pending_timeouts_are_bounded moving_example (reachable_example _))
    as (_ & H1 & H2 & _).
  split; assumption.
Defined.

(** X3.  HomeKit is never left with a stale value.  In every world an
    accessory can reach, the value last pushed for a characteristic is
    the value its getter returns; a characteristic that was never pushed
    still has the value the accessory was constructed with. *)
Theorem homekit_holds_what_the_getters_return
    (w : World) (c : Characteristic) (Hreach : reachable w) :
  match last_pushed c (trace w) with
  | Some v => onGet c w = v
  | None => onGet c w = onGet c (new_accessory (device_mac w) (gateway w))
  end.
Proof.
  destruct Hreach as (mac & gw & events & ->).
  apply (run_sync events (initial mac gw)). intros c'. destruct c'; reflexivity.
Qed.

Lemma homekit_holds_what_the_getters_return_witness :
  last_pushed CurrentPosition (trace moving_example) = Some 60 /\
  onGet CurrentPosition moving_example = 60 /\
  onGet TargetPosition stopped_midway_example = 60.
Proof.
  pose proof (homekit_holds_what_the_getters_return moving_example CurrentPosition
                (reachable_example _)) as H1.
  assert (R : reachable stopped_midway_example).
  { exists "mac"%string, true,
      [ BlindStateEvent (reading 100); SetTargetEvent 100; PromiseSettles 0 Fulfilled;
        BlindStateEvent (reading 40); SetTargetEvent 61; PromiseSettles 0 Rejected ].
    vm_compute. reflexivity. }
  pose proof (homekit_holds_what_the_getters_return stopped_midway_example TargetPosition R)
    as H2.
  change (last_pushed CurrentPosition (trace moving_example)) with (Some 60) in H1.
  change (last_pushed TargetPosition (trace stopped_midway_example)) with (Some 60) in H2.
  split; [reflexivity|]. split; [exact H1|exact H2].
Defined.

(** X4.  A set-target request that arrives while a command is in progress,
    with a value further than the tolerance from the displayed position,
    redirects the blind.  Up to its first [await]: the running command is
    cancelled (its deadline and poll timeouts cleared) and [stop] is the
    only call on the gateway; what is displayed does not change yet.
    After the [await], however the stop settled: the new command is in
    progress towards the requested target, its direction is taken from
    the displayed position the request found, target and motion-state are
    shown, a fresh deadline is armed, and [setPosition] is called with
    100 minus the target. *)
Theorem redirect_request_while_moving
    (value : Z) (w : World)
    (Hgw : gateway w = true)
    (Hmoving : commandInProgress w = true)
    (Hfar : ~ within_tolerance value (displayPosition w)) :
  let k := AwaitStopBeforeNewCommand value (displayPosition w) in
  let w1 := fst (setTargetPosition value w) in
  (snd (setTargetPosition value w) = Suspended k /\
   commandInProgress w1 = false /\
   commandTimeoutTimer w1 = None /\
   pollTimers w1 = [] /\
   (forall t : Timer,
      In t (timers w1) <->
      In t (timers w) /\
      commandTimeoutTimer w <> Some (timer_handle t) /\
      ~ In (timer_handle t) (pollTimers w)) /\
   trace w1
   = trace w ++ [ Log LogInfo (MsgCancelingPrevious value);
                  GatewayStop (device_mac w) ] /\
   displayPosition w1 = displayPosition w /\
   displayTargetPosition w1 = displayTargetPosition w /\
   displayPositionState w1 = displayPositionState w /\
   confirmedPosition w1 = confirmedPosition w) /\
  (forall (r : Settled) (w2 : World),
     gateway w2 = true ->
     let direction := direction_towards value (displayPosition w) in
     let w3 := fst (resume k r w2) in
     snd (resume k r w2) = Suspended AwaitSetPosition /\
     commandInProgress w3 = true /\
     commandTarget w3 = value /\
     commandDirection w3 = direction /\
     displayTargetPosition w3 = value /\
     displayPositionState w3 = direction /\
     displayPosition w3 = displayPosition w2 /\
     confirmedPosition w3 = confirmedPosition w2 /\
     commandTimeoutTimer w3 = Some (nextHandle w2) /\
     timers w3
     = without (handle_of (commandTimeoutTimer w2)) (timers w2)
       ++ [mkTimer (nextHandle w2) 90000 CommandTimeoutCallback] /\
     trace w3
     = trace w2
       ++ match r with
          | Fulfilled => []
          | Rejected => [Log LogDebug MsgStopBeforeNewFailed]
          end
       ++ Log LogInfo (MsgMoveTo value)
          :: pushed (displayPosition w2) value direction
       ++ [GatewaySetPosition (device_mac w2) (100 - value)]).
Proof.
  cbv zeta. rewrite (setTargetPosition_redirect value w Hgw Hmoving Hfar).
  fields. split.
  - split_all; trivial. intros t; apply in_cancelled.
  - intros r w2 Hgw2. cbn [resume].
    destruct r.
    + rewrite (startCommand_eq value (displayPosition w) w2 Hgw2).
      fields. split_all; trivial.
    + rewrite (startCommand_eq value (displayPosition w)
                 (emit (Log LogDebug MsgStopBeforeNewFailed) w2) Hgw2).
      fields. rewrite <- !app_assoc. split_all; trivial.
Qed.

Lemma redirect_request_while_moving_witness :
  let w1 := fst (setTargetPosition 20 moving_example) in
  let w3 := fst (resume (AwaitStopBeforeNewCommand 20 60) Fulfilled w1) in
  snd (setTargetPosition 20 moving_example)
  = Suspended (AwaitStopBeforeNewCommand 20 60) /\
  commandInProgress w1 = false /\
  commandInProgress w3 = true /\
  commandTarget w3 = 20 /\
  commandDirection w3 = DECREASING /\
  skipn 13 (trace w3)
  = [ Log LogInfo (MsgCancelingPrevious 20); GatewayStop "mac";
      Log LogInfo (MsgMoveTo 20);
      UpdateCharacteristic CurrentPosition 60;
      UpdateCharacteristic TargetPosition 20;
      UpdateCharacteristic PositionStateCharacteristic 0;
      GatewaySetPosition "mac" 80 ].
Proof.
  assert (Hgw : gateway moving_example = true) by reflexivity.
  assert (Hmoving : commandInProgress moving_example = true) by reflexivity.
  assert (Hfar : ~ within_tolerance 20 (displayPosition moving_example))
    by decide_tolerance.
  destruct (redirect_request_while_moving 20 moving_example Hgw Hmoving Hfar)
    as [(H1 & H2 & _) Hresume].
  destruct (Hresume Fulfilled (fst (setTargetPosition 20 moving_example)) eq_refl)
    as (_ & R2 & R3 & R4 & _).
  cbv zeta. split_all; trivial.
Defined.

Lemma updateState_moving_displayPosition (state : BlindState) (w : World) :
  commandInProgress w = true ->
  hasReachedTarget (host_value state) w = false ->
  displayPosition (updateState state w)
  = if PositionState_eqb (commandDirection w) INCREASING
    then Z.max (displayPosition w) (host_value state)
    else Z.min (displayPosition w) (host_value state).
Proof.
  intros Hmoving Hfar. rewrite (updateState_moving state w Hmoving Hfar). cbv zeta.
  destruct (PositionState_eqb (commandDirection w) INCREASING).
  - destruct (Z.gtb_spec (host_value state) (displayPosition w)); fields; lia.
  - destruct (Z.ltb_spec (host_value state) (displayPosition w)); fields; lia.
Qed.

(** X5.  Through any run of readings that do not complete the command,
    the displayed position is the furthest value seen in the commanded
    direction: the maximum of the displayed position at the start and the
    readings' host values when the direction is increasing, the minimum
    otherwise.  The command stays in progress, target, motion-state,
    confirmed position and the timeouts stay as they are, and nothing is
    sent to the gateway. *)
Theorem displayed_position_is_furthest_reading
    (states : list BlindState) (w : World)
    (Hmoving : commandInProgress w = true)
    (Hfar : Forall (fun state => ~ within_tolerance (host_value state) (commandTarget w))
              states) :
  let w' := readings states w in
  displayPosition w'
  = (if PositionState_eqb (commandDirection w) INCREASING
     then fold_left Z.max (map host_value states) (displayPosition w)
     else fold_left Z.min (map host_value states) (displayPosition w)) /\
  commandInProgress w' = true /\
  commandTarget w' = commandTarget w /\
  commandDirection w' = commandDirection w /\
  displayTargetPosition w' = displayTargetPosition w /\
  displayPositionState w' = displayPositionState w /\
  confirmedPosition w' = confirmedPosition w /\
  commandTimeoutTimer w' = commandTimeoutTimer w /\
  pollTimers w' = pollTimers w /\
  timers w' = timers w /\
  sends_nothing w w'.
Proof.
  revert w Hmoving Hfar. induction states as [|state states IH]; intros w Hmoving Hfar.
  - cbn [readings fold_left map].
    destruct (PositionState_eqb _ _); split_all; trivial; apply sends_nothing_refl.
  - inversion Hfar as [|s l Hs Hl]; subst.
    apply hasReachedTarget_false in Hs.
    destruct (updateState_moving_frame state w Hmoving Hs)
      as (F1 & F2 & F3 & F4 & F5 & F6 & F7 & F8 & F9 & F10 & F11 & F12 & F13).
    pose proof (updateState_moving_displayPosition state w Hmoving Hs) as D.
    cbv zeta. change (readings (state :: states) w)
      with (readings states (updateState state w)).
    destruct (IH (updateState state w) F1) as (I0 & I1 & I2 & I3 & I4 & I5 & I6 & I7 & I8 & I9 & I10).
    { rewrite F2. exact Hl. }
    cbv zeta in I0. rewrite F3 in I0. cbn [map fold_left].
    split; [|split_all; try congruence; eapply sends_nothing_trans; eassumption].
    rewrite I0, D. destruct (PositionState_eqb (commandDirection w) INCREASING); reflexivity.
Qed.

Lemma displayed_position_is_furthest_reading_witness :
  displayPosition (readings [reading 70; reading 30; reading 50] moving_example) = 70 /\
  commandInProgress (readings [reading 70; reading 30; reading 50] moving_example) = true.
Proof.
  assert (Hmoving : commandInProgress moving_example = true) by reflexivity.
  assert (Hfar : Forall (fun state => ~ within_tolerance (host_value state)
                                        (commandTarget moving_example))
                   [reading 70; reading 30; reading 50]).
  { repeat constructor; decide_tolerance. }
  destruct (displayed_position_is_furthest_reading _ moving_example Hmoving Hfar)
    as (H0 & H1 & _).
  split; [exact H0|exact H1].
Defined.

(** X6.  A reading that arrives twice does no more than when it arrives
    once: after the second delivery every field of the accessory and the
    timer table are as after the first, and the second delivery sends
    nothing to the gateway. *)
Theorem repeated_reading_changes_nothing (state : BlindState) (w : World) :
  let w1 := updateState state w in
  let w2 := updateState state w1 in
  same_fields w1 w2 /\ sends_nothing w1 w2.
Proof.
  cbv zeta. unfold same_fields.
  destruct (commandInProgress w) eqn:Hc.
  - destruct (hasReachedTarget (host_value state) w) eqn:Hr.
    + rewrite (updateState_reached state w Hc Hr), completeCommand_eq.
      rewrite updateState_idle by reflexivity. fields.
      split_all; trivial. eexists; split; reflexivity.
    + destruct (updateState_moving_frame state w Hc Hr)
        as (F1 & F2 & F3 & F4 & F5 & F6 & F7 & F8 & F9 & F10 & F11 & F12 & F13).
      assert (Hr' : hasReachedTarget (host_value state) (updateState state w) = false).
      { unfold hasReachedTarget in *. now rewrite F2. }
      destruct (updateState_moving_frame state _ F1 Hr')
        as (G1 & G2 & G3 & G4 & G5 & G6 & G7 & G8 & G9 & G10 & G11 & G12 & G13).
      split_all; trivial; try congruence.
      rewrite (updateState_moving_displayPosition state _ F1 Hr').
      rewrite F3, (updateState_moving_displayPosition state w Hc Hr).
      destruct (PositionState_eqb (commandDirection w) INCREASING); lia.
  - rewrite (updateState_idle state w Hc).
    rewrite updateState_idle by reflexivity. fields.
    split_all; trivial. eexists; split; reflexivity.
Qed.

(** X7.  An accessory whose platform has no gateway never starts
    anything.  Through every run of events: each set-target request
    throws the communication failure and leaves the accessory exactly as
    it was, no command is ever in progress, no timeout is ever armed, no
    call is parked on an [await], and no call on the gateway is made;
    readings are still taken over. *)
Theorem without_gateway_nothing_is_started (mac : string) (events : list Event) :
  let sys := run (initial mac false) events in
  gateway (world sys) = false /\
  commandInProgress (world sys) = false /\
  timers (world sys) = [] /\
  awaiting sys = [] /\
  existsb is_gateway_call (trace (world sys)) = false /\
  (forall value : Z,
     setTargetPosition value (world sys)
     = (world sys, Finished (Threw SERVICE_COMMUNICATION_FAILURE))) /\
  (forall state : BlindState,
     displayPosition (updateState state (world sys)) = 100 - currentPosition state).
Proof.
  cbv zeta.
  assert (H : forall sys,
             gateway (world sys) = false /\
             commandInProgress (world sys) = false /\
             timers (world sys) = [] /\
             awaiting sys = [] /\
             existsb is_gateway_call (trace (world sys)) = false ->
             gateway (world (run sys events)) = false /\
             commandInProgress (world (run sys events)) = false /\
             timers (world (run sys events)) = [] /\
             awaiting (run sys events) = [] /\
             existsb is_gateway_call (trace (world (run sys events))) = false).
  { induction events as [|e events IH]; intros sys Hs; [exact Hs|].
    change (run sys (e :: events)) with (run (step sys e) events).
    apply IH. destruct Hs as (H1 & H2 & H3 & H4 & H5).
    destruct e as [state|value|h|i r]; cbn [step].
    - cbn [world awaiting]. rewrite (updateState_idle state (world sys) H2). fields.
      split_all; trivial. rewrite existsb_app, H5. reflexivity.
    - unfold setTargetPosition. rewrite H1. cbn [negb world awaiting park].
      split_all; trivial.
    - unfold fireTimer. rewrite H3. cbn [find world awaiting park]. split_all; trivial.
    - rewrite H4. destruct i; cbn [nth_error]; split_all; trivial. }
  destruct (H (initial mac false)) as (H1 & H2 & H3 & H4 & H5).
  { split_all; reflexivity. }
  split_all; trivial.
  - intros value. unfold setTargetPosition. now rewrite H1.
  - intros state. now rewrite (updateState_idle state _ H2).
Qed.

(** X8.  When the gateway acknowledges [setPosition] the request returns
    normally and the poll schedule is armed: the poll timeouts of any
    earlier command are cleared and 29 new ones are armed, with the next
    29 handles, firing 300, 600, ... and last 50100 ms after the
    acknowledgement, each at the sum of the intervals up to it and each
    before the 90000 ms of the deadline.  Nothing else changes and
    nothing is sent. *)
Theorem acknowledged_command_arms_poll_schedule (w : World) :
  let w' := fst (resume AwaitSetPosition Fulfilled w) in
  let delays :=
    [ 300; 600; 900; 1200; 1500; 1800; 2100;
      2600; 3100; 3600; 4100; 4600; 5100;
      6100; 7100; 8100; 9100; 10100;
      12100; 14100; 16100; 18100; 20100;
      25100; 30100; 35100; 40100; 45100; 50100 ] in
  snd (resume AwaitSetPosition Fulfilled w) = Finished Returned /\
  pollTimers w' = seq (nextHandle w) 29 /\
  timers w'
  = without (pollTimers w) (timers w)
    ++ map (fun '(h, delay) => mkTimer h delay PollCallback)
         (combine (seq (nextHandle w) 29) delays) /\
  Forall (fun delay => 0 < delay < MAX_MOVEMENT_TIMEOUT) delays /\
  nextHandle w' = (nextHandle w + 29)%nat /\
  trace w' = trace w ++ [Log LogDebug MsgCommandSent] /\
  commandInProgress w' = commandInProgress w /\
  commandTimeoutTimer w' = commandTimeoutTimer w /\
  displayPosition w' = displayPosition w /\
  displayTargetPosition w' = displayTargetPosition w /\
  displayPositionState w' = displayPositionState w /\
  confirmedPosition w' = confirmedPosition w.
Proof.
  cbv zeta. cbn [resume fst snd]. rewrite schedulePolling_eq. fields.
  split_all; trivial.
  unfold MAX_MOVEMENT_TIMEOUT. repeat constructor.
Qed.

(** * The gateway client *)

Import Client ClientFacts.

(** ** The handler table *)

Lemma JsMap_get_set_same {V : Type} (k : string) (v : V) (m : list (string * V)) :
  JsMap.get k (JsMap.set k v m) = Some v.
Proof.
  induction m as [|[k' v'] m IH]; cbn.
  - now rewrite String.eqb_refl.
  - destruct (String.eqb k' k) eqn:E; cbn.
    + now rewrite String.eqb_refl.
    + now rewrite E.
Qed.

Lemma JsMap_get_set_other {V : Type} (k k0 : string) (v : V) (m : list (string * V)) :
  k0 <> k -> JsMap.get k0 (JsMap.set k v m) = JsMap.get k0 m.
Proof.
  intros Hne. induction m as [|[k' v'] m IH]; cbn.
  - destruct (String.eqb_spec k k0); [congruence|reflexivity].
  - destruct (String.eqb_spec k' k); cbn.
    + subst k'. destruct (String.eqb_spec k k0); [congruence|reflexivity].
    + destruct (String.eqb_spec k' k0); [reflexivity|exact IH].
Qed.

Lemma JsMap_in_set {V : Type} (k k0 : string) (v v0 : V) (m : list (string * V)) :
  In (k0, v0) (JsMap.set k v m) -> (k0 = k /\ v0 = v) \/ In (k0, v0) m.
Proof.
  induction m as [|[k' v'] m IH]; cbn.
  - intros [E|[]]. left. now inversion E.
  - destruct (String.eqb_spec k' k).
    + intros [E|Hin]; [left; now inversion E|right; now right].
    + intros [E|Hin]; [right; now left|].
      destruct (IH Hin) as [H|H]; [now left|right; now right].
Qed.

Lemma JsMap_in_delete {V : Type} (k k0 : string) (v0 : V) (m : list (string * V)) :
  In (k0, v0) (JsMap.delete k m) -> In (k0, v0) m.
Proof.
  induction m as [|[k' v'] m IH]; cbn; [tauto|].
  destruct (String.eqb_spec k' k).
  - intros Hin. now right.
  - intros [E|Hin]; [now left|right; now apply IH].
Qed.

Lemma JsMap_get_in {V : Type} (k : string) (v : V) (m : list (string * V)) :
  JsMap.get k m = Some v -> In (k, v) m.
Proof.
  induction m as [|[k' v'] m IH]; cbn; [discriminate|].
  destruct (String.eqb_spec k' k).
  - intros E. inversion E; subst. now left.
  - intros E. right. now apply IH.
Qed.

Lemma JsMap_get_none {V : Type} (k : string) (m : list (string * V)) :
  ~ In k (JsMap.keys m) -> JsMap.get k m = None.
Proof.
  induction m as [|[k' v'] m IH]; cbn; [reflexivity|].
  intros H. destruct (String.eqb_spec k' k); [tauto|].
  apply IH. tauto.
Qed.

Lemma JsMap_keys_set {V : Type} (k k0 : string) (v : V) (m : list (string * V)) :
  In k0 (JsMap.keys (JsMap.set k v m)) <-> k0 = k \/ In k0 (JsMap.keys m).
Proof.
  induction m as [|[k' v'] m IH]; cbn.
  - intuition.
  - destruct (String.eqb_spec k' k); cbn.
    + subst k'. intuition.
    + unfold JsMap.keys in IH. rewrite IH. intuition.
Qed.

Lemma JsMap_keys_delete {V : Type} (k k0 : string) (m : list (string * V)) :
  NoDup (JsMap.keys m) ->
  (In k0 (JsMap.keys (JsMap.delete k m)) <-> k0 <> k /\ In k0 (JsMap.keys m)).
Proof.
  induction m as [|[k' v'] m IH]; cbn; intros Hnd.
  - intuition.
  - inversion Hnd as [|x xs Hx Hl]; subst.
    destruct (String.eqb_spec k' k); cbn.
    + subst k'. split.
      * intros Hin. split; [|now right]. intros ->. contradiction.
      * intros [Hne [E|Hin]]; [congruence|exact Hin].
    + unfold JsMap.keys in IH. rewrite (IH Hl). split.
      * intros [E|[Hne Hin]]; [subst; tauto|tauto].
      * intros [Hne [E|Hin]]; [now left|right; tauto].
Qed.

Lemma JsMap_NoDup_set {V : Type} (k : string) (v : V) (m : list (string * V)) :
  NoDup (JsMap.keys m) -> NoDup (JsMap.keys (JsMap.set k v m)).
Proof.
  induction m as [|[k' v'] m IH]; cbn; intros Hnd.
  - constructor; [intros []|constructor].
  - inversion Hnd as [|x xs Hx Hl]; subst.
    destruct (String.eqb_spec k' k); cbn.
    + subst k'. constructor; assumption.
    + constructor; [|now apply IH].
      intros Hin. apply JsMap_keys_set in Hin. destruct Hin as [E|Hin]; [congruence|].
      contradiction.
Qed.

Lemma JsMap_NoDup_delete {V : Type} (k : string) (m : list (string * V)) :
  NoDup (JsMap.keys m) -> NoDup (JsMap.keys (JsMap.delete k m)).
Proof.
  induction m as [|[k' v'] m IH]; cbn; intros Hnd; [constructor|].
  inversion Hnd as [|x xs Hx Hl]; subst.
  destruct (String.eqb_spec k' k); cbn; [exact Hl|].
  constructor; [|now apply IH].
  intros Hin. apply (JsMap_keys_delete k k' m Hl) in Hin. tauto.
Qed.

Lemma JsMap_get_delete_same {V : Type} (k : string) (m : list (string * V)) :
  NoDup (JsMap.keys m) -> JsMap.get k (JsMap.delete k m) = None.
Proof.
  intros Hnd. apply JsMap_get_none. intros Hin.
  apply (JsMap_keys_delete k k m Hnd) in Hin. tauto.
Qed.

Lemma JsMap_get_delete_other {V : Type} (k k0 : string) (m : list (string * V)) :
  k0 <> k -> JsMap.get k0 (JsMap.delete k m) = JsMap.get k0 m.
Proof.
  intros Hne. induction m as [|[k' v'] m IH]; cbn; [reflexivity|].
  destruct (String.eqb_spec k' k); cbn.
  - subst k'. destruct (String.eqb_spec k k0); [congruence|reflexivity].
  - destruct (String.eqb_spec k' k0); [reflexivity|exact IH].
Qed.

Lemma nth_error_snoc {A : Type} (l : list A) (x y : A) (n : nat) :
  nth_error (l ++ [x]) n = Some y ->
  ((n < List.length l)%nat /\ nth_error l n = Some y) \/ (n = List.length l /\ y = x).
Proof.
  intros H. destruct (Nat.lt_ge_cases n (List.length l)) as [Hlt|Hge].
  - left. split; [exact Hlt|]. now rewrite nth_error_app1 in H.
  - right. rewrite nth_error_app2 in H by exact Hge.
    destruct (n - List.length l)%nat as [|k] eqn:E; cbn in H.
    + split; [lia|congruence].
    + destruct k; discriminate H.
Qed.

Lemma nth_error_snoc_old {A : Type} (l : list A) (x y : A) (n : nat) :
  nth_error l n = Some y -> nth_error (l ++ [x]) n = Some y.
Proof.
  intros H. rewrite nth_error_app1; [exact H|]. apply nth_error_Some. congruence.
Qed.

Lemma nth_error_snoc_new {A : Type} (l : list A) (x : A) :
  nth_error (l ++ [x]) (List.length l) = Some x.
Proof. rewrite nth_error_app2 by lia. now rewrite Nat.sub_diag. Qed.

Lemma nth_error_update_nth {A : Type} (f : A -> A) (l : list A) (n m : nat) :
  nth_error (update_nth n f l) m
  = if Nat.eqb m n then option_map f (nth_error l m) else nth_error l m.
Proof.
  revert n m; induction l as [|x l IH]; intros n m.
  - destruct n, m; cbn; try reflexivity. now destruct (Nat.eqb m n).
  - destruct n, m; cbn; try reflexivity. apply IH.
Qed.

Lemma length_update_nth {A : Type} (f : A -> A) (l : list A) (n : nat) :
  List.length (update_nth n f l) = List.length l.
Proof.
  revert n; induction l as [|x l IH]; intros n; destruct n; cbn; auto.
Qed.

(** Runs the client's methods on a state given field by field. *)
Ltac run_client :=
  repeat (progress
    (cbv beta iota zeta delta
       [ socket token accessToken responseHandlers isConnected reconnectTimer
         statusPollingTimer timers nextHandle promises sockets awaiting drawn trace
         set_socket set_token set_accessToken set_responseHandlers set_isConnected
         set_reconnectTimer set_statusPollingTimer set_timers set_nextHandle
         set_promises set_sockets set_awaiting set_drawn set_trace
         emit fst snd negb andb
         setTimer setTimeout setInterval clearTimer newPromise park
         generateMsgID send getDeviceList readDevice writeDevice
         Client.open Client.close Client.stop Client.setPosition Client.getStatus
         connect scheduleReconnect disconnect startStatusPolling
         reconnectFailed reconnect_getDeviceList reconnect
         onSocketError onSocketClose ])).

Ltac parts :=
  unfold kind, outcome in *;
  cbn [ socket token accessToken responseHandlers isConnected reconnectTimer
        statusPollingTimer timers nextHandle promises sockets awaiting drawn trace ] in *.


Lemma NoDup_handles_filter (p : Timer -> bool) (ts : list Timer) :
  NoDup (map timer_handle ts) -> NoDup (map timer_handle (filter p ts)).
Proof.
  induction ts as [|x l IH]; cbn; intros H; [constructor|].
  inversion H as [|y ys Hx Hl]; subst.
  destruct (p x); cbn; [constructor|]; auto.
  intros Hin. apply Hx. apply in_map_iff in Hin. destruct Hin as [z [E Hz]].
  apply filter_In in Hz. rewrite <- E. apply in_map. tauto.
Qed.

Lemma NoDup_handles_add (next : nat) (ts : list Timer) (t : Timer) :
  Forall (fun t => (timer_handle t < next)%nat) ts ->
  NoDup (map timer_handle ts) ->
  timer_handle t = next ->
  NoDup (map timer_handle (ts ++ [t])).
Proof.
  intros Hf Hnd Ht. rewrite map_app. cbn [map].
  apply NoDup_app; [exact Hnd|constructor; [intros []|constructor]|].
  intros h Hin [E|[]]. apply in_map_iff in Hin. destruct Hin as [t' [E' Hin]].
  rewrite Forall_forall in Hf. specialize (Hf t' Hin). lia.
Qed.

Lemma fresh_add (next : nat) (ts : list Timer) (t : Timer) :
  Forall (fun t => (timer_handle t < next)%nat) ts ->
  timer_handle t = next ->
  Forall (fun t => (timer_handle t < S next)%nat) (ts ++ [t]).
Proof.
  intros Hf Ht. apply Forall_app. split.
  - eapply Forall_impl; [|exact Hf]. cbn. intros; lia.
  - constructor; [lia|constructor].
Qed.

Lemma fresh_filter (next : nat) (p : Timer -> bool) (ts : list Timer) :
  Forall (fun t => (timer_handle t < next)%nat) ts ->
  Forall (fun t => (timer_handle t < next)%nat) (filter p ts).
Proof.
  intros Hf. rewrite Forall_forall in *. intros t Hin. apply filter_In in Hin.
  apply Hf. tauto.
Qed.

Lemma same_handle (ts : list Timer) (a b : Timer) :
  NoDup (map timer_handle ts) -> In a ts -> In b ts ->
  timer_handle a = timer_handle b -> a = b.
Proof.
  induction ts as [|t ts IH]; cbn; intros Hnd Ha Hb E; [destruct Ha|].
  inversion Hnd as [|y ys Hx Hl]; subst.
  destruct Ha as [->|Ha], Hb as [->|Hb]; trivial.
  - exfalso. apply Hx. rewrite E. now apply in_map.
  - exfalso. apply Hx. rewrite <- E. now apply in_map.
  - now apply IH.
Qed.

Lemma In_filter_handle (h : nat) (t : Timer) (ts : list Timer) :
  In t (filter (fun t => negb (Nat.eqb (timer_handle t) h)) ts) <->
  In t ts /\ timer_handle t <> h.
Proof.
  rewrite filter_In, negb_true_iff, Nat.eqb_neq. tauto.
Qed.

Lemma In_filter_handle' (h : nat) (t : Timer) (ts : list Timer) :
  In t (filter (fun t => if Nat.eqb (timer_handle t) h then false else true) ts) <->
  In t ts /\ timer_handle t <> h.
Proof. apply In_filter_handle. Qed.

Section Consistency.

Variable gatewayIP : string.
Variable key : Gateway.js_string.
Variable entropy : nat -> string.

Lemma send_consistent (message : Gateway.MotionMessage) (g : State) :
  consistent g -> consistent (fst (send gatewayIP message g)).
Proof.
  intros H.
  destruct g as [sock tok atok hs ic rt st ts next ps socks aw dr tr].
  run_client. destruct sock as [s|]; [|exact H]. destruct ic; [|exact H].
  run_client.
  destruct H as [H1 H2 H3 H4 H5 H6 H7 H8 H9 H10 H11 H13 H12]. parts.
  constructor; parts.
  - now apply fresh_add.
  - now apply NoDup_handles_add with next.
  - now apply JsMap_NoDup_set.
  - intros p mt h E. destruct (nth_error (ps ++ _) p) as [q|] eqn:En; [|discriminate E].
    apply nth_error_snoc in En. destruct En as [[Hlt En]|[-> ->]].
    + specialize (H4 p mt h). rewrite En in H4. specialize (H4 E). lia.
    + cbn in E. inversion E; subst. lia.
  - intros p p' mt mt' h E E'.
    destruct (nth_error (ps ++ _) p) as [q|] eqn:En; [|discriminate E].
    destruct (nth_error (ps ++ _) p') as [q'|] eqn:En'; [|discriminate E'].
    apply nth_error_snoc in En, En'.
    destruct En as [[Hlt En]|[-> ->]], En' as [[Hlt' En']|[-> ->]]; trivial.
    + apply (H5 p p' mt mt' h); [now rewrite En|now rewrite En'].
    + cbn in E'. inversion E'; subst.
      specialize (H4 p mt h). rewrite En in H4. specialize (H4 E). lia.
    + cbn in E. inversion E; subst.
      specialize (H4 p' mt' h). rewrite En' in H4. specialize (H4 E'). lia.
  - intros k hd Hin. apply JsMap_in_set in Hin. destruct Hin as [[-> ->]|Hin].
    + exists (Gateway.msgType message). cbn. rewrite nth_error_snoc_new. auto.
    + destruct (H6 k hd Hin) as [mt [E1 [E2 E3]]]. exists mt. split; [exact E1|].
      split; [exact E2|].
      destruct (nth_error ps (handler_promise hd)) as [q|] eqn:En; [|discriminate E3].
      now rewrite (nth_error_snoc_old _ _ _ _ En).
  - intros q k Hin. rewrite length_app. specialize (H7 q k Hin). cbn. lia.
  - intros h E. apply in_or_app. left. now apply H8.
  - intros h E. destruct (H9 h E) as [macs [delay Hin]]. exists macs, delay.
    apply in_or_app. now left.
  - intros t Hin Ht. apply in_app_or in Hin. destruct Hin as [Hin|[<-|[]]]; [now apply H10|].
    discriminate Ht.
  - intros t Hin Ht. apply in_app_or in Hin. destruct Hin as [Hin|[<-|[]]]; [now apply H11|].
    discriminate Ht.
  - intros p mt h t E Hin Ht.
    destruct (nth_error (ps ++ _) p) as [q|] eqn:En; [|discriminate E].
    apply nth_error_snoc in En. apply in_app_or in Hin.
    rewrite Forall_forall in H1.
    destruct En as [[Hlt En]|[-> ->]], Hin as [Hin|[<-|[]]].
    + apply (H13 p mt h t); trivial. now rewrite En.
    + specialize (H4 p mt h). rewrite En in H4. specialize (H4 E). cbn in Ht. lia.
    + cbn in E. inversion E; subst. specialize (H1 t Hin). lia.
    + cbn in E. inversion E; subst. reflexivity.
  - intros p mt h En _. apply nth_error_snoc in En. destruct En as [[Hlt En]|[-> E]].
    + apply in_or_app. left. now apply H12.
    + inversion E; subst. apply in_or_app. right. left. reflexivity.
Qed.


Lemma consistent_parts (skip : nat -> Prop) (g g' : State) :
  timers g' = timers g -> nextHandle g' = nextHandle g ->
  promises g' = promises g -> responseHandlers g' = responseHandlers g ->
  awaiting g' = awaiting g -> reconnectTimer g' = reconnectTimer g ->
  statusPollingTimer g' = statusPollingTimer g ->
  consistent_but skip g -> consistent_but skip g'.
Proof.
  destruct g, g'; cbn. intros -> -> -> -> -> -> -> H.
  destruct H as [H1 H2 H3 H4 H5 H6 H7 H8 H9 H10 H11 H13 H12]. parts.
  constructor; parts; assumption.
Qed.

Lemma consistent_weaken (skip : nat -> Prop) (g : State) :
  consistent g -> consistent_but skip g.
Proof.
  intros [H1 H2 H3 H4 H5 H6 H7 H8 H9 H10 H11 H13 H12].
  constructor; trivial. intros p mt h E _. now apply H12.
Qed.

Lemma send_awaits (message : Gateway.MotionMessage) (g : State) (p : nat) :
  snd (send gatewayIP message g) = Awaits p ->
  p = List.length (promises g) /\
  (p < List.length (promises (fst (send gatewayIP message g))))%nat.
Proof.
  destruct g as [sock tok atok hs ic rt st ts next ps socks aw dr tr].
  run_client. destruct sock as [s|]; [|discriminate]. destruct ic; [|discriminate].
  run_client. intros E. inversion E; subst. rewrite length_app. cbn. lia.
Qed.

Lemma writeDevice_consistent mac operation targetPosition deviceType (g : State) :
  consistent g ->
  consistent (fst (writeDevice gatewayIP entropy mac operation targetPosition deviceType g)).
Proof.
  intros H. unfold writeDevice, generateMsgID. cbv zeta.
  apply send_consistent. eapply consistent_parts; [..|exact H]; reflexivity.
Qed.

Lemma readDevice_consistent mac deviceType (g : State) :
  consistent g -> consistent (fst (readDevice gatewayIP entropy mac deviceType g)).
Proof.
  intros H. unfold readDevice, generateMsgID. cbv zeta.
  apply send_consistent. eapply consistent_parts; [..|exact H]; reflexivity.
Qed.

Lemma getDeviceList_consistent (g : State) :
  consistent g -> consistent (fst (getDeviceList gatewayIP entropy g)).
Proof.
  intros H. unfold getDeviceList, generateMsgID. cbv zeta.
  apply send_consistent. eapply consistent_parts; [..|exact H]; reflexivity.
Qed.

Lemma park_consistent (p : nat) (k : Continuation) (g : State) :
  consistent g -> (p < List.length (promises g))%nat -> consistent (park p k g).
Proof.
  intros [H1 H2 H3 H4 H5 H6 H7 H8 H9 H10 H11 H13 H12] Hp.
  constructor; trivial. unfold park. cbn [awaiting promises set_awaiting].
  intros q k' Hin. apply in_app_or in Hin. destruct Hin as [Hin|[E|[]]].
  - now apply (H7 q k').
  - now inversion E; subst.
Qed.

Lemma connect_consistent (g : State) :
  consistent g -> consistent (fst (connect g)).
Proof.
  intros H.
  destruct g as [sock tok atok hs ic rt st ts next ps socks aw dr tr].
  run_client. destruct ic; [exact H|]. run_client.
  destruct H as [H1 H2 H3 H4 H5 H6 H7 H8 H9 H10 H11 H13 H12]. parts.
  constructor; parts.
  - now apply fresh_add.
  - now apply NoDup_handles_add with next.
  - assumption.
  - intros p mt h E. destruct (nth_error (ps ++ _) p) as [q|] eqn:En; [|discriminate E].
    apply nth_error_snoc in En. destruct En as [[Hlt En]|[-> ->]]; [|discriminate E].
    specialize (H4 p mt h). rewrite En in H4. specialize (H4 E). lia.
  - intros p p' mt mt' h E E'.
    destruct (nth_error (ps ++ _) p) as [q|] eqn:En; [|discriminate E].
    destruct (nth_error (ps ++ _) p') as [q'|] eqn:En'; [|discriminate E'].
    apply nth_error_snoc in En, En'.
    destruct En as [[Hlt En]|[-> ->]], En' as [[Hlt' En']|[-> ->]];
      try discriminate E; try discriminate E'.
    apply (H5 p p' mt mt' h); [now rewrite En|now rewrite En'].
  - intros k hd Hin. destruct (H6 k hd Hin) as [mt [E1 [E2 E3]]]. exists mt.
    split; [exact E1|]. split; [exact E2|].
    destruct (nth_error ps (handler_promise hd)) as [q|] eqn:En; [|discriminate E3].
    now rewrite (nth_error_snoc_old _ _ _ _ En).
  - intros q k Hin. rewrite length_app. specialize (H7 q k Hin). cbn. lia.
  - intros h E. apply in_or_app. left. now apply H8.
  - intros h E. destruct (H9 h E) as [macs [delay Hin]]. exists macs, delay.
    apply in_or_app. now left.
  - intros t Hin Ht. apply in_app_or in Hin. destruct Hin as [Hin|[<-|[]]]; [now apply H10|].
    discriminate Ht.
  - intros t Hin Ht. apply in_app_or in Hin. destruct Hin as [Hin|[<-|[]]]; [now apply H11|].
    discriminate Ht.
  - intros p mt h t E Hin Ht.
    destruct (nth_error (ps ++ _) p) as [q|] eqn:En; [|discriminate E].
    apply nth_error_snoc in En. apply in_app_or in Hin.
    destruct En as [[Hlt En]|[-> ->]]; [|discriminate E].
    destruct Hin as [Hin|[<-|[]]].
    + apply (H13 p mt h t); trivial. now rewrite En.
    + specialize (H4 p mt h). rewrite En in H4. specialize (H4 E). cbn in Ht. lia.
  - intros p mt h En _. apply nth_error_snoc in En. destruct En as [[Hlt En]|[-> E]].
    + apply in_or_app. left. now apply H12.
    + discriminate E.
Qed.

Lemma connect_awaits (g : State) (p : nat) :
  snd (connect g) = Awaits p -> (p < List.length (promises (fst (connect g))))%nat.
Proof.
  destruct g as [sock tok atok hs ic rt st ts next ps socks aw dr tr].
  run_client. destruct ic; [discriminate|]. run_client.
  intros E. inversion E; subst. rewrite length_app. cbn. lia.
Qed.

Lemma scheduleReconnect_consistent (g : State) :
  consistent g -> consistent (scheduleReconnect g).
Proof.
  intros H.
  destruct g as [sock tok atok hs ic rt st ts next ps socks aw dr tr].
  run_client. destruct rt as [h|]; [exact H|]. run_client.
  destruct H as [H1 H2 H3 H4 H5 H6 H7 H8 H9 H10 H11 H13 H12]. parts.
  constructor; parts; trivial.
  - now apply fresh_add.
  - now apply NoDup_handles_add with next.
  - intros p mt h E. specialize (H4 p mt h E). lia.
  - intros h E. inversion E; subst. apply in_or_app. right. left. reflexivity.
  - intros h E. destruct (H9 h E) as [macs [delay Hin]]. exists macs, delay.
    apply in_or_app. now left.
  - intros t Hin Ht. apply in_app_or in Hin. destruct Hin as [Hin|[<-|[]]]; [|reflexivity].
    discriminate (H10 t Hin Ht).
  - intros t Hin Ht. apply in_app_or in Hin. destruct Hin as [Hin|[<-|[]]]; [now apply H11|].
    discriminate Ht.
  - intros p mt h t E Hin Ht. apply in_app_or in Hin. destruct Hin as [Hin|[<-|[]]].
    + now apply (H13 p mt h t).
    + specialize (H4 p mt h E). cbn in Ht. lia.
  - intros p mt h En _. apply in_or_app. left. now apply H12.
Qed.


Lemma clearTimer_consistent (skip skip' : nat -> Prop) (h : nat) (g : State) :
  consistent_but skip g ->
  reconnectTimer g <> Some h ->
  statusPollingTimer g <> Some h ->
  (forall p, skip p -> skip' p) ->
  (forall p mt,
     nth_error (promises g) p = Some (mkPromise (RequestPromise mt h) Pending) ->
     skip' p) ->
  consistent_but skip' (clearTimer h g).
Proof.
  intros H Hrt Hst Hskip Hreq.
  destruct g as [sock tok atok hs ic rt st ts next ps socks aw dr tr].
  run_client.
  destruct H as [H1 H2 H3 H4 H5 H6 H7 H8 H9 H10 H11 H13 H12]. parts.
  constructor; parts; trivial.
  - now apply fresh_filter.
  - now apply NoDup_handles_filter.
  - intros h' E. apply In_filter_handle'. split; [now apply H8|].
    cbn. intros ->. congruence.
  - intros h' E. destruct (H9 h' E) as [macs [delay Hin]]. exists macs, delay.
    apply In_filter_handle'. split; [exact Hin|]. cbn. intros ->. congruence.
  - intros t Hin Ht. apply In_filter_handle' in Hin. now apply H10.
  - intros t Hin Ht. apply In_filter_handle' in Hin. now apply H11.
  - intros p mt h' t E Hin' Ht. apply In_filter_handle' in Hin'.
    now apply (H13 p mt h' t).
  - intros p mt h' En Hn. apply In_filter_handle'. split.
    + apply H12; [exact En|]. intros Hs. apply Hn. now apply Hskip.
    + cbn. intros ->. apply Hn. now apply (Hreq p mt).
Qed.

Lemma clear_reconnect_consistent (skip : nat -> Prop) (h : nat) (g : State) :
  consistent_but skip g ->
  In (reconnect_timer h) (timers g) ->
  (reconnectTimer g = Some h \/ reconnectTimer g = None) ->
  consistent_but skip (set_reconnectTimer None (clearTimer h g)).
Proof.
  intros H Hin Hrt.
  destruct g as [sock tok atok hs ic rt st ts next ps socks aw dr tr].
  run_client.
  destruct H as [H1 H2 H3 H4 H5 H6 H7 H8 H9 H10 H11 H13 H12]. parts.
  constructor; parts; trivial.
  - now apply fresh_filter.
  - now apply NoDup_handles_filter.
  - intros h' E. discriminate E.
  - intros h' E. destruct (H9 h' E) as [macs [delay Hin']]. exists macs, delay.
    apply In_filter_handle'. split; [exact Hin'|]. cbn. intros ->.
    discriminate (same_handle ts _ _ H2 Hin Hin' eq_refl).
  - intros t Hin' Ht. apply In_filter_handle' in Hin'. destruct Hin' as [Hin' Hne].
    pose proof (H10 t Hin' Ht) as E. destruct Hrt as [Hrt|Hrt]; congruence.
  - intros t Hin' Ht. apply In_filter_handle' in Hin'. now apply H11.
  - intros p mt h' t E Hin' Ht. apply In_filter_handle' in Hin'.
    now apply (H13 p mt h' t).
  - intros p mt h' En Hn. apply In_filter_handle'. split; [now apply H12|].
    cbn. intros ->.
    discriminate (same_handle ts _ _ H2 Hin (H12 p mt h En Hn) eq_refl).
Qed.

Lemma clear_polling_consistent (skip : nat -> Prop) (h : nat) (g : State) :
  consistent_but skip g ->
  statusPollingTimer g = Some h ->
  consistent_but skip (set_statusPollingTimer None (clearTimer h g)).
Proof.
  intros H Hst.
  destruct g as [sock tok atok hs ic rt st ts next ps socks aw dr tr].
  run_client.
  destruct H as [H1 H2 H3 H4 H5 H6 H7 H8 H9 H10 H11 H13 H12]. parts.
  destruct (H9 h Hst) as [macs [delay Hin]].
  constructor; parts; trivial.
  - now apply fresh_filter.
  - now apply NoDup_handles_filter.
  - intros h' E. apply In_filter_handle'. split; [now apply H8|].
    cbn. intros ->.
    discriminate (same_handle ts _ _ H2 Hin (H8 h E) eq_refl).
  - intros h' E. discriminate E.
  - intros t Hin' Ht. apply In_filter_handle' in Hin'. now apply H10.
  - intros t Hin' Ht. apply In_filter_handle' in Hin'. destruct Hin' as [Hin' Hne].
    pose proof (H11 t Hin' Ht) as E. congruence.
  - intros p mt h' t E Hin' Ht. apply In_filter_handle' in Hin'.
    now apply (H13 p mt h' t).
  - intros p mt h' En Hn. apply In_filter_handle'. split; [now apply H12|].
    cbn. intros ->.
    discriminate (same_handle ts _ _ H2 Hin (H12 p mt h En Hn) eq_refl).
Qed.

Lemma disconnect_consistent (g : State) :
  consistent g -> consistent (disconnect g).
Proof.
  intros H. unfold disconnect. cbv zeta.
  set (g1 := match reconnectTimer g with
             | Some h => set_reconnectTimer None (clearTimer h g)
             | None => g
             end).
  assert (H1 : consistent g1).
  { subst g1. destruct (reconnectTimer g) as [h|] eqn:E; [|exact H].
    apply clear_reconnect_consistent; [exact H| |now left].
    now apply (reconnect_armed _ _ H). }
  set (g2 := match statusPollingTimer g1 with
             | Some h => set_statusPollingTimer None (clearTimer h g1)
             | None => g1
             end).
  assert (H2 : consistent g2).
  { subst g2. destruct (statusPollingTimer g1) as [h|] eqn:E; [|exact H1].
    now apply clear_polling_consistent. }
  eapply consistent_parts; [..|exact H2];
    destruct (socket g2); reflexivity.
Qed.

Lemma arm_polling_consistent (macs : list string) (intervalMs : Z) (g : State) :
  consistent g ->
  statusPollingTimer g = None ->
  consistent
    (set_statusPollingTimer (Some (nextHandle g))
       (snd (setInterval (StatusPollingCallback macs) intervalMs g))).
Proof.
  intros H Hst.
  destruct g as [sock tok atok hs ic rt st ts next ps socks aw dr tr].
  run_client.
  destruct H as [H1 H2 H3 H4 H5 H6 H7 H8 H9 H10 H11 H13 H12]. parts. subst st.
  constructor; parts; trivial.
  - now apply fresh_add.
  - now apply NoDup_handles_add with next.
  - intros p mt h E. specialize (H4 p mt h E). lia.
  - intros h E. apply in_or_app. left. now apply H8.
  - intros h E. inversion E; subst. exists macs, intervalMs.
    apply in_or_app. right. left. reflexivity.
  - intros t Hin Ht. apply in_app_or in Hin. destruct Hin as [Hin|[<-|[]]]; [now apply H10|].
    discriminate Ht.
  - intros t Hin Ht. apply in_app_or in Hin. destruct Hin as [Hin|[<-|[]]]; [|reflexivity].
    discriminate (H11 t Hin Ht).
  - intros p mt h t E Hin Ht. apply in_app_or in Hin. destruct Hin as [Hin|[<-|[]]].
    + now apply (H13 p mt h t).
    + specialize (H4 p mt h E). cbn in Ht. lia.
  - intros p mt h En _. apply in_or_app. left. now apply H12.
Qed.

Lemma startStatusPolling_consistent (macs : list string) (intervalMs : Z) (g : State) :
  consistent g -> consistent (startStatusPolling macs intervalMs g).
Proof.
  intros H.
  assert (E : startStatusPolling macs intervalMs g
              = let g1 := match statusPollingTimer g with
                          | Some h => set_statusPollingTimer None (clearTimer h g)
                          | None => g
                          end in
                set_statusPollingTimer (Some (nextHandle g1))
                  (snd (setInterval (StatusPollingCallback macs) intervalMs g1))).
  { destruct g as [sock tok atok hs ic rt st ts next ps socks aw dr tr].
    destruct st; reflexivity. }
  rewrite E. cbv zeta. apply arm_polling_consistent.
  - destruct (statusPollingTimer g) as [h|] eqn:Est; [|exact H].
    now apply clear_polling_consistent.
  - destruct (statusPollingTimer g) as [h|] eqn:Est; [reflexivity|exact Est].
Qed.

Lemma reconnectFailed_consistent (reason : Failure) (g : State) :
  consistent g -> consistent (reconnectFailed reason g).
Proof.
  intros H. unfold reconnectFailed. cbv zeta. apply scheduleReconnect_consistent.
  eapply consistent_parts; [..|exact H]; reflexivity.
Qed.

Lemma reconnect_getDeviceList_consistent (g : State) :
  consistent g -> consistent (reconnect_getDeviceList gatewayIP entropy g).
Proof.
  intros H. unfold reconnect_getDeviceList.
  pose proof (getDeviceList_consistent g H) as H'.
  assert (Ha : forall p, snd (getDeviceList gatewayIP entropy g) = Awaits p ->
                 (p < List.length (promises (fst (getDeviceList gatewayIP entropy g))))%nat).
  { intros p. unfold getDeviceList, generateMsgID. cbv zeta. intros E.
    now apply send_awaits in E. }
  destruct (getDeviceList gatewayIP entropy g) as [g' [|reason|p]]; cbn [fst snd] in *.
  - exact H'.
  - now apply reconnectFailed_consistent.
  - apply park_consistent; [exact H'|]. now apply Ha.
Qed.

Lemma pollStatus_consistent (macs : list string) (g : State) :
  consistent g -> consistent (pollStatus gatewayIP entropy macs g).
Proof.
  revert g; induction macs as [|mac rest IH]; intros g H; [exact H|].
  cbn [pollStatus]. unfold Client.getStatus.
  pose proof (writeDevice_consistent mac Gateway.StatusQuery None
                Gateway.default_deviceType g H) as H'.
  assert (Ha : forall p,
             snd (writeDevice gatewayIP entropy mac Gateway.StatusQuery None
                    Gateway.default_deviceType g) = Awaits p ->
             (p < List.length
                    (promises (fst (writeDevice gatewayIP entropy mac Gateway.StatusQuery
                                      None Gateway.default_deviceType g))))%nat).
  { intros p. unfold writeDevice, generateMsgID. cbv zeta. intros E.
    now apply send_awaits in E. }
  destruct (writeDevice gatewayIP entropy mac Gateway.StatusQuery None
              Gateway.default_deviceType g) as [g' [|reason|p]]; cbn [fst snd] in *.
  - now apply IH.
  - apply IH. eapply consistent_parts; [..|exact H']; reflexivity.
  - apply park_consistent; [exact H'|]. now apply Ha.
Qed.

Lemma resume_consistent (k : Continuation) (o : Outcome) (g : State) :
  consistent g -> consistent (resume gatewayIP entropy k o g).
Proof.
  intros H. destruct k, o; cbn [resume]; trivial.
  - now apply reconnect_getDeviceList_consistent.
  - now apply reconnectFailed_consistent.
  - now apply reconnectFailed_consistent.
  - now apply pollStatus_consistent.
  - apply pollStatus_consistent. eapply consistent_parts; [..|exact H]; reflexivity.
Qed.

Lemma fold_resume_consistent (o : Outcome) (waiting : list (nat * Continuation))
    (g : State) :
  consistent g ->
  consistent (fold_left (fun g '(_, k) => resume gatewayIP entropy k o g) waiting g).
Proof.
  revert g; induction waiting as [|[q k] waiting IH]; intros g H; [exact H|].
  cbn [fold_left]. apply IH. now apply resume_consistent.
Qed.

Lemma settle_consistent (p : nat) (o : Outcome) (g : State) :
  consistent_but (eq p) g -> o <> Pending ->
  consistent (settle gatewayIP entropy p o g).
Proof.
  intros H Ho. unfold settle.
  assert (Hidle : outcome p g <> Some Pending -> consistent g).
  { intros Hn. destruct H as [H1 H2 H3 H4 H5 H6 H7 H8 H9 H10 H11 H13 H12].
    constructor; trivial. intros q mt h En _. apply H12; [exact En|].
    intros ->. apply Hn. unfold outcome. now rewrite En. }
  destruct (outcome p g) as [[| |]|] eqn:Eo;
    try (apply Hidle; congruence).
  cbv zeta.
  assert (Hs : consistent
                 (set_awaiting
                    (filter (fun '(q, _) => negb (Nat.eqb q p)) (awaiting g))
                    (set_promises
                       (update_nth p (fun q => mkPromise (promise_kind q) o) (promises g))
                       g))).
  { destruct g as [sock tok atok hs ic rt st ts next ps socks aw dr tr].
    run_client.
    destruct H as [H1 H2 H3 H4 H5 H6 H7 H8 H9 H10 H11 H13 H12]. parts.
    assert (Hk : forall q,
               option_map promise_kind
                 (nth_error (update_nth p (fun q => mkPromise (promise_kind q) o) ps) q)
               = option_map promise_kind (nth_error ps q)).
    { intros q. rewrite nth_error_update_nth. destruct (Nat.eqb q p); [|reflexivity].
      now destruct (nth_error ps q). }
    constructor; parts; trivial.
    - intros q mt h. rewrite Hk. apply H4.
    - intros q q' mt mt' h. rewrite !Hk. apply H5.
    - intros k hd Hin. rewrite Hk. now apply H6.
    - intros q k Hin. apply filter_In in Hin. rewrite length_update_nth.
      now apply (H7 q k).
    - intros q mt h t. rewrite Hk. apply H13.
    - intros q mt h En _. rewrite nth_error_update_nth in En.
      destruct (Nat.eqb_spec q p) as [->|Hne].
      + destruct (nth_error ps p) as [x|]; [|discriminate En]. cbn in En.
        inversion En; subst. congruence.
      + apply H12; [exact En|]. congruence. }
  apply fold_resume_consistent. exact Hs.
Qed.


Lemma delete_handler_consistent (skip : nat -> Prop) (k : string) (g : State) :
  consistent_but skip g ->
  consistent_but skip (set_responseHandlers (JsMap.delete k (responseHandlers g)) g).
Proof.
  intros [H1 H2 H3 H4 H5 H6 H7 H8 H9 H10 H11 H13 H12].
  constructor; trivial; cbn [responseHandlers set_responseHandlers].
  - now apply JsMap_NoDup_delete.
  - intros k' hd Hin. apply JsMap_in_delete in Hin. now apply H6.
Qed.

Lemma clear_request_consistent (p : nat) (mt : string) (h : nat) (g : State) :
  consistent g ->
  kind p g = Some (RequestPromise mt h) ->
  consistent_but (eq p) (clearTimer h g).
Proof.
  intros H Hk.
  apply (clearTimer_consistent (fun _ => False) (eq p)); [exact H| | | |].
  - intros E. pose proof (reconnect_armed _ _ H h E) as Hin.
    discriminate (request_handles_own _ _ H p mt h _ Hk Hin eq_refl).
  - intros E. destruct (polling_armed _ _ H h E) as [macs [delay Hin]].
    discriminate (request_handles_own _ _ H p mt h _ Hk Hin eq_refl).
  - intros q [].
  - intros q mt' En. apply (request_handles_differ _ _ H p q mt mt' h); trivial.
    unfold kind. now rewrite En.
Qed.

Lemma runHandler_consistent (k : string) (hd : Handler) (response : Response) (g : State) :
  consistent g -> In (k, hd) (responseHandlers g) ->
  consistent (runHandler gatewayIP entropy hd response g).
Proof.
  intros H Hin. unfold runHandler. cbv zeta.
  destruct (handlers_sound _ _ H k hd Hin) as [mt [E1 [E2 E3]]].
  apply settle_consistent; [|discriminate].
  apply delete_handler_consistent. now apply (clear_request_consistent _ mt).
Qed.

Lemma handleMessage_consistent (datagram : option Response) (g : State) :
  consistent g -> consistent (handleMessage gatewayIP key entropy datagram g).
Proof.
  intros H. unfold handleMessage. destruct datagram as [response|];
    [|eapply consistent_parts; [..|exact H]; reflexivity].
  cbv zeta.
  set (g1 := match response_token response with
             | Some t => _
             | None => _
             end).
  assert (H1 : consistent g1).
  { subst g1. destruct (response_token response) as [t|];
      [destruct (truthy_js_string (Some t))|];
      (eapply consistent_parts; [..|exact H]; reflexivity). }
  assert (P1 : responseHandlers g1 = responseHandlers g).
  { subst g1. destruct (response_token response) as [t|];
      [destruct (truthy_js_string (Some t))|]; reflexivity. }
  clearbody g1.
  destruct (response_msgType response) as [msgType|]; [|exact H1].
  destruct (truthy_string (Some msgType)); [|exact H1].
  set (g2 := if (String.eqb msgType "WriteDeviceAck" || String.eqb msgType "ReadDeviceAck")%bool
             then _ else _).
  assert (H2 : consistent g2 /\ responseHandlers g2 = responseHandlers g1).
  { subst g2. destruct (String.eqb msgType "WriteDeviceAck" || String.eqb msgType "ReadDeviceAck")%bool;
      [|split; [exact H1|reflexivity]].
    destruct (response_mac response) as [mac|]; [|split; [exact H1|reflexivity]].
    destruct (response_data response) as [data|]; [|split; [exact H1|reflexivity]].
    destruct (truthy_string (Some mac)); [|split; [exact H1|reflexivity]].
    split; [|reflexivity]. eapply consistent_parts; [..|exact H1]; reflexivity. }
  destruct H2 as [H2 P2]. clearbody g2.
  destruct (JsMap.get msgType (responseHandlers g2)) as [handler|] eqn:Eg; [|exact H2].
  apply JsMap_get_in in Eg. now apply (runHandler_consistent msgType).
Qed.

Lemma onSent_consistent (p : nat) (err : bool) (g : State) :
  consistent g -> consistent (onSent gatewayIP entropy p err g).
Proof.
  intros H. unfold onSent.
  destruct (option_map promise_kind (nth_error (promises g) p)) as [[s|mt h]|] eqn:Ek;
    trivial.
  destruct err; trivial. cbv zeta.
  apply settle_consistent; [|discriminate].
  apply delete_handler_consistent. now apply (clear_request_consistent _ mt).
Qed.

Lemma onBound_consistent (p : nat) (joined : bool) (g : State) :
  consistent g -> consistent (onBound gatewayIP entropy p joined g).
Proof.
  intros H. unfold onBound. cbv zeta.
  apply settle_consistent; [|discriminate]. apply consistent_weaken.
  eapply consistent_parts; [..|exact H];
    (destruct (socket _); [destruct joined|]; reflexivity).
Qed.

Lemma onSocketError_consistent (g : State) :
  consistent g -> consistent (onSocketError g).
Proof.
  intros H. unfold onSocketError. cbv zeta. apply scheduleReconnect_consistent.
  eapply consistent_parts; [..|exact H]; reflexivity.
Qed.

Lemma onSocketClose_consistent (g : State) :
  consistent g -> consistent (onSocketClose g).
Proof.
  intros H. unfold onSocketClose. cbv zeta.
  eapply consistent_parts; [..|exact H]; reflexivity.
Qed.

Lemma reconnect_consistent (g : State) :
  consistent (set_reconnectTimer None g) -> consistent (reconnect gatewayIP entropy g).
Proof.
  intros H. unfold reconnect. cbv zeta.
  pose proof (connect_consistent _ H) as H'.
  pose proof (connect_awaits (set_reconnectTimer None g)) as Ha.
  destruct (connect (set_reconnectTimer None g)) as [g' [|reason|p]]; cbn [fst snd] in *.
  - now apply reconnect_getDeviceList_consistent.
  - now apply reconnectFailed_consistent.
  - apply park_consistent; [exact H'|]. now apply Ha.
Qed.

Lemma fireTimer_consistent (h : nat) (g : State) :
  consistent g -> consistent (fireTimer gatewayIP entropy h g).
Proof.
  intros H. unfold fireTimer.
  destruct (find (fun t => Nat.eqb (timer_handle t) h) (timers g)) as [t|] eqn:Hfind;
    [|exact H].
  apply find_some in Hfind. destruct Hfind as [Hin Hh]. apply Nat.eqb_eq in Hh.
  assert (Hrt : reconnectTimer g = Some h -> t = reconnect_timer h).
  { intros E. symmetry.
    apply (same_handle (timers g)); trivial;
      [apply (timers_nodup _ _ H)|now apply (reconnect_armed _ _ H)|now rewrite Hh]. }
  assert (Hst : statusPollingTimer g = Some h ->
                timer_repeats t = true /\ is_status_polling t = true).
  { intros E. destruct (polling_armed _ _ H h E) as [macs [delay Hin']].
    assert (Et : mkTimer h delay true (StatusPollingCallback macs) = t).
    { apply (same_handle (timers g)); trivial;
        [apply (timers_nodup _ _ H)|now rewrite Hh]. }
    subst t. split; reflexivity. }
  assert (Hreq : forall q mt,
             nth_error (promises g) q = Some (mkPromise (RequestPromise mt h) Pending) ->
             t = request_timer q mt h).
  { intros q mt En. symmetry.
    apply (same_handle (timers g)); trivial;
      [apply (timers_nodup _ _ H)| |now rewrite Hh].
    apply (requests_live _ _ H q mt h En). tauto. }
  destruct (timer_callback t) as [p mt|p| |macs] eqn:Ecb; cbn [runCallback].
  - apply settle_consistent; [|discriminate]. apply delete_handler_consistent.
    destruct (timer_repeats t); [now apply consistent_weaken|].
    apply (clearTimer_consistent (fun _ => False) (eq p)); [exact H| | | |].
    + intros E. rewrite (Hrt E) in Ecb. discriminate Ecb.
    + intros E. destruct (Hst E) as [_ E']. unfold is_status_polling in E'.
      rewrite Ecb in E'. discriminate E'.
    + intros q [].
    + intros q mt' En. rewrite (Hreq q mt' En) in Ecb. cbn in Ecb. congruence.
  - assert (H' : consistent (if timer_repeats t then g else clearTimer h g)).
    { destruct (timer_repeats t); [exact H|].
      apply (clearTimer_consistent (fun _ => False) (fun _ => False)); [exact H| | | |].
      - intros E. rewrite (Hrt E) in Ecb. discriminate Ecb.
      - intros E. destruct (Hst E) as [_ E']. unfold is_status_polling in E'.
        rewrite Ecb in E'. discriminate E'.
      - trivial.
      - intros q mt' En. rewrite (Hreq q mt' En) in Ecb. discriminate Ecb. }
    revert H'. generalize (if timer_repeats t then g else clearTimer h g). intros g' H'.
    destruct (isConnected g'); [exact H'|].
    apply settle_consistent; [|discriminate]. now apply consistent_weaken.
  - assert (E : reconnectTimer g = Some h).
    { rewrite <- Hh. apply (reconnect_tracked _ _ H); trivial.
      unfold is_reconnect. now rewrite Ecb. }
    rewrite (Hrt E). cbn [timer_repeats reconnect_timer].
    apply reconnect_consistent.
    apply clear_reconnect_consistent; trivial; [|now left].
    now apply (reconnect_armed _ _ H).
  - assert (E : statusPollingTimer g = Some h).
    { rewrite <- Hh. apply (polling_tracked _ _ H); trivial.
      unfold is_status_polling. now rewrite Ecb. }
    destruct (Hst E) as [-> _]. now apply pollStatus_consistent.
Qed.

Lemma step_consistent (g : State) (e : Event) :
  consistent g -> consistent (step gatewayIP key entropy g e).
Proof.
  intros H.
  destruct e as [ | | |mac deviceType|mac operation targetPosition deviceType
                |macs intervalMs|datagram| | |s joined|p err|h]; cbn [step].
  - now apply connect_consistent.
  - now apply disconnect_consistent.
  - now apply getDeviceList_consistent.
  - now apply readDevice_consistent.
  - now apply writeDevice_consistent.
  - now apply startStatusPolling_consistent.
  - now apply handleMessage_consistent.
  - now apply onSocketError_consistent.
  - now apply onSocketClose_consistent.
  - destruct (nth_error (sockets g) s); [|exact H]. now apply onBound_consistent.
  - now apply onSent_consistent.
  - now apply fireTimer_consistent.
Qed.

Lemma run_consistent (events : list Event) (g : State) :
  consistent g -> consistent (run gatewayIP key entropy g events).
Proof.
  revert g; induction events as [|e events IH]; intros g H; [exact H|].
  cbn [run fold_left]. apply IH. now apply step_consistent.
Qed.

Lemma new_gateway_consistent : consistent new_gateway.
Proof.
  constructor; cbn.
  - constructor.
  - constructor.
  - constructor.
  - intros p mt h E. unfold kind in E. cbn in E. destruct p; discriminate E.
  - intros p p' mt mt' h E. unfold kind in E. cbn in E. destruct p; discriminate E.
  - intros k hd [].
  - intros q k [].
  - intros h E. discriminate E.
  - intros h E. discriminate E.
  - intros t [].
  - intros t [].
  - intros p mt h t E. unfold kind in E. cbn in E. destruct p; discriminate E.
  - intros p mt h E. destruct p; discriminate E.
Qed.

Lemma reachable_consistent (g : State) :
  reachable gatewayIP key entropy g -> consistent g.
Proof.
  intros [events ->]. apply run_consistent. apply new_gateway_consistent.
Qed.

End Consistency.

Lemma settled_stay_refl (g : State) : settled_stay g g.
Proof. split; [lia|split; auto]. Qed.

Lemma settled_stay_trans (g1 g2 g3 : State) :
  settled_stay g1 g2 -> settled_stay g2 g3 -> settled_stay g1 g3.
Proof.
  intros (L1 & K1 & O1) (L2 & K2 & O2). split; [lia|split]; auto.
Qed.

Lemma settled_stay_same (g g' : State) :
  promises g' = promises g -> settled_stay g g'.
Proof.
  intros E. unfold settled_stay, kind, outcome. rewrite E. split; [lia|split; auto].
Qed.

Lemma settled_stay_snoc (g g' : State) (x : Promise) :
  promises g' = promises g ++ [x] -> settled_stay g g'.
Proof.
  intros E. unfold settled_stay, kind, outcome. rewrite E, length_app.
  split; [lia|split].
  - intros p k Hk. destruct (nth_error (promises g) p) as [q|] eqn:En; [|discriminate Hk].
    now rewrite (nth_error_snoc_old _ _ _ _ En).
  - intros p o Ho _. destruct (nth_error (promises g) p) as [q|] eqn:En; [|discriminate Ho].
    now rewrite (nth_error_snoc_old _ _ _ _ En).
Qed.

Section Settled.

Variable gatewayIP : string.
Variable key : Gateway.js_string.
Variable entropy : nat -> string.

Lemma send_settled_stay (message : Gateway.MotionMessage) (g : State) :
  settled_stay g (fst (send gatewayIP message g)).
Proof.
  destruct g as [sock tok atok hs ic rt st ts next ps socks aw dr tr].
  run_client. destruct sock as [s|]; [|apply settled_stay_refl].
  destruct ic; [|apply settled_stay_refl]. run_client.
  eapply settled_stay_snoc. reflexivity.
Qed.

Lemma writeDevice_settled_stay mac operation targetPosition deviceType (g : State) :
  settled_stay g
    (fst (writeDevice gatewayIP entropy mac operation targetPosition deviceType g)).
Proof.
  unfold writeDevice, generateMsgID. cbv zeta.
  eapply settled_stay_trans; [|apply send_settled_stay].
  now apply settled_stay_same.
Qed.

Lemma readDevice_settled_stay mac deviceType (g : State) :
  settled_stay g (fst (readDevice gatewayIP entropy mac deviceType g)).
Proof.
  unfold readDevice, generateMsgID. cbv zeta.
  eapply settled_stay_trans; [|apply send_settled_stay].
  now apply settled_stay_same.
Qed.

Lemma getDeviceList_settled_stay (g : State) :
  settled_stay g (fst (getDeviceList gatewayIP entropy g)).
Proof.
  unfold getDeviceList, generateMsgID. cbv zeta.
  eapply settled_stay_trans; [|apply send_settled_stay].
  now apply settled_stay_same.
Qed.

Lemma connect_settled_stay (g : State) : settled_stay g (fst (connect g)).
Proof.
  destruct g as [sock tok atok hs ic rt st ts next ps socks aw dr tr].
  run_client. destruct ic; [apply settled_stay_refl|]. run_client.
  eapply settled_stay_snoc. reflexivity.
Qed.

Lemma scheduleReconnect_promises (g : State) :
  promises (scheduleReconnect g) = promises g.
Proof.
  destruct g as [sock tok atok hs ic rt st ts next ps socks aw dr tr].
  run_client. now destruct rt.
Qed.

Lemma reconnectFailed_settled_stay (reason : Failure) (g : State) :
  settled_stay g (reconnectFailed reason g).
Proof.
  apply settled_stay_same. unfold reconnectFailed. cbv zeta.
  now rewrite scheduleReconnect_promises.
Qed.

Lemma reconnect_getDeviceList_settled_stay (g : State) :
  settled_stay g (reconnect_getDeviceList gatewayIP entropy g).
Proof.
  unfold reconnect_getDeviceList.
  pose proof (getDeviceList_settled_stay g) as H.
  destruct (getDeviceList gatewayIP entropy g) as [g' [|reason|p]]; cbn [fst] in H; trivial.
  eapply settled_stay_trans; [exact H|apply reconnectFailed_settled_stay].
Qed.

Lemma pollStatus_settled_stay (macs : list string) (g : State) :
  settled_stay g (pollStatus gatewayIP entropy macs g).
Proof.
  revert g; induction macs as [|mac rest IH]; intros g; [apply settled_stay_refl|].
  cbn [pollStatus]. unfold Client.getStatus.
  pose proof (writeDevice_settled_stay mac Gateway.StatusQuery None
                Gateway.default_deviceType g) as H.
  destruct (writeDevice gatewayIP entropy mac Gateway.StatusQuery None
              Gateway.default_deviceType g) as [g' [|reason|p]]; cbn [fst] in H.
  - eapply settled_stay_trans; [exact H|apply IH].
  - eapply settled_stay_trans; [exact H|].
    eapply settled_stay_trans; [|apply IH]. now apply settled_stay_same.
  - eapply settled_stay_trans; [exact H|now apply settled_stay_same].
Qed.

Lemma resume_settled_stay (k : Continuation) (o : Outcome) (g : State) :
  settled_stay g (resume gatewayIP entropy k o g).
Proof.
  destruct k, o; cbn [resume]; try apply settled_stay_refl.
  - apply reconnect_getDeviceList_settled_stay.
  - apply reconnectFailed_settled_stay.
  - apply reconnectFailed_settled_stay.
  - apply pollStatus_settled_stay.
  - eapply settled_stay_trans; [|apply pollStatus_settled_stay].
    now apply settled_stay_same.
Qed.

Lemma fold_resume_settled_stay (o : Outcome) (waiting : list (nat * Continuation))
    (g : State) :
  settled_stay g (fold_left (fun g '(_, k) => resume gatewayIP entropy k o g) waiting g).
Proof.
  revert g; induction waiting as [|[q k] waiting IH]; intros g; [apply settled_stay_refl|].
  cbn [fold_left]. eapply settled_stay_trans; [apply resume_settled_stay|apply IH].
Qed.

Lemma settle_settled_stay (p : nat) (o : Outcome) (g : State) :
  settled_stay g (settle gatewayIP entropy p o g).
Proof.
  unfold settle. destruct (outcome p g) as [[| |]|] eqn:Eo; try apply settled_stay_refl.
  cbv zeta. eapply settled_stay_trans; [|apply fold_resume_settled_stay].
  unfold settled_stay, kind, outcome in *.
  cbn [promises set_awaiting set_promises]. rewrite length_update_nth.
  split; [lia|split].
  - intros q k. rewrite nth_error_update_nth. destruct (Nat.eqb q p); [|trivial].
    now destruct (nth_error (promises g) q).
  - intros q o' Ho Hn. rewrite nth_error_update_nth.
    destruct (Nat.eqb_spec q p) as [->|]; [|exact Ho]. congruence.
Qed.

Lemma clearTimer_promises (h : nat) (g : State) : promises (clearTimer h g) = promises g.
Proof. reflexivity. Qed.

Lemma runHandler_settled_stay (hd : Handler) (response : Response) (g : State) :
  settled_stay g (runHandler gatewayIP entropy hd response g).
Proof.
  unfold runHandler. cbv zeta.
  eapply settled_stay_trans; [|apply settle_settled_stay]. now apply settled_stay_same.
Qed.

Lemma handleMessage_settled_stay (datagram : option Response) (g : State) :
  settled_stay g (handleMessage gatewayIP key entropy datagram g).
Proof.
  unfold handleMessage. destruct datagram as [response|]; [|now apply settled_stay_same].
  cbv zeta.
  set (g1 := match response_token response with
             | Some t => _
             | None => _
             end).
  assert (P1 : promises g1 = promises g).
  { subst g1. destruct (response_token response) as [t|];
      [destruct (truthy_js_string (Some t))|]; reflexivity. }
  clearbody g1.
  destruct (response_msgType response) as [msgType|]; [|now apply settled_stay_same].
  destruct (truthy_string (Some msgType)); [|now apply settled_stay_same].
  set (g2 := if (String.eqb msgType "WriteDeviceAck" || String.eqb msgType "ReadDeviceAck")%bool
             then _ else _).
  assert (P2 : promises g2 = promises g).
  { subst g2. destruct (String.eqb msgType "WriteDeviceAck" || String.eqb msgType "ReadDeviceAck")%bool;
      [|exact P1].
    destruct (response_mac response) as [mac|]; [|exact P1].
    destruct (response_data response) as [data|]; [|exact P1].
    destruct (truthy_string (Some mac)); exact P1. }
  clearbody g2.
  destruct (JsMap.get msgType (responseHandlers g2)) as [handler|];
    [|now apply settled_stay_same].
  eapply settled_stay_trans; [|apply runHandler_settled_stay]. now apply settled_stay_same.
Qed.

Lemma disconnect_promises (g : State) : promises (disconnect g) = promises g.
Proof.
  destruct g as [sock tok atok hs ic rt st ts next ps socks aw dr tr].
  destruct rt, st, sock; reflexivity.
Qed.

Lemma startStatusPolling_promises macs intervalMs (g : State) :
  promises (startStatusPolling macs intervalMs g) = promises g.
Proof.
  destruct g as [sock tok atok hs ic rt st ts next ps socks aw dr tr].
  destruct st; reflexivity.
Qed.

Lemma reconnect_settled_stay (g : State) :
  settled_stay g (reconnect gatewayIP entropy g).
Proof.
  unfold reconnect. cbv zeta.
  pose proof (connect_settled_stay (set_reconnectTimer None g)) as H.
  destruct (connect (set_reconnectTimer None g)) as [g' [|reason|p]]; cbn [fst] in H.
  - eapply settled_stay_trans; [|apply reconnect_getDeviceList_settled_stay].
    eapply settled_stay_trans; [|exact H]. now apply settled_stay_same.
  - eapply settled_stay_trans; [|apply reconnectFailed_settled_stay].
    eapply settled_stay_trans; [|exact H]. now apply settled_stay_same.
  - eapply settled_stay_trans; [|now apply (settled_stay_same g')].
    eapply settled_stay_trans; [|exact H]. now apply settled_stay_same.
Qed.

Lemma step_settled_stay (g : State) (e : Event) :
  settled_stay g (step gatewayIP key entropy g e).
Proof.
  destruct e as [ | | |mac deviceType|mac operation targetPosition deviceType
                |macs intervalMs|datagram| | |s joined|p err|h]; cbn [step].
  - apply connect_settled_stay.
  - apply settled_stay_same, disconnect_promises.
  - apply getDeviceList_settled_stay.
  - apply readDevice_settled_stay.
  - apply writeDevice_settled_stay.
  - apply settled_stay_same, startStatusPolling_promises.
  - apply handleMessage_settled_stay.
  - apply settled_stay_same. unfold onSocketError. cbv zeta.
    now rewrite scheduleReconnect_promises.
  - now apply settled_stay_same.
  - destruct (nth_error (sockets g) s) as [p|]; [|apply settled_stay_refl].
    unfold onBound. cbv zeta.
    eapply settled_stay_trans; [|apply settle_settled_stay].
    apply settled_stay_same. destruct (socket _); [destruct joined|]; reflexivity.
  - unfold onSent.
    destruct (option_map promise_kind (nth_error (promises g) p)) as [[s|mt h]|];
      try apply settled_stay_refl.
    destruct err; [|apply settled_stay_refl]. cbv zeta.
    eapply settled_stay_trans; [|apply settle_settled_stay]. now apply settled_stay_same.
  - unfold fireTimer.
    destruct (find (fun t => Nat.eqb (timer_handle t) h) (timers g)) as [t|];
      [|apply settled_stay_refl].
    assert (E : settled_stay g (if timer_repeats t then g else clearTimer h g)).
    { destruct (timer_repeats t); [apply settled_stay_refl|now apply settled_stay_same]. }
    revert E. generalize (if timer_repeats t then g else clearTimer h g). intros g' E.
    eapply settled_stay_trans; [exact E|].
    destruct (timer_callback t) as [p mt|p| |macs]; cbn [runCallback].
    + eapply settled_stay_trans; [|apply settle_settled_stay]. now apply settled_stay_same.
    + destruct (isConnected g'); [apply settled_stay_refl|apply settle_settled_stay].
    + apply reconnect_settled_stay.
    + apply pollStatus_settled_stay.
Qed.

Lemma run_settled_stay (events : list Event) (g : State) :
  settled_stay g (run gatewayIP key entropy g events).
Proof.
  revert g; induction events as [|e events IH]; intros g; [apply settled_stay_refl|].
  cbn [run fold_left]. eapply settled_stay_trans; [apply step_settled_stay|apply IH].
Qed.

End Settled.

Lemma session_kept_refl (g : State) : session_kept g g.
Proof. repeat split. exists []. now rewrite app_nil_r. Qed.

Lemma session_kept_trans (g1 g2 g3 : State) :
  session_kept g1 g2 -> session_kept g2 g3 -> session_kept g1 g3.
Proof.
  intros (A1 & B1 & C1 & D1 & d1 & E1 & F1) (A2 & B2 & C2 & D2 & d2 & E2 & F2).
  repeat split; try congruence.
  exists (d1 ++ d2). split.
  - now rewrite E2, E1, app_assoc.
  - now rewrite filter_app, F1, F2.
Qed.

Lemma session_kept_log (g g' : State) (delta : list Effect) :
  socket g' = socket g -> isConnected g' = isConnected g ->
  token g' = token g -> accessToken g' = accessToken g ->
  trace g' = trace g ++ delta -> filter is_emit delta = [] ->
  session_kept g g'.
Proof. intros. repeat split; trivial. now exists delta. Qed.

Lemma session_kept_silent (g g' : State) :
  socket g' = socket g -> isConnected g' = isConnected g ->
  token g' = token g -> accessToken g' = accessToken g ->
  trace g' = trace g ->
  session_kept g g'.
Proof.
  intros. apply (session_kept_log g g' []); trivial. now rewrite app_nil_r.
Qed.

Section Session.

Variable gatewayIP : string.
Variable key : Gateway.js_string.
Variable entropy : nat -> string.

Lemma send_session_kept (message : Gateway.MotionMessage) (g : State) :
  session_kept g (fst (send gatewayIP message g)).
Proof.
  destruct g as [sock tok atok hs ic rt st ts next ps socks aw dr tr].
  run_client. destruct sock as [s|]; [|apply session_kept_refl].
  destruct ic; [|apply session_kept_refl]. run_client.
  eapply session_kept_log; try reflexivity.
  - cbn [trace]. rewrite <- app_assoc. reflexivity.
  - reflexivity.
Qed.

Lemma writeDevice_session_kept mac operation targetPosition deviceType (g : State) :
  session_kept g
    (fst (writeDevice gatewayIP entropy mac operation targetPosition deviceType g)).
Proof.
  unfold writeDevice, generateMsgID. cbv zeta.
  eapply session_kept_trans; [|apply send_session_kept].
  now apply session_kept_silent.
Qed.

Lemma getDeviceList_session_kept (g : State) :
  session_kept g (fst (getDeviceList gatewayIP entropy g)).
Proof.
  unfold getDeviceList, generateMsgID. cbv zeta.
  eapply session_kept_trans; [|apply send_session_kept].
  now apply session_kept_silent.
Qed.

Lemma scheduleReconnect_session_kept (g : State) : session_kept g (scheduleReconnect g).
Proof.
  destruct g as [sock tok atok hs ic rt st ts next ps socks aw dr tr].
  run_client. destruct rt; now apply session_kept_silent.
Qed.

Lemma reconnectFailed_session_kept (reason : Failure) (g : State) :
  session_kept g (reconnectFailed reason g).
Proof.
  unfold reconnectFailed. cbv zeta.
  eapply session_kept_trans; [|apply scheduleReconnect_session_kept].
  eapply session_kept_log; reflexivity.
Qed.

Lemma reconnect_getDeviceList_session_kept (g : State) :
  session_kept g (reconnect_getDeviceList gatewayIP entropy g).
Proof.
  unfold reconnect_getDeviceList.
  pose proof (getDeviceList_session_kept g) as H.
  destruct (getDeviceList gatewayIP entropy g) as [g' [|reason|p]]; cbn [fst] in H.
  - exact H.
  - eapply session_kept_trans; [exact H|apply reconnectFailed_session_kept].
  - eapply session_kept_trans; [exact H|now apply session_kept_silent].
Qed.

Lemma pollStatus_session_kept (macs : list string) (g : State) :
  session_kept g (pollStatus gatewayIP entropy macs g).
Proof.
  revert g; induction macs as [|mac rest IH]; intros g; [apply session_kept_refl|].
  cbn [pollStatus]. unfold Client.getStatus.
  pose proof (writeDevice_session_kept mac Gateway.StatusQuery None
                Gateway.default_deviceType g) as H.
  destruct (writeDevice gatewayIP entropy mac Gateway.StatusQuery None
              Gateway.default_deviceType g) as [g' [|reason|p]]; cbn [fst] in H.
  - eapply session_kept_trans; [exact H|apply IH].
  - eapply session_kept_trans; [exact H|].
    eapply session_kept_trans; [|apply IH]. eapply session_kept_log; reflexivity.
  - eapply session_kept_trans; [exact H|now apply session_kept_silent].
Qed.

Lemma resume_session_kept (k : Continuation) (o : Outcome) (g : State) :
  session_kept g (resume gatewayIP entropy k o g).
Proof.
  destruct k, o; cbn [resume]; try apply session_kept_refl.
  - apply reconnect_getDeviceList_session_kept.
  - apply reconnectFailed_session_kept.
  - apply reconnectFailed_session_kept.
  - apply pollStatus_session_kept.
  - eapply session_kept_trans; [|apply pollStatus_session_kept].
    eapply session_kept_log; reflexivity.
Qed.

Lemma fold_resume_session_kept (o : Outcome) (waiting : list (nat * Continuation))
    (g : State) :
  session_kept g (fold_left (fun g '(_, k) => resume gatewayIP entropy k o g) waiting g).
Proof.
  revert g; induction waiting as [|[q k] waiting IH]; intros g; [apply session_kept_refl|].
  cbn [fold_left]. eapply session_kept_trans; [apply resume_session_kept|apply IH].
Qed.

Lemma settle_session_kept (p : nat) (o : Outcome) (g : State) :
  session_kept g (settle gatewayIP entropy p o g).
Proof.
  unfold settle. destruct (outcome p g) as [[| |]|]; try apply session_kept_refl.
  cbv zeta. eapply session_kept_trans; [|apply fold_resume_session_kept].
  now apply session_kept_silent.
Qed.

Lemma runHandler_session_kept (hd : Handler) (response : Response) (g : State) :
  session_kept g (runHandler gatewayIP entropy hd response g).
Proof.
  unfold runHandler. cbv zeta.
  eapply session_kept_trans; [|apply settle_session_kept]. now apply session_kept_silent.
Qed.

(** Settling a pending promise nobody is parked on only records the
    outcome. *)
Lemma settle_unawaited (p : nat) (o : Outcome) (g : State) :
  outcome p g = Some Pending ->
  (forall q k, In (q, k) (awaiting g) -> q <> p) ->
  settle gatewayIP entropy p o g
  = set_promises (update_nth p (fun q => mkPromise (promise_kind q) o) (promises g)) g.
Proof.
  intros Ho Hn. unfold settle. rewrite Ho. cbv zeta.
  cbn [awaiting set_promises].
  assert (E1 : filter (fun '(q, _) => Nat.eqb q p) (awaiting g) = []).
  { clear Ho. induction (awaiting g) as [|[q k] l IH]; [reflexivity|]. cbn [filter].
    destruct (Nat.eqb_spec q p) as [->|].
    - now destruct (Hn p k (or_introl eq_refl)).
    - apply IH. intros q' k' Hin. apply (Hn q' k'). now right. }
  assert (E2 : filter (fun '(q, _) => negb (Nat.eqb q p)) (awaiting g) = awaiting g).
  { clear Ho E1. induction (awaiting g) as [|[q k] l IH]; [reflexivity|]. cbn [filter].
    destruct (Nat.eqb_spec q p) as [->|].
    - now destruct (Hn p k (or_introl eq_refl)).
    - cbn [negb]. f_equal. apply IH. intros q' k' Hin. apply (Hn q' k'). now right. }
  rewrite E1, E2. cbn [fold_left].
  destruct g; reflexivity.
Qed.

Lemma settle_outcome (p : nat) (o : Outcome) (g : State) :
  outcome p g = Some Pending -> o <> Pending ->
  outcome p (settle gatewayIP entropy p o g) = Some o.
Proof.
  intros Ho Hn. unfold settle. rewrite Ho. cbv zeta.
  apply fold_resume_settled_stay; [|exact Hn].
  unfold outcome in *. cbn [promises set_awaiting set_promises].
  rewrite nth_error_update_nth, Nat.eqb_refl.
  destruct (nth_error (promises g) p); [reflexivity|discriminate Ho].
Qed.

End Session.

Lemma find_handle (h : nat) (d : Timer) (ts : list Timer) :
  NoDup (map timer_handle ts) -> In d ts -> timer_handle d = h ->
  find (fun t => Nat.eqb (timer_handle t) h) ts = Some d.
Proof.
  intros Hnd Hin <-. induction ts as [|t ts IH]; [destruct Hin|].
  cbn [find]. destruct (Nat.eqb_spec (timer_handle t) (timer_handle d)) as [E|Hne].
  - f_equal. apply (same_handle (t :: ts)); trivial. now left.
  - inversion Hnd; subst. apply IH; trivial.
    destruct Hin as [->|Hin]; [congruence|exact Hin].
Qed.

Lemma Ack_truthy (msgType : string) : truthy_string (Some (msgType ++ "Ack")%string) = true.
Proof. destruct msgType; reflexivity. Qed.

Section Requests.

Variable gatewayIP : string.
Variable key : Gateway.js_string.
Variable entropy : nat -> string.

(** [send] on a connected client, in closed form. *)
Lemma send_connected (message : Gateway.MotionMessage) (g : State) (s : nat) :
  socket g = Some s -> isConnected g = true ->
  let p := List.length (promises g) in
  let h := nextHandle g in
  let expected := (Gateway.msgType message ++ "Ack")%string in
  send gatewayIP message g
  = (mkState (socket g) (token g) (accessToken g)
       (JsMap.set expected (mkHandler h expected p) (responseHandlers g))
       (isConnected g) (reconnectTimer g) (statusPollingTimer g)
       (timers g ++ [request_timer p (Gateway.msgType message) h])
       (S h)
       (promises g ++ [mkPromise (RequestPromise (Gateway.msgType message) h) Pending])
       (sockets g) (awaiting g) (drawn g)
       (trace g ++ [ Log Accessory.LogDebug (MsgSending gatewayIP UDP_PORT message);
                     SocketSend s message UDP_PORT gatewayIP ]),
     Awaits p).
Proof.
  destruct g as [sock tok atok hs ic rt st ts next ps socks aw dr tr].
  cbn [socket isConnected]. intros -> ->. run_client. rewrite <- app_assoc. reflexivity.
Qed.

(** What [handleMessage] does before it looks for a handler. *)
Lemma handleMessage_dispatch (response : Response) (msgType : string) (g : State) :
  response_msgType response = Some msgType ->
  truthy_string (Some msgType) = true ->
  exists g0 : State,
    handleMessage gatewayIP key entropy (Some response) g
    = match JsMap.get msgType (responseHandlers g) with
      | Some handler => runHandler gatewayIP entropy handler response g0
      | None => g0
      end /\
    socket g0 = socket g /\ isConnected g0 = isConnected g /\
    responseHandlers g0 = responseHandlers g /\
    reconnectTimer g0 = reconnectTimer g /\
    statusPollingTimer g0 = statusPollingTimer g /\
    timers g0 = timers g /\ nextHandle g0 = nextHandle g /\
    promises g0 = promises g /\ sockets g0 = sockets g /\
    awaiting g0 = awaiting g /\ drawn g0 = drawn g.
Proof.
  intros Ht Htruthy. unfold handleMessage. rewrite Ht, Htruthy. cbv zeta.
  match goal with
  | |- exists g0, match JsMap.get _ (responseHandlers ?x) with _ => _ end = _ /\ _ =>
      exists x
  end.
  destruct g as [sock tok atok hs ic rt st ts next ps socks aw dr tr].
  destruct (response_token response) as [t|]; [destruct (truthy_js_string (Some t))|];
    (destruct (String.eqb msgType "WriteDeviceAck" || String.eqb msgType "ReadDeviceAck")%bool;
     [destruct (response_mac response) as [mac|];
      [destruct (response_data response) as [data|];
       [destruct (truthy_string (Some mac))|]|]|]);
    (split; [reflexivity|]); repeat split.
Qed.

(** The handler [send] stored, run when nothing is parked on its
    promise. *)
Lemma runHandler_unawaited (hd : Handler) (response : Response) (g : State) :
  outcome (handler_promise hd) g = Some Pending ->
  (forall q k, In (q, k) (awaiting g) -> q <> handler_promise hd) ->
  runHandler gatewayIP entropy hd response g
  = mkState (socket g) (token g) (accessToken g)
      (JsMap.delete (handler_expectedResponse hd) (responseHandlers g))
      (isConnected g) (reconnectTimer g) (statusPollingTimer g)
      (filter (fun t => negb (Nat.eqb (timer_handle t) (handler_timeout hd))) (timers g))
      (nextHandle g)
      (update_nth (handler_promise hd)
         (fun q => mkPromise (promise_kind q) (Resolved (Some response))) (promises g))
      (sockets g) (awaiting g) (drawn g) (trace g).
Proof.
  intros Ho Hn. unfold runHandler. cbv zeta. rewrite settle_unawaited; trivial.
Qed.

(** The timeout of a request fires when nothing is parked on its
    promise. *)
Lemma request_timeout_unawaited (p : nat) (msgType : string) (h : nat) (g : State) :
  NoDup (map timer_handle (timers g)) ->
  In (request_timer p msgType h) (timers g) ->
  outcome p g = Some Pending ->
  (forall q k, In (q, k) (awaiting g) -> q <> p) ->
  fireTimer gatewayIP entropy h g
  = mkState (socket g) (token g) (accessToken g)
      (JsMap.delete (msgType ++ "Ack")%string (responseHandlers g))
      (isConnected g) (reconnectTimer g) (statusPollingTimer g)
      (filter (fun t => negb (Nat.eqb (timer_handle t) h)) (timers g))
      (nextHandle g)
      (update_nth p
         (fun q => mkPromise (promise_kind q) (Rejected (RequestTimeoutError msgType)))
         (promises g))
      (sockets g) (awaiting g) (drawn g) (trace g).
Proof.
  intros Hnd Hin Ho Hn. unfold fireTimer.
  rewrite (find_handle h (request_timer p msgType h) (timers g) Hnd Hin eq_refl).
  cbn [timer_callback timer_repeats request_timer runCallback].
  rewrite settle_unawaited; trivial.
Qed.

End Requests.

(** X9.  No request is left hanging.  In every state a client can reach,
    a request whose promise is still pending has its timeout of 5000 ms
    in the timer table; when that timeout fires the promise is rejected
    with the time-out error of its message type, and nothing that
    happens afterwards changes that outcome. *)
Theorem pending_request_has_its_timeout
    (gatewayIP : string) (key : Gateway.js_string) (entropy : nat -> string)
    (g : State) (p : nat) (msgType : string) (h : nat)
    (Hreach : reachable gatewayIP key entropy g)
    (Hpending : nth_error (promises g) p
                = Some (mkPromise (RequestPromise msgType h) Pending)) :
  let g' := step gatewayIP key entropy g (TimerFires h) in
  In (mkTimer h 5000 false (RequestTimeoutCallback p msgType)) (timers g) /\
  outcome p g' = Some (Rejected (RequestTimeoutError msgType)) /\
  (forall events : list Event,
     outcome p (run gatewayIP key entropy g' events)
     = Some (Rejected (RequestTimeoutError msgType))).
Proof.
  pose proof (reachable_consistent gatewayIP key entropy g Hreach) as Hc.
  assert (Hin : In (request_timer p msgType h) (timers g)).
  { apply (requests_live _ _ Hc p msgType h Hpending). tauto. }
  assert (Ho : outcome p (step gatewayIP key entropy g (TimerFires h))
               = Some (Rejected (RequestTimeoutError msgType))).
  { cbn [step]. unfold fireTimer.
    rewrite (find_handle h _ _ (timers_nodup _ _ Hc) Hin eq_refl).
    cbn [timer_callback timer_repeats request_timer runCallback].
    apply settle_outcome; [|discriminate].
    unfold outcome. cbn [promises set_responseHandlers clearTimer set_timers].
    now rewrite Hpending. }
  cbv zeta. split; [exact Hin|]. split; [exact Ho|].
  intros events. apply run_settled_stay; [exact Ho|discriminate].
Qed.

Lemma pending_request_has_its_timeout_witness :
  outcome 1 example_session = Some Pending /\
  outcome 1 (step "192.168.1.20" (Gateway.code_points "0123456789abcdef")
               example_entropy example_session (TimerFires 1))
  = Some (Rejected (RequestTimeoutError "WriteDevice")).
Proof.
  split; [reflexivity|].
  apply (pending_request_has_its_timeout "192.168.1.20"
           (Gateway.code_points "0123456789abcdef") example_entropy
           example_session 1 "WriteDevice" 1).
  - eexists. reflexivity.
  - reflexivity.
Defined.

(** X10.  A request and its response.  On a connected client [send]
    returns a pending promise, arms a timeout of 5000 ms, stores a
    handler under the message type followed by "Ack" and hands the
    message to the socket.  When a message of that type arrives next, the
    promise is resolved with it, the timeout is cleared and the handler
    removed; nothing that happens afterwards changes the outcome. *)
Theorem response_resolves_request
    (gatewayIP : string) (key : Gateway.js_string) (entropy : nat -> string)
    (g : State) (message : Gateway.MotionMessage) (response : Response) (s : nat)
    (Hreach : reachable gatewayIP key entropy g)
    (Hsocket : socket g = Some s)
    (Hconnected : isConnected g = true)
    (Htype : response_msgType response = Some (Gateway.msgType message ++ "Ack")%string) :
  let p := List.length (promises g) in
  let h := nextHandle g in
  let expected := (Gateway.msgType message ++ "Ack")%string in
  let g1 := fst (send gatewayIP message g) in
  let g2 := handleMessage gatewayIP key entropy (Some response) g1 in
  (snd (send gatewayIP message g) = Awaits p /\
   outcome p g1 = Some Pending /\
   timers g1 = timers g ++ [mkTimer h 5000 false (RequestTimeoutCallback p (Gateway.msgType message))] /\
   JsMap.get expected (responseHandlers g1) = Some (mkHandler h expected p) /\
   trace g1
   = trace g ++ [ Log Accessory.LogDebug (MsgSending gatewayIP UDP_PORT message);
                  SocketSend s message UDP_PORT gatewayIP ]) /\
  (outcome p g2 = Some (Resolved (Some response)) /\
   timers g2 = timers g /\
   JsMap.get expected (responseHandlers g2) = None /\
   forall events : list Event,
     outcome p (run gatewayIP key entropy g2 events) = Some (Resolved (Some response))).
Proof.
  pose proof (reachable_consistent gatewayIP key entropy g Hreach) as Hc.
  cbv zeta. rewrite (send_connected gatewayIP message g s Hsocket Hconnected).
  cbv zeta. cbn [fst snd].
  set (g1 := mkState _ _ _ _ _ _ _ _ _ _ _ _ _ _).
  assert (Hp : outcome (List.length (promises g)) g1 = Some Pending).
  { unfold outcome, g1. cbn [promises]. now rewrite nth_error_snoc_new. }
  assert (Hget : JsMap.get (Gateway.msgType message ++ "Ack")%string (responseHandlers g1)
                 = Some (mkHandler (nextHandle g) (Gateway.msgType message ++ "Ack")%string
                           (List.length (promises g)))).
  { unfold g1. cbn [responseHandlers]. apply JsMap_get_set_same. }
  split; [split_all; trivial|].
  destruct (handleMessage_dispatch gatewayIP key entropy response _ g1 Htype
              (Ack_truthy _))
    as (g0 & E & F1 & F2 & F3 & F4 & F5 & F6 & F7 & F8 & F9 & F10 & F11).
  rewrite Hget in E.
  rewrite runHandler_unawaited in E.
  - rewrite E. unfold outcome. cbn [promises timers responseHandlers handler_promise
                                   handler_timeout handler_expectedResponse].
    rewrite F3, F6, F8. unfold g1. cbn [promises timers responseHandlers].
    assert (Ho : option_map promise_outcome
                   (nth_error
                      (update_nth (List.length (promises g))
                         (fun q => mkPromise (promise_kind q) (Resolved (Some response)))
                         (promises g ++
                          [mkPromise (RequestPromise (Gateway.msgType message) (nextHandle g))
                             Pending]))
                      (List.length (promises g)))
                 = Some (Resolved (Some response))).
    { rewrite nth_error_update_nth, Nat.eqb_refl, nth_error_snoc_new. reflexivity. }
    split; [exact Ho|]. split; [|split].
    + rewrite filter_app. cbn [filter timer_handle request_timer].
      rewrite Nat.eqb_refl. cbn [negb]. rewrite app_nil_r.
      apply forallb_filter_id. apply forallb_forall. intros t Hin.
      pose proof (timers_fresh _ _ Hc) as Hf. rewrite Forall_forall in Hf.
      specialize (Hf t Hin). apply negb_true_iff, Nat.eqb_neq. lia.
    + apply JsMap_get_delete_same. apply JsMap_NoDup_set. apply (handlers_nodup _ _ Hc).
    + intros events. apply run_settled_stay; [|discriminate].
      unfold outcome. cbn [promises]. exact Ho.
  - cbn [handler_promise]. unfold outcome. rewrite F8. exact Hp.
  - cbn [handler_promise]. intros q k Hin. rewrite F10 in Hin. unfold g1 in Hin.
    cbn [awaiting] in Hin. pose proof (awaiting_sound _ _ Hc q k Hin). lia.
Qed.

Lemma fireTimer_rejects
    (gatewayIP : string) (entropy : nat -> string)
    (g : State) (p : nat) (msgType : string) (h : nat) :
  consistent g ->
  nth_error (promises g) p = Some (mkPromise (RequestPromise msgType h) Pending) ->
  outcome p (fireTimer gatewayIP entropy h g)
  = Some (Rejected (RequestTimeoutError msgType)).
Proof.
  intros Hc Hpending.
  assert (Hin : In (request_timer p msgType h) (timers g)).
  { apply (requests_live _ _ Hc p msgType h Hpending). tauto. }
  unfold fireTimer.
  rewrite (find_handle h _ _ (timers_nodup _ _ Hc) Hin eq_refl).
  cbn [timer_callback timer_repeats request_timer runCallback].
  apply settle_outcome; [|discriminate].
  unfold outcome. cbn [promises set_responseHandlers clearTimer set_timers].
  now rewrite Hpending.
Qed.

(** X11.  Requests are matched to responses by message type alone.  When a
    second request of the same type is sent while the first is pending,
    its handler takes the place of the first one.  A response of the
    type then resolves the second request and leaves the first pending,
    to be rejected by its timeout.  And if the timeout of the first
    request fires before any response, it removes the handler of the
    second: the response that follows resolves nothing, and the second
    request is rejected by its own timeout. *)
Theorem overlapping_requests_share_one_handler
    (gatewayIP : string) (key : Gateway.js_string) (entropy : nat -> string)
    (g : State) (message1 message2 : Gateway.MotionMessage) (response : Response)
    (s : nat)
    (Hreach : reachable gatewayIP key entropy g)
    (Hsocket : socket g = Some s)
    (Hconnected : isConnected g = true)
    (Hsame : Gateway.msgType message2 = Gateway.msgType message1)
    (Htype : response_msgType response = Some (Gateway.msgType message1 ++ "Ack")%string) :
  let p1 := List.length (promises g) in
  let p2 := S p1 in
  let h1 := nextHandle g in
  let h2 := S h1 in
  let msgType := Gateway.msgType message1 in
  let expected := (msgType ++ "Ack")%string in
  let g2 := fst (send gatewayIP message2 (fst (send gatewayIP message1 g))) in
  (outcome p1 g2 = Some Pending /\
   outcome p2 g2 = Some Pending /\
   JsMap.get expected (responseHandlers g2) = Some (mkHandler h2 expected p2)) /\
  (let g3 := handleMessage gatewayIP key entropy (Some response) g2 in
   outcome p2 g3 = Some (Resolved (Some response)) /\
   outcome p1 g3 = Some Pending /\
   JsMap.get expected (responseHandlers g3) = None /\
   outcome p1 (handleMessage gatewayIP key entropy (Some response) g3) = Some Pending /\
   outcome p1 (fireTimer gatewayIP entropy h1 g3)
   = Some (Rejected (RequestTimeoutError msgType))) /\
  (let g3 := fireTimer gatewayIP entropy h1 g2 in
   let g4 := handleMessage gatewayIP key entropy (Some response) g3 in
   outcome p1 g3 = Some (Rejected (RequestTimeoutError msgType)) /\
   outcome p2 g3 = Some Pending /\
   JsMap.get expected (responseHandlers g3) = None /\
   outcome p2 g4 = Some Pending /\
   outcome p2 (fireTimer gatewayIP entropy h2 g4)
   = Some (Rejected (RequestTimeoutError msgType))).
Proof.
  pose proof (reachable_consistent gatewayIP key entropy g Hreach) as Hc.
  pose proof (send_consistent gatewayIP message1 g Hc) as Hc1.
  pose proof (send_connected gatewayIP message1 g s Hsocket Hconnected) as E1.
  cbv zeta in E1. rewrite E1 in Hc1. cbv zeta. rewrite E1. cbn [fst] in *. clear E1.
  match type of Hc1 with
  | consistent ?x =>
      pose proof (send_consistent gatewayIP message2 x Hc1) as Hc2;
      pose proof (send_connected gatewayIP message2 x s Hsocket Hconnected) as E2
  end.
  cbv zeta in E2.
  cbn [socket token accessToken responseHandlers isConnected reconnectTimer
       statusPollingTimer timers nextHandle promises sockets awaiting drawn trace] in E2.
  rewrite E2 in Hc2. rewrite E2. cbn [fst] in *. clear E2 Hc1.
  rewrite Hsame, length_app in *. cbn [List.length] in *. rewrite Nat.add_1_r in *.
  set (mt := Gateway.msgType message1) in *.
  set (p1 := List.length (promises g)) in *.
  set (h1 := nextHandle g) in *.
  set (g2 := mkState _ _ _ _ _ _ _ _ _ _ _ _ _ _) in *.
  assert (N1 : nth_error (promises g2) p1
               = Some (mkPromise (RequestPromise mt h1) Pending)).
  { unfold g2. cbn [promises].
    apply (nth_error_snoc_old (promises g ++ [mkPromise (RequestPromise mt h1) Pending])).
    apply nth_error_snoc_new. }
  assert (N2 : nth_error (promises g2) (S p1)
               = Some (mkPromise (RequestPromise mt (S h1)) Pending)).
  { unfold g2. cbn [promises].
    replace (S p1) with (List.length (promises g ++ [mkPromise (RequestPromise mt h1) Pending]))
      by (rewrite length_app; cbn; unfold p1; lia).
    apply nth_error_snoc_new. }
  assert (Hget : JsMap.get (mt ++ "Ack")%string (responseHandlers g2)
                 = Some (mkHandler (S h1) (mt ++ "Ack")%string (S p1))).
  { unfold g2. cbn [responseHandlers]. apply JsMap_get_set_same. }
  assert (Hun : forall p, (p1 <= p)%nat -> forall q k, In (q, k) (awaiting g2) -> q <> p).
  { intros p Hp q k Hin. unfold g2 in Hin. cbn [awaiting] in Hin.
    pose proof (awaiting_sound _ _ Hc q k Hin). unfold p1 in Hp. lia. }
  assert (Hkeys : NoDup (JsMap.keys (responseHandlers g2))) by apply (handlers_nodup _ _ Hc2).
  split; [|split].
  - unfold outcome. rewrite N1, N2. split_all; trivial.
  - destruct (handleMessage_dispatch gatewayIP key entropy response _ g2 Htype
                (Ack_truthy _))
      as (g0 & E & F1 & F2 & F3 & F4 & F5 & F6 & F7 & F8 & F9 & F10 & F11).
    fold mt in E. rewrite Hget in E.
    rewrite runHandler_unawaited in E;
      [|cbn [handler_promise]; unfold outcome; rewrite F8, N2; reflexivity
       |cbn [handler_promise]; rewrite F10; apply Hun; lia].
    cbn [handler_promise handler_timeout handler_expectedResponse] in E.
    pose proof (handleMessage_consistent gatewayIP key entropy (Some response) g2 Hc2) as Hc3.
    set (g3 := handleMessage gatewayIP key entropy (Some response) g2) in *.
    assert (P3 : promises g3
                 = update_nth (S p1)
                     (fun q => mkPromise (promise_kind q) (Resolved (Some response)))
                     (promises g2)).
    { rewrite E. cbn [promises]. now rewrite F8. }
    assert (O2 : outcome (S p1) g3 = Some (Resolved (Some response))).
    { unfold outcome. rewrite P3, nth_error_update_nth, Nat.eqb_refl, N2. reflexivity. }
    assert (M1 : nth_error (promises g3) p1
                 = Some (mkPromise (RequestPromise mt h1) Pending)).
    { rewrite P3, nth_error_update_nth.
      destruct (Nat.eqb_spec p1 (S p1)); [lia|exact N1]. }
    assert (G3 : JsMap.get (mt ++ "Ack")%string (responseHandlers g3) = None).
    { rewrite E. cbn [responseHandlers]. rewrite F3. now apply JsMap_get_delete_same. }
    cbv zeta. split; [exact O2|]. split; [unfold outcome; now rewrite M1|].
    split; [exact G3|]. split.
    + destruct (handleMessage_dispatch gatewayIP key entropy response _ g3 Htype
                  (Ack_truthy _))
        as (g0' & E' & _ & _ & _ & _ & _ & _ & _ & F8' & _).
      fold mt in E'. rewrite G3 in E'. rewrite E'. unfold outcome. now rewrite F8', M1.
    + now apply fireTimer_rejects.
  - assert (Hin : In (request_timer p1 mt h1) (timers g2)).
    { apply (requests_live _ _ Hc2 p1 mt h1 N1). tauto. }
    pose proof (request_timeout_unawaited gatewayIP entropy p1 mt h1 g2
                  (timers_nodup _ _ Hc2) Hin) as E.
    rewrite E;
      [|unfold outcome; now rewrite N1|apply Hun; lia].
    set (g3 := mkState _ _ _ _ _ _ _ _ _ _ _ _ _ _).
    assert (Hc3 : consistent g3).
    { unfold g3. rewrite <- E;
        [|unfold outcome; now rewrite N1|apply Hun; lia].
      now apply fireTimer_consistent. }
    assert (M2 : nth_error (promises g3) (S p1)
                 = Some (mkPromise (RequestPromise mt (S h1)) Pending)).
    { unfold g3. cbn [promises]. rewrite nth_error_update_nth.
      destruct (Nat.eqb_spec (S p1) p1); [lia|exact N2]. }
    assert (G3 : JsMap.get (mt ++ "Ack")%string (responseHandlers g3) = None).
    { unfold g3. cbn [responseHandlers]. now apply JsMap_get_delete_same. }
    destruct (handleMessage_dispatch gatewayIP key entropy response _ g3 Htype
                (Ack_truthy _))
      as (g0' & E' & _ & _ & _ & _ & _ & _ & _ & F8' & _).
    fold mt in E'. rewrite G3 in E'.
    pose proof (handleMessage_consistent gatewayIP key entropy (Some response) g3 Hc3) as Hc4.
    cbv zeta. split_all.
    + unfold outcome, g3. cbn [promises].
      rewrite nth_error_update_nth, Nat.eqb_refl, N1. reflexivity.
    + unfold outcome. now rewrite M2.
    + exact G3.
    + rewrite E'. unfold outcome. now rewrite F8', M2.
    + apply fireTimer_rejects; [exact Hc4|]. rewrite E', F8'. exact M2.
Qed.

(** What [handleMessage] does to the session and which [blindState]
    events it emits. *)
Lemma handleMessage_session
    (gatewayIP : string) (key : Gateway.js_string) (entropy : nat -> string)
    (response : Response) (g : State) :
  let g' := handleMessage gatewayIP key entropy (Some response) g in
  let fresh := truthy_js_string (response_token response) in
  let nonce := match response_token response with Some t => t | None => [] end in
  socket g' = socket g /\
  isConnected g' = isConnected g /\
  token g' = (if fresh then nonce else token g) /\
  accessToken g' = (if fresh then Gateway.getAccessToken key nonce else accessToken g) /\
  exists delta : list Effect,
    trace g' = trace g ++ delta /\
    filter is_emit delta
    = match response_msgType response, response_mac response, response_data response with
      | Some msgType, Some mac, Some data =>
          if (String.eqb msgType "WriteDeviceAck" || String.eqb msgType "ReadDeviceAck")
             && truthy_string (Some mac)
          then [EmitBlindState mac data]
          else []
      | _, _, _ => []
      end.
Proof.
  cbv zeta. unfold handleMessage.
  set (g1 := emit (Log Accessory.LogDebug (MsgResponse response)) g).
  set (g2 := match response_token response with
             | Some t => _
             | None => g1
             end).
  assert (S2 : socket g2 = socket g /\ isConnected g2 = isConnected g /\
               token g2 = (if truthy_js_string (response_token response)
                           then match response_token response with
                                | Some t => t
                                | None => []
                                end
                           else token g) /\
               accessToken g2
               = (if truthy_js_string (response_token response)
                  then Gateway.getAccessToken key
                         match response_token response with
                         | Some t => t
                         | None => []
                         end
                  else accessToken g) /\
               exists delta, trace g2 = trace g ++ delta /\ filter is_emit delta = []).
  { subst g2 g1. destruct (response_token response) as [t|].
    - destruct (truthy_js_string (Some t)); repeat split; eexists;
        cbn [trace emit set_trace set_token set_accessToken];
        rewrite <- ?app_assoc; (split; [reflexivity|reflexivity]).
    - repeat split. eexists. cbn [trace emit set_trace]. split; reflexivity. }
  clearbody g2. clear g1.
  destruct S2 as (A & B & C & D & d & E & F).
  assert (Hdone : forall gx dx emits,
             socket gx = socket g2 -> isConnected gx = isConnected g2 ->
             token gx = token g2 -> accessToken gx = accessToken g2 ->
             trace gx = trace g2 ++ dx -> filter is_emit dx = emits ->
             socket gx = socket g /\ isConnected gx = isConnected g /\
             token gx = (if truthy_js_string (response_token response)
                         then match response_token response with
                              | Some t => t
                              | None => []
                              end
                         else token g) /\
             accessToken gx
             = (if truthy_js_string (response_token response)
                then Gateway.getAccessToken key
                       match response_token response with
                       | Some t => t
                       | None => []
                       end
                else accessToken g) /\
             exists delta, trace gx = trace g ++ delta /\ filter is_emit delta = emits).
  { intros gx dx emits A' B' C' D' E' F'. split_all; try congruence.
    exists (d ++ dx). split; [now rewrite E', E, app_assoc|].
    now rewrite filter_app, F, F'. }
  destruct (response_msgType response) as [msgType|].
  2:{ apply (Hdone g2 [] []); trivial. now rewrite app_nil_r. }
  destruct (truthy_string (Some msgType)) eqn:Etruthy.
  2:{ destruct msgType; [|discriminate Etruthy]. cbn [String.eqb orb andb].
      destruct (response_mac response), (response_data response);
        apply (Hdone g2 [] []); trivial; now rewrite app_nil_r. }
  set (g3 := if (String.eqb msgType "WriteDeviceAck" || String.eqb msgType "ReadDeviceAck")%bool
             then _ else g2).
  assert (S3 : exists dx,
             socket g3 = socket g2 /\ isConnected g3 = isConnected g2 /\
             token g3 = token g2 /\ accessToken g3 = accessToken g2 /\
             trace g3 = trace g2 ++ dx /\
             filter is_emit dx
             = match response_mac response, response_data response with
               | Some mac, Some data =>
                   if (String.eqb msgType "WriteDeviceAck" || String.eqb msgType "ReadDeviceAck")
                      && truthy_string (Some mac)
                   then [EmitBlindState mac data]
                   else []
               | _, _ => []
               end).
  { subst g3.
    destruct (String.eqb msgType "WriteDeviceAck" || String.eqb msgType "ReadDeviceAck")%bool;
      cbn [andb].
    - destruct (response_mac response) as [mac|];
        [destruct (response_data response) as [data|];
         [destruct (truthy_string (Some mac))|]|].
      + exists [EmitBlindState mac data]. split_all; reflexivity.
      + exists []. rewrite app_nil_r. split_all; reflexivity.
      + exists []. rewrite app_nil_r. split_all; reflexivity.
      + exists []. rewrite app_nil_r. split_all; reflexivity.
    - exists []. rewrite app_nil_r.
      destruct (response_mac response), (response_data response); split_all; reflexivity. }
  clearbody g3. destruct S3 as (dx & A3 & B3 & C3 & D3 & E3 & F3).
  destruct (JsMap.get msgType (responseHandlers g3)) as [handler|].
  - destruct (runHandler_session_kept gatewayIP entropy handler response g3)
      as (A4 & B4 & C4 & D4 & d4 & E4 & F4).
    apply (Hdone _ (dx ++ d4)); try congruence.
    + now rewrite E4, E3, app_assoc.
    + now rewrite filter_app, F3, F4, app_nil_r.
  - now apply (Hdone _ dx).
Qed.

(** X12.  The access token follows the session nonce.  A message that
    carries a non-empty [token] makes it the session nonce and derives
    the access token from the key and that nonce, whatever else the
    message is; the client then has a valid token (32 characters), and
    the next [writeDevice] and [readDevice] messages carry it.  A
    message without a token, or with an empty one, leaves nonce and
    access token as they were.  A new client has no valid token, and
    [getDeviceList] never carries one. *)
Theorem access_token_follows_session_nonce
    (gatewayIP : string) (key : Gateway.js_string) (entropy : nat -> string)
    (g : State) (response : Response) :
  let g' := handleMessage gatewayIP key entropy (Some response) g in
  (forall t : Gateway.js_string,
     response_token response = Some t -> t <> [] ->
     token g' = t /\
     accessToken g' = Gateway.getAccessToken key t /\
     hasValidToken g' = true /\
     forall (s : nat) (mac deviceType : string) (operation : Gateway.Operation)
            (targetPosition : option Z),
       socket g' = Some s -> isConnected g' = true ->
       (exists data,
          trace (fst (writeDevice gatewayIP entropy mac operation targetPosition deviceType g'))
          = trace g'
            ++ (let message :=
                  Gateway.mkMotionMessage "WriteDevice" (entropy (drawn g'))
                    (Some (Gateway.getAccessToken key t)) (Some mac) (Some deviceType)
                    (Some data) in
                [ Log Accessory.LogDebug (MsgSending gatewayIP UDP_PORT message);
                  SocketSend s message UDP_PORT gatewayIP ])) /\
       trace (fst (readDevice gatewayIP entropy mac deviceType g'))
       = trace g'
         ++ (let message :=
               Gateway.mkMotionMessage "ReadDevice" (entropy (drawn g'))
                 (Some (Gateway.getAccessToken key t)) (Some mac) (Some deviceType) None in
             [ Log Accessory.LogDebug (MsgSending gatewayIP UDP_PORT message);
               SocketSend s message UDP_PORT gatewayIP ])) /\
  (response_token response = None \/ response_token response = Some [] ->
   token g' = token g /\ accessToken g' = accessToken g) /\
  hasValidToken new_gateway = false /\
  (forall s : nat,
     socket g = Some s -> isConnected g = true ->
     trace (fst (getDeviceList gatewayIP entropy g))
     = trace g
       ++ (let message :=
             Gateway.mkMotionMessage "GetDeviceList" (entropy (drawn g)) None None None None in
           [ Log Accessory.LogDebug (MsgSending gatewayIP UDP_PORT message);
             SocketSend s message UDP_PORT gatewayIP ])).
Proof.
  cbv zeta.
  destruct (handleMessage_session gatewayIP key entropy response g)
    as (A & B & C & D & _).
  split; [|split; [|split]].
  - intros t Ht Hne. rewrite Ht in C, D.
    assert (Htr : truthy_js_string (Some t) = true) by (destruct t; [congruence|reflexivity]).
    rewrite Htr in C, D. split; [exact C|]. split; [exact D|]. split.
    + unfold hasValidToken. rewrite D, getAccessToken_blocks.
      rewrite string_of_list_ascii_length, upper_hex_length, aes_128_ecb_length.
      reflexivity.
    + intros s mac deviceType operation targetPosition Hs Hcon. split.
      * eexists. unfold writeDevice, generateMsgID. cbv zeta.
        match goal with
        | |- context [send gatewayIP ?m ?x] =>
            rewrite (send_connected gatewayIP m x s Hs Hcon)
        end. cbv zeta.
        cbn [fst trace set_drawn accessToken]. rewrite D. reflexivity.
      * unfold readDevice, generateMsgID. cbv zeta.
        match goal with
        | |- context [send gatewayIP ?m ?x] =>
            rewrite (send_connected gatewayIP m x s Hs Hcon)
        end. cbv zeta.
        cbn [fst trace set_drawn accessToken]. rewrite D. reflexivity.
  - intros [Ht|Ht]; rewrite Ht in C, D; cbn [truthy_js_string] in C, D; now split.
  - reflexivity.
  - intros s Hs Hcon. unfold getDeviceList, generateMsgID. cbv zeta.
    match goal with
    | |- context [send gatewayIP ?m ?x] =>
        rewrite (send_connected gatewayIP m x s Hs Hcon)
    end. cbv zeta.
    reflexivity.
Qed.

(** X13.  Which inbound messages reach the accessories.  [handleMessage]
    emits a [blindState] event exactly for a message whose type is
    "WriteDeviceAck" or "ReadDeviceAck" and which has a non-empty [mac]
    and a [data] object, and then exactly one, carrying that [mac] and
    [data]; a message of any other type (a report, a heartbeat, the
    device list) emits none.  A datagram that cannot be parsed is logged
    and changes nothing else. *)
Theorem blind_state_is_emitted_for_acknowledgements
    (gatewayIP : string) (key : Gateway.js_string) (entropy : nat -> string)
    (g : State) (response : Response) :
  (exists delta : list Effect,
     trace (handleMessage gatewayIP key entropy (Some response) g) = trace g ++ delta /\
     (List.length (filter is_emit delta) <= 1)%nat /\
     forall (mac : string) (data : ResponseData),
       In (EmitBlindState mac data) delta <->
       (response_msgType response = Some "WriteDeviceAck"%string \/
        response_msgType response = Some "ReadDeviceAck"%string) /\
       response_mac response = Some mac /\ mac <> ""%string /\
       response_data response = Some data) /\
  handleMessage gatewayIP key entropy None g
  = set_trace (trace g ++ [Log Accessory.LogDebug MsgFailedToParse]) g.
Proof.
  split; [|reflexivity].
  destruct (handleMessage_session gatewayIP key entropy response g)
    as (_ & _ & _ & _ & delta & E & F).
  exists delta. split; [exact E|].
  assert (Hin : forall mac data,
             In (EmitBlindState mac data) delta <->
             In (EmitBlindState mac data) (filter is_emit delta)).
  { intros mac data. rewrite filter_In. cbn. tauto. }
  split.
  - rewrite F. destruct (response_msgType response) as [msgType|]; [|cbn; lia].
    destruct (response_mac response) as [mac|]; [|cbn; lia].
    destruct (response_data response) as [data|]; [|cbn; lia].
    destruct (_ && _)%bool; cbn; lia.
  - intros mac data. rewrite Hin, F. clear Hin F E.
    destruct (response_msgType response) as [msgType|];
      [|cbn; split; [intros []|intros [[H|H] _]; discriminate H]].
    destruct (response_mac response) as [mac'|];
      [|destruct (response_data response);
        (cbn; split; [intros []|intros (_ & H & _); discriminate H])].
    destruct (response_data response) as [data'|];
      [|cbn; split; [intros []|intros (_ & _ & _ & H); discriminate H]].
    assert (Hmac : truthy_string (Some mac') = true <-> mac' <> ""%string).
    { cbn. rewrite negb_true_iff. split.
      - intros H ->. discriminate H.
      - intros H. destruct mac'; [congruence|reflexivity]. }
    assert (Htype : (String.eqb msgType "WriteDeviceAck" || String.eqb msgType "ReadDeviceAck")%bool
                    = true <->
                    (Some msgType = Some "WriteDeviceAck"%string \/
                     Some msgType = Some "ReadDeviceAck"%string)).
    { rewrite orb_true_iff, !String.eqb_eq. split; intros [H|H];
        first [left; congruence|right; congruence]. }
    destruct ((String.eqb msgType "WriteDeviceAck" || String.eqb msgType "ReadDeviceAck")
              && truthy_string (Some mac'))%bool eqn:Ec.
    + apply andb_true_iff in Ec. destruct Ec as [Ec1 Ec2].
      apply Htype in Ec1. apply Hmac in Ec2. split.
      * intros [H|[]]. inversion H; subst. tauto.
      * intros (_ & H1 & _ & H2). inversion H1; inversion H2; subst. now left.
    + split; [intros []|]. intros (H0 & H1 & H2 & H3). inversion H1; subst.
      apply Htype in H0. apply Hmac in H2. rewrite H0, H2 in Ec. discriminate Ec.
Qed.

Lemma response_resolves_request_witness :
  socket example_connected = Some 0%nat /\
  isConnected example_connected = true /\
  outcome 1
    (handleMessage "192.168.1.20" (Gateway.code_points "0123456789abcdef") example_entropy
       (Some example_ack)
       (fst (send "192.168.1.20" (example_write "1") example_connected)))
  = Some (Resolved (Some example_ack)).
Proof.
  split; [reflexivity|]. split; [reflexivity|].
  apply (response_resolves_request "192.168.1.20"
           (Gateway.code_points "0123456789abcdef") example_entropy
           example_connected (example_write "1") example_ack 0).
  - eexists. reflexivity.
  - reflexivity.
  - reflexivity.
  - reflexivity.
Defined.

Lemma overlapping_requests_share_one_handler_witness :
  let g2 := fst (send "192.168.1.20" (example_write "2")
                   (fst (send "192.168.1.20" (example_write "1") example_connected))) in
  outcome 1 g2 = Some Pending /\
  outcome 2 g2 = Some Pending /\
  JsMap.get "WriteDeviceAck" (responseHandlers g2)
  = Some (mkHandler 2 "WriteDeviceAck" 2).
Proof.
  apply (overlapping_requests_share_one_handler "192.168.1.20"
           (Gateway.code_points "0123456789abcdef") example_entropy
           example_connected (example_write "1") (example_write "2") example_ack 0).
  - eexists. reflexivity.
  - reflexivity.
  - reflexivity.
  - reflexivity.
  - reflexivity.
Defined.

Lemma NoDup_timers (ts : list Timer) :
  NoDup (map timer_handle ts) -> NoDup ts.
Proof.
  induction ts as [|t ts IH]; intros H; [constructor|].
  inversion H as [|x xs Hx Hxs]; subst. constructor; [|now apply IH].
  intros Hin. apply Hx. now apply in_map.
Qed.

Lemma reconnect_pending (g : State) :
  consistent g ->
  filter is_reconnect (timers g)
  = match reconnectTimer g with
    | Some h => [reconnect_timer h]
    | None => []
    end.
Proof.
  intros Hc. destruct (reconnectTimer g) as [h|] eqn:E.
  - pose proof (reconnect_armed _ _ Hc h E) as Hin.
    apply filter_unique; [apply NoDup_timers, (timers_nodup _ _ Hc)|exact Hin|reflexivity|].
    intros t Ht Hr. apply (same_handle (timers g)); trivial.
    + apply (timers_nodup _ _ Hc).
    + pose proof (reconnect_tracked _ _ Hc t Ht Hr) as E'. rewrite E in E'.
      now inversion E'.
  - apply filter_none. intros t Ht. destruct (is_reconnect t) eqn:Hr; [|reflexivity].
    pose proof (reconnect_tracked _ _ Hc t Ht Hr) as E'. rewrite E in E'. discriminate E'.
Qed.

Lemma polling_pending (g : State) :
  consistent g ->
  match statusPollingTimer g with
  | Some h =>
      exists macs delay,
        filter is_status_polling (timers g)
        = [mkTimer h delay true (StatusPollingCallback macs)]
  | None => filter is_status_polling (timers g) = []
  end.
Proof.
  intros Hc. destruct (statusPollingTimer g) as [h|] eqn:E.
  - destruct (polling_armed _ _ Hc h E) as (macs & delay & Hin).
    exists macs, delay.
    apply filter_unique; [apply NoDup_timers, (timers_nodup _ _ Hc)|exact Hin|reflexivity|].
    intros t Ht Hr. apply (same_handle (timers g)); trivial.
    + apply (timers_nodup _ _ Hc).
    + pose proof (polling_tracked _ _ Hc t Ht Hr) as E'. rewrite E in E'.
      now inversion E'.
  - apply filter_none. intros t Ht. destruct (is_status_polling t) eqn:Hr; [|reflexivity].
    pose proof (polling_tracked _ _ Hc t Ht Hr) as E'. rewrite E in E'. discriminate E'.
Qed.

Lemma startStatusPolling_armed (macs : list string) (intervalMs : Z) (g : State) :
  statusPollingTimer (startStatusPolling macs intervalMs g) = Some (nextHandle g) /\
  In (mkTimer (nextHandle g) intervalMs true (StatusPollingCallback macs))
     (timers (startStatusPolling macs intervalMs g)).
Proof.
  unfold startStatusPolling.
  destruct (statusPollingTimer g); cbn; (split; [reflexivity|]);
    apply in_or_app; right; now left.
Qed.

Lemma scheduleReconnect_armed (g : State) :
  exists h, reconnectTimer (scheduleReconnect g) = Some h.
Proof.
  unfold scheduleReconnect. destruct (reconnectTimer g) as [h|] eqn:E.
  - exists h. exact E.
  - cbn. eexists. reflexivity.
Qed.

(** X14.  Reconnecting and status polling never pile up.  In every state
    a client can reach at most one reconnect timeout is pending (of
    5000 ms, the one [reconnectTimer] holds) and at most one
    status-polling interval (the one [statusPollingTimer] holds).  A
    socket error marks the client as not connected and leaves exactly
    one reconnect timeout pending, however many errors came before;
    [startStatusPolling] leaves exactly one polling interval pending,
    the one of its own arguments. *)
Theorem reconnect_and_polling_timers_are_single
    (gatewayIP : string) (key : Gateway.js_string) (entropy : nat -> string)
    (g : State) (Hreach : reachable gatewayIP key entropy g) :
  filter is_reconnect (timers g)
  = match reconnectTimer g with
    | Some h => [mkTimer h 5000 false ReconnectCallback]
    | None => []
    end /\
  match statusPollingTimer g with
  | Some h =>
      exists macs delay,
        filter is_status_polling (timers g)
        = [mkTimer h delay true (StatusPollingCallback macs)]
  | None => filter is_status_polling (timers g) = []
  end /\
  (let g' := step gatewayIP key entropy g SocketError in
   isConnected g' = false /\
   exists h, reconnectTimer g' = Some h /\
             filter is_reconnect (timers g') = [mkTimer h 5000 false ReconnectCallback]) /\
  (forall (macs : list string) (intervalMs : Z),
     let g' := step gatewayIP key entropy g (CallStartStatusPolling macs intervalMs) in
     statusPollingTimer g' = Some (nextHandle g) /\
     filter is_status_polling (timers g')
     = [mkTimer (nextHandle g) intervalMs true (StatusPollingCallback macs)]).
Proof.
  pose proof (reachable_consistent gatewayIP key entropy g Hreach) as Hc.
  split; [exact (reconnect_pending g Hc)|].
  split; [exact (polling_pending g Hc)|].
  split.
  - cbv zeta. cbn [step].
    assert (Hconn : isConnected (onSocketError g) = false).
    { destruct g as [sock tok atok hs ic rt st ts next ps socks aw dr tr].
      destruct rt; reflexivity. }
    pose proof (onSocketError_consistent g Hc) as Hc'.
    pose proof (reconnect_pending _ Hc') as E.
    split; [exact Hconn|].
    destruct (scheduleReconnect_armed
                (set_isConnected false (emit (Log Accessory.LogError MsgSocketError) g)))
      as [h Eh].
    exists h. split; [exact Eh|].
    unfold onSocketError in E. cbv zeta in E. rewrite Eh in E. exact E.
  - intros macs intervalMs. cbv zeta. cbn [step].
    pose proof (startStatusPolling_consistent macs intervalMs g Hc) as Hc'.
    destruct (startStatusPolling_armed macs intervalMs g) as [Eh Hin].
    split; [exact Eh|].
    pose proof (polling_pending _ Hc') as E. rewrite Eh in E.
    destruct E as (macs' & delay' & E).
    assert (Hf : In (mkTimer (nextHandle g) intervalMs true (StatusPollingCallback macs))
                    (filter is_status_polling
                       (timers (startStatusPolling macs intervalMs g)))).
    { apply filter_In. split; [exact Hin|reflexivity]. }
    rewrite E in Hf. destruct Hf as [Hf|[]]. rewrite E. now rewrite Hf.
Qed.

Lemma reconnect_and_polling_timers_are_single_witness :
  let g := run "192.168.1.20" (Gateway.code_points "0123456789abcdef") example_entropy
             example_connected
             [SocketError; SocketError; CallStartStatusPolling ["mac"%string] 60000;
              CallStartStatusPolling ["mac"%string] 30000] in
  filter is_reconnect (timers g) = [mkTimer 1 5000 false ReconnectCallback] /\
  exists macs delay,
    filter is_status_polling (timers g) = [mkTimer 3 delay true (StatusPollingCallback macs)].
Proof.
  cbv zeta.
  destruct (reconnect_and_polling_timers_are_single "192.168.1.20"
              (Gateway.code_points "0123456789abcdef") example_entropy
              (run "192.168.1.20" (Gateway.code_points "0123456789abcdef") example_entropy
                 example_connected
                 [SocketError; SocketError; CallStartStatusPolling ["mac"%string] 60000;
                  CallStartStatusPolling ["mac"%string] 30000]))
    as (H1 & H2 & _).
  - exists [CallConnect; SocketBound 0 true; SocketError; SocketError;
            CallStartStatusPolling ["mac"%string] 60000;
            CallStartStatusPolling ["mac"%string] 30000].
    reflexivity.
  - split; [exact H1|exact H2].
Defined.

Lemma send_not_connected (gatewayIP : string) (message : Gateway.MotionMessage) (g : State) :
  socket g = None \/ isConnected g = false ->
  send gatewayIP message g = (g, Threw NotConnectedError).
Proof.
  unfold send. intros [->| ->]; [reflexivity|]. now destruct (socket g).
Qed.




Lemma since_app (g g' : State) (delta : list Effect) :
  trace g' = trace g ++ delta -> since g g' = delta.
Proof.
  intros E. unfold since. rewrite E.
  rewrite skipn_app, skipn_all, Nat.sub_diag. reflexivity.
Qed.

Lemma filter_awaiting_fresh (p : nat) (k : Continuation) (aw : list (nat * Continuation)) :
  (forall q k', In (q, k') aw -> (q < p)%nat) ->
  filter (fun '(q, _) => Nat.eqb q p) (aw ++ [(p, k)]) = [(p, k)] /\
  filter (fun '(q, _) => negb (Nat.eqb q p)) (aw ++ [(p, k)]) = aw.
Proof.
  intros H. rewrite !filter_app. cbn [filter]. rewrite Nat.eqb_refl. cbn [negb].
  rewrite app_nil_r.
  assert (E : forall q k', In (q, k') aw -> Nat.eqb q p = false).
  { intros q k' Hin. apply Nat.eqb_neq. specialize (H q k' Hin). lia. }
  clear H. induction aw as [|[q k'] aw IH]; [split; reflexivity|].
  cbn [filter app]. rewrite (E q k' (or_introl eq_refl)). cbn [negb].
  destruct IH as [IH1 IH2]; [intros q' k'' Hin; apply (E q' k''); now right|].
  split; [exact IH1|now rewrite IH2].
Qed.

Section Polling.

Variable gatewayIP : string.
Variable key : Gateway.js_string.
Variable entropy : nat -> string.

(** What [handleMessage] does before it looks for a handler, with the
    session fields. *)
Lemma handleMessage_dispatch_session (response : Response) (msgType : string) (g : State) :
  response_msgType response = Some msgType ->
  truthy_string (Some msgType) = true ->
  exists g0 : State,
    handleMessage gatewayIP key entropy (Some response) g
    = match JsMap.get msgType (responseHandlers g) with
      | Some handler => runHandler gatewayIP entropy handler response g0
      | None => g0
      end /\
    socket g0 = socket g /\ isConnected g0 = isConnected g /\
    responseHandlers g0 = responseHandlers g /\
    reconnectTimer g0 = reconnectTimer g /\
    statusPollingTimer g0 = statusPollingTimer g /\
    timers g0 = timers g /\ nextHandle g0 = nextHandle g /\
    promises g0 = promises g /\ sockets g0 = sockets g /\
    awaiting g0 = awaiting g /\ drawn g0 = drawn g /\
    accessToken g0
    = (if truthy_js_string (response_token response)
       then Gateway.getAccessToken key
              match response_token response with Some t => t | None => [] end
       else accessToken g) /\
    exists delta : list Effect,
      trace g0 = trace g ++ delta /\ filter is_transmission delta = [].
Proof.
  intros Ht Htruthy. unfold handleMessage. rewrite Ht, Htruthy. cbv zeta.
  match goal with
  | |- exists g0, match JsMap.get _ (responseHandlers ?x) with _ => _ end = _ /\ _ =>
      exists x
  end.
  destruct g as [sock tok atok hs ic rt st ts next ps socks aw dr tr].
  destruct (response_token response) as [t|]; [destruct (truthy_js_string (Some t))|];
    (destruct (String.eqb msgType "WriteDeviceAck" || String.eqb msgType "ReadDeviceAck")%bool;
     [destruct (response_mac response) as [mac|];
      [destruct (response_data response) as [data|];
       [destruct (truthy_string (Some mac))|]|]|]);
    (split; [reflexivity|]);
    do 12 (split; [reflexivity|]);
    (eexists; split; [cbn [trace emit set_trace set_token set_accessToken];
                      rewrite <- ?app_assoc; reflexivity|reflexivity]).
Qed.


(** The status-polling loop on a connected client, up to its first
    [await]. *)
Lemma pollStatus_connected (mac : string) (rest : list string) (g : State) (s : nat) :
  socket g = Some s -> isConnected g = true ->
  let p := List.length (promises g) in
  let h := nextHandle g in
  let message := status_query (entropy (drawn g)) (accessToken g) mac in
  pollStatus gatewayIP entropy (mac :: rest) g
  = mkState (socket g) (token g) (accessToken g)
      (JsMap.set "WriteDeviceAck" (mkHandler h "WriteDeviceAck" p) (responseHandlers g))
      (isConnected g) (reconnectTimer g) (statusPollingTimer g)
      (timers g ++ [request_timer p "WriteDevice" h])
      (S h)
      (promises g ++ [mkPromise (RequestPromise "WriteDevice" h) Pending])
      (sockets g) (awaiting g ++ [(p, AwaitStatusPoll mac rest)]) (S (drawn g))
      (trace g ++ [ Log Accessory.LogDebug (MsgSending gatewayIP UDP_PORT message);
                    SocketSend s message UDP_PORT gatewayIP ]).
Proof.
  destruct g as [sock tok atok hs ic rt st ts next ps socks aw dr tr].
  cbn [socket isConnected]. intros -> ->. cbn [pollStatus]. run_client.
  rewrite <- app_assoc. reflexivity.
Qed.

Lemma pollStatus_trace (macs : list string) (g : State) (s : nat) :
  socket g = Some s -> isConnected g = true ->
  trace (pollStatus gatewayIP entropy macs g)
  = trace g ++
    match macs with
    | [] => []
    | mac :: _ =>
        let message := status_query (entropy (drawn g)) (accessToken g) mac in
        [ Log Accessory.LogDebug (MsgSending gatewayIP UDP_PORT message);
          SocketSend s message UDP_PORT gatewayIP ]
    end.
Proof.
  intros Hs Hc. destruct macs as [|mac rest].
  - cbn [pollStatus]. now rewrite app_nil_r.
  - rewrite (pollStatus_connected mac rest g s Hs Hc). reflexivity.
Qed.

(** Settling a pending promise on which one callback is parked, the
    last one parked: the callback resumes. *)
Lemma settle_parked (p : nat) (o : Outcome) (k : Continuation)
    (aw : list (nat * Continuation)) (g : State) :
  outcome p g = Some Pending ->
  awaiting g = aw ++ [(p, k)] ->
  (forall q k', In (q, k') aw -> (q < p)%nat) ->
  settle gatewayIP entropy p o g
  = resume gatewayIP entropy k o
      (set_awaiting aw
         (set_promises
            (update_nth p (fun q => mkPromise (promise_kind q) o) (promises g)) g)).
Proof.
  intros Ho Ha Hfresh. unfold settle. rewrite Ho. cbv zeta.
  cbn [awaiting set_promises]. rewrite Ha.
  destruct (filter_awaiting_fresh p k aw Hfresh) as [E1 E2].
  rewrite E1, E2. reflexivity.
Qed.


(** X16.  Status polling asks one blind at a time.  When the polling
    interval fires on a connected client, one status query is
    transmitted, for the first blind of the list, whatever the length of
    the list.  The query for the next blind is transmitted when the
    acknowledgement arrives (it then carries the access token of the
    acknowledgement's nonce, if it has one), or when the request times
    out after 5000 ms (the failure is logged and the loop goes on). *)
Theorem status_polling_asks_one_blind_at_a_time
    (g : State) (s : nat) (mac : string) (rest : list string) (response : Response)
    (Hreach : reachable gatewayIP key entropy g)
    (Hsocket : socket g = Some s)
    (Hconnected : isConnected g = true)
    (Htype : response_msgType response = Some "WriteDeviceAck"%string) :
  let p := List.length (promises g) in
  let h := nextHandle g in
  let query (n : nat) (accessToken mac : string) : list Effect :=
    [ Log Accessory.LogDebug
        (MsgSending gatewayIP UDP_PORT (status_query (entropy n) accessToken mac));
      SocketSend s (status_query (entropy n) accessToken mac) UDP_PORT gatewayIP ] in
  let g1 := runCallback gatewayIP entropy (StatusPollingCallback (mac :: rest)) g in
  (since g g1 = query (drawn g) (accessToken g) mac /\
   outcome p g1 = Some Pending /\
   In (mkTimer h 5000 false (RequestTimeoutCallback p "WriteDevice")) (timers g1)) /\
  (let g2 := handleMessage gatewayIP key entropy (Some response) g1 in
   let accessToken' :=
     if truthy_js_string (response_token response)
     then Gateway.getAccessToken key
            match response_token response with Some t => t | None => [] end
     else accessToken g in
   outcome p g2 = Some (Resolved (Some response)) /\
   filter is_transmission (since g1 g2)
   = match rest with
     | [] => []
     | mac' :: _ =>
         [SocketSend s (status_query (entropy (S (drawn g))) accessToken' mac')
            UDP_PORT gatewayIP]
     end) /\
  (let g2 := fireTimer gatewayIP entropy h g1 in
   outcome p g2 = Some (Rejected (RequestTimeoutError "WriteDevice")) /\
   since g1 g2
   = Log Accessory.LogDebug (MsgFailedToPoll mac (RequestTimeoutError "WriteDevice"))
     :: match rest with
        | [] => []
        | mac' :: _ => query (S (drawn g)) (accessToken g) mac'
        end).
Proof.
  pose proof (reachable_consistent gatewayIP key entropy g Hreach) as Hc.
  assert (Haw : forall q k', In (q, k') (awaiting g) -> (q < List.length (promises g))%nat).
  { exact (awaiting_sound _ _ Hc). }
  pose proof (pollStatus_consistent gatewayIP entropy (mac :: rest) g Hc) as Hc1.
  cbv zeta. cbn [runCallback].
  rewrite (pollStatus_connected mac rest g s Hsocket Hconnected) in *. cbv zeta in *.
  set (p := List.length (promises g)) in *. set (h := nextHandle g) in *.
  match goal with
  | |- (since g ?x = _ /\ _) /\ _ => set (g1 := x) in *
  end.
  assert (Ho1 : outcome p g1 = Some Pending).
  { unfold outcome, g1. cbn [promises]. unfold p. now rewrite nth_error_snoc_new. }
  split; [|split].
  - split; [apply since_app; reflexivity|]. split; [exact Ho1|].
    unfold g1. cbn [timers]. apply in_or_app. right. now left.
  - destruct (handleMessage_dispatch_session response "WriteDeviceAck" g1 Htype eq_refl)
      as (g0 & E & Hs0 & Hi0 & Hh0 & _ & _ & Ht0 & _ & Hp0 & _ & Ha0 & Hd0 & Hat0 & d0 & Htr0 & Hf0).
    assert (Hget : JsMap.get "WriteDeviceAck" (responseHandlers g1)
                   = Some (mkHandler h "WriteDeviceAck" p)).
    { unfold g1. cbn [responseHandlers]. apply JsMap_get_set_same. }
    rewrite Hget in E. unfold runHandler in E. cbv zeta in E.
    cbn [handler_timeout handler_expectedResponse handler_promise] in E.
    rewrite (settle_parked p _ (AwaitStatusPoll mac rest) (awaiting g)) in E;
      [|unfold outcome; cbn [promises set_responseHandlers clearTimer set_timers];
        rewrite Hp0; exact Ho1
       |cbn [awaiting set_responseHandlers clearTimer set_timers]; rewrite Ha0; reflexivity
       |exact Haw].
    cbn [resume] in E. rewrite E. clear E.
    match goal with
    | |- outcome p (pollStatus _ _ rest ?x) = _ /\ _ => set (gX := x)
    end.
    assert (HoX : outcome p gX = Some (Resolved (Some response))).
    { unfold outcome, gX.
      cbn [promises set_awaiting set_promises set_responseHandlers clearTimer set_timers].
      rewrite nth_error_update_nth, Nat.eqb_refl, Hp0.
      unfold g1. cbn [promises]. unfold p. now rewrite nth_error_snoc_new. }
    split.
    + apply (pollStatus_settled_stay gatewayIP entropy rest gX); [exact HoX|discriminate].
    + assert (HsX : socket gX = Some s) by (unfold gX; cbn; rewrite Hs0; exact Hsocket).
      assert (HiX : isConnected gX = true) by (unfold gX; cbn; rewrite Hi0; exact Hconnected).
      rewrite (since_app g1 _
                 (d0 ++ match rest with
                        | [] => []
                        | mac' :: _ =>
                            let message :=
                              status_query (entropy (drawn gX)) (accessToken gX) mac' in
                            [ Log Accessory.LogDebug (MsgSending gatewayIP UDP_PORT message);
                              SocketSend s message UDP_PORT gatewayIP ]
                        end)).
      * rewrite filter_app, Hf0. cbn [app].
        destruct rest as [|mac' rest']; [reflexivity|].
        cbv zeta. cbn [filter is_transmission].
        replace (drawn gX) with (S (drawn g)) by (unfold gX; cbn; now rewrite Hd0).
        replace (accessToken gX) with (accessToken g0) by reflexivity.
        rewrite Hat0. reflexivity.
      * rewrite (pollStatus_trace rest gX s HsX HiX).
        replace (trace gX) with (trace g0) by reflexivity.
        rewrite Htr0, <- app_assoc. reflexivity.
  - unfold fireTimer.
    rewrite (find_handle h (request_timer p "WriteDevice" h) (timers g1)
               (timers_nodup _ _ Hc1));
      [|unfold g1; cbn [timers]; apply in_or_app; right; now left|reflexivity].
    cbn [timer_callback timer_repeats request_timer runCallback].
    rewrite (settle_parked p _ (AwaitStatusPoll mac rest) (awaiting g)); trivial.
    cbn [resume].
    match goal with
    | |- outcome p (pollStatus _ _ rest ?x) = _ /\ _ => set (gX := x)
    end.
    assert (HoX : outcome p gX = Some (Rejected (RequestTimeoutError "WriteDevice"))).
    { unfold outcome, gX. cbn [promises set_awaiting set_promises set_responseHandlers clearTimer set_timers emit set_trace].
      rewrite nth_error_update_nth, Nat.eqb_refl.
      unfold g1. cbn [promises]. unfold p. now rewrite nth_error_snoc_new. }
    split.
    + apply (pollStatus_settled_stay gatewayIP entropy rest gX); [exact HoX|discriminate].
    + apply since_app. rewrite (pollStatus_trace rest gX s); [|exact Hsocket|exact Hconnected].
      unfold gX. cbn [trace emit set_trace set_awaiting set_promises set_responseHandlers clearTimer set_timers drawn accessToken g1].
      rewrite <- app_assoc. cbn [app]. reflexivity.
Qed.

End Polling.

Lemma status_polling_asks_one_blind_at_a_time_witness :
  let g1 := runCallback "192.168.1.20" example_entropy
              (StatusPollingCallback ["a"; "b"]%string) example_connected in
  let g2 := handleMessage "192.168.1.20" (Gateway.code_points "0123456789abcdef")
              example_entropy (Some example_ack) g1 in
  outcome 1 g2 = Some (Resolved (Some example_ack)) /\
  filter is_transmission (since g1 g2)
  = [SocketSend 0 (status_query "00000000000000B2" "" "b") 32100 "192.168.1.20"].
Proof.
  cbv zeta.
  destruct (status_polling_asks_one_blind_at_a_time "192.168.1.20"
              (Gateway.code_points "0123456789abcdef") example_entropy
              example_connected 0 "a" ["b"%string] example_ack)
    as (_ & H & _).
  - eexists. reflexivity.
  - reflexivity.
  - reflexivity.
  - reflexivity.
  - exact H.
Defined.

Section Reconnecting.

Variable gatewayIP : string.
Variable key : Gateway.js_string.
Variable entropy : nat -> string.

(** The reconnect timeout fires on a client that is not connected: up
    to [await this.connect()]. *)
Lemma reconnect_fires (g : State) (h : nat) :
  consistent g -> isConnected g = false -> reconnectTimer g = Some h ->
  let s := List.length (sockets g) in
  let p := List.length (promises g) in
  fireTimer gatewayIP entropy h g
  = mkState (Some s) (token g) (accessToken g) (responseHandlers g) false None
      (statusPollingTimer g)
      (filter (fun t => negb (Nat.eqb (timer_handle t) h)) (timers g)
       ++ [mkTimer (nextHandle g) 10000 false (ConnectTimeoutCallback p)])
      (S (nextHandle g))
      (promises g ++ [mkPromise (ConnectPromise s) Pending])
      (sockets g ++ [p]) (awaiting g ++ [(p, AwaitReconnectConnect)]) (drawn g)
      (trace g ++ [CreateSocket s; SocketBind s]).
Proof.
  intros Hc Hdown Hrt. unfold fireTimer.
  rewrite (find_handle h (reconnect_timer h) (timers g) (timers_nodup _ _ Hc)
             (reconnect_armed _ _ Hc h Hrt) eq_refl).
  cbn [timer_callback timer_repeats reconnect_timer runCallback].
  destruct g as [sock tok atok hs ic rt st ts next ps socks aw dr tr].
  cbn [isConnected] in Hdown. subst ic. cbv zeta. run_client.
  rewrite <- app_assoc. reflexivity.
Qed.


(** X17.  Reconnecting.  When the reconnect timeout fires on a client
    that is not connected, a new socket is created and bound and the
    reconnect timer is released.  If the socket binds, the client is
    connected again and asks the new socket for the device list.  If it
    has not bound after 10000 ms, the failure is logged and exactly one
    new reconnect timeout of 5000 ms is armed: the client keeps trying. *)
Theorem reconnect_retries_until_bound
    (g : State) (h : nat) (joined : bool)
    (Hreach : reachable gatewayIP key entropy g)
    (Hdown : isConnected g = false)
    (Hrt : reconnectTimer g = Some h) :
  let s := List.length (sockets g) in
  let p := List.length (promises g) in
  let t := nextHandle g in
  let g1 := step gatewayIP key entropy g (TimerFires h) in
  (socket g1 = Some s /\ reconnectTimer g1 = None /\
   since g g1 = [CreateSocket s; SocketBind s] /\
   In (mkTimer t 10000 false (ConnectTimeoutCallback p)) (timers g1)) /\
  (let g2 := step gatewayIP key entropy g1 (SocketBound s joined) in
   isConnected g2 = true /\ reconnectTimer g2 = None /\
   filter is_transmission (since g1 g2)
   = [SocketSend s
        (Gateway.mkMotionMessage "GetDeviceList" (entropy (drawn g)) None None None None)
        UDP_PORT gatewayIP]) /\
  (let g2 := step gatewayIP key entropy g1 (TimerFires t) in
   isConnected g2 = false /\
   since g1 g2 = [Log Accessory.LogError (MsgReconnectionFailed ConnectionTimeoutError)] /\
   reconnectTimer g2 = Some (S t) /\
   filter is_reconnect (timers g2) = [mkTimer (S t) 5000 false ReconnectCallback]).
Proof.
  pose proof (reachable_consistent gatewayIP key entropy g Hreach) as Hc.
  assert (Haw : forall q k', In (q, k') (awaiting g) -> (q < List.length (promises g))%nat).
  { exact (awaiting_sound _ _ Hc). }
  pose proof (fireTimer_consistent gatewayIP entropy h g Hc) as Hc1.
  cbv zeta. cbn [step].
  rewrite (reconnect_fires g h Hc Hdown Hrt) in *. cbv zeta in *.
  set (s := List.length (sockets g)) in *.
  set (p := List.length (promises g)) in *.
  set (t := nextHandle g) in *.
  match goal with
  | |- (socket ?x = _ /\ _) /\ _ => set (g1 := x) in *
  end.
  assert (Ho1 : outcome p g1 = Some Pending).
  { unfold outcome, g1. cbn [promises]. unfold p. now rewrite nth_error_snoc_new. }
  assert (Hin1 : In (mkTimer t 10000 false (ConnectTimeoutCallback p)) (timers g1)).
  { unfold g1. cbn [timers]. apply in_or_app. right. now left. }
  split; [|split].
  - split; [reflexivity|]. split; [reflexivity|]. split; [|exact Hin1].
    apply since_app. reflexivity.
  - assert (E : nth_error (sockets g1) s = Some p).
    { unfold g1. cbn [sockets]. unfold s. now rewrite nth_error_snoc_new. }
    rewrite E. unfold onBound. cbv zeta.
    destruct joined;
      (rewrite (settle_parked gatewayIP entropy p _ AwaitReconnectConnect (awaiting g));
       [|exact Ho1|reflexivity|exact Haw]);
      cbn [resume];
      destruct g as [sock tok atok hs ic rt st ts next ps socks aw dr tr];
      unfold g1; run_client.
    + split; [reflexivity|]. split; [reflexivity|].
      erewrite since_app; [|cbn [trace]; rewrite <- !app_assoc; cbn [app]; reflexivity].
      reflexivity.
    + split; [reflexivity|]. split; [reflexivity|].
      erewrite since_app; [|cbn [trace]; rewrite <- !app_assoc; cbn [app]; reflexivity].
      reflexivity.
  - pose proof (fireTimer_consistent gatewayIP entropy t g1 Hc1) as Hc2.
    pose proof (reconnect_pending _ Hc2) as Hr2.
    assert (E2 : fireTimer gatewayIP entropy t g1
                 = resume gatewayIP entropy AwaitReconnectConnect
                     (Rejected ConnectionTimeoutError)
                     (set_awaiting (awaiting g)
                        (set_promises
                           (update_nth p
                              (fun q => mkPromise (promise_kind q)
                                          (Rejected ConnectionTimeoutError))
                              (promises (clearTimer t g1)))
                           (clearTimer t g1)))).
    { unfold fireTimer.
      rewrite (find_handle t (mkTimer t 10000 false (ConnectTimeoutCallback p)) (timers g1)
                 (timers_nodup _ _ Hc1) Hin1 eq_refl).
      cbn [timer_callback timer_repeats runCallback].
      replace (isConnected (clearTimer t g1)) with false by reflexivity.
      rewrite (settle_parked gatewayIP entropy p _ AwaitReconnectConnect (awaiting g));
        [reflexivity|exact Ho1|reflexivity|exact Haw]. }
    remember (fireTimer gatewayIP entropy t g1) as g2 eqn:Eg2.
    clear Eg2.
    assert (F1 : isConnected g2 = false) by (rewrite E2; vm_compute; reflexivity).
    assert (F2 : trace g2
                 = trace g1
                   ++ [Log Accessory.LogError (MsgReconnectionFailed ConnectionTimeoutError)])
      by (rewrite E2; vm_compute; reflexivity).
    assert (F3 : reconnectTimer g2 = Some (S t)) by (rewrite E2; vm_compute; reflexivity).
    rewrite F3 in Hr2.
    split; [exact F1|]. split; [exact (since_app _ _ _ F2)|]. split; [exact F3|exact Hr2].
Qed.

End Reconnecting.

Lemma reconnect_retries_until_bound_witness :
  let g := run "192.168.1.20" (Gateway.code_points "0123456789abcdef") example_entropy
             example_connected [SocketError] in
  let g1 := step "192.168.1.20" (Gateway.code_points "0123456789abcdef") example_entropy
              g (TimerFires 1) in
  let g2 := step "192.168.1.20" (Gateway.code_points "0123456789abcdef") example_entropy
              g1 (TimerFires 2) in
  isConnected g = false /\ reconnectTimer g = Some 1%nat /\
  reconnectTimer g2 = Some 3%nat /\
  filter is_reconnect (timers g2) = [mkTimer 3 5000 false ReconnectCallback].
Proof.
  cbv zeta. split; [vm_compute; reflexivity|]. split; [vm_compute; reflexivity|].
  destruct (reconnect_retries_until_bound "192.168.1.20"
              (Gateway.code_points "0123456789abcdef") example_entropy
              (run "192.168.1.20" (Gateway.code_points "0123456789abcdef") example_entropy
                 example_connected [SocketError]) 1 true)
    as (_ & _ & _ & _ & H3 & H4).
  - exists [CallConnect; SocketBound 0 true; SocketError]. vm_compute. reflexivity.
  - vm_compute. reflexivity.
  - vm_compute. reflexivity.
  - vm_compute in H3, H4 |- *. split; [exact H3|exact H4].
Defined.

Lemma update_nth_snoc {A : Type} (f : A -> A) (l : list A) (x : A) :
  update_nth (List.length l) f (l ++ [x]) = l ++ [f x].
Proof. induction l as [|y l IH]; cbn; congruence. Qed.

Section Connecting.

Variable gatewayIP : string.
Variable key : Gateway.js_string.
Variable entropy : nat -> string.

(** [connect] on a client that is not connected. *)
Lemma connect_not_connected (g : State) :
  isConnected g = false ->
  let s := List.length (sockets g) in
  let p := List.length (promises g) in
  connect g
  = (mkState (Some s) (token g) (accessToken g) (responseHandlers g) false
       (reconnectTimer g) (statusPollingTimer g)
       (timers g ++ [mkTimer (nextHandle g) 10000 false (ConnectTimeoutCallback p)])
       (S (nextHandle g))
       (promises g ++ [mkPromise (ConnectPromise s) Pending])
       (sockets g ++ [p]) (awaiting g) (drawn g)
       (trace g ++ [CreateSocket s; SocketBind s]),
     Awaits p).
Proof.
  destruct g as [sock tok atok hs ic rt st ts next ps socks aw dr tr].
  cbn [isConnected]. intros ->. run_client. rewrite <- app_assoc. reflexivity.
Qed.

(** X18.  [connect] settles once.  On a client that is connected,
    [connect] returns at once and does nothing.  Otherwise it creates
    and binds a socket and arms a timeout of 10000 ms.  When the socket
    binds first, the client is connected and the call resolves, whether
    or not the multicast group could be joined, and the timeout then
    changes nothing when it fires.  When the timeout fires first, the
    call is rejected with the connection time-out; a socket that binds
    after that still marks the client as connected, but the call stays
    rejected. *)
Theorem connect_settles_once
    (g : State) (joined : bool)
    (Hreach : reachable gatewayIP key entropy g) :
  (isConnected g = true -> connect g = (g, Completed)) /\
  (isConnected g = false ->
   let s := List.length (sockets g) in
   let p := List.length (promises g) in
   let t := nextHandle g in
   let g1 := step gatewayIP key entropy g CallConnect in
   (snd (connect g) = Awaits p /\ socket g1 = Some s /\ outcome p g1 = Some Pending /\
    since g g1 = [CreateSocket s; SocketBind s] /\
    In (mkTimer t 10000 false (ConnectTimeoutCallback p)) (timers g1)) /\
   (let g2 := step gatewayIP key entropy g1 (SocketBound s joined) in
    let g3 := step gatewayIP key entropy g2 (TimerFires t) in
    isConnected g2 = true /\ outcome p g2 = Some (Resolved None) /\
    isConnected g3 = true /\ outcome p g3 = Some (Resolved None) /\ since g2 g3 = []) /\
   (let g2 := step gatewayIP key entropy g1 (TimerFires t) in
    let g3 := step gatewayIP key entropy g2 (SocketBound s joined) in
    isConnected g2 = false /\ outcome p g2 = Some (Rejected ConnectionTimeoutError) /\
    isConnected g3 = true /\ outcome p g3 = Some (Rejected ConnectionTimeoutError))).
Proof.
  pose proof (reachable_consistent gatewayIP key entropy g Hreach) as Hc.
  split.
  - intros H. unfold connect. now rewrite H.
  - intros Hdown. cbv zeta. cbn [step].
    assert (Haw : forall q k', In (q, k') (awaiting g) -> q <> List.length (promises g)).
    { intros q k' Hin. pose proof (awaiting_sound _ _ Hc q k' Hin). lia. }
    pose proof (connect_consistent g Hc) as Hc1.
    rewrite (connect_not_connected g Hdown) in *. cbv zeta in *. cbn [fst snd] in *.
    set (s := List.length (sockets g)) in *.
    set (p := List.length (promises g)) in *.
    set (t := nextHandle g) in *.
    match goal with
    | |- (_ /\ socket ?x = _ /\ _) /\ _ => set (g1 := x) in *
    end.
    assert (Ho1 : outcome p g1 = Some Pending).
    { unfold outcome, g1. cbn [promises]. unfold p. now rewrite nth_error_snoc_new. }
    assert (Hin1 : In (mkTimer t 10000 false (ConnectTimeoutCallback p)) (timers g1)).
    { unfold g1. cbn [timers]. apply in_or_app. right. now left. }
    assert (Es : nth_error (sockets g1) s = Some p).
    { unfold g1. cbn [sockets]. unfold s. now rewrite nth_error_snoc_new. }
    split; [|split].
    + split; [reflexivity|]. split; [reflexivity|]. split; [exact Ho1|].
      split; [apply since_app; reflexivity|exact Hin1].
    + rewrite Es.
      pose proof (onBound_consistent gatewayIP entropy p joined g1 Hc1) as Hc2.
      assert (E2 : exists delta,
                 onBound gatewayIP entropy p joined g1
                 = mkState (Some s) (token g) (accessToken g) (responseHandlers g) true
                     (reconnectTimer g) (statusPollingTimer g) (timers g1) (S t)
                     (promises g ++ [mkPromise (ConnectPromise s) (Resolved None)])
                     (sockets g1) (awaiting g) (drawn g) (trace g1 ++ delta)).
      { unfold onBound. cbv zeta.
        exists (Log Accessory.LogInfo MsgControllerStarted
                :: if joined
                   then [ SocketAddMembership s MULTICAST_ADDRESS;
                          Log Accessory.LogDebug (MsgJoinedMulticast MULTICAST_ADDRESS) ]
                   else [ Log Accessory.LogDebug MsgCouldNotJoinMulticast ]).
        destruct joined;
          (rewrite settle_unawaited; [|exact Ho1|exact Haw]);
          unfold g1; run_client; unfold p; rewrite update_nth_snoc;
          cbn [promise_kind]; rewrite <- !app_assoc; reflexivity. }
      destruct E2 as [delta E2]. rewrite E2 in *.
      match goal with
      | |- isConnected ?x = _ /\ _ => set (g2 := x) in *
      end.
      assert (Ho2 : outcome p g2 = Some (Resolved None)).
      { unfold outcome, g2. cbn [promises]. unfold p. now rewrite nth_error_snoc_new. }
      assert (E3 : fireTimer gatewayIP entropy t g2 = clearTimer t g2).
      { unfold fireTimer.
        rewrite (find_handle t (mkTimer t 10000 false (ConnectTimeoutCallback p)) (timers g2)
                   (timers_nodup _ _ Hc2) Hin1 eq_refl).
        reflexivity. }
      rewrite E3.
      split; [reflexivity|]. split; [exact Ho2|]. split; [reflexivity|].
      split; [exact Ho2|]. apply since_app. cbn. now rewrite app_nil_r.
    + assert (E2 : fireTimer gatewayIP entropy t g1
                   = set_promises
                       (update_nth p
                          (fun q => mkPromise (promise_kind q) (Rejected ConnectionTimeoutError))
                          (promises g1)) (clearTimer t g1)).
      { unfold fireTimer.
        rewrite (find_handle t (mkTimer t 10000 false (ConnectTimeoutCallback p)) (timers g1)
                   (timers_nodup _ _ Hc1) Hin1 eq_refl).
        cbn [timer_callback timer_repeats runCallback].
        replace (isConnected (clearTimer t g1)) with false by reflexivity.
        rewrite settle_unawaited; [reflexivity|exact Ho1|exact Haw]. }
      rewrite E2.
      match goal with
      | |- isConnected ?x = _ /\ _ => set (g2 := x) in *
      end.
      assert (Ho2 : outcome p g2 = Some (Rejected ConnectionTimeoutError)).
      { unfold outcome, g2. cbn [promises set_promises].
        rewrite nth_error_update_nth, Nat.eqb_refl.
        unfold g1. cbn [promises]. unfold p. now rewrite nth_error_snoc_new. }
      split; [reflexivity|]. split; [exact Ho2|].
      replace (nth_error (sockets g2) s) with (Some p) by (symmetry; exact Es).
      split.
      * unfold onBound. cbv zeta. unfold settle.
        destruct joined;
          match goal with
          | |- isConnected (match ?o with _ => _ end) = _ =>
              replace o with (Some (Rejected ConnectionTimeoutError)) by (symmetry; exact Ho2)
          end; reflexivity.
      * pose proof (step_settled_stay gatewayIP key entropy g2 (SocketBound s joined))
          as (_ & _ & H).
        cbn [step] in H.
        replace (nth_error (sockets g2) s) with (Some p) in H by (symmetry; exact Es).
        apply H; [exact Ho2|discriminate].
Qed.

End Connecting.

Lemma connect_settles_once_witness :
  let run_from := run "192.168.1.20" (Gateway.code_points "0123456789abcdef")
                    example_entropy new_gateway in
  outcome 0 (run_from [CallConnect; SocketBound 0 true; TimerFires 0])
  = Some (Resolved None) /\
  isConnected (run_from [CallConnect; TimerFires 0; SocketBound 0 true]) = true /\
  outcome 0 (run_from [CallConnect; TimerFires 0; SocketBound 0 true])
  = Some (Rejected ConnectionTimeoutError).
Proof.
  cbv zeta.
  destruct (connect_settles_once "192.168.1.20" (Gateway.code_points "0123456789abcdef")
              example_entropy new_gateway true) as [_ H].
  - exists []. reflexivity.
  - destruct (H eq_refl) as (_ & (_ & _ & _ & H1 & _) & (_ & _ & H2 & H3)).
    split; [exact H1|]. split; [exact H2|exact H3].
Defined.

Section Sending.

Variable gatewayIP : string.
Variable key : Gateway.js_string.
Variable entropy : nat -> string.

(** X19.  A request the socket could not send.  When [socket.send]
    reports an error for a request that is pending, the request is
    rejected with that error at once, without waiting for its timeout,
    and nothing that happens afterwards changes that; if nothing is
    parked on the request, its timeout leaves the timer table and the
    handler of its message type is removed.  A report without error
    changes nothing. *)
Theorem send_error_rejects_request
    (g : State) (p : nat) (msgType : string) (h : nat)
    (Hpending : nth_error (promises g) p
                = Some (mkPromise (RequestPromise msgType h) Pending)) :
  let g' := step gatewayIP key entropy g (SocketSent p true) in
  outcome p g' = Some (Rejected SocketSendError) /\
  (forall events : list Event,
     outcome p (run gatewayIP key entropy g' events) = Some (Rejected SocketSendError)) /\
  ((forall q k, In (q, k) (awaiting g) -> q <> p) ->
   timers g' = filter (fun t => negb (Nat.eqb (timer_handle t) h)) (timers g) /\
   ~ In (mkTimer h 5000 false (RequestTimeoutCallback p msgType)) (timers g') /\
   responseHandlers g' = JsMap.delete (msgType ++ "Ack")%string (responseHandlers g) /\
   since g g' = []) /\
  step gatewayIP key entropy g (SocketSent p false) = g.
Proof.
  cbv zeta. cbn [step]. unfold onSent. rewrite Hpending. cbn [option_map promise_kind].
  assert (Ho : outcome p
                 (settle gatewayIP entropy p (Rejected SocketSendError)
                    (set_responseHandlers
                       (JsMap.delete (msgType ++ "Ack")%string
                          (responseHandlers (clearTimer h g))) (clearTimer h g)))
               = Some (Rejected SocketSendError)).
  { apply settle_outcome; [|discriminate].
    unfold outcome. cbn [promises set_responseHandlers clearTimer set_timers].
    now rewrite Hpending. }
  split; [exact Ho|]. split; [|split; [|reflexivity]].
  - intros events. apply run_settled_stay; [exact Ho|discriminate].
  - intros Hn. rewrite settle_unawaited; [|unfold outcome; cbn; now rewrite Hpending|exact Hn].
    cbn [timers responseHandlers set_promises set_responseHandlers clearTimer set_timers].
    split; [reflexivity|]. split; [|split; [reflexivity|]].
    + intros Hin. apply filter_In in Hin. destruct Hin as [_ Hin].
      cbn in Hin. rewrite Nat.eqb_refl in Hin. discriminate Hin.
    + apply since_app. cbn. now rewrite app_nil_r.
Qed.

End Sending.

Lemma send_error_rejects_request_witness :
  outcome 1 (step "192.168.1.20" (Gateway.code_points "0123456789abcdef")
               example_entropy example_session (SocketSent 1 true))
  = Some (Rejected SocketSendError).
Proof.
  apply (send_error_rejects_request "192.168.1.20"
           (Gateway.code_points "0123456789abcdef") example_entropy
           example_session 1 "WriteDevice" 1).
  reflexivity.
Defined.

(** * The platform *)

Import Platform PlatformFacts.

Lemma done_since_app (p p' : State) (delta : list Effect) :
  trace p' = trace p ++ delta -> done_since p p' = delta.
Proof.
  intros E. unfold done_since. rewrite E.
  rewrite skipn_app, skipn_all, Nat.sub_diag. reflexivity.
Qed.

Lemma nth_error_combine_seq {A : Type} (k : nat) (l : list A) (i : nat) (x : A) :
  nth_error l i = Some x ->
  nth_error (combine (seq k (List.length l)) l) i = Some ((k + i)%nat, x).
Proof.
  revert k i. induction l as [|y l IH]; intros k i H; [destruct i; discriminate H|].
  destruct i as [|i]; cbn [List.length seq combine nth_error] in *.
  - inversion H. now rewrite Nat.add_0_r.
  - rewrite (IH (S k) i H). now rewrite Nat.add_succ_r.
Qed.

Lemma autoBlinds_nth (ds : list Client.DeviceInfo) (i : nat) (d : Client.DeviceInfo) :
  nth_error ds i = Some d ->
  nth_error (autoBlinds ds) i
  = Some (mkBlindConfig (Client.info_mac d) ("Blind " ++ decimal (i + 1))
            (Some (Client.info_deviceType d))).
Proof.
  intros H. unfold autoBlinds.
  rewrite nth_error_map, (nth_error_combine_seq 0 ds i d H). reflexivity.
Qed.

Lemma autoBlinds_macs_from (k : nat) (ds : list Client.DeviceInfo) :
  map blind_mac
    (map (fun '(index, device) =>
            mkBlindConfig (Client.info_mac device) ("Blind " ++ decimal (index + 1))
              (Some (Client.info_deviceType device)))
       (combine (seq k (List.length ds)) ds))
  = map Client.info_mac ds.
Proof.
  revert k. induction ds as [|d ds IH]; intros k; [reflexivity|].
  cbn [List.length seq combine map blind_mac]. f_equal. apply IH.
Qed.

Lemma autoBlinds_macs (ds : list Client.DeviceInfo) :
  map blind_mac (autoBlinds ds) = map Client.info_mac ds.
Proof. apply autoBlinds_macs_from. Qed.

Lemma autoBlinds_length (ds : list Client.DeviceInfo) :
  List.length (autoBlinds ds) = List.length ds.
Proof. rewrite <- (length_map blind_mac), autoBlinds_macs. apply length_map. Qed.

Lemma kept_refl (uuids : list string) (m : list (string * PlatformAccessory)) :
  Forall2 (kept uuids) m m.
Proof.
  induction m as [|x m IH]; constructor; [|exact IH].
  unfold kept. repeat split; trivial. now left.
Qed.

Lemma kept_trans (us vs : list string) (m1 m2 m3 : list (string * PlatformAccessory)) :
  Forall2 (kept us) m1 m2 -> Forall2 (kept vs) m2 m3 -> Forall2 (kept (us ++ vs)) m1 m3.
Proof.
  intros H. revert m3. induction H as [|x y l l' Hxy Hl IH]; intros m3 H3.
  - inversion H3. constructor.
  - inversion H3 as [|y' z l2 l3 Hyz Hl3]; subst. constructor; [|now apply IH].
    destruct Hxy as (K1 & D1 & U1 & C1), Hyz as (K2 & D2 & U2 & C2).
    unfold kept. rewrite K2, D2, U2. repeat split; trivial.
    destruct C1 as [->|C1]; [|right; apply in_or_app; now left].
    destruct C2 as [->|C2]; [now left|right; apply in_or_app; now right].
Qed.

Lemma kept_set (uuid : string) (a b : PlatformAccessory)
    (m : list (string * PlatformAccessory)) :
  JsMap.get uuid m = Some a ->
  displayName b = displayName a -> UUID b = UUID a ->
  Forall2 (kept [uuid]) m (JsMap.set uuid b m).
Proof.
  intros Hget Hd Hu. induction m as [|[k v] m IH]; [discriminate Hget|].
  cbn [JsMap.get JsMap.set] in *. destruct (String.eqb_spec k uuid) as [->|Hne].
  - inversion Hget; subst. constructor; [|apply kept_refl].
    unfold kept. cbn. repeat split; trivial. right. now left.
  - constructor; [|now apply IH]. unfold kept. repeat split; trivial. now left.
Qed.

(** What a lookup in the cache tells of an accessory that the loop does
    not change. *)
Lemma kept_get (uuids : list string) (m m' : list (string * PlatformAccessory))
    (u : string) :
  Forall2 (kept uuids) m m' ->
  match JsMap.get u m, JsMap.get u m' with
  | Some a, Some a' => displayName a' = displayName a /\ UUID a' = UUID a
  | None, None => True
  | _, _ => False
  end.
Proof.
  induction 1 as [|[k v] [k' v'] l l' Hxy Hl IH]; [exact I|].
  destruct Hxy as (K & D & U & _). cbn in K, D, U. subst k'.
  cbn [JsMap.get]. destruct (String.eqb k u); [now split|exact IH].
Qed.

Lemma kept_keys (uuids : list string) (m m' : list (string * PlatformAccessory)) :
  Forall2 (kept uuids) m m' -> JsMap.keys m' = JsMap.keys m.
Proof.
  induction 1 as [|x y l l' Hxy Hl IH]; [reflexivity|].
  unfold JsMap.keys in *. cbn [map]. f_equal; [apply Hxy|exact IH].
Qed.

Lemma includes_In (x : string) (l : list string) :
  includes x l = true <-> In x l.
Proof.
  unfold includes. rewrite existsb_exists. split.
  - intros (y & Hin & E). apply String.eqb_eq in E. now subst.
  - intros Hin. exists x. split; [exact Hin|apply String.eqb_refl].
Qed.

Lemma kept_filter (uuids seen : list string) (m m' : list (string * PlatformAccessory)) :
  Forall2 (kept uuids) m m' ->
  (forall u, In u uuids -> In u seen) ->
  filter (fun '(uuid, _) => negb (includes uuid seen)) m'
  = filter (fun '(uuid, _) => negb (includes uuid seen)) m.
Proof.
  intros H Hsub. induction H as [|[k v] [k' v'] l l' Hxy Hl IH]; [reflexivity|].
  destruct Hxy as (K & _ & _ & C). cbn in K, C. subst k'. cbn [filter].
  destruct (includes k seen) eqn:E; cbn [negb]; [exact IH|].
  destruct C as [C|C].
  - inversion C; subst. now rewrite IH.
  - apply Hsub, includes_In in C. rewrite C in E. discriminate E.
Qed.

Section Discovery.

Variable generate : string -> string.

Lemma registration_kept (uuids : list string) (p p' : State) (blind : BlindConfig) :
  Forall2 (kept uuids) (accessories p) (accessories p') ->
  registration generate p' blind = registration generate p blind.
Proof.
  intros H. unfold registration. cbv zeta.
  pose proof (kept_get uuids _ _ (generate (blind_mac blind)) H) as G.
  destruct (JsMap.get _ (accessories p)) as [a|], (JsMap.get _ (accessories p')) as [a'|];
    try contradiction; [|reflexivity].
  destruct G as [-> ->]. reflexivity.
Qed.

Lemma addBlind_spec (blind : BlindConfig) (p : State) :
  let p' := addBlind generate p blind in
  gateway p' = gateway p /\
  discoveredCacheUUIDs p' = discoveredCacheUUIDs p ++ [generate (blind_mac blind)] /\
  blindAccessories p'
  = JsMap.set (blind_mac blind) (Accessory.new_accessory (blind_mac blind) (gateway p))
      (blindAccessories p) /\
  Forall2 (kept [generate (blind_mac blind)]) (accessories p) (accessories p') /\
  trace p' = trace p ++ registration generate p blind.
Proof.
  cbv zeta. unfold addBlind, registration. cbv zeta.
  destruct (JsMap.get (generate (blind_mac blind)) (accessories p)) as [a|] eqn:E.
  - destruct p as [acc bas ds gw tr]. cbn in *.
    repeat split; trivial.
    + now apply (kept_set _ a).
    + now rewrite <- app_assoc.
  - destruct p as [acc bas ds gw tr]. cbn in *.
    repeat split; trivial.
    + apply kept_refl.
    + now rewrite <- app_assoc.
Qed.

Lemma addBlinds_spec (blinds : list BlindConfig) (p : State) :
  let p' := fold_left (addBlind generate) blinds p in
  let uuids := map (fun blind => generate (blind_mac blind)) blinds in
  gateway p' = gateway p /\
  discoveredCacheUUIDs p' = discoveredCacheUUIDs p ++ uuids /\
  (forall mac,
     JsMap.get mac (blindAccessories p')
     = if includes mac (map blind_mac blinds)
       then Some (Accessory.new_accessory mac (gateway p))
       else JsMap.get mac (blindAccessories p)) /\
  Forall2 (kept uuids) (accessories p) (accessories p') /\
  trace p' = trace p ++ flat_map (registration generate p) blinds.
Proof.
  cbv zeta. revert p. induction blinds as [|blind rest IH]; intros p.
  - cbn. rewrite !app_nil_r. repeat split; trivial. apply kept_refl.
  - cbn [fold_left map flat_map].
    destruct (addBlind_spec blind p) as (G1 & D1 & B1 & K1 & T1).
    destruct (IH (addBlind generate p blind)) as (G2 & D2 & B2 & K2 & T2).
    split; [congruence|]. split; [rewrite D2, D1, <- app_assoc; reflexivity|].
    split; [|split].
    + intros mac. rewrite B2, B1, G1. unfold includes. cbn [existsb].
      fold (includes mac (map blind_mac rest)).
      destruct (includes mac (map blind_mac rest)).
      * now rewrite orb_true_r.
      * rewrite orb_false_r. destruct (String.eqb_spec mac (blind_mac blind)) as [->|Hne].
        -- apply JsMap_get_set_same.
        -- now apply JsMap_get_set_other.
    + apply (kept_trans [generate (blind_mac blind)] _ _ _ _ K1 K2).
    + rewrite T2, T1, <- app_assoc. f_equal. f_equal.
      apply flat_map_ext. intros b. apply (registration_kept _ _ _ _ K1).
Qed.


Lemma removeAbsent_spec (entries : list (string * PlatformAccessory)) (p : State) :
  fold_left removeAbsent entries p
  = set_trace (trace p ++ flat_map removal (absent (discoveredCacheUUIDs p) entries)) p.
Proof.
  revert p. induction entries as [|[uuid a] rest IH]; intros p.
  - cbn. rewrite app_nil_r. now destruct p.
  - cbn [fold_left]. rewrite IH. unfold absent, removeAbsent. cbn [filter].
    destruct (includes uuid (discoveredCacheUUIDs p)); cbn [negb]; [reflexivity|].
    destruct p as [acc bas ds gw tr]. cbn. unfold set_trace. cbn.
    now rewrite <- !app_assoc.
Qed.

Lemma registerBlinds_spec (blinds : list BlindConfig) (p : State) :
  let p' := registerBlinds generate blinds p in
  let uuids := map (fun blind => generate (blind_mac blind)) blinds in
  gateway p' = gateway p /\
  discoveredCacheUUIDs p' = discoveredCacheUUIDs p ++ uuids /\
  (forall mac,
     JsMap.get mac (blindAccessories p')
     = if includes mac (map blind_mac blinds)
       then Some (Accessory.new_accessory mac (gateway p))
       else JsMap.get mac (blindAccessories p)) /\
  Forall2 (kept uuids) (accessories p) (accessories p') /\
  trace p'
  = trace p
    ++ flat_map (registration generate p) blinds
    ++ flat_map removal (absent (discoveredCacheUUIDs p ++ uuids) (accessories p))
    ++ (if gateway p then [SetTimeout (FetchInitialStatusCallback blinds) 1000] else []).
Proof.
  cbv zeta. unfold registerBlinds. cbv zeta.
  destruct (addBlinds_spec blinds p) as (G & D & B & K & T).
  rewrite removeAbsent_spec.
  set (p1 := fold_left (addBlind generate) blinds p) in *.
  assert (A : absent (discoveredCacheUUIDs p1) (accessories p1)
              = absent (discoveredCacheUUIDs p
                        ++ map (fun blind => generate (blind_mac blind)) blinds)
                  (accessories p)).
  { unfold absent. rewrite D. f_equal. apply (kept_filter _ _ _ _ K).
    intros u Hu. apply in_or_app. now right. }
  rewrite A. unfold fetchInitialStatus.
  destruct p1 as [acc1 bas1 ds1 gw1 tr1]. cbn in *. subst gw1.
  destruct (gateway p); cbn; repeat split; trivial.
  - rewrite T, <- !app_assoc. reflexivity.
  - rewrite T, app_nil_r, <- !app_assoc. reflexivity.
Qed.

End Discovery.

Lemma discoverDevices_blinds (generate : string -> string) (config : MotionBlindsConfig)
    (devices : list Client.DeviceInfo) (p : State) :
  snd (discoverDevices generate config devices p)
  = match config_blinds config with
    | Some (blind :: rest) => blind :: rest
    | _ => autoBlinds (discoveredBlinds devices)
    end.
Proof.
  unfold discoverDevices. cbv zeta.
  destruct (config_blinds config) as [[|blind rest]|]; try reflexivity;
    destruct (discoveredBlinds devices); reflexivity.
Qed.

(** What [discoverDevices] does when it has blinds to register. *)
Lemma discoverDevices_registers (generate : string -> string) (config : MotionBlindsConfig)
    (devices : list Client.DeviceInfo) (p : State) :
  let blinds := snd (discoverDevices generate config devices p) in
  blinds <> [] ->
  exists (logs : list Effect) (p0 : State),
    Forall (fun e => is_log e = true) logs /\
    p0 = set_trace (trace p ++ logs) p /\
    fst (discoverDevices generate config devices p) = registerBlinds generate blinds p0.
Proof.
  cbv zeta. rewrite discoverDevices_blinds. unfold discoverDevices. cbv zeta.
  destruct (config_blinds config) as [[|blind rest]|].
  - destruct (discoveredBlinds devices) as [|d ds] eqn:E; [intros H; now destruct H|].
    intros _.
    exists [ Log Accessory.LogInfo MsgNoBlindsConfigured;
             Log Accessory.LogInfo
               (MsgAutoDiscovered (List.length (autoBlinds (d :: ds)))
                  (map blind_mac (autoBlinds (d :: ds)))) ].
    eexists. split; [repeat constructor|]. split; [reflexivity|].
    cbn [fst]. f_equal. destruct p. unfold emit, set_trace. cbn. now rewrite <- app_assoc.
  - intros _. exists [], p. split; [constructor|]. split; [|reflexivity].
    rewrite app_nil_r. now destruct p.
  - destruct (discoveredBlinds devices) as [|d ds] eqn:E; [intros H; now destruct H|].
    intros _.
    exists [ Log Accessory.LogInfo MsgNoBlindsConfigured;
             Log Accessory.LogInfo
               (MsgAutoDiscovered (List.length (autoBlinds (d :: ds)))
                  (map blind_mac (autoBlinds (d :: ds)))) ].
    eexists. split; [repeat constructor|]. split; [reflexivity|].
    cbn [fst]. f_equal. destruct p. unfold emit, set_trace. cbn. now rewrite <- app_assoc.
Qed.

(** What [discoverDevices] does when it finds no blind. *)
Lemma discoverDevices_nothing (generate : string -> string) (config : MotionBlindsConfig)
    (devices : list Client.DeviceInfo) (p : State) :
  snd (discoverDevices generate config devices p) = [] ->
  fst (discoverDevices generate config devices p)
  = set_trace (trace p ++ [ Log Accessory.LogInfo MsgNoBlindsConfigured;
                            Log Accessory.LogWarn MsgNoBlindsFound ]) p.
Proof.
  unfold discoverDevices. cbv zeta.
  destruct (config_blinds config) as [[|blind rest]|];
    try (intros H; discriminate H);
    (destruct (discoveredBlinds devices) as [|d ds];
     [intros _; destruct p; unfold emit, set_trace; cbn; now rewrite <- app_assoc
     |intros H; discriminate H]).
Qed.

(** X20.  Which blinds the platform takes.  The blinds of the
    configuration, when there is at least one, whatever the gateway
    lists.  Otherwise the devices of type 10000000 of the gateway's list,
    in the order of the list, named "Blind 1", "Blind 2", ...; and when
    there is none, nothing but two log lines happens: no accessory is
    registered, restored or removed, and no tracker is created. *)
Theorem configured_blinds_take_precedence
    (generate : string -> string) (config : MotionBlindsConfig)
    (devices : list Client.DeviceInfo) (p : State) :
  let found :=
    filter (fun d => String.eqb (Client.info_deviceType d) "10000000") devices in
  let p' := fst (discoverDevices generate config devices p) in
  let blinds := snd (discoverDevices generate config devices p) in
  match config_blinds config with
  | Some (blind :: rest) => blinds = blind :: rest
  | _ =>
      map blind_mac blinds = map Client.info_mac found /\
      (forall (i : nat) (blind : BlindConfig),
         nth_error blinds i = Some blind ->
         blind_name blind = ("Blind " ++ decimal (i + 1))%string /\
         blind_deviceType blind = Some "10000000"%string)
  end /\
  (blinds = [] ->
   accessories p' = accessories p /\
   blindAccessories p' = blindAccessories p /\
   discoveredCacheUUIDs p' = discoveredCacheUUIDs p /\
   done_since p p' = [ Log Accessory.LogInfo MsgNoBlindsConfigured;
                       Log Accessory.LogWarn MsgNoBlindsFound ]).
Proof.
  cbv zeta. split.
  - rewrite discoverDevices_blinds.
    assert (Auto : map blind_mac (autoBlinds (discoveredBlinds devices))
                   = map Client.info_mac (discoveredBlinds devices) /\
                   forall i blind,
                     nth_error (autoBlinds (discoveredBlinds devices)) i = Some blind ->
                     blind_name blind = ("Blind " ++ decimal (i + 1))%string /\
                     blind_deviceType blind = Some "10000000"%string).
    { split; [apply autoBlinds_macs|]. intros i blind H.
      destruct (nth_error (discoveredBlinds devices) i) as [d|] eqn:E.
      - rewrite (autoBlinds_nth _ i d E) in H. inversion H; subst. cbn.
        split; [reflexivity|]. f_equal.
        apply nth_error_In in E. unfold discoveredBlinds in E.
        apply filter_In in E. destruct E as [_ E]. now apply String.eqb_eq in E.
      - exfalso. apply nth_error_None in E. rewrite <- autoBlinds_length in E.
        apply nth_error_None in E. congruence. }
    destruct (config_blinds config) as [[|blind rest]|]; trivial.
  - intros Hnone. rewrite (discoverDevices_nothing generate config devices p Hnone).
    split; [reflexivity|]. split; [reflexivity|]. split; [reflexivity|].
    apply done_since_app. reflexivity.
Qed.

Lemma filter_logs (f : Effect -> bool) (logs : list Effect) :
  (forall level line, f (Log level line) = false) ->
  Forall (fun e => is_log e = true) logs -> filter f logs = [].
Proof.
  intros Hf H. induction H as [|e l He Hl IH]; [reflexivity|].
  cbn [filter]. destruct e; try discriminate He. now rewrite Hf.
Qed.

Lemma filter_flat_map_removal (f : Effect -> bool) (l : list PlatformAccessory) :
  (forall level line, f (Log level line) = false) ->
  filter f (flat_map removal l)
  = filter f (map (UnregisterPlatformAccessories PLUGIN_NAME PLATFORM_NAME) l).
Proof.
  intros Hf. induction l as [|a l IH]; [reflexivity|].
  cbn [flat_map removal app map filter]. rewrite Hf, IH. reflexivity.
Qed.

Lemma filter_all {A : Type} (f : A -> bool) (l : list A) :
  (forall x, In x l -> f x = true) -> filter f l = l.
Proof.
  induction l as [|x l IH]; intros H; [reflexivity|]. cbn [filter].
  rewrite (H x (or_introl eq_refl)). f_equal. apply IH. intros y Hy. apply H. now right.
Qed.

(** X21.  One registration and one tracker for each blind.  For every
    blind of the list, in order, [discoverDevices] restores the cached
    accessory of its uuid (same name and uuid, the blind as its context)
    or, if the cache has none, registers a new accessory under the
    blind's name.  Afterwards [blindAccessories] holds a new tracker
    under the mac of every blind of the list and is unchanged under any
    other mac, and the cache has the keys it had. *)
Theorem every_blind_is_registered_once
    (generate : string -> string) (config : MotionBlindsConfig)
    (devices : list Client.DeviceInfo) (p : State) :
  let p' := fst (discoverDevices generate config devices p) in
  let blinds := snd (discoverDevices generate config devices p) in
  filter is_registration (done_since p p')
  = map (fun blind =>
           match JsMap.get (generate (blind_mac blind)) (accessories p) with
           | Some existing =>
               UpdatePlatformAccessories
                 (mkPlatformAccessory (displayName existing) (UUID existing)
                    (Some blind))
           | None =>
               RegisterPlatformAccessories "homebridge-motion-blinds-local"
                 "MotionBlindsLocal"
                 (mkPlatformAccessory (blind_name blind) (generate (blind_mac blind))
                    (Some blind))
           end) blinds /\
  (forall mac : string,
     JsMap.get mac (blindAccessories p')
     = if includes mac (map blind_mac blinds)
       then Some (Accessory.new_accessory mac (gateway p))
       else JsMap.get mac (blindAccessories p)) /\
  JsMap.keys (accessories p') = JsMap.keys (accessories p).
Proof.
  cbv zeta.
  destruct (snd (discoverDevices generate config devices p)) as [|b bs] eqn:Eb.
  - rewrite (discoverDevices_nothing generate config devices p Eb).
    split; [|split; reflexivity].
    erewrite done_since_app; [|reflexivity]. reflexivity.
  - destruct (discoverDevices_registers generate config devices p) as (logs & p0 & Hl & E0 & E);
      [rewrite Eb; discriminate|].
    rewrite Eb in E. rewrite E.
    destruct (registerBlinds_spec generate (b :: bs) p0) as (G & D & B & K & T).
    assert (A0 : accessories p0 = accessories p) by (rewrite E0; reflexivity).
    assert (B0 : blindAccessories p0 = blindAccessories p) by (rewrite E0; reflexivity).
    assert (G0 : gateway p0 = gateway p) by (rewrite E0; reflexivity).
    assert (T0 : trace p0 = trace p ++ logs) by (rewrite E0; reflexivity).
    split; [|split].
    + erewrite done_since_app; [|rewrite T, T0, <- app_assoc; reflexivity].
      rewrite !filter_app, (filter_logs is_registration logs); [|reflexivity|exact Hl].
      rewrite filter_flat_map_removal by reflexivity.
      rewrite (filter_none is_registration (map _ _)).
      2:{ intros x Hx. apply in_map_iff in Hx. destruct Hx as (a & <- & _). reflexivity. }
      rewrite (filter_none is_registration (if gateway p0 then _ else _)).
      2:{ intros x Hx. destruct (gateway p0); [|destruct Hx].
          destruct Hx as [<-|[]]. reflexivity. }
      rewrite !app_nil_r. cbn [app].
      generalize (b :: bs). intros l. induction l as [|x l IH]; [reflexivity|].
      cbn [flat_map map]. rewrite filter_app, IH. unfold registration at 1. cbv zeta.
      rewrite A0. destruct (JsMap.get _ (accessories p)); reflexivity.
    + intros mac. rewrite B, B0, G0. reflexivity.
    + rewrite (kept_keys _ _ _ K), A0. reflexivity.
Qed.

(** X22.  Cached accessories that are no longer present are removed.
    When [discoverDevices] has at least one blind, it unregisters, in
    the order of the cache, exactly the cached accessories whose uuid is
    neither the uuid of a blind of the list nor one discovered before,
    each as it was loaded from the cache.  When it has no blind, it
    unregisters nothing, so that every cached accessory stays. *)
Theorem absent_accessories_are_unregistered
    (generate : string -> string) (config : MotionBlindsConfig)
    (devices : list Client.DeviceInfo) (p : State) :
  let p' := fst (discoverDevices generate config devices p) in
  let blinds := snd (discoverDevices generate config devices p) in
  let seen := discoveredCacheUUIDs p
              ++ map (fun blind => generate (blind_mac blind)) blinds in
  filter is_unregistration (done_since p p')
  = match blinds with
    | [] => []
    | _ :: _ =>
        map (fun entry =>
               UnregisterPlatformAccessories "homebridge-motion-blinds-local"
                 "MotionBlindsLocal" (snd entry))
          (filter (fun '(uuid, _) => negb (includes uuid seen)) (accessories p))
    end.
Proof.
  cbv zeta.
  destruct (snd (discoverDevices generate config devices p)) as [|b bs] eqn:Eb.
  - rewrite (discoverDevices_nothing generate config devices p Eb).
    erewrite done_since_app; [|reflexivity]. reflexivity.
  - destruct (discoverDevices_registers generate config devices p) as (logs & p0 & Hl & E0 & E);
      [rewrite Eb; discriminate|].
    rewrite Eb in E. rewrite E.
    destruct (registerBlinds_spec generate (b :: bs) p0) as (G & D & B & K & T).
    assert (A0 : accessories p0 = accessories p) by (rewrite E0; reflexivity).
    assert (D0 : discoveredCacheUUIDs p0 = discoveredCacheUUIDs p) by (rewrite E0; reflexivity).
    assert (T0 : trace p0 = trace p ++ logs) by (rewrite E0; reflexivity).
    erewrite done_since_app; [|rewrite T, T0, <- app_assoc; reflexivity].
    rewrite !filter_app, (filter_logs is_unregistration logs); [|reflexivity|exact Hl].
    rewrite filter_flat_map_removal by reflexivity.
    rewrite (filter_none is_unregistration (flat_map _ _)).
    2:{ intros x Hx. apply in_flat_map in Hx. destruct Hx as (blind & _ & Hx).
        unfold registration in Hx. cbv zeta in Hx.
        destruct (JsMap.get _ (accessories p0)); destruct Hx as [<-|[<-|[]]]; reflexivity. }
    rewrite (filter_none is_unregistration (if gateway p0 then _ else _)).
    2:{ intros x Hx. destruct (gateway p0); [|destruct Hx].
        destruct Hx as [<-|[]]. reflexivity. }
    rewrite app_nil_r. cbn [app].
    rewrite filter_all.
    2:{ intros x Hx. apply in_map_iff in Hx. destruct Hx as (a & <- & _). reflexivity. }
    unfold absent. rewrite A0, D0, map_map. reflexivity.
Qed.

Lemma onDeviceList_blinds (generate : string -> string) (config : MotionBlindsConfig)
    (devices : list Client.DeviceInfo) (p q : State) :
  snd (discoverDevices generate config devices p)
  = snd (discoverDevices generate config devices q).
Proof. now rewrite !discoverDevices_blinds. Qed.

(** X23.  When status polling starts.  Once the device list has arrived,
    the platform starts status polling exactly when it has at least one
    blind, once, for the macs of its blinds in their order; the interval
    is the configured one, or 60000 ms when none is configured or it is
    0.  With no blind it starts no polling. *)
Theorem status_polling_starts_with_the_blinds
    (generate : string -> string) (config : MotionBlindsConfig)
    (fwVersion ProtocolVersion : option string)
    (devices : list Client.DeviceInfo) (p : State) :
  let p' := onDeviceList generate config fwVersion ProtocolVersion devices p in
  let blinds := snd (discoverDevices generate config devices p) in
  exists interval : Z,
    filter is_polling_start (done_since p p')
    = match blinds with
      | [] => []
      | _ :: _ => [GatewayStartStatusPolling (map blind_mac blinds) interval]
      end /\
    (forall n : Z, config_pollingInterval config = Some n -> n <> 0 -> interval = n) /\
    (config_pollingInterval config = None \/ config_pollingInterval config = Some 0 ->
     interval = 60000).
Proof.
  cbv zeta.
  exists (match config_pollingInterval config with
          | Some 0 | None => 60000
          | Some n => n
          end).
  split; [|split].
  - unfold onDeviceList. cbv zeta.
    set (p0 := emit (Log Accessory.LogDebug (MsgDiscovered (List.length devices)))
                 (emit (Log Accessory.LogInfo (MsgFirmware fwVersion ProtocolVersion)) p)).
    rewrite (onDeviceList_blinds generate config devices p p0).
    assert (T0 : trace p0
                 = trace p ++ [ Log Accessory.LogInfo (MsgFirmware fwVersion ProtocolVersion);
                                Log Accessory.LogDebug (MsgDiscovered (List.length devices)) ]).
    { unfold p0. cbn. now rewrite <- app_assoc. }
    destruct (discoverDevices generate config devices p0) as [p1 blinds] eqn:Ed.
    cbn [snd].
    assert (E1 : p1 = fst (discoverDevices generate config devices p0)) by now rewrite Ed.
    assert (Eb : blinds = snd (discoverDevices generate config devices p0)) by now rewrite Ed.
    destruct blinds as [|b bs].
    + cbn [List.length Nat.ltb Nat.leb]. rewrite E1.
      rewrite (discoverDevices_nothing generate config devices p0 (eq_sym Eb)).
      erewrite done_since_app; [|cbn [trace set_trace]; rewrite T0, <- app_assoc; reflexivity].
      reflexivity.
    + cbn [List.length Nat.ltb Nat.leb].
      destruct (discoverDevices_registers generate config devices p0)
        as (logs & p2 & Hl & E2 & E); [rewrite <- Eb; discriminate|].
      rewrite <- Eb, <- E1 in E.
      destruct (registerBlinds_spec generate (b :: bs) p2) as (G & D & B & K & T).
      rewrite <- E in T.
      assert (T2 : trace p2 = trace p0 ++ logs) by (rewrite E2; reflexivity).
      erewrite done_since_app.
      2:{ cbn [trace emit set_trace]. rewrite T, T2, T0, <- !app_assoc. reflexivity. }
      cbn [app filter is_polling_start].
      rewrite !filter_app, (filter_logs is_polling_start logs); [|reflexivity|exact Hl].
      rewrite filter_flat_map_removal by reflexivity.
      rewrite (filter_none is_polling_start (flat_map _ _)).
      2:{ intros x Hx. apply in_flat_map in Hx. destruct Hx as (blind & _ & Hx).
          unfold registration in Hx. cbv zeta in Hx.
          destruct (JsMap.get _ (accessories p2)); destruct Hx as [<-|[<-|[]]]; reflexivity. }
      rewrite (filter_none is_polling_start (map _ _)).
      2:{ intros x Hx. apply in_map_iff in Hx. destruct Hx as (a & <- & _). reflexivity. }
      rewrite (filter_none is_polling_start (if gateway p2 then _ else _)).
      2:{ intros x Hx. destruct (gateway p2); [|destruct Hx].
          destruct Hx as [<-|[]]. reflexivity. }
      reflexivity.
  - intros n -> Hn. destruct n; [now destruct Hn|reflexivity|reflexivity].
  - intros [->| ->]; reflexivity.
Qed.

Lemma JsMap_in_get {V : Type} (k : string) (v : V) (m : list (string * V)) :
  NoDup (JsMap.keys m) -> In (k, v) m -> JsMap.get k m = Some v.
Proof.
  induction m as [|[k' v'] m IH]; intros Hnd Hin; [destruct Hin|].
  inversion Hnd as [|x xs Hx Hxs]; subst. cbn [JsMap.get].
  destruct Hin as [E|Hin].
  - inversion E; subst. now rewrite String.eqb_refl.
  - destruct (String.eqb_spec k' k) as [->|Hne]; [|now apply IH].
    exfalso. apply Hx. unfold JsMap.keys. apply in_map_iff. now exists (k, v).
Qed.

Lemma loaded_cache (cached : list PlatformAccessory) :
  (forall k a, In (k, a) (accessories (loaded cached)) -> UUID a = k) /\
  NoDup (JsMap.keys (accessories (loaded cached))) /\
  discoveredCacheUUIDs (loaded cached) = [] /\
  blindAccessories (loaded cached) = [] /\
  gateway (loaded cached) = true.
Proof.
  unfold loaded.
  assert (H : forall p,
             (forall k a, In (k, a) (accessories p) -> UUID a = k) /\
             NoDup (JsMap.keys (accessories p)) /\
             discoveredCacheUUIDs p = [] /\ blindAccessories p = [] /\ gateway p = true ->
             let p' := fold_left (fun p accessory => configureAccessory accessory p) cached p in
             (forall k a, In (k, a) (accessories p') -> UUID a = k) /\
             NoDup (JsMap.keys (accessories p')) /\
             discoveredCacheUUIDs p' = [] /\ blindAccessories p' = [] /\ gateway p' = true).
  { induction cached as [|c cached IH]; intros p Hp; [exact Hp|].
    cbn [fold_left]. apply IH. destruct Hp as (K & N & D & B & G).
    destruct p as [acc bas ds gw tr]. cbn in *. repeat split; trivial.
    - intros k a Hin. apply JsMap_in_set in Hin. destruct Hin as [[-> ->]|Hin]; auto.
    - now apply JsMap_NoDup_set. }
  apply H. cbn. repeat split; trivial; [intros k a []|constructor].
Qed.

(** What [discoverDevices] does on a platform that has blinds, effect by
    effect. *)
Lemma discoverDevices_done (generate : string -> string) (config : MotionBlindsConfig)
    (devices : list Client.DeviceInfo) (p : State) :
  let p' := fst (discoverDevices generate config devices p) in
  let blinds := snd (discoverDevices generate config devices p) in
  blinds <> [] ->
  exists logs : list Effect,
    Forall (fun e => is_log e = true) logs /\
    done_since p p'
    = logs
      ++ flat_map (registration generate p) blinds
      ++ flat_map removal
           (absent (discoveredCacheUUIDs p
                    ++ map (fun blind => generate (blind_mac blind)) blinds)
              (accessories p))
      ++ (if gateway p then [SetTimeout (FetchInitialStatusCallback blinds) 1000] else []).
Proof.
  cbv zeta. intros Hb.
  destruct (discoverDevices_registers generate config devices p Hb)
    as (logs & p0 & Hl & E0 & E).
  exists logs. split; [exact Hl|]. rewrite E.
  destruct (registerBlinds_spec generate (snd (discoverDevices generate config devices p)) p0)
    as (_ & _ & _ & _ & T).
  apply done_since_app. rewrite T, E0. cbn [trace set_trace accessories discoveredCacheUUIDs gateway].
  rewrite <- app_assoc. reflexivity.
Qed.

(** X24.  What becomes of the cache.  When the platform has blinds, every
    accessory Homebridge loaded from its cache is either restored or
    removed, never both: if a blind of the list has its uuid, it is
    updated with that blind as its context, under the name it was cached
    with, and not unregistered; otherwise it is unregistered and not
    updated. *)
Theorem cached_accessory_is_restored_or_removed
    (generate : string -> string) (config : MotionBlindsConfig)
    (devices : list Client.DeviceInfo) (cached : list PlatformAccessory)
    (accessory : PlatformAccessory)
    (Hblinds : snd (discoverDevices generate config devices (loaded cached)) <> [])
    (Hcached : In (UUID accessory, accessory) (accessories (loaded cached))) :
  let p := loaded cached in
  let p' := fst (discoverDevices generate config devices p) in
  let blinds := snd (discoverDevices generate config devices p) in
  if includes (UUID accessory) (map (fun blind => generate (blind_mac blind)) blinds)
  then
    (exists blind : BlindConfig,
       In blind blinds /\ generate (blind_mac blind) = UUID accessory /\
       In (UpdatePlatformAccessories
             (mkPlatformAccessory (displayName accessory) (UUID accessory) (Some blind)))
          (done_since p p')) /\
    (forall pluginName platformName : string,
       ~ In (UnregisterPlatformAccessories pluginName platformName accessory)
            (done_since p p'))
  else
    In (UnregisterPlatformAccessories "homebridge-motion-blinds-local" "MotionBlindsLocal"
          accessory) (done_since p p') /\
    (forall updated : PlatformAccessory,
       In (UpdatePlatformAccessories updated) (done_since p p') ->
       UUID updated <> UUID accessory).
Proof.
  cbv zeta.
  destruct (loaded_cache cached) as (K & N & D & _ & _).
  destruct (discoverDevices_done generate config devices (loaded cached) Hblinds)
    as (logs & Hl & E).
  rewrite E, D. cbn [app]. clear E.
  set (p := loaded cached) in *.
  set (blinds := snd (discoverDevices generate config devices p)) in *.
  set (uuids := map (fun blind => generate (blind_mac blind)) blinds).
  assert (Hlogs : forall e, In e logs -> is_log e = true).
  { apply Forall_forall. exact Hl. }
  assert (Hreg : forall e, In e (flat_map (registration generate p) blinds) ->
                 is_unregistration e = false /\
                 forall updated, e = UpdatePlatformAccessories updated ->
                   exists blind existing,
                     In blind blinds /\
                     JsMap.get (generate (blind_mac blind)) (accessories p) = Some existing /\
                     updated = mkPlatformAccessory (displayName existing) (UUID existing)
                                 (Some blind)).
  { intros e He. apply in_flat_map in He. destruct He as (blind & Hb & He).
    unfold registration in He. cbv zeta in He.
    destruct (JsMap.get (generate (blind_mac blind)) (accessories p)) as [existing|] eqn:G;
      destruct He as [<-|[<-|[]]]; (split; [reflexivity|]); intros updated Hu;
      try discriminate Hu.
    inversion Hu; subst. exists blind, existing. repeat split; trivial. }
  assert (Hrem : forall e, In e (flat_map removal (absent uuids (accessories p))) ->
                 match e with
                 | UnregisterPlatformAccessories _ _ a =>
                     exists k, In (k, a) (accessories p) /\ ~ In k uuids
                 | Log _ _ => True
                 | _ => False
                 end).
  { intros e He. apply in_flat_map in He. destruct He as (a & Ha & He).
    unfold absent in Ha. apply in_map_iff in Ha. destruct Ha as ([k a'] & Ea & Ha).
    cbn in Ea. subst a'. apply filter_In in Ha. destruct Ha as [Ha Hk].
    destruct He as [<-|[<-|[]]]; [exact I|]. exists k. split; [exact Ha|].
    intros Hin. apply includes_In in Hin. rewrite Hin in Hk. discriminate Hk. }
  assert (Htimeout : forall e,
             In e (if gateway p
                   then [SetTimeout (FetchInitialStatusCallback blinds) 1000] else []) ->
             exists cb d, e = SetTimeout cb d).
  { intros e He. destruct (gateway p); [|destruct He].
    destruct He as [<-|[]]. now eexists _, _. }
  destruct (includes (UUID accessory) uuids) eqn:Einc.
  - apply includes_In in Einc. unfold uuids in Einc. apply in_map_iff in Einc.
    destruct Einc as (blind & Eb & Hb). split.
    + exists blind. split; [exact Hb|]. split; [exact Eb|].
      apply in_or_app. right. apply in_or_app. left.
      apply in_flat_map. exists blind. split; [exact Hb|].
      unfold registration. cbv zeta. rewrite Eb.
      rewrite (JsMap_in_get _ _ _ N Hcached). right. now left.
    + intros pn pf Hin. apply in_app_or in Hin. destruct Hin as [Hin|Hin].
      { apply Hlogs in Hin. discriminate Hin. }
      apply in_app_or in Hin. destruct Hin as [Hin|Hin].
      { apply Hreg in Hin. destruct Hin as [Hin _]. discriminate Hin. }
      apply in_app_or in Hin. destruct Hin as [Hin|Hin].
      * apply Hrem in Hin. destruct Hin as (k & Hk & Hn).
        apply K in Hk. subst k. apply Hn. unfold uuids. apply in_map_iff.
        now exists blind.
      * apply Htimeout in Hin. destruct Hin as (cb & d & Hin). discriminate Hin.
  - split.
    + apply in_or_app. right. apply in_or_app. right. apply in_or_app. left.
      apply in_flat_map. exists accessory. split; [|right; now left].
      unfold absent. apply in_map_iff. exists (UUID accessory, accessory).
      split; [reflexivity|]. apply filter_In. split; [exact Hcached|].
      now rewrite Einc.
    + intros updated Hin Eu. apply in_app_or in Hin. destruct Hin as [Hin|Hin].
      { apply Hlogs in Hin. discriminate Hin. }
      apply in_app_or in Hin. destruct Hin as [Hin|Hin].
      * apply Hreg in Hin. destruct Hin as [_ Hin].
        destruct (Hin updated eq_refl) as (blind & existing & Hb & G & ->).
        cbn in Eu. apply JsMap_get_in in G. apply K in G.
        assert (Hu : In (UUID accessory) uuids).
        { unfold uuids. apply in_map_iff. exists blind. split; [congruence|exact Hb]. }
        apply includes_In in Hu. rewrite Hu in Einc. discriminate Einc.
      * apply in_app_or in Hin. destruct Hin as [Hin|Hin].
        -- apply Hrem in Hin. exact Hin.
        -- apply Htimeout in Hin. destruct Hin as (cb & d & Hin). discriminate Hin.
Qed.

Lemma cached_accessory_is_restored_or_removed_witness :
  let p := loaded [example_kept; example_gone] in
  let p' := fst (discoverDevices example_generate example_config [] p) in
  In (UnregisterPlatformAccessories "homebridge-motion-blinds-local" "MotionBlindsLocal"
        example_gone) (done_since p p') /\
  ~ In (UnregisterPlatformAccessories "homebridge-motion-blinds-local" "MotionBlindsLocal"
          example_kept) (done_since p p').
Proof.
  cbv zeta. split.
  - pose proof (cached_accessory_is_restored_or_removed example_generate example_config []
                  [example_kept; example_gone] example_gone) as H.
    cbv zeta in H.
    replace (includes _ _) with false in H by (vm_compute; reflexivity).
    apply H; [discriminate|vm_compute; tauto].
  - pose proof (cached_accessory_is_restored_or_removed example_generate example_config []
                  [example_kept; example_gone] example_kept) as H.
    cbv zeta in H.
    replace (includes _ _) with true in H by (vm_compute; reflexivity).
    apply H; [discriminate|vm_compute; tauto].
Defined.

(** * The plugin as a whole *)

Import Plugin.



Lemma deliver_emits (effects : list Client.Effect) (p : Platform.State) :
  deliver effects p = deliver (filter ClientFacts.is_emit effects) p.
Proof.
  revert p. induction effects as [|e l IH]; intros p; [reflexivity|].
  destruct e; cbn [filter ClientFacts.is_emit]; unfold deliver in *; cbn [fold_left];
    apply IH.
Qed.

Lemma onBlindState_routes (mac : string) (state : Accessory.BlindState)
    (p : Platform.State) :
  let p' := Platform.onBlindState mac state p in
  Platform.accessories p' = Platform.accessories p /\
  Platform.trace p' = Platform.trace p /\
  JsMap.get mac (Platform.blindAccessories p')
  = option_map (Accessory.updateState state) (JsMap.get mac (Platform.blindAccessories p)) /\
  (forall mac', mac' <> mac ->
     JsMap.get mac' (Platform.blindAccessories p')
     = JsMap.get mac' (Platform.blindAccessories p)) /\
  (JsMap.get mac (Platform.blindAccessories p) = None -> p' = p).
Proof.
  cbv zeta. unfold Platform.onBlindState.
  destruct (JsMap.get mac (Platform.blindAccessories p)) as [w|] eqn:E.
  - cbn. split; [reflexivity|]. split; [reflexivity|].
    split; [apply JsMap_get_set_same|]. split; [|discriminate].
    intros mac' Hne. now apply JsMap_get_set_other.
  - rewrite E. repeat split; trivial.
Qed.

(** X25.  From the gateway's answer to the tracker.  The acknowledgement
    of a read or a write that carries a mac and a status updates the
    tracker stored under that mac with that status, and no other
    tracker; when no tracker is stored under the mac, nothing changes.
    A message of any other type, such as a report the gateway sends on
    its own, reaches no tracker at all. *)
Theorem blind_state_reaches_its_tracker
    (gatewayIP : string) (key : Gateway.js_string) (entropy : nat -> string)
    (response : Client.Response) (g : Client.State) (p : Platform.State) :
  let g' := Client.handleMessage gatewayIP key entropy (Some response) g in
  let p' := deliver (since g g') p in
  Platform.accessories p' = Platform.accessories p /\
  Platform.trace p' = Platform.trace p /\
  (forall (mac : string) (state : Accessory.BlindState),
     Client.response_msgType response = Some "WriteDeviceAck"%string \/
     Client.response_msgType response = Some "ReadDeviceAck"%string ->
     Client.response_mac response = Some mac -> mac <> ""%string ->
     Client.response_data response = Some (Client.StatusData state) ->
     JsMap.get mac (Platform.blindAccessories p')
     = option_map (Accessory.updateState state)
         (JsMap.get mac (Platform.blindAccessories p)) /\
     (forall mac', mac' <> mac ->
        JsMap.get mac' (Platform.blindAccessories p')
        = JsMap.get mac' (Platform.blindAccessories p)) /\
     (JsMap.get mac (Platform.blindAccessories p) = None -> p' = p)) /\
  (Client.response_msgType response <> Some "WriteDeviceAck"%string ->
   Client.response_msgType response <> Some "ReadDeviceAck"%string ->
   p' = p).
Proof.
  cbv zeta.
  destruct (handleMessage_session gatewayIP key entropy response g)
    as (_ & _ & _ & _ & delta & E & F).
  rewrite (since_app _ _ _ E), deliver_emits, F. clear E F delta.
  destruct (Client.response_msgType response) as [msgType|].
  2:{ destruct (Client.response_mac response), (Client.response_data response);
        (split; [reflexivity|]; split; [reflexivity|]; split; [|reflexivity]);
        intros mac state [H|H]; discriminate H. }
  destruct (String.eqb msgType "WriteDeviceAck" || String.eqb msgType "ReadDeviceAck")%bool
    eqn:Etype.
  - destruct (Client.response_mac response) as [m|].
    2:{ destruct (Client.response_data response);
          (split; [reflexivity|]; split; [reflexivity|]; split; [|reflexivity]);
          intros mac state _ H; discriminate H. }
    destruct (Client.response_data response) as [data|].
    2:{ split; [reflexivity|]. split; [reflexivity|]. split; [|reflexivity].
        intros mac state _ _ _ H. discriminate H. }
    cbn [andb]. destruct (Client.truthy_string (Some m)) eqn:Em.
    + destruct data as [st|devices].
      * unfold deliver. cbn [fold_left].
        destruct (onBlindState_routes m st p) as (A & T & G1 & G2 & G3).
        split; [exact A|]. split; [exact T|]. split.
        -- intros mac state _ Hm _ Hd. inversion Hm; inversion Hd; subst.
           split; [exact G1|]. split; [exact G2|exact G3].
        -- intros H1 H2. exfalso. apply orb_true_iff in Etype.
           destruct Etype as [Et|Et]; apply String.eqb_eq in Et; subst; congruence.
      * unfold deliver. cbn [fold_left].
        split; [reflexivity|]. split; [reflexivity|]. split; [|reflexivity].
        intros mac state _ _ _ H. discriminate H.
    + cbn [deliver fold_left]. split; [reflexivity|]. split; [reflexivity|].
      split; [|reflexivity].
      intros mac state _ Hm Hne _. inversion Hm; subst. exfalso.
      destruct mac; [now apply Hne|discriminate Em].
  - assert (Hnot : Some msgType = Some "WriteDeviceAck"%string \/
                   Some msgType = Some "ReadDeviceAck"%string -> False).
    { intros [H|H]; inversion H; subst; discriminate Etype. }
    destruct (Client.response_mac response), (Client.response_data response);
      cbn [andb deliver fold_left];
      (split; [reflexivity|]; split; [reflexivity|]; split; [|reflexivity]);
      intros mac state H; destruct (Hnot H).
Qed.

(** X26.  From HomeKit to the wire.  A target [value] set on an idle
    accessory, further than the tolerance from its confirmed position,
    makes one call on the gateway, [setPosition] with [100 - value]; on
    a connected client that call transmits one datagram to port 32100
    of the gateway: a WriteDevice message for the accessory's mac with
    the client's access token, operation Close and [100 - value],
    clamped to [0,100], as its target position. *)
Theorem homekit_target_is_transmitted
    (gatewayIP : string) (entropy : nat -> string)
    (value : Z) (w : Accessory.World) (g : Client.State) (s : nat)
    (Hgateway : Accessory.gateway w = true)
    (Hidle : Accessory.commandInProgress w = false)
    (Hfar : Z.abs (value - Accessory.confirmedPosition w) > 2)
    (Hsocket : Client.socket g = Some s)
    (Hconnected : Client.isConnected g = true) :
  let w' := fst (Accessory.setTargetPosition value w) in
  let mac := Accessory.device_mac w in
  let g' := fst (perform gatewayIP entropy (Accessory.GatewaySetPosition mac (100 - value)) g) in
  filter Vocabulary.is_gateway_call
    (skipn (List.length (Accessory.trace w)) (Accessory.trace w'))
  = [Accessory.GatewaySetPosition mac (100 - value)] /\
  snd (perform gatewayIP entropy (Accessory.GatewaySetPosition mac (100 - value)) g)
  = Client.Awaits (List.length (Client.promises g)) /\
  filter ClientFacts.is_transmission (since g g')
  = [ Client.SocketSend s
        (Gateway.mkMotionMessage "WriteDevice" (entropy (Client.drawn g))
           (Some (Client.accessToken g)) (Some mac) (Some "10000000"%string)
           (Some (Gateway.mkWriteData Gateway.Close
                    (Some (Z.max 0 (Z.min 100 (100 - value)))))))
        32100 gatewayIP ] /\
  (0 <= value <= 100 -> Z.max 0 (Z.min 100 (100 - value)) = 100 - value).
Proof.
  cbv zeta. split; [|split; [|split]].
  - unfold Accessory.setTargetPosition. cbv zeta. rewrite Hgateway, Hidle.
    cbn [negb andb].
    assert (E : (Z.abs (value - Accessory.confirmedPosition w)
                 <=? Accessory.POSITION_TOLERANCE) = false).
    { apply Z.leb_gt. unfold Accessory.POSITION_TOLERANCE. lia. }
    rewrite E. rewrite (startCommand_eq value (Accessory.confirmedPosition w) w Hgateway).
    cbn [fst Accessory.trace]. rewrite skipn_app, skipn_all, Nat.sub_diag. reflexivity.
  - unfold perform, Client.setPosition, Client.writeDevice, Client.generateMsgID.
    cbv zeta. rewrite send_connected with (s := s); trivial.
  - unfold perform, Client.setPosition, Client.writeDevice, Client.generateMsgID.
    cbv zeta. rewrite send_connected with (s := s); trivial.
    cbv zeta. cbn [fst]. erewrite since_app; [|reflexivity]. reflexivity.
  - lia.
Qed.

Lemma homekit_target_is_transmitted_witness :
  filter ClientFacts.is_transmission
    (since example_connected
       (fst (perform "192.168.1.20" example_entropy
               (Accessory.GatewaySetPosition "mac" (100 - 30)) example_connected)))
  = [ Client.SocketSend 0
        (Gateway.mkMotionMessage "WriteDevice" "00000000000000A1" (Some ""%string)
           (Some "mac"%string) (Some "10000000"%string)
           (Some (Gateway.mkWriteData Gateway.Close (Some 70))))
        32100 "192.168.1.20" ].
Proof.
  apply (homekit_target_is_transmitted "192.168.1.20" example_entropy 30
           (Accessory.new_accessory "mac" true) example_connected 0);
    first [reflexivity|cbn; lia].
Defined.

(** [Client.writeDevice] transmits the message [Gateway.writeDevice]
    builds, and throws when [Gateway.writeDevice] says so. *)
Lemma writeDevice_agrees
    (gatewayIP : string) (key : Gateway.js_string) (entropy : nat -> string)
    (mac : string) (operation : Gateway.Operation) (targetPosition : option Z)
    (deviceType : string) (g : Client.State) :
  let r := Client.writeDevice gatewayIP entropy mac operation targetPosition deviceType g in
  match Gateway.writeDevice (session_of key g) (entropy (Client.drawn g)) mac operation
          targetPosition deviceType with
  | Gateway.NotConnected =>
      snd r = Client.Threw Client.NotConnectedError /\ since g (fst r) = []
  | Gateway.Transmitted message =>
      snd r = Client.Awaits (List.length (Client.promises g)) /\
      exists s : nat,
        Client.socket g = Some s /\
        since g (fst r)
        = [ Client.Log Accessory.LogDebug
              (Client.MsgSending gatewayIP Client.UDP_PORT message);
            Client.SocketSend s message Client.UDP_PORT gatewayIP ]
  end.
Proof.
  cbv zeta. unfold Gateway.writeDevice, Gateway.send, session_of. cbv zeta.
  cbn [Gateway.socket Gateway.isConnected Gateway.accessToken].
  unfold Client.writeDevice, Client.generateMsgID. cbv zeta.
  destruct (Client.socket g) as [s|] eqn:Es; cbn [negb orb].
  - destruct (Client.isConnected g) eqn:Ec; cbn [negb].
    + rewrite send_connected with (s := s); trivial. cbv zeta. cbn [fst snd].
      split; [reflexivity|]. exists s. split; [reflexivity|].
      apply since_app. reflexivity.
    + rewrite send_not_connected; [|right; exact Ec]. cbn [fst snd].
      split; [reflexivity|]. apply since_app. cbn. now rewrite app_nil_r.
  - rewrite send_not_connected; [|left; exact Es]. cbn [fst snd].
    split; [reflexivity|]. apply since_app. cbn. now rewrite app_nil_r.
Qed.
